(** * TXMBase: reactive component base class

    A shallow embedding of [TXMBase] (the factory function of txmbase.js and
    the constructor it returns) together with the properties stated about it.

    The factory closes over three pieces of shared state: the instance
    counter [baseClassInstance] and the two arrays [refreshQueue] and
    [uniqueIndex] of the refresh scheduler.  Every component instance is an
    object whose fields are assigned by the constructor and mutated by the
    prototype methods.  Asynchrony (timers, promise continuations) is modelled
    by keeping the pending callbacks in the state and firing them as explicit
    events.

    The methods a concrete component class supplies ([_init], the fetch
    methods, [showLoadMask], [hideLoadMask], [_postRefresh]) belong to the
    environment: a call of one of them is recorded in the trace, and what it
    goes on to do to a component arrives as further events.  The render
    hooks [_render] and [_renderLoading] are functions of the data and the
    jQuery objects made so far. *)

From Stdlib Require Import ZArith List String Ascii Bool Lia DecimalString DecimalNat.
From stdpp Require Import base option list strings gmap.
Import ListNotations.

Local Open Scope string_scope.
Local Open Scope list_scope.

(** ** JavaScript helpers *)

Module Js.

(** Values that are pushed on, or looked up in, the scheduler's arrays: an
    instance id (a number) or a refresh closure
    [function() { self._refresh(); }], identified by the instance [self]. *)
Inductive value :=
| VNum (n : nat)
| VFun (owner : nat).

(** [x === item] where [x] is a number: a number is strictly equal only to
    the same number, never to a function. *)
Definition strict_eq_num (n : nat) (item : value) : bool :=
  match item with
  | VNum m => Nat.eqb n m
  | VFun _ => false
  end.

(** [arr.indexOf(n)]: position of the first strictly equal item, [-1] when
    there is none. *)
Fixpoint indexOf_from (n : nat) (arr : list value) (pos : Z) : Z :=
  match arr with
  | [] => (-1)%Z
  | item :: rest =>
      if strict_eq_num n item then pos else indexOf_from n rest (pos + 1)%Z
  end.

Definition indexOf (n : nat) (arr : list value) : Z := indexOf_from n arr 0%Z.

(** [arr.indexOf(s)] on an array of strings. *)
Fixpoint indexOf_str_from (s : string) (arr : list string) (pos : nat) : option nat :=
  match arr with
  | [] => None
  | item :: rest =>
      if String.eqb s item then Some pos else indexOf_str_from s rest (S pos)
  end.

Definition indexOf_str (s : string) (arr : list string) : option nat :=
  indexOf_str_from s arr 0.

(** [s.charAt(i)]: the empty string when [i] is out of range. *)
Definition charAt (s : string) (i : nat) : string :=
  match String.get i s with
  | Some c => String c EmptyString
  | None => EmptyString
  end.

(** [s.substring(a, b)]: both indices are clamped to the length and swapped
    when [a > b]. *)
Definition substring (s : string) (a b : nat) : string :=
  let len := String.length s in
  let a' := Nat.min a len in
  let b' := Nat.min b len in
  let lo := Nat.min a' b' in
  let hi := Nat.max a' b' in
  String.substring lo (hi - lo) s.

(** *** Property names of ordinary objects *)

Definition digit (c : ascii) : option N :=
  let n := N_of_ascii c in
  if (N.leb 48 n && N.leb n 57)%bool then Some (n - 48)%N else None.

Fixpoint digits (s : string) (acc : N) : option N :=
  match s with
  | EmptyString => Some acc
  | String c rest =>
      match digit c with
      | Some d => digits rest (10 * acc + d)%N
      | None => None
      end
  end.

(** Whether a property name is an array index: the canonical decimal form
    of an integer below [2^32 - 1] (so neither ["01"] nor [""]). *)
Definition array_index (s : string) : option N :=
  match s with
  | EmptyString => None
  | String c rest =>
      if (Ascii.eqb c "0" && negb (String.eqb rest ""))%bool then None
      else
        match digits s 0 with
        | Some n => if N.ltb n 4294967295 then Some n else None
        | None => None
        end
  end.

(** The order in which [for (name in obj)] lists the own properties of an
    ordinary object: the array indexes first, in ascending order, then the
    other names in the order in which they were created.  [precedes a b]:
    the name [a], created after [b], is listed before it. *)
Definition precedes (a b : string) : bool :=
  match array_index a, array_index b with
  | Some i, Some j => N.ltb i j
  | Some _, None => true
  | None, _ => false
  end.

(** [obj[name] = v] on an object kept as the list of its own properties in
    the order [for ... in] lists them: an existing property is overwritten
    where it is, a new one is created at its place in that order. *)
Fixpoint own_assign {A} (name : string) (v : A) (t : list (string * A))
    : list (string * A) :=
  match t with
  | [] => [(name, v)]
  | (k, old) :: rest =>
      if String.eqb name k then (k, v) :: rest
      else if (precedes name k && negb (existsb (String.eqb name) (map fst rest)))%bool
           then (name, v) :: (k, old) :: rest
      else (k, old) :: own_assign name v rest
  end.

(** The name [for ... in] lists first when the properties were created in
    the order [names]: the smallest array index, or without one the first
    name. *)
Fixpoint listed_first_from (first : string) (names : list string) : string :=
  match names with
  | [] => first
  | k :: rest => listed_first_from (if precedes k first then k else first) rest
  end.

Definition listed_first (names : list string) : option string :=
  match names with
  | [] => None
  | k :: rest => Some (listed_first_from k rest)
  end.


(** The own properties of [Object.prototype], which a lookup [obj[name]]
    on a plain object finds when [obj] has no property of that name. *)
Definition object_prototype_names : list string :=
  ["constructor"; "hasOwnProperty"; "isPrototypeOf"; "propertyIsEnumerable";
   "toLocaleString"; "toString"; "valueOf"; "__proto__";
   "__defineGetter__"; "__defineSetter__"; "__lookupGetter__"; "__lookupSetter__"].

Definition inherited (name : string) : bool :=
  existsb (String.eqb name) object_prototype_names.

(** The decimal form of a number. *)
Definition decimal (n : nat) : string :=
  NilEmpty.string_of_uint (Nat.to_uint n).

End Js.

(** ** The refresh scheduler (closure state of the factory) *)

(** [timers] holds the callbacks handed to [setTimeout(..., 10)] by
    [queueRefresh] that have not fired yet, oldest first; each callback is
    represented by the [refreshCount] it captured. *)
Record scheduler := {
  refreshQueue : list Js.value;
  uniqueIndex : list nat;
  timers : list nat
}.

Definition empty_scheduler : scheduler :=
  {| refreshQueue := []; uniqueIndex := []; timers := [] |}.

(** [queueRefresh(refreshData)] with [refreshData = {instanceId, refresh}]. *)
Definition queueRefresh (instanceId : nat) (refresh : Js.value) (s : scheduler) : scheduler :=
  let s1 :=
    if Z.eqb (Js.indexOf instanceId (refreshQueue s)) (-1)
    then {| refreshQueue := refreshQueue s ++ [refresh];
            uniqueIndex := uniqueIndex s ++ [instanceId];
            timers := timers s |}
    else s in
  let refreshCount := length (refreshQueue s1) in
  {| refreshQueue := refreshQueue s1;
     uniqueIndex := uniqueIndex s1;
     timers := timers s1 ++ [refreshCount] |}.

(** ** The element trees handled through the DOM facade *)

Module Dom.

Inductive node :=
| Elem (tag : string) (attrs : list (string * string)) (kids : list node)
| Text (content : string).

(** [n instanceof HTMLElement] *)
Definition is_element (n : node) : bool :=
  match n with Elem _ _ _ => true | Text _ => false end.

(** A node of a tree is named by its position: the index of its root in the
    wrapped set, then child indexes downwards. *)
Definition path := list nat.

Fixpoint is_prefix (p q : path) : bool :=
  match p, q with
  | [], _ => true
  | i :: p', j :: q' => Nat.eqb i j && is_prefix p' q'
  | _ :: _, [] => false
  end.

(** [a.contains(b)] for two nodes of one tree: [b] is [a] itself or lies
    below it.  [a.contains(undefined)] is [false]. *)
Definition contains (a : path) (b : option path) : bool :=
  match b with
  | Some q => is_prefix a q
  | None => false
  end.

(** The elements strictly below [n] (which sits at [here]) selected by
    [m], in document order. *)
Fixpoint find_below (m : node -> bool) (here : path) (n : node) : list path :=
  match n with
  | Text _ => []
  | Elem _ _ kids =>
      (fix scan (i : nat) (ks : list node) : list path :=
         match ks with
         | [] => []
         | k :: ks' =>
             (if is_element k && m k then [here ++ [i]] else [])
               ++ find_below m (here ++ [i]) k
               ++ scan (S i) ks'
         end) 0 kids
  end.

Fixpoint find_roots (m : node -> bool) (i : nat) (roots : list node) : list path :=
  match roots with
  | [] => []
  | r :: rest => find_below m [i] r ++ find_roots m (S i) rest
  end.

(** [jq.find(selector)]: the descendants of the wrapped roots that match;
    the roots themselves are never part of the result. *)
Definition find (m : node -> bool) (roots : list node) : list path :=
  find_roots m 0 roots.

(** The node at a position. *)
Fixpoint node_at (roots : list node) (p : path) : option node :=
  match p with
  | [] => None
  | i :: p' =>
      match nth_error roots i with
      | None => None
      | Some n =>
          match p' with
          | [] => Some n
          | _ :: _ =>
              match n with
              | Elem _ _ kids => node_at kids p'
              | Text _ => None
              end
          end
      end
  end.

(** Put [new] in the place of the node at a position (with [new = []] the
    node is taken out of its parent). *)
Fixpoint splice_at (roots : list node) (p : path) (new : list node) : list node :=
  match p with
  | [] => roots
  | i :: p' =>
      match p' with
      | [] => firstn i roots ++ (if Nat.ltb i (length roots) then new else []) ++ skipn (S i) roots
      | _ :: _ =>
          match nth_error roots i with
          | Some (Elem t a kids) =>
              firstn i roots ++ [Elem t a (splice_at kids p' new)] ++ skipn (S i) roots
          | _ => roots
          end
      end
  end.

(** [$(n).attr(name)] *)
Fixpoint attr_lookup (name : string) (attrs : list (string * string)) : option string :=
  match attrs with
  | [] => None
  | (k, v) :: rest => if String.eqb name k then Some v else attr_lookup name rest
  end.

Definition attr (name : string) (n : node) : option string :=
  match n with
  | Elem _ attrs _ => attr_lookup name attrs
  | Text _ => None
  end.

(** [$(n).removeAttr(name)] *)
Definition remove_attr (name : string) (n : node) : node :=
  match n with
  | Elem t attrs kids =>
      Elem t (List.filter (fun kv => negb (String.eqb name (fst kv))) attrs) kids
  | Text _ => n
  end.

(** [$(n).contents()] *)
Definition contents (n : node) : list node :=
  match n with
  | Elem _ _ kids => kids
  | Text _ => []
  end.

(** [$(n).html("").append(new)] *)
Definition set_contents (new : list node) (n : node) : node :=
  match n with
  | Elem t attrs _ => Elem t attrs new
  | Text _ => n
  end.

(** Change the node at a position in place. *)
Fixpoint update_at (roots : list node) (p : path) (f : node -> node) : list node :=
  match p with
  | [] => roots
  | i :: p' =>
      match nth_error roots i with
      | None => roots
      | Some n =>
          match p' with
          | [] => firstn i roots ++ [f n] ++ skipn (S i) roots
          | _ :: _ =>
              match n with
              | Elem t a kids =>
                  firstn i roots ++ [Elem t a (update_at kids p' f)] ++ skipn (S i) roots
              | Text _ => roots
              end
          end
      end
  end.

(** What a render hook may hand back. *)
Inductive jq :=
| JNull
| JUndefined
| JOther            (* some value that is not a jQuery object *)
| JQuery (r : nat). (* a jQuery object, by reference *)

End Dom.

(** ** The data model and jQuery's deep merge *)

Module Data.

(** A nested value object.  A plain object and an array are both tables
    from property names to values (an array's names are its indexes);
    [JOpaque] stands for any other object (a function, a date), which the
    merge copies by reference and in which [for ... in] finds nothing. *)
Inductive jsval :=
| JUndef
| JNull
| JBool (b : bool)
| JNum (z : Z)
| JStr (s : string)
| JOpaque (id : nat)
| JColl (is_array : bool) (fields : list (string * jsval)).

Definition fields := list (string * jsval).

(** [obj[name]] as an own-property lookup. *)
Fixpoint lookup (name : string) (fs : fields) : option jsval :=
  match fs with
  | [] => None
  | (k, v) :: rest => if String.eqb name k then Some v else lookup name rest
  end.

(** Reading [obj[name]]: a missing property reads as [undefined]. *)
Definition read (name : string) (fs : fields) : jsval :=
  match lookup name fs with
  | Some v => v
  | None => JUndef
  end.

(** [obj[name] = v]: overwrite in place, or add as the last property. *)
Fixpoint assign (name : string) (v : jsval) (fs : fields) : fields :=
  match fs with
  | [] => [(name, v)]
  | (k, old) :: rest =>
      if String.eqb name k then (k, v) :: rest else (k, old) :: assign name v rest
  end.

(** One round of the loop body of [jQuery.extend(true, target, options)]
    for the property [name] with [copy = options[name]] and
    [src = target[name]]: the value to store in [target[name]], or [None]
    when the property is skipped ([copy === undefined]).  A plain object or
    array is merged recursively into [src] when [src] is of the same kind
    and into a fresh [{}] or [[]] otherwise. *)
Fixpoint merged_value (src : option jsval) (copy : jsval) : option jsval :=
  match copy with
  | JUndef => None
  | JColl arr cfs =>
      let clone :=
        match src with
        | Some (JColl arr' sfs) => if Bool.eqb arr arr' then sfs else []
        | _ => []
        end in
      Some (JColl arr
        ((fix each (target : fields) (options : list (string * jsval)) : fields :=
            match options with
            | [] => target
            | (name, c) :: rest =>
                match merged_value (lookup name target) c with
                | Some v => each (assign name v target) rest
                | None => each target rest
                end
            end) clone cfs))
  | _ => Some copy
  end.

(** [jQuery.extend(true, target, options)] on the property tables. *)
Fixpoint extend (target : fields) (options : fields) : fields :=
  match options with
  | [] => target
  | (name, c) :: rest =>
      match merged_value (lookup name target) c with
      | Some v => extend (assign name v target) rest
      | None => extend target rest
      end
  end.

(** The properties of a value that is read as an object, [v[name]]: those
    of a plain object or array. *)
Definition fields_of (v : jsval) : fields :=
  match v with
  | JColl _ fs => fs
  | _ => []
  end.

(** The characters of a string under their indexes, as [for ... in] lists
    them. *)
Fixpoint chars_from (i : nat) (s : string) : fields :=
  match s with
  | EmptyString => []
  | String c rest => (Js.decimal i, JStr (String c EmptyString)) :: chars_from (S i) rest
  end.

(** What an argument of [jQuery.extend] contributes, [for (name in
    options)]: the properties of an object or array and the characters of a
    string; [null] and [undefined] are skipped ([options != null]), and a
    number or a boolean has nothing to list. *)
Definition enumerable (v : jsval) : fields :=
  match v with
  | JColl _ fs => fs
  | JStr s => chars_from 0 s
  | _ => []
  end.

(** Reading along a property path, as [v.a.b.c] would. *)
Fixpoint read_path (p : list string) (v : jsval) : jsval :=
  match p with
  | [] => v
  | name :: p' => read_path p' (read name (fields_of v))
  end.

Fixpoint distinct (names : list string) : bool :=
  match names with
  | [] => true
  | n :: rest => negb (existsb (String.eqb n) rest) && distinct rest
  end.

(** The property names of an object are distinct, at every depth. *)
Fixpoint wf (v : jsval) : bool :=
  match v with
  | JColl _ fs =>
      distinct (map fst fs)
      && (fix all (l : list (string * jsval)) : bool :=
            match l with
            | [] => true
            | (_, x) :: rest => wf x && all rest
            end) fs
  | _ => true
  end.

(** What a value shows without looking into it: a primitive as it is, an
    object or array as its kind. *)
Definition shallow (v : jsval) : jsval :=
  match v with
  | JColl a _ => JColl a []
  | _ => v
  end.

(** The copy the merge makes of a value that has nothing to be merged
    into. *)
Definition clone (v : jsval) : jsval :=
  match v with
  | JColl a fs => JColl a (extend [] fs)
  | _ => v
  end.

Fixpoint clones (k : nat) (v : jsval) : jsval :=
  match k with
  | 0 => v
  | S k' => clone (clones k' v)
  end.

(** The table [c] lacks a value at the path [p] that the table [d] could
    supply: going down [p], [c] has objects (or arrays) where [d] has some
    of the same kind, and then no property or an [undefined] one. *)
Fixpoint lacks (p : list string) (c d : fields) : bool :=
  match p with
  | [] => false
  | k :: p' =>
      match lookup k c with
      | None | Some JUndef => true
      | Some (JColl a cfs) =>
          match read k d with
          | JColl a' dfs => Bool.eqb a a' && lacks p' cfs dfs
          | _ => false
          end
      | Some _ => false
      end
  end.

End Data.

(** ** Components, instances and the world they live in *)

(** [this._refreshList]: [true] (refresh everything) or an array of
    selectors. *)
Inductive refresh_list :=
| Full
| Selectors (sels : list string).

(** The value of one entry of [uiBindings]: [true] or selectors. *)
Inductive ui_binding :=
| UiFull
| UiSelectors (sels : list string).

(** The value of one entry of [dataBindings]. *)
Record data_binding := {
  methods : list string;
  binding_delayRefresh : bool
}.

(** One entry of [initList]; [condition], when given, is evaluated against
    the component's data at the time [init] runs. *)
Record init_item := {
  method : string;
  preventRender : bool;
  condition : option (Data.jsval -> bool)
}.

(** A change record handed over by the observable; only [currentPath] is
    read by the component. *)
Record change := {
  change_type : string;
  currentPath : string;
  newValue : Data.jsval
}.

Inductive error :=
| TypeError
| ConfigurationError
| RenderContractViolation
| AmbiguousTargetError
| DuplicateChildTag
| RangeError.

Inductive res (A : Type) :=
| Ok (a : A)
| Throw (e : error).
Arguments Ok {A} a.
Arguments Throw {A} e.

(** The jQuery objects created so far, by reference, with the trees they
    wrap.  [$(markup)] takes the next free reference. *)
Record dom_store := {
  trees : gmap nat (list Dom.node);
  next_tree : nat
}.

Definition alloc_tree (roots : list Dom.node) (d : dom_store) : nat * dom_store :=
  (next_tree d,
   {| trees := <[next_tree d := roots]> (trees d); next_tree := S (next_tree d) |}).

Definition tree_of (d : dom_store) (r : nat) : list Dom.node :=
  default [] (trees d !! r).

(** A render method supplied by the component, as far as it is followed
    here: it reads the data and may build new trees or hand back one it
    kept.  A hook that constructs child components, writes to the data or
    throws is outside of what the development covers. *)
Definition render_hook := Data.jsval -> dom_store -> Dom.jq * dom_store.

(** What a concrete component class adds to the base class, and the options
    it was constructed with ([this.options] after the merge of the defaults
    with the caller's overrides).  A table ([templates], [uiBindings],
    [dataBindings], and [childComponents] below) is the list of the own
    properties of the object in the order in which [for ... in] lists
    them. *)
Record component := {
  className : string;
  initList : list init_item;
  templates : list (string * string);
  loadingTemplate : string;
  uiBindings : list (string * ui_binding);
  dataBindings : list (string * data_binding);
  tagName : option string;
  (** [typeof this[name] === "function"] *)
  callable : string -> bool;
  (** the component's own [_render], when it overrides the base one *)
  _render_override : option render_hook;
  (** the component's [_renderLoading], when it defines one *)
  _renderLoading : option render_hook
}.

(** A registered child: a component (by instance id) in the default section,
    or an array of components (one repetition) in a named section.  Arrays
    are compared by reference. *)
Inductive child :=
| ChildComponent (id : nat)
| ChildArray (ref : nat) (items : list nat).

Definition same_child (a b : child) : bool :=
  match a, b with
  | ChildComponent i, ChildComponent j => Nat.eqb i j
  | ChildArray r _, ChildArray s _ => Nat.eqb r s
  | _, _ => false
  end.

Record instance := {
  comp : component;
  baseClassInstance : nat;
  _data : nat;
  observed : bool;
  jqDom : Dom.jq;
  initialized : bool;
  pendingInit : bool;
  pendingFetchCount : Z;
  initRendered : bool;
  delayRefresh : bool;
  pendingRefresh : bool;
  _cleanUpChildren : option nat;
  childComponents : list (string * list child);
  _refreshList : refresh_list
}.

(** Calls that leave the component: to the template engine, to methods and
    hooks of the concrete component, to the console and to the DOM. *)
Inductive effect :=
| MustacheRender (template : string) (with_data : bool)
| Invoke (instanceId : nat) (name : string)
| ConsoleError (instanceId : nat) (group_catch : bool)
| ReplaceWith (instanceId : nat) (selector : string)
| ReplaceRoot (instanceId : nat) (old new : Dom.jq)
| RemoveRoot (instanceId : nat)
| RefreshCall (instanceId : nat).

(** A group of promises handed to [Promise.all] that has not settled yet.
    A group cannot succeed when one of its methods does not exist. *)
Inductive group_kind :=
| ActiveInit
| PassiveInit
| Fetch (loadMask : bool).

Record task_group := {
  group_owner : nat;
  group_kind_of : group_kind;
  group_viable : bool
}.

Record world := {
  sched : scheduler;
  factory_baseClassInstance : nat;
  instances : gmap nat instance;
  objects : gmap nat Data.fields;
  jqs : dom_store;
  groups : list task_group;
  sweeps : list (nat * nat);
  random_calls : nat;
  trace : list effect
}.

(** Field updates. *)

Definition set_observed (v : _) (x : instance) : instance :=
  {| comp := comp x; baseClassInstance := baseClassInstance x; _data := _data x;
     observed := v; jqDom := jqDom x; initialized := initialized x; pendingInit :=
     pendingInit x; pendingFetchCount := pendingFetchCount x; initRendered :=
     initRendered x; delayRefresh := delayRefresh x; pendingRefresh :=
     pendingRefresh x; _cleanUpChildren := _cleanUpChildren x; childComponents :=
     childComponents x; _refreshList := _refreshList x |}.

Definition set_jqDom (v : _) (x : instance) : instance :=
  {| comp := comp x; baseClassInstance := baseClassInstance x; _data := _data x;
     observed := observed x; jqDom := v; initialized := initialized x; pendingInit
     := pendingInit x; pendingFetchCount := pendingFetchCount x; initRendered :=
     initRendered x; delayRefresh := delayRefresh x; pendingRefresh :=
     pendingRefresh x; _cleanUpChildren := _cleanUpChildren x; childComponents :=
     childComponents x; _refreshList := _refreshList x |}.

Definition set_initialized (v : _) (x : instance) : instance :=
  {| comp := comp x; baseClassInstance := baseClassInstance x; _data := _data x;
     observed := observed x; jqDom := jqDom x; initialized := v; pendingInit :=
     pendingInit x; pendingFetchCount := pendingFetchCount x; initRendered :=
     initRendered x; delayRefresh := delayRefresh x; pendingRefresh :=
     pendingRefresh x; _cleanUpChildren := _cleanUpChildren x; childComponents :=
     childComponents x; _refreshList := _refreshList x |}.

Definition set_pendingInit (v : _) (x : instance) : instance :=
  {| comp := comp x; baseClassInstance := baseClassInstance x; _data := _data x;
     observed := observed x; jqDom := jqDom x; initialized := initialized x;
     pendingInit := v; pendingFetchCount := pendingFetchCount x; initRendered :=
     initRendered x; delayRefresh := delayRefresh x; pendingRefresh :=
     pendingRefresh x; _cleanUpChildren := _cleanUpChildren x; childComponents :=
     childComponents x; _refreshList := _refreshList x |}.

Definition set_pendingFetchCount (v : _) (x : instance) : instance :=
  {| comp := comp x; baseClassInstance := baseClassInstance x; _data := _data x;
     observed := observed x; jqDom := jqDom x; initialized := initialized x;
     pendingInit := pendingInit x; pendingFetchCount := v; initRendered :=
     initRendered x; delayRefresh := delayRefresh x; pendingRefresh :=
     pendingRefresh x; _cleanUpChildren := _cleanUpChildren x; childComponents :=
     childComponents x; _refreshList := _refreshList x |}.

Definition set_initRendered (v : _) (x : instance) : instance :=
  {| comp := comp x; baseClassInstance := baseClassInstance x; _data := _data x;
     observed := observed x; jqDom := jqDom x; initialized := initialized x;
     pendingInit := pendingInit x; pendingFetchCount := pendingFetchCount x;
     initRendered := v; delayRefresh := delayRefresh x; pendingRefresh :=
     pendingRefresh x; _cleanUpChildren := _cleanUpChildren x; childComponents :=
     childComponents x; _refreshList := _refreshList x |}.

Definition set_delayRefresh (v : _) (x : instance) : instance :=
  {| comp := comp x; baseClassInstance := baseClassInstance x; _data := _data x;
     observed := observed x; jqDom := jqDom x; initialized := initialized x;
     pendingInit := pendingInit x; pendingFetchCount := pendingFetchCount x;
     initRendered := initRendered x; delayRefresh := v; pendingRefresh :=
     pendingRefresh x; _cleanUpChildren := _cleanUpChildren x; childComponents :=
     childComponents x; _refreshList := _refreshList x |}.

Definition set_pendingRefresh (v : _) (x : instance) : instance :=
  {| comp := comp x; baseClassInstance := baseClassInstance x; _data := _data x;
     observed := observed x; jqDom := jqDom x; initialized := initialized x;
     pendingInit := pendingInit x; pendingFetchCount := pendingFetchCount x;
     initRendered := initRendered x; delayRefresh := delayRefresh x; pendingRefresh
     := v; _cleanUpChildren := _cleanUpChildren x; childComponents :=
     childComponents x; _refreshList := _refreshList x |}.

Definition set_cleanUpChildren (v : _) (x : instance) : instance :=
  {| comp := comp x; baseClassInstance := baseClassInstance x; _data := _data x;
     observed := observed x; jqDom := jqDom x; initialized := initialized x;
     pendingInit := pendingInit x; pendingFetchCount := pendingFetchCount x;
     initRendered := initRendered x; delayRefresh := delayRefresh x; pendingRefresh
     := pendingRefresh x; _cleanUpChildren := v; childComponents := childComponents
     x; _refreshList := _refreshList x |}.

Definition set_childComponents (v : _) (x : instance) : instance :=
  {| comp := comp x; baseClassInstance := baseClassInstance x; _data := _data x;
     observed := observed x; jqDom := jqDom x; initialized := initialized x;
     pendingInit := pendingInit x; pendingFetchCount := pendingFetchCount x;
     initRendered := initRendered x; delayRefresh := delayRefresh x; pendingRefresh
     := pendingRefresh x; _cleanUpChildren := _cleanUpChildren x; childComponents :=
     v; _refreshList := _refreshList x |}.

Definition set_refreshList (v : _) (x : instance) : instance :=
  {| comp := comp x; baseClassInstance := baseClassInstance x; _data := _data x;
     observed := observed x; jqDom := jqDom x; initialized := initialized x;
     pendingInit := pendingInit x; pendingFetchCount := pendingFetchCount x;
     initRendered := initRendered x; delayRefresh := delayRefresh x; pendingRefresh
     := pendingRefresh x; _cleanUpChildren := _cleanUpChildren x; childComponents :=
     childComponents x; _refreshList := v |}.

Definition set_sched (v : _) (x : world) : world :=
  {| sched := v; factory_baseClassInstance := factory_baseClassInstance x; instances
     := instances x; objects := objects x; jqs := jqs x; groups := groups x; sweeps
     := sweeps x; random_calls := random_calls x; trace := trace x |}.

Definition set_factory_baseClassInstance (v : _) (x : world) : world :=
  {| sched := sched x; factory_baseClassInstance := v; instances := instances x;
     objects := objects x; jqs := jqs x; groups := groups x; sweeps := sweeps x;
     random_calls := random_calls x; trace := trace x |}.

Definition set_instances (v : _) (x : world) : world :=
  {| sched := sched x; factory_baseClassInstance := factory_baseClassInstance x;
     instances := v; objects := objects x; jqs := jqs x; groups := groups x; sweeps
     := sweeps x; random_calls := random_calls x; trace := trace x |}.

Definition set_objects (v : _) (x : world) : world :=
  {| sched := sched x; factory_baseClassInstance := factory_baseClassInstance x;
     instances := instances x; objects := v; jqs := jqs x; groups := groups x;
     sweeps := sweeps x; random_calls := random_calls x; trace := trace x |}.

Definition set_jqs (v : _) (x : world) : world :=
  {| sched := sched x; factory_baseClassInstance := factory_baseClassInstance x;
     instances := instances x; objects := objects x; jqs := v; groups := groups x;
     sweeps := sweeps x; random_calls := random_calls x; trace := trace x |}.

Definition set_groups (v : _) (x : world) : world :=
  {| sched := sched x; factory_baseClassInstance := factory_baseClassInstance x;
     instances := instances x; objects := objects x; jqs := jqs x; groups := v;
     sweeps := sweeps x; random_calls := random_calls x; trace := trace x |}.

Definition set_sweeps (v : _) (x : world) : world :=
  {| sched := sched x; factory_baseClassInstance := factory_baseClassInstance x;
     instances := instances x; objects := objects x; jqs := jqs x; groups := groups
     x; sweeps := v; random_calls := random_calls x; trace := trace x |}.

Definition set_random_calls (v : _) (x : world) : world :=
  {| sched := sched x; factory_baseClassInstance := factory_baseClassInstance x;
     instances := instances x; objects := objects x; jqs := jqs x; groups := groups
     x; sweeps := sweeps x; random_calls := v; trace := trace x |}.

Definition set_trace (v : _) (x : world) : world :=
  {| sched := sched x; factory_baseClassInstance := factory_baseClassInstance x;
     instances := instances x; objects := objects x; jqs := jqs x; groups := groups
     x; sweeps := sweeps x; random_calls := random_calls x; trace := v |}.

(** The property table of the object behind a reference. *)
Definition fields_at (w : world) (r : nat) : Data.fields :=
  default [] (objects w !! r).

(** The component's data as the methods see it through [this.data]. *)
Definition data_of (w : world) (r : nat) : Data.jsval :=
  Data.JColl false (fields_at w r).

(** ** Collaborators

    The libraries handed to the factory ([$], [Mustache]), the regular
    expression engine, the document holding the template elements, the
    random number source and the depth of the call stack. *)
Class Collaborators := {
  (** [(new RegExp(source)).test(path)] *)
  regexp_test : string -> string -> bool;
  (** [$(Mustache.render(template, data))]: the parsed markup *)
  mustache_parse : string -> option Data.jsval -> list Dom.node;
  (** [document.getElementById(id).innerHTML.trim()], if the element exists *)
  document_template : string -> option string;
  (** whether an element matches a selector *)
  sel_matches : string -> Dom.node -> bool;
  (** [x.replaceWith(y)] with an empty [y] takes [x] out (jQuery 1.10 and
      later) or leaves it alone (jQuery 1.9) *)
  replaceWith_empty_removes : bool;
  (** [Math.floor(Math.random() * 1000000000)] at the n-th call *)
  random_token : nat -> nat;
  (** [root[0].contains(elmt[0])] for two jQuery objects *)
  root_contains : dom_store -> Dom.jq -> Dom.jq -> bool;
  (** how many calls of [render] or [destroy] on children may nest before
      the engine gives up with a stack overflow *)
  call_stack : nat
}.

(** ** Methods as state transformers

    A method runs on [this] and the rest of the world; an exception leaves
    the mutations made before it in place. *)
Definition M (A : Type) : Type := instance -> world -> res A * instance * world.

Definition ret {A} (a : A) : M A := fun me w => (Ok a, me, w).

Definition bind {A B} (m : M A) (k : A -> M B) : M B :=
  fun me w =>
    match m me w with
    | (Ok a, me', w') => k a me' w'
    | (Throw e, me', w') => (Throw e, me', w')
    end.

Definition throw {A} (e : error) : M A := fun me w => (Throw e, me, w).

Notation "x <- m ;; k" := (bind m (fun x => k))
  (at level 100, m at next level, right associativity).
Notation "m ;;; k" := (bind m (fun _ => k))
  (at level 100, right associativity).

Definition this : M instance := fun me w => (Ok me, me, w).
Definition the_world : M world := fun me w => (Ok w, me, w).
Definition update (f : instance -> instance) : M unit := fun me w => (Ok tt, f me, w).
Definition update_world (f : world -> world) : M unit := fun me w => (Ok tt, me, f w).
Definition log (e : effect) : M unit := update_world (fun w => set_trace (trace w ++ [e]) w).
Definition when (b : bool) (m : M unit) : M unit := if b then m else ret tt.

Fixpoint for_each {A} (l : list A) (body : A -> M unit) : M unit :=
  match l with
  | [] => ret tt
  | x :: rest => body x ;;; for_each rest body
  end.

(** [this._refreshList === true || this._refreshList.length > 0] *)
Definition refresh_pending (r : refresh_list) : bool :=
  match r with
  | Full => true
  | Selectors l => Nat.ltb 0 (length l)
  end.

(** [queueRefresh({"instanceId": self.baseClassInstance,
                   "refresh": function() { self._refresh(); }})] *)
Definition queue_own_refresh : M unit :=
  me <- this ;;
  update_world (fun w =>
    set_sched (queueRefresh (baseClassInstance me) (Js.VFun (baseClassInstance me)) (sched w)) w).

Definition add_group (k : group_kind) (viable : bool) : M unit :=
  me <- this ;;
  update_world (fun w =>
    set_groups (groups w ++ [{| group_owner := baseClassInstance me;
                                group_kind_of := k;
                                group_viable := viable |}]) w).

(** The executors of the promises of one group run at once: each calls its
    method with [resolve] and [reject]; where the method does not exist the
    executor throws, which rejects that promise.  The result tells whether
    every method existed. *)
Definition start_tasks (names : list string) : M bool :=
  me <- this ;;
  for_each names (fun name =>
    when (callable (comp me) name) (log (Invoke (baseClassInstance me) name))) ;;;
  ret (forallb (callable (comp me)) names).

(** [_fetch(delayRefresh, fetchList)] *)
Definition _fetch (delay : bool) (fetchList : list string) : M unit :=
  me <- this ;;
  let loadMask := delay && Nat.ltb 0 (length fetchList) in
  when loadMask
    (update (set_delayRefresh delay) ;;;
     log (Invoke (baseClassInstance me) "showLoadMask")) ;;;
  when (Nat.ltb 0 (length fetchList))
    (update (fun i => set_pendingFetchCount (pendingFetchCount i + 1)%Z i) ;;;
     viable <- start_tasks (rev fetchList) ;;
     add_group (Fetch loadMask) viable).

(** The sanity check at the start of [init]: every method named by a data
    binding must be a function. *)
Definition bindings_callable (c : component) : bool :=
  forallb (fun kv => forallb (callable c) (methods (snd kv))) (dataBindings c).

(** The [initList] items whose condition does not return [false]. *)
Definition selected_items (c : component) (data : Data.jsval) : list init_item :=
  List.filter
    (fun it => match condition it with
               | Some cond => cond data
               | None => true
               end)
    (initList c).

(** [init()] *)
Definition init : M unit :=
  me <- this ;;
  w <- the_world ;;
  if negb (bindings_callable (comp me)) then throw ConfigurationError
  else
    let items := selected_items (comp me) (data_of w (_data me)) in
    let active := List.filter preventRender items in
    let passive := List.filter (fun it => negb (preventRender it)) items in
    start_tasks (map method items) ;;;
    (if Nat.ltb 0 (length active) then
       update (fun i => set_pendingFetchCount (pendingFetchCount i + 1)%Z i) ;;;
       update (set_pendingInit true) ;;;
       add_group ActiveInit (forallb (callable (comp me)) (map method active))
     else
       update (set_initialized true) ;;;
       when (callable (comp me) "_init") (log (Invoke (baseClassInstance me) "_init"))) ;;;
    when (Nat.ltb 0 (length passive))
      (update (fun i => set_pendingFetchCount (pendingFetchCount i + 1)%Z i) ;;;
       add_group PassiveInit (forallb (callable (comp me)) (map method passive))).

(** ** The change handler given to the observable *)

(** A binding key written between slashes is a regular expression. *)
Definition is_regexp (key : string) : bool :=
  String.eqb (Js.charAt key 0) "/"
  && String.eqb (Js.charAt key (String.length key - 1)) "/".

(** [key == path || regExpBinding] *)
Definition binding_matches `{Collaborators} (key path : string) : bool :=
  let regExpBinding :=
    is_regexp key
    && regexp_test (Js.substring key 1 (String.length key - 1)) path in
  String.eqb key path || regExpBinding.

Definition is_full (r : refresh_list) : bool :=
  match r with Full => true | Selectors _ => false end.

(** The body of the loop over [uiBindings] for one change. *)
Definition ui_step `{Collaborators} (path : string) (r : refresh_list)
    (kv : string * ui_binding) : refresh_list :=
  if negb (is_full r) && binding_matches (fst kv) path then
    match snd kv, r with
    | UiFull, _ => Full
    | UiSelectors s, Selectors l => Selectors (l ++ s)
    | UiSelectors _, Full => Full
    end
  else r.

(** The body of the loop over [dataBindings] for one change, on the pair
    [(delayRefresh, fetchList)]. *)
Definition data_step `{Collaborators} (path : string) (acc : bool * list string)
    (kv : string * data_binding) : bool * list string :=
  if binding_matches (fst kv) path then
    (fst acc || binding_delayRefresh (snd kv), snd acc ++ methods (snd kv))
  else acc.

(** The body of the loop over the changes: first the UI bindings, then the
    data bindings, for this change. *)
Definition change_step `{Collaborators} (c : component)
    (st : refresh_list * (bool * list string)) (ch : change)
    : refresh_list * (bool * list string) :=
  (fold_left (ui_step (currentPath ch)) (uiBindings c) (fst st),
   fold_left (data_step (currentPath ch)) (dataBindings c) (snd st)).

(** The changes are walked from the last to the first, starting from the
    current [_refreshList], [delayRefresh = false] and [fetchList = []]. *)
Definition resolve `{Collaborators} (c : component) (changes : list change)
    (r : refresh_list) : refresh_list * (bool * list string) :=
  fold_left (change_step c) (rev changes) (r, (false, [])).

(** The function passed to [ObservableSlim.create(this._data, false, ...)]. *)
Definition on_change `{Collaborators} (changes : list change) : M unit :=
  me <- this ;;
  if initialized me then
    let '(r, (delay, fetchList)) := resolve (comp me) changes (_refreshList me) in
    update (set_refreshList r) ;;;
    _fetch delay fetchList ;;;
    me' <- this ;;
    when (refresh_pending (_refreshList me'))
      (update (set_pendingRefresh true) ;;; queue_own_refresh)
  else ret tt.

(** ** The child registry *)

(** [registry[name]] and [registry[name] = l] on the child registry. *)
Fixpoint section (name : string) (registry : list (string * list child))
    : option (list child) :=
  match registry with
  | [] => None
  | (k, l) :: rest => if String.eqb name k then Some l else section name rest
  end.

Definition set_section (name : string) (l : list child)
    (registry : list (string * list child)) : list (string * list child) :=
  Js.own_assign name l registry.

(** [registerChild(childComponent, sectionName)]; [sectionName = None] is an
    omitted argument.  [this.childComponents[sectionName]] is an ordinary
    property read: where the registry has no section of that name it finds
    what [Object.prototype] has under it, which is not [undefined] and has
    no [indexOf]. *)
Definition registerChild (childComponent : child) (sectionName : option string) : M unit :=
  name <- match sectionName, childComponent with
          | None, _ => ret "default"
          | Some s, ChildArray _ _ => ret s
          | Some _, ChildComponent _ => throw ConfigurationError
          end ;;
  update (fun i =>
    match section name (childComponents i) with
    | None =>
        if Js.inherited name then i
        else set_childComponents (set_section name [] (childComponents i)) i
    | Some _ => i
    end) ;;;
  me <- this ;;
  match section name (childComponents me) with
  | None => throw TypeError
  | Some registered =>
      update (fun i =>
        if existsb (same_child childComponent) registered then i
        else set_childComponents
               (set_section name (registered ++ [childComponent]) (childComponents i)) i)
  end.

(** ** Rendering *)

Definition tree (r : nat) : M (list Dom.node) :=
  w <- the_world ;; ret (tree_of (jqs w) r).

Definition set_tree (r : nat) (t : list Dom.node) : M unit :=
  update_world (fun w =>
    set_jqs {| trees := <[r := t]> (trees (jqs w)); next_tree := next_tree (jqs w) |} w).

(** [$(markup)] *)
Definition new_tree (roots : list Dom.node) : M Dom.jq :=
  fun me w =>
    let '(r, d) := alloc_tree roots (jqs w) in
    (Ok (Dom.JQuery r), me, set_jqs d w).

Definition run_hook (h : render_hook) : M Dom.jq :=
  fun me w =>
    let '(j, d) := h (data_of w (_data me)) (jqs w) in
    (Ok j, me, set_jqs d w).

(** The loading display: the component's [_renderLoading] if it has one,
    else the loading template rendered against [null]. *)
Definition loading_view `{Collaborators} : M Dom.jq :=
  me <- this ;;
  match _renderLoading (comp me) with
  | Some hook =>
      log (Invoke (baseClassInstance me) "_renderLoading") ;;;
      run_hook hook
  | None =>
      log (MustacheRender (loadingTemplate (comp me)) false) ;;;
      new_tree (mustache_parse (loadingTemplate (comp me)) None)
  end.

(** [_render()]: the component's override, or the base method, which renders
    the first template against [this.data].  Without any template the
    template engine is handed [undefined] and throws. *)
Definition _render `{Collaborators} : M Dom.jq :=
  me <- this ;;
  match _render_override (comp me) with
  | Some hook =>
      log (Invoke (baseClassInstance me) "_render") ;;;
      run_hook hook
  | None =>
      match templates (comp me) with
      | [] => throw TypeError
      | (_, tpl) :: _ =>
          w <- the_world ;;
          log (MustacheRender tpl true) ;;;
          new_tree (mustache_parse tpl (Some (data_of w (_data me))))
      end
  end.

(** [jqDom.length > 0 && jqDom instanceof $ && jqDom[0] instanceof HTMLElement];
    reading [.length] of [null] or [undefined] throws. *)
Definition render_check (d : dom_store) (j : Dom.jq) : res bool :=
  match j with
  | Dom.JNull | Dom.JUndefined => Throw TypeError
  | Dom.JOther => Ok false
  | Dom.JQuery r =>
      Ok (Nat.ltb 0 (length (tree_of d r))
          && match tree_of d r with
             | n :: _ => Dom.is_element n
             | [] => false
             end)
  end.

(** [_render()] followed by the check of its result; the reference of the
    accepted jQuery object is returned along. *)
Definition checked_render `{Collaborators} : M (Dom.jq * nat) :=
  j <- _render ;;
  w <- the_world ;;
  match render_check (jqs w) j, j with
  | Throw e, _ => throw e
  | Ok true, Dom.JQuery r => ret (j, r)
  | Ok _, _ => throw RenderContractViolation
  end.

(** *** Inserting the children *)

(** [this] as an entry of [instances]. *)
Definition put (me : instance) (w : world) : world :=
  set_instances (<[baseClassInstance me := me]> (instances w)) w.

(** Run a method on the instance [id] of a world. *)
Definition call {A} (id : nat) (m : M A) (w : world) : res A * world :=
  match instances w !! id with
  | None => (Throw TypeError, w)
  | Some me =>
      let '(r, me', w') := m me w in
      (r, put me' w')
  end.

(** A method calling a method of another instance (which may turn out to be
    [this] again). *)
Definition call_other {A} (id : nat) (m : M A) : M A :=
  fun me w =>
    let '(r, w') := call id m (put me w) in
    (r, default me (instances w' !! baseClassInstance me), w').

(** [childComponent.options.tagName] *)
Definition tagName_of (id : nat) : M (option string) :=
  me <- this ;;
  w <- the_world ;;
  match instances (put me w) !! id with
  | Some c => ret (tagName (comp c))
  | None => throw TypeError
  end.

(** The nodes a value contributes when it is handed to [replaceWith]. *)
Definition nodes_of (d : dom_store) (j : Dom.jq) : list Dom.node :=
  match j with
  | Dom.JQuery r => tree_of d r
  | _ => []
  end.

(** [x.replaceWith(new)] for the element [x] at [p]. *)
Definition replace_with `{Collaborators} (roots : list Dom.node) (p : Dom.path)
    (new : list Dom.node) : list Dom.node :=
  match new with
  | [] => if replaceWith_empty_removes then Dom.splice_at roots p [] else roots
  | _ :: _ => Dom.splice_at roots p new
  end.

Fixpoint fold_m {A B} (f : B -> A -> M B) (l : list A) (b : B) : M B :=
  match l with
  | [] => ret b
  | x :: rest => b' <- f b x ;; fold_m f rest b'
  end.

Definition same_tag (a b : option string) : bool :=
  match a, b with
  | Some x, Some y => String.eqb x y
  | None, None => true
  | _, _ => false
  end.

(** Where a child goes inside the clone of a repeatable section: the tag
    named after the child, else the first [tbody], [tr], [td], [li] or
    [option] whose [is] attribute names it; that attribute is then removed. *)
Definition child_target `{Collaborators} (clone : list Dom.node) (tag : option string)
    : list Dom.path * list Dom.node :=
  let direct :=
    match tag with
    | Some t => Dom.find (sel_matches t) clone
    | None => []
    end in
  if Nat.eqb (length direct) 0 then
    match List.find
            (fun p => match Dom.node_at clone p with
                      | Some n => same_tag (Dom.attr "is" n) tag
                      | None => false
                      end)
            (Dom.find (sel_matches "tbody, tr, td, li, option") clone) with
    | Some p => ([p], Dom.update_at clone p (Dom.remove_attr "is"))
    | None => ([], clone)
    end
  else (direct, clone).

Definition inserted_list := list (nat * Dom.jq).
Definition render_result := (Dom.jq * option inserted_list)%type.

(** The body of the loop over the children of one repetition; [st] is the
    clone of the section and the insertions recorded so far. *)
Definition insert_repeated `{Collaborators} (child_render : nat -> M render_result)
    (st : list Dom.node * inserted_list) (id : nat) : M (list Dom.node * inserted_list) :=
  tag <- tagName_of id ;;
  let '(childTarget, clone) := child_target (fst st) tag in
  match childTarget with
  | [] => ret (clone, snd st)
  | [p] =>
      renderResult <- child_render id ;;
      w <- the_world ;;
      ret (replace_with clone p (nodes_of (jqs w) (fst renderResult)),
           snd st ++ [(id, fst renderResult)] ++ default [] (snd renderResult))
  | _ => throw DuplicateChildTag
  end.

Definition section_fallback (sectionName : string) : string :=
  "table[is='" ++ sectionName ++ "'], tbody[is='" ++ sectionName
    ++ "'], select[is='" ++ sectionName ++ "'], ul[is='" ++ sectionName
    ++ "'], ol[is='" ++ sectionName ++ "']".

(** The components of one repetition. *)
Definition repetition (c : child) : list nat :=
  match c with
  | ChildArray _ items => items
  | ChildComponent _ => []
  end.

(** The body of the loop over the sections of the registry. *)
Definition insert_section `{Collaborators} (child_render : nat -> M render_result)
    (root : nat) (inserted : inserted_list) (entry : string * list child)
    : M inserted_list :=
  let sectionName := fst entry in
  if String.eqb sectionName "default" then ret inserted
  else
    t <- tree root ;;
    let direct := Dom.find (sel_matches sectionName) t in
    let repeatSection :=
      if Nat.eqb (length direct) 0
      then Dom.find (sel_matches (section_fallback sectionName)) t
      else direct in
    match repeatSection with
    | [] => ret inserted
    | [p] =>
        let sectionNode := default (Dom.Text "") (Dom.node_at t p) in
        st <- fold_m
                (fun st rep =>
                   r <- fold_m (insert_repeated child_render) (repetition rep)
                          ([sectionNode], snd st) ;;
                   ret (fst st ++ flat_map Dom.contents (fst r), snd r))
                (snd entry) ([], inserted) ;;
        t' <- tree root ;;
        set_tree root
          (if same_tag (Dom.attr "is" sectionNode) (Some sectionName)
           then Dom.update_at t' p
                  (fun n => Dom.set_contents (fst st) (Dom.remove_attr "is" n))
           else replace_with t' p (fst st)) ;;;
        ret (snd st)
    | _ => throw AmbiguousTargetError
    end.

(** The body of the loop over the default section. *)
Definition insert_default `{Collaborators} (child_render : nat -> M render_result)
    (root : nat) (inserted : inserted_list) (c : child) : M inserted_list :=
  match c with
  | ChildArray _ _ => throw TypeError
  | ChildComponent id =>
      tag <- tagName_of id ;;
      t <- tree root ;;
      let insertTarget :=
        match tag with
        | Some tg => Dom.find (sel_matches tg) t
        | None => []
        end in
      match insertTarget with
      | [] => ret inserted
      | [p] =>
          renderResult <- child_render id ;;
          w <- the_world ;;
          set_tree root
            (replace_with (tree_of (jqs w) root) p (nodes_of (jqs w) (fst renderResult))) ;;;
          ret (inserted ++ [(id, fst renderResult)] ++ default [] (snd renderResult))
      | _ => throw AmbiguousTargetError
      end
  end.

(** [_insertChildren(jqDom)], with the way a child is rendered left open. *)
Definition insert_children_with `{Collaborators} (child_render : nat -> M render_result)
    (root : nat) : M inserted_list :=
  me <- this ;;
  inserted <- fold_m (insert_section child_render root) (childComponents me) [] ;;
  me' <- this ;;
  match section "default" (childComponents me') with
  | None => throw TypeError
  | Some l => fold_m (insert_default child_render root) (rev l) inserted
  end.

(** [_renderWithChildren()] with [depth] stack frames left for it and the
    renders of children nested in it; [insertedChildren] stays [undefined]
    on the loading path. *)
Fixpoint renderWithChildren_at `{Collaborators} (depth : nat) : M render_result :=
  match depth with
  | 0 => throw RangeError
  | S d =>
      me0 <- this ;;
      when (negb (initialized me0) && negb (pendingInit me0)) init ;;;
      me <- this ;;
      if negb (initialized me) && pendingInit me then
        j <- loading_view ;;
        ret (j, None)
      else
        jr <- checked_render ;;
        inserted <-
          insert_children_with
            (fun id => call_other id (renderWithChildren_at d)) (snd jr) ;;
        ret (fst jr, Some inserted)
  end.

(** [_insertChildren(jqDom)] *)
Definition _insertChildren `{Collaborators} (root : nat) : M inserted_list :=
  insert_children_with (fun id => call_other id (renderWithChildren_at call_stack)) root.

(** [_renderWithChildren()] *)
Definition _renderWithChildren `{Collaborators} : M render_result :=
  renderWithChildren_at (S call_stack).

(** [comp.jqDom = elmt] for an inserted child. *)
Definition anchor (ce : nat * Dom.jq) : M unit :=
  call_other (fst ce) (update (set_jqDom (snd ce))).

(** [render()] *)
Definition render `{Collaborators} : M Dom.jq :=
  me0 <- this ;;
  when (negb (initialized me0) && negb (pendingInit me0)) init ;;;
  me <- this ;;
  j <- (if negb (initialized me) && pendingInit me then loading_view
        else
          match _refreshList me, initRendered me with
          | Selectors [], true => ret (jqDom me)
          | _, _ =>
              jr <- checked_render ;;
              insertedChildren <- _insertChildren (snd jr) ;;
              for_each (rev insertedChildren) anchor ;;;
              update (set_initRendered true) ;;;
              ret (fst jr)
          end) ;;
  update (set_jqDom j) ;;;
  ret j.

(** ** Refreshing *)

(** [refresh()] *)
Definition refresh : M unit :=
  update (set_pendingRefresh true) ;;;
  update (set_refreshList Full) ;;;
  queue_own_refresh.

(** [list.filter(function(item, pos) { return list.indexOf(item) == pos; })] *)
Definition first_at (whole : list string) (item : string) (pos : nat) : bool :=
  match Js.indexOf_str item whole with
  | Some i => Nat.eqb i pos
  | None => false
  end.

Fixpoint dedup_from (whole : list string) (pos : nat) (l : list string) : list string :=
  match l with
  | [] => []
  | item :: rest =>
      (if first_at whole item pos then [item] else []) ++ dedup_from whole (S pos) rest
  end.

Definition dedup (l : list string) : list string := dedup_from l 0 l.

(** [jq.find(selector)[0]] *)
Definition first_match `{Collaborators} (roots : list Dom.node) (sel : string)
    : option Dom.path :=
  head (Dom.find (sel_matches sel) roots).

(** [jq.find(list[i])[0]]; an index outside the array gives [undefined]. *)
Definition match_at `{Collaborators} (roots : list Dom.node) (l : list string) (i : nat)
    : option Dom.path :=
  match nth_error l i with
  | Some sel => first_match roots sel
  | None => None
  end.

(** [list.splice(a, 1)] *)
Definition splice1 {A} (a : nat) (l : list A) : list A :=
  firstn a l ++ skipn (S a) l.

(** The inner loop [while (b--)] for the selector at index [a]: whether some
    other selector's element contains [domCurr].  Calling [.contains] on the
    [undefined] element of a selector without a match throws. *)
Fixpoint covered `{Collaborators} (roots : list Dom.node) (l : list string)
    (a : nat) (domCurr : option Dom.path) (b : nat) : res bool :=
  match b with
  | 0 => Ok false
  | S b' =>
      if Nat.eqb a b' then covered roots l a domCurr b'
      else
        match match_at roots l b' with
        | None => Throw TypeError
        | Some domCheck =>
            if Dom.contains domCheck domCurr then Ok true
            else covered roots l a domCurr b'
        end
  end.

(** The outer loop [while (a--)]: the list as the loop leaves it, also when
    it is left by an exception. *)
Fixpoint prune `{Collaborators} (roots : list Dom.node) (a : nat) (l : list string)
    : res unit * list string :=
  match a with
  | 0 => (Ok tt, l)
  | S a' =>
      match covered roots l a' (match_at roots l a') (length l) with
      | Throw e => (Throw e, l)
      | Ok true => prune roots a' (splice1 a' l)
      | Ok false => prune roots a' l
      end
  end.

(** The tree wrapped by [this.jqDom]; calling a jQuery method on anything
    else throws. *)
Definition own_root : M nat :=
  me <- this ;;
  match jqDom me with
  | Dom.JQuery r => ret r
  | _ => throw TypeError
  end.

(** One round of the patch loop, for one selector:
    [jqOld.replaceWith(jqNew)] unless either side has several targets. *)
Definition patch `{Collaborators} (old new : nat) (sel : string) : M unit :=
  me <- this ;;
  w <- the_world ;;
  let jqOld := Dom.find (sel_matches sel) (tree_of (jqs w) old) in
  let jqNew := Dom.find (sel_matches sel) (tree_of (jqs w) new) in
  if Nat.ltb 1 (length jqOld) || Nat.ltb 1 (length jqNew) then throw AmbiguousTargetError
  else
    log (ReplaceWith (baseClassInstance me) sel) ;;;
    match jqOld, jqNew with
    | [p], [q] =>
        (* the new element moves from the new tree into the old one *)
        let moved := option_list (Dom.node_at (tree_of (jqs w) new) q) in
        set_tree new (Dom.splice_at (tree_of (jqs w) new) q []) ;;;
        t <- tree old ;;
        set_tree old (replace_with t p moved)
    | [p], [] =>
        set_tree old (replace_with (tree_of (jqs w) old) p [])
    | _, _ => ret tt
    end.

(** The trees after [jqOld.replaceWith(jqNew)] for one selector with at
    most one target on either side: the element found in the new tree is
    taken out of it and put in the place of the element found in the old
    tree. *)
Definition patched_store `{Collaborators} (old new : nat) (sel : string) (d : dom_store)
    : dom_store :=
  let with_tree r t d := {| trees := <[r := t]> (trees d); next_tree := next_tree d |} in
  match Dom.find (sel_matches sel) (tree_of d old),
        Dom.find (sel_matches sel) (tree_of d new) with
  | [p], [q] =>
      let d1 := with_tree new (Dom.splice_at (tree_of d new) q []) d in
      with_tree old
        (replace_with (tree_of d1 old) p (option_list (Dom.node_at (tree_of d new) q))) d1
  | [p], [] => with_tree old (replace_with (tree_of d old) p []) d
  | _, _ => d
  end.

(** The start of the branch of [_refresh] for a non-empty selector list:
    duplicates are removed, then the selectors whose element lies inside the
    element of another one. *)
Definition prune_selectors `{Collaborators} (sels : list string) : M unit :=
  update (set_refreshList (Selectors (dedup sels))) ;;;
  when (Nat.ltb 1 (length (dedup sels)))
    (old <- own_root ;;
     w <- the_world ;;
     let '(r, l) := prune (tree_of (jqs w) old) (length (dedup sels)) (dedup sels) in
     update (set_refreshList (Selectors l)) ;;;
     match r with
     | Ok _ => ret tt
     | Throw e => throw e
     end).

(** The branch of [_refresh] for a non-empty selector list. *)
Definition refresh_selectors `{Collaborators} (sels : list string) : M unit :=
  prune_selectors sels ;;;
  renderResult <- _renderWithChildren ;;
  me <- this ;;
  match _refreshList me, fst renderResult with
  | Selectors l, Dom.JQuery new =>
      old <- (if Nat.ltb 0 (length l) then own_root else ret 0) ;;
      for_each (rev l) (patch old new) ;;;
      match snd renderResult with
      | None => throw TypeError
      | Some insertedChildren =>
          for_each (rev insertedChildren) (fun ce =>
            me <- this ;;
            w <- the_world ;;
            when (root_contains (jqs w) (jqDom me) (snd ce)) (anchor ce))
      end ;;;
      update (set_refreshList (Selectors []))
  | _, _ => throw TypeError
  end.

(** The branch of [_refresh] for [_refreshList == true]. *)
Definition refresh_full `{Collaborators} : M unit :=
  me <- this ;;
  let jqOldComponent := jqDom me in
  jqNewComponent <- render ;;
  own <- (match jqOldComponent with
          | Dom.JQuery _ => ret tt
          | _ => throw TypeError
          end) ;;
  log (ReplaceRoot (baseClassInstance me) jqOldComponent jqNewComponent) ;;;
  update (set_refreshList (Selectors [])) ;;;
  when (callable (comp me) "_postRefresh")
    (log (Invoke (baseClassInstance me) "_postRefresh")).

(** The end of [_refresh]: a fresh token, and the sweep of orphaned children
    scheduled under it. *)
Definition schedule_sweep `{Collaborators} : M unit :=
  me <- this ;;
  w <- the_world ;;
  let token := random_token (random_calls w) in
  update (set_cleanUpChildren (Some token)) ;;;
  update_world (fun w =>
    set_random_calls (S (random_calls w))
      (set_sweeps (sweeps w ++ [(baseClassInstance me, token)]) w)).

(** [_refresh()] *)
Definition _refresh `{Collaborators} : M unit :=
  me <- this ;;
  if initialized me && negb (delayRefresh me) then
    match jqDom me with
    | Dom.JNull => _ <- render ;; ret tt
    | _ =>
        match _refreshList me with
        | Selectors (s :: l) => refresh_selectors (s :: l)
        | Full => refresh_full
        | Selectors [] => ret tt
        end ;;;
        schedule_sweep
    end
  else ret tt.


(** ** Visiting, removing and destroying children *)

(** [this.childComponents[sectionName]]; what is done with it next throws
    when the section is not there. *)
Definition entries_of (sectionName : string) : M (list child) :=
  me <- this ;;
  match section sectionName (childComponents me) with
  | Some entries => ret entries
  | None => throw TypeError
  end.

(** [this.childComponents[sectionName][a]] *)
Definition entry_at (sectionName : string) (a : nat) : M child :=
  entries <- entries_of sectionName ;;
  match nth_error entries a with
  | Some c => ret c
  | None => throw TypeError
  end.

(** [delete this.childComponents[sectionName]] *)
Definition delete_section (sectionName : string) (registry : list (string * list child))
    : list (string * list child) :=
  List.filter (fun entry => negb (String.eqb sectionName (fst entry))) registry.

(** The [removeChild] closure handed to the handler in the default section,
    for the child at index [a]. *)
Definition remove_default (destroy_child : nat -> M unit) (a : nat) : M unit :=
  c <- entry_at "default" a ;;
  match c with
  | ChildComponent id => destroy_child id
  | ChildArray _ _ => throw TypeError
  end ;;;
  entries <- entries_of "default" ;;
  update (fun i =>
    set_childComponents (set_section "default" (splice1 a entries) (childComponents i)) i).

(** The [removeChild] closure handed to the handler in a repeatable section,
    for the child at index [b] of the repetition at index [a]. *)
Definition remove_repeated (destroy_child : nat -> M unit)
    (sectionName : string) (a b : nat) : M unit :=
  c <- entry_at sectionName a ;;
  match nth_error (repetition c) b with
  | Some id => destroy_child id
  | None => throw TypeError
  end ;;;
  c <- entry_at sectionName a ;;
  match c with
  | ChildArray ref items =>
      entries <- entries_of sectionName ;;
      let spliced := <[a := ChildArray ref (splice1 b items)]> entries in
      let entries' := if Nat.eqb (length (splice1 b items)) 0
                      then splice1 a spliced else spliced in
      update (fun i =>
        set_childComponents
          (if Nat.eqb (length entries') 0
           then delete_section sectionName (childComponents i)
           else set_section sectionName entries' (childComponents i)) i)
  | ChildComponent _ => throw TypeError
  end.

(** The loop [while (b--)] over one repetition of a repeatable section. *)
Fixpoint each_in_repetition (handler : nat -> string -> M unit -> M unit)
    (destroy_child : nat -> M unit) (sectionName : string) (a b : nat) : M unit :=
  match b with
  | 0 => ret tt
  | S b' =>
      c <- entry_at sectionName a ;;
      match nth_error (repetition c) b' with
      | Some id => handler id sectionName (remove_repeated destroy_child sectionName a b')
      | None => throw TypeError
      end ;;;
      each_in_repetition handler destroy_child sectionName a b'
  end.

(** The loop [while (a--)] over the entries of a section.  An array sitting
    in the default section is handed to the handler as if it were a
    component, which no handler of this class survives. *)
Fixpoint each_in_section (handler : nat -> string -> M unit -> M unit)
    (destroy_child : nat -> M unit) (sectionName : string) (a : nat) : M unit :=
  match a with
  | 0 => ret tt
  | S a' =>
      c <- entry_at sectionName a' ;;
      (if String.eqb sectionName "default" then
         match c with
         | ChildComponent id => handler id sectionName (remove_default destroy_child a')
         | ChildArray _ _ => throw TypeError
         end
       else
         each_in_repetition handler destroy_child sectionName a' (length (repetition c))) ;;;
      each_in_section handler destroy_child sectionName a'
  end.

(** [eachChildComponent(handler)]: the handler is given the child, the name
    of its section and the closure that removes it; [destroy_child] is the
    [destroy()] those closures call.  A section deleted on the way is not
    visited. *)
Definition eachChildComponent (handler : nat -> string -> M unit -> M unit)
    (destroy_child : nat -> M unit) : M unit :=
  me <- this ;;
  for_each (map fst (childComponents me)) (fun sectionName =>
    me <- this ;;
    match section sectionName (childComponents me) with
    | Some entries =>
        each_in_section handler destroy_child sectionName (length entries)
    | None => ret tt
    end).

(** [destroy()], where [depth] more calls fit on the call stack.
    [this.jqDom.remove()] is a call to the DOM that is recorded in the
    trace: the store keeps the tree of each component as it was rendered,
    not the place of its element in the document, so that the trees and
    what [root_contains] answers for them are the same before and after. *)
Fixpoint destroy_at (depth : nat) : M unit :=
  match depth with
  | 0 => throw RangeError
  | S depth' =>
      let destroy_child := fun id => call_other id (destroy_at depth') in
      eachChildComponent (fun id _ _ => destroy_child id) destroy_child ;;;
      update (set_childComponents [("default", [])]) ;;;
      update (set_observed false) ;;;
      me <- this ;;
      match jqDom me with
      | Dom.JNull => ret tt
      | Dom.JQuery _ => log (RemoveRoot (baseClassInstance me))
      | _ => throw TypeError
      end
  end.

Definition destroy `{Collaborators} : M unit := destroy_at call_stack.

(** The callback [_refresh] hands to [setTimeout] for the sweep, with the
    token [cleanUpTime] it captured: unless a later refresh has replaced the
    token, the children that were not rendered or are no longer inside the
    component are destroyed and taken off the registry. *)
Definition sweep `{Collaborators} (cleanUpTime : nat) : M unit :=
  me <- this ;;
  when (match _cleanUpChildren me with
        | Some token => Nat.eqb cleanUpTime token
        | None => false
        end)
    (eachChildComponent
       (fun id _ removeChild =>
          me <- this ;;
          w <- the_world ;;
          match instances (put me w) !! id with
          | None => throw TypeError
          | Some childComponent =>
              match jqDom childComponent with
              | Dom.JNull => removeChild
              | Dom.JUndefined => throw TypeError
              | elmt =>
                  match jqDom me with
                  | Dom.JQuery _ =>
                      if root_contains (jqs w) (jqDom me) elmt then ret tt
                      else removeChild
                  | _ => throw TypeError
                  end
              end
          end)
       (fun id => call_other id destroy)).


(** ** Readiness *)

(** [eachChildComponent(handler)] for a handler that keeps a running value
    in a variable of its caller, as the handler of [isReady] does with
    [allChildrenReady]: the same loops, with that value handed along. *)
Fixpoint each_in_repetition_folding {St} (handler : St -> nat -> string -> M unit -> M St)
    (destroy_child : nat -> M unit) (sectionName : string) (a b : nat) (s : St) : M St :=
  match b with
  | 0 => ret s
  | S b' =>
      c <- entry_at sectionName a ;;
      s' <- match nth_error (repetition c) b' with
            | Some id =>
                handler s id sectionName (remove_repeated destroy_child sectionName a b')
            | None => throw TypeError
            end ;;
      each_in_repetition_folding handler destroy_child sectionName a b' s'
  end.

Fixpoint each_in_section_folding {St} (handler : St -> nat -> string -> M unit -> M St)
    (destroy_child : nat -> M unit) (sectionName : string) (a : nat) (s : St) : M St :=
  match a with
  | 0 => ret s
  | S a' =>
      c <- entry_at sectionName a' ;;
      s' <- (if String.eqb sectionName "default" then
               match c with
               | ChildComponent id =>
                   handler s id sectionName (remove_default destroy_child a')
               | ChildArray _ _ => throw TypeError
               end
             else
               each_in_repetition_folding handler destroy_child sectionName a'
                 (length (repetition c)) s) ;;
      each_in_section_folding handler destroy_child sectionName a' s'
  end.

Definition eachChildComponent_folding {St} (handler : St -> nat -> string -> M unit -> M St)
    (destroy_child : nat -> M unit) (s : St) : M St :=
  me <- this ;;
  fold_m (fun s sectionName =>
            me <- this ;;
            match section sectionName (childComponents me) with
            | Some entries =>
                each_in_section_folding handler destroy_child sectionName (length entries) s
            | None => ret s
            end)
         (map fst (childComponents me)) s.

(** [this._refreshList.length === 0]; [true] has no length. *)
Definition no_refresh_listed (r : refresh_list) : bool :=
  match r with
  | Selectors [] => true
  | _ => false
  end.

(** [isReady()], where [depth] more calls fit on the call stack (the depth
    [call_stack] stands for here as well). *)
Fixpoint isReady_at `{Collaborators} (depth : nat) : M bool :=
  match depth with
  | 0 => throw RangeError
  | S depth' =>
      allChildrenReady <-
        eachChildComponent_folding
          (fun allChildrenReady id _ _ =>
             ready <- call_other id (isReady_at depth') ;;
             ret (if ready then allChildrenReady else false))
          (fun id => call_other id destroy)
          true ;;
      me <- this ;;
      ret (allChildrenReady
           && no_refresh_listed (_refreshList me)
           && Z.eqb (pendingFetchCount me) 0
           && negb (pendingInit me))
  end.

Definition isReady `{Collaborators} : M bool := isReady_at call_stack.


(** ** Construction *)

(** [options.templates]: element ids of the templates, or the templates
    themselves by name (as [for ... in] lists them). *)
Inductive templates_option :=
| TemplateIds (ids : list string)
| TemplateTable (table : list (string * string)).

(** The [data] argument: an object (by reference), [null], or something that
    is no object at all. *)
Inductive data_argument :=
| DataObject (r : nat)
| DataNull
| DataOther.

(** The arguments of the constructor other than [data]: the options in
    effect (the defaults overridden by the caller's options), the [data] of
    the defaults, and what the concrete class puts on the prototype. *)
Record construction := {
  new_className : string;
  new_templates : templates_option;
  new_loadingTemplate : option string;
  new_initList : list init_item;
  new_uiBindings : list (string * ui_binding);
  new_dataBindings : list (string * data_binding);
  new_tagName : option string;
  new_delayInit : bool;
  defaults_data : Data.jsval;
  new_callable : string -> bool;
  new_render : option render_hook;
  new_renderLoading : option render_hook
}.

(** [table[name] = content] *)
Definition table_assign (name content : string) (t : list (string * string))
    : list (string * string) :=
  Js.own_assign name content t.

(** The loop filling [this.templates] from the template elements;
    [_getTemplate] throws when an element is missing. *)
Fixpoint fetch_templates `{Collaborators} (ids : list string) (t : list (string * string))
    : res (list (string * string)) :=
  match ids with
  | [] => Ok t
  | id :: rest =>
      match document_template id with
      | Some content => fetch_templates rest (table_assign id content t)
      | None => Throw ConfigurationError
      end
  end.

Definition resolve_templates `{Collaborators} (o : templates_option)
    : res (list (string * string)) :=
  match o with
  | TemplateIds [] => Throw ConfigurationError
  | TemplateIds ids => fetch_templates ids []
  | TemplateTable table => Ok table
  end.

Definition resolve_loadingTemplate `{Collaborators} (o : option string) : string :=
  match o with
  | Some s =>
      match document_template s with
      | Some content => content
      | None => s
      end
  | None => "<div></div>"
  end.

(** The two calls
    [$.extend(true, dataSuperSet, defaults.data, data)] and
    [$.extend(true, data, dataSuperSet)]: the property table [data] ends up
    with. *)
Definition merge_defaults (defaultsData : Data.jsval) (data : Data.fields) : Data.fields :=
  let dataSuperSet := Data.extend (Data.extend [] (Data.enumerable defaultsData)) data in
  Data.extend data dataSuperSet.

(** The constructor.  It yields the id of the new instance, which is entered
    in [instances] once the constructor has returned. *)
Definition constructor `{Collaborators} (a : construction) (data : data_argument)
    (w : world) : res nat * world :=
  let w1 :=
    match data with
    | DataObject r =>
        set_objects
          (<[r := merge_defaults (defaults_data a) (fields_at w r)]> (objects w)) w
    | _ => w
    end in
  let id := factory_baseClassInstance w1 in
  let w2 := set_factory_baseClassInstance (S id) w1 in
  match resolve_templates (new_templates a) with
  | Throw e => (Throw e, w2)
  | Ok tpls =>
      match data with
      | DataOther => (Throw ConfigurationError, w2)
      | DataNull => (Throw TypeError, w2)
      | DataObject r =>
          let me :=
            {| comp := {| className := new_className a;
                          initList := new_initList a;
                          templates := tpls;
                          loadingTemplate := resolve_loadingTemplate (new_loadingTemplate a);
                          uiBindings := new_uiBindings a;
                          dataBindings := new_dataBindings a;
                          tagName := new_tagName a;
                          callable := new_callable a;
                          _render_override := new_render a;
                          _renderLoading := new_renderLoading a |};
               baseClassInstance := id;
               _data := r;
               observed := true;
               jqDom := Dom.JNull;
               initialized := false;
               pendingInit := false;
               pendingFetchCount := 0;
               initRendered := false;
               delayRefresh := false;
               pendingRefresh := false;
               _cleanUpChildren := None;
               childComponents := [("default", [])];
               _refreshList := Selectors [] |} in
          if new_delayInit a then (Ok id, put me w2)
          else
            match init me w2 with
            | (Ok _, me', w3) => (Ok id, put me' w3)
            | (Throw e, _, w3) => (Throw e, w3)
            end
      end
  end.

(** [this.data[name] = v] through the owning proxy: the write lands in the
    object [_data] refers to, and the observable reports it at once. *)
Definition set_data `{Collaborators} (name : string) (v : Data.jsval) : M unit :=
  me <- this ;;
  w <- the_world ;;
  let old := fields_at w (_data me) in
  update_world (set_objects (<[_data me := Data.assign name v old]> (objects w))) ;;;
  when (observed me)
    (on_change [{| change_type := match Data.lookup name old with
                                  | Some _ => "update"
                                  | None => "add"
                                  end;
                   currentPath := name;
                   newValue := v |}]).

(** [obj[name] = v] on a data object itself, past the proxies: nothing is
    reported to any component. *)
Definition set_property (r : nat) (name : string) (v : Data.jsval) (w : world) : world :=
  set_objects (<[r := Data.assign name v (fields_at w r)]> (objects w)) w.

(** Reading a property of an object through a reference to it. *)
Definition get_property (w : world) (r : nat) (name : string) : Data.jsval :=
  Data.read name (fields_at w r).

(** ** Events

    What happens to a world from outside a running method: calls of the
    public methods, writes to the data, promise groups settling, and the
    timers of the scheduler and of the sweeps firing. *)

Definition decrement_pending : M unit :=
  update (fun i => set_pendingFetchCount (pendingFetchCount i - 1)%Z i).

(** The [then] callback of [Promise.all] of a group. *)
Definition group_fulfilled (k : group_kind) : M unit :=
  me <- this ;;
  match k with
  | ActiveInit =>
      update (set_initialized true) ;;;
      update (set_pendingInit false) ;;;
      update (set_refreshList Full) ;;;
      update (set_pendingRefresh true) ;;;
      queue_own_refresh ;;;
      when (callable (comp me) "_init") (log (Invoke (baseClassInstance me) "_init")) ;;;
      decrement_pending
  | PassiveInit =>
      decrement_pending
  | Fetch loadMask =>
      update (set_delayRefresh false) ;;;
      when loadMask (log (Invoke (baseClassInstance me) "hideLoadMask")) ;;;
      when (refresh_pending (_refreshList me)) queue_own_refresh ;;;
      decrement_pending
  end.

(** A rejected group: the failing promise's own [catch] logs and rethrows,
    [Promise.all] rejects, the [then] callback is skipped and the final
    [catch] logs once more. *)
Definition group_rejected : M unit :=
  me <- this ;;
  log (ConsoleError (baseClassInstance me) false) ;;;
  log (ConsoleError (baseClassInstance me) true).

(** The [k]-th outstanding group settles.  It can only be fulfilled when all
    its methods exist. *)
Definition settle (k : nat) (fulfilled : bool) (w : world) : world :=
  match nth_error (groups w) k with
  | None => w
  | Some g =>
      let w1 := set_groups (firstn k (groups w) ++ skipn (S k) (groups w)) w in
      snd (call (group_owner g)
             (if fulfilled && group_viable g then group_fulfilled (group_kind_of g)
              else group_rejected) w1)
  end.

(** [while (i--) refreshQueue.pop()();] with [i = refreshQueue.length]: the
    queue is emptied from its end, each popped closure running [_refresh] of
    its instance; an exception ends the loop. *)
Fixpoint flush `{Collaborators} (i : nat) (w : world) : res unit * world :=
  match i with
  | 0 => (Ok tt, w)
  | S i' =>
      let q := refreshQueue (sched w) in
      let w1 := set_sched {| refreshQueue := removelast q;
                             uniqueIndex := uniqueIndex (sched w);
                             timers := timers (sched w) |} w in
      match last (A := Js.value) q with
      | Some (Js.VFun owner) =>
          let w2 := set_trace (trace w1 ++ [RefreshCall owner]) w1 in
          match call owner _refresh w2 with
          | (Ok _, w3) => flush i' w3
          | (Throw e, w3) => (Throw e, w3)
          end
      | _ => (Throw TypeError, w1)
      end
  end.

(** The callback given to [setTimeout] by [queueRefresh], with the
    [refreshCount] it captured. *)
Definition timer_callback `{Collaborators} (refreshCount : nat) (w : world) : world :=
  if Nat.eqb refreshCount (length (refreshQueue (sched w))) then
    match flush (length (refreshQueue (sched w))) w with
    | (Ok _, w') =>
        set_sched {| refreshQueue := refreshQueue (sched w');
                     uniqueIndex := [];
                     timers := timers (sched w') |} w'
    | (Throw _, w') => w'
    end
  else w.

(** The oldest pending timer of the scheduler fires. *)
Definition fire_timer `{Collaborators} (w : world) : world :=
  match timers (sched w) with
  | [] => w
  | refreshCount :: rest =>
      timer_callback refreshCount
        (set_sched {| refreshQueue := refreshQueue (sched w);
                      uniqueIndex := uniqueIndex (sched w);
                      timers := rest |} w)
  end.

(** The oldest pending sweep fires. *)
Definition fire_sweep `{Collaborators} (w : world) : world :=
  match sweeps w with
  | [] => w
  | (id, cleanUpTime) :: rest => snd (call id (sweep cleanUpTime) (set_sweeps rest w))
  end.

Inductive event :=
| New (a : construction) (data : data_argument)
| CallInit (id : nat)
| CallRender (id : nat)
| CallRefresh (id : nat)
| CallRegisterChild (id : nat) (c : child) (sectionName : option string)
| SetData (id : nat) (name : string) (v : Data.jsval)
| SetProperty (r : nat) (name : string) (v : Data.jsval)
| Changes (id : nat) (changes : list change)
| CallDestroy (id : nat)
| Settle (k : nat) (fulfilled : bool)
| TimerFires
| SweepFires.

Definition run_event `{Collaborators} (e : event) (w : world) : world :=
  match e with
  | New a data => snd (constructor a data w)
  | CallInit id => snd (call id init w)
  | CallRender id => snd (call id render w)
  | CallRefresh id => snd (call id refresh w)
  | CallRegisterChild id c s => snd (call id (registerChild c s) w)
  | SetData id name v => snd (call id (set_data name v) w)
  | SetProperty r name v => set_property r name v w
  | Changes id changes =>
      snd (call id (me <- this ;; when (observed me) (on_change changes)) w)
  | CallDestroy id => snd (call id destroy w)
  | Settle k fulfilled => settle k fulfilled w
  | TimerFires => fire_timer w
  | SweepFires => fire_sweep w
  end.

Definition run `{Collaborators} (es : list event) (w : world) : world :=
  fold_left (fun w e => run_event e w) es w.

(** The world right after the factory has run: no instance yet, nothing
    queued, and the data objects and jQuery objects the page has made. *)
Definition outset (objs : gmap nat Data.fields) (d : dom_store) : world :=
  {| sched := empty_scheduler;
     factory_baseClassInstance := 0;
     instances := ∅;
     objects := objs;
     jqs := d;
     groups := [];
     sweeps := [];
     random_calls := 0;
     trace := [] |}.


(** How often the scheduler called the refresh closure of an instance. *)
Definition refresh_calls (id : nat) (t : list effect) : nat :=
  length (List.filter
            (fun e => match e with RefreshCall o => Nat.eqb o id | _ => false end) t).

(** ** A small concrete setting

    Collaborators simple enough to run: selectors are a tag name or a class
    written [.name]; the template engine wraps the template text in a
    [div]; no component has children. *)
Module Sample.

Fixpoint attr (name : string) (attrs : list (string * string)) : option string :=
  match attrs with
  | [] => None
  | (k, v) :: rest => if String.eqb name k then Some v else attr name rest
  end.

Definition matches (sel : string) (n : Dom.node) : bool :=
  match n with
  | Dom.Elem tag attrs _ =>
      if String.eqb (Js.charAt sel 0) "."
      then match attr "class" attrs with
           | Some c => String.eqb c (Js.substring sel 1 (String.length sel))
           | None => false
           end
      else String.eqb tag sel
  | Dom.Text _ => false
  end.

Definition collaborators : Collaborators :=
  {| regexp_test := fun source path => String.prefix source path;
     mustache_parse := fun template _ =>
     if String.eqb template "nested"
     then [Dom.Elem "div" []
             [Dom.Elem "p" [("class", "a")]
                [Dom.Elem "span" [("class", "b")] [Dom.Text "new"]]]]
     else [Dom.Elem "div" [] [Dom.Text template]];
     document_template := fun _ => None;
     sel_matches := matches;
     replaceWith_empty_removes := true;
     random_token := fun n => n;
     root_contains := fun _ _ _ => false;
     call_stack := 8 |}.

(** A component with one template, bound so that a change of [name]
    refreshes the element of class [title]. *)
Definition plain : construction :=
  {| new_className := "Plain";
     new_templates := TemplateTable [("main", "<div class='title'>{{name}}</div>")];
     new_loadingTemplate := None;
     new_initList := [];
     new_uiBindings := [("name", UiSelectors [".title"]); ("person_id", UiFull)];
     new_dataBindings := [];
     new_tagName := Some "plain";
     new_delayInit := false;
     defaults_data := Data.JColl false [("name", Data.JStr "anonymous"); ("age", Data.JNull)];
     new_callable := fun _ => false;
     new_render := None;
     new_renderLoading := None |}.

(** A component that must fetch before it can render. *)
Definition fetching : construction :=
  {| new_className := "Fetching";
     new_templates := TemplateTable [("main", "<ul></ul>")];
     new_loadingTemplate := Some "<p>loading</p>";
     new_initList := [{| method := "_fetchList"; preventRender := true; condition := None |}];
     new_uiBindings := [("list", UiFull)];
     new_dataBindings :=
       [("person_id", {| methods := ["_fetchList"]; binding_delayRefresh := true |})];
     new_tagName := Some "fetching";
     new_delayInit := false;
     defaults_data := Data.JNull;
     new_callable := fun name => String.eqb name "_fetchList";
     new_render := None;
     new_renderLoading := None |}.

(** The caller's data object, at reference 0. *)
Definition caller_world : world :=
  outset {[0 := [("name", Data.JStr "Ann")]]} {| trees := ∅; next_tree := 0 |}.

(** An instance as the constructor leaves it before [init] runs. *)
Definition blank (a : construction) (id : nat) : instance :=
  {| comp := {| className := new_className a;
                initList := new_initList a;
                templates := match new_templates a with
                             | TemplateTable t => t
                             | TemplateIds _ => []
                             end;
                loadingTemplate := "<div></div>";
                uiBindings := new_uiBindings a;
                dataBindings := new_dataBindings a;
                tagName := new_tagName a;
                callable := new_callable a;
                _render_override := new_render a;
                _renderLoading := new_renderLoading a |};
     baseClassInstance := id;
     _data := 0;
     observed := true;
     jqDom := Dom.JNull;
     initialized := false;
     pendingInit := false;
     pendingFetchCount := 0;
     initRendered := false;
     delayRefresh := false;
     pendingRefresh := false;
     _cleanUpChildren := None;
     childComponents := [("default", [])];
     _refreshList := Selectors [] |}.

(** Waiting for its active initialization group. *)
Definition waiting : instance :=
  set_pendingFetchCount 1%Z (set_pendingInit true (blank fetching 0)).

(** Initialized and rendered once, nothing pending. *)
Definition quiescent : instance :=
  set_jqDom (Dom.JQuery 0) (set_initRendered true (set_initialized true (blank plain 0))).

Definition rendered_world : world :=
  set_jqs {| trees := {[0 := [Dom.Elem "div" [] [Dom.Text "Ann"]]]}; next_tree := 1 |}
    caller_world.

(** A [_render] that returns two sibling roots. *)
Definition two_roots : render_hook :=
  fun _ d =>
    let '(r, d') := alloc_tree [Dom.Elem "div" [] []; Dom.Elem "p" [] []] d in
    (Dom.JQuery r, d').

Definition siblings : instance :=
  set_initialized true
    (blank {| new_className := "Siblings";
              new_templates := TemplateTable [];
              new_loadingTemplate := None;
              new_initList := [];
              new_uiBindings := [];
              new_dataBindings := [];
              new_tagName := None;
              new_delayInit := false;
              defaults_data := Data.JNull;
              new_callable := fun name => String.eqb name "_render";
              new_render := Some two_roots;
              new_renderLoading := None |} 0).

(** Rendered as a paragraph of class [a] around a span of class [b], with
    both selectors waiting to be refreshed. *)
Definition nested : instance :=
  set_refreshList (Selectors [".a"; ".b"])
    (set_jqDom (Dom.JQuery 0)
       (set_initRendered true
          (set_initialized true
             (blank {| new_className := "Nested";
                       new_templates := TemplateTable [("main", "nested")];
                       new_loadingTemplate := None;
                       new_initList := [];
                       new_uiBindings := [("a", UiSelectors [".a"]); ("b", UiSelectors [".b"])];
                       new_dataBindings := [];
                       new_tagName := None;
                       new_delayInit := false;
                       defaults_data := Data.JNull;
                       new_callable := fun _ => false;
                       new_render := None;
                       new_renderLoading := None |} 0)))).

Definition nested_world : world :=
  set_jqs {| trees := {[0 := [Dom.Elem "div" []
                               [Dom.Elem "p" [("class", "a")]
                                  [Dom.Elem "span" [("class", "b")] [Dom.Text "old"]]]]]};
             next_tree := 1 |}
    caller_world.

(** A [_renderLoading] that keeps handing back the same spinner. *)
Definition same_spinner : render_hook := fun _ d => (Dom.JQuery 0, d).

Definition spinning : instance :=
  set_pendingInit true
    (blank {| new_className := "Spinning";
              new_templates := TemplateTable [("main", "<div></div>")];
              new_loadingTemplate := None;
              new_initList := [{| method := "_load"; preventRender := true; condition := None |}];
              new_uiBindings := [];
              new_dataBindings := [];
              new_tagName := None;
              new_delayInit := false;
              defaults_data := Data.JNull;
              new_callable := fun name => String.eqb name "_load" || String.eqb name "_renderLoading";
              new_render := None;
              new_renderLoading := Some same_spinner |} 0).

(** A component whose data binding names a method it does not have. *)
Definition misbound : construction :=
  {| new_className := "Misbound";
     new_templates := TemplateTable [("main", "<div></div>")];
     new_loadingTemplate := None;
     new_initList := [];
     new_uiBindings := [];
     new_dataBindings :=
       [("person_id", {| methods := ["_fetchPerson"]; binding_delayRefresh := false |})];
     new_tagName := None;
     new_delayInit := false;
     defaults_data := Data.JNull;
     new_callable := fun _ => false;
     new_render := None;
     new_renderLoading := None |}.

(** Initialized, with the bindings of [fetching]. *)
Definition fetched : instance := set_initialized true (blank fetching 0).

(** Initialized, with the bindings of [plain]. *)
Definition ready : instance := set_initialized true (blank plain 0).

(** A component whose defaults hold a nested object, and a caller's data
    object (at reference 0) that has part of it. *)
Definition profiled : construction :=
  {| new_className := "Profiled";
     new_templates := TemplateTable [("main", "<div>{{name}}</div>")];
     new_loadingTemplate := None;
     new_initList := [];
     new_uiBindings := [];
     new_dataBindings := [];
     new_tagName := None;
     new_delayInit := true;
     defaults_data :=
       Data.JColl false
         [("name", Data.JStr "anonymous");
          ("address", Data.JColl false [("city", Data.JStr "Paris");
                                        ("zip", Data.JStr "75000")])];
     new_callable := fun _ => false;
     new_render := None;
     new_renderLoading := None |}.

Definition profiled_world : world :=
  outset {[0 := [("name", Data.JStr "Ann");
                 ("address", Data.JColl false [("city", Data.JStr "Lyon")])]]}
    {| trees := ∅; next_tree := 0 |}.




End Sample.

(** ** Notions used in the statements *)

(** The world after some more calls have left the component. *)
Definition logged (es : list effect) (w : world) : world :=
  set_trace (trace w ++ es) w.

(** A render result the check of [render] lets through: a jQuery object
    that is not empty and whose first item is an element. *)
Definition accepted (d : dom_store) (j : Dom.jq) : bool :=
  match j with
  | Dom.JQuery r =>
      match tree_of d r with
      | n :: _ => Dom.is_element n
      | [] => false
      end
  | _ => false
  end.

(** The exception a refused render result ends in: reading [.length] of
    [null] or [undefined] is a type error, anything else fails the check. *)
Definition refusal (j : Dom.jq) : error :=
  match j with
  | Dom.JNull | Dom.JUndefined => TypeError
  | _ => RenderContractViolation
  end.

(** The group a call of [_fetch] registers. *)
Definition fetch_group (delay : bool) (fetchList : list string) (me : instance) : task_group :=
  {| group_owner := baseClassInstance me;
     group_kind_of := Fetch (delay && Nat.ltb 0 (length fetchList));
     group_viable := forallb (callable (comp me)) (rev fetchList) |}.

(** Every instance is stored under its own id. *)
Definition keyed (W : world) : Prop :=
  forall id me, instances W !! id = Some me -> baseClassInstance me = id.

(** [pendingFetchCount] of the instance [id]. *)
Definition count_of (id : nat) (W : world) : Z :=
  match instances W !! id with
  | Some me => pendingFetchCount me
  | None => 0%Z
  end.

(** The groups of the instance [id] that have not settled. *)
Definition outstanding (id : nat) (gs : list task_group) : nat :=
  length (List.filter (fun g => Nat.eqb (group_owner g) id) gs).

(** The groups of the instance [id] that were rejected: each one reached
    the final [catch] of its [Promise.all] once. *)
Definition rejected (id : nat) (t : list effect) : nat :=
  length (List.filter
            (fun e => match e with
                      | ConsoleError o true => Nat.eqb o id
                      | _ => false
                      end) t).

(** [_refreshList] of the instance [id]. *)
Definition rl_of (id : nat) (W : world) : option refresh_list :=
  option_map _refreshList (instances W !! id).

(** The [replaceWith] calls made by partial refreshes. *)
Definition replacements (t : list effect) : list effect :=
  List.filter (fun e => match e with ReplaceWith _ _ => true | _ => false end) t.

(** What no method changes: the instance counter, which instances there
    are, and for each instance the difference between its
    [pendingFetchCount] and the number of its groups that are outstanding or
    were rejected. *)
Definition steady (a b : world) : Prop :=
  (keyed a -> keyed b)
  /\ (forall id, is_Some (instances a !! id) <-> is_Some (instances b !! id))
  /\ factory_baseClassInstance b = factory_baseClassInstance a
  /\ (forall id,
        (count_of id b - Z.of_nat (outstanding id (groups b)) - Z.of_nat (rejected id (trace b))
         = count_of id a - Z.of_nat (outstanding id (groups a)) - Z.of_nat (rejected id (trace a)))%Z).

(** What rendering leaves alone on top of that: every refresh list and the
    [replaceWith] calls made so far. *)
Definition frame (a b : world) : Prop :=
  steady a b
  /\ (forall id, rl_of id b = rl_of id a)
  /\ replacements (trace b) = replacements (trace a).

(** A relation between worlds that can be followed along a computation. *)
Class Orderly (R : world -> world -> Prop) : Prop := {
  orderly_refl : forall a, R a a;
  orderly_trans : forall a b c, R a b -> R b c -> R a c;
  orderly_steady : forall a b, R a b -> steady a b
}.

(** A method relates the world it starts in (with [this] in its place) to
    the world it ends in, and does not change the id of [this]. *)
Definition relates {A} (R : world -> world -> Prop) (m : M A) : Prop :=
  forall me w r me' w',
    keyed (put me w) ->
    m me w = (r, me', w') ->
    baseClassInstance me' = baseClassInstance me /\ R (put me w) (put me' w').

(** Some selector of [l] has its element at or above [e]. *)
Definition shaded `{Collaborators} (roots : list Dom.node) (l : list string) (e : Dom.path)
    : Prop :=
  exists u eu, In u l /\ first_match roots u = Some eu /\ Dom.is_prefix eu e = true.

(** No other selector of [l] has its element at or above the element of
    [s]. *)
Definition topmost `{Collaborators} (roots : list Dom.node) (l : list string) (s : string)
    : Prop :=
  forall u eu, In u l -> u <> s -> first_match roots u = Some eu ->
    Dom.contains eu (first_match roots s) = false.

(** Calls that are neither a group's final [catch] nor a [replaceWith]. *)
Definition plain_effect (e : effect) : bool :=
  match e with
  | ConsoleError _ true => false
  | ReplaceWith _ _ => false
  | _ => true
  end.

(** The same for the methods of the instance [i] only. *)
Definition relates_at {A} (i : nat) (R : world -> world -> Prop) (m : M A) : Prop :=
  forall me w r me' w',
    baseClassInstance me = i ->
    keyed (put me w) ->
    m me w = (r, me', w') ->
    baseClassInstance me' = i /\ R (put me w) (put me' w').

(** What a refresh of the instance [i] leaves alone: the refresh lists of
    the other instances. *)
Definition apart (i : nat) (a b : world) : Prop :=
  steady a b /\ forall id, id <> i -> rl_of id b = rl_of id a.

(** A full refresh that is pending stays pending. *)
Definition sticky (a b : world) : Prop :=
  steady a b /\ forall id, rl_of id a = Some Full -> rl_of id b = Some Full.

(** A pending full refresh stays pending or is reset to the empty list, and
    an empty list stays empty. *)
Definition settling (a b : world) : Prop :=
  steady a b
  /\ forall id,
       (rl_of id a = Some Full ->
        rl_of id b = Some Full \/ rl_of id b = Some (Selectors []))
       /\ (rl_of id a = Some (Selectors []) -> rl_of id b = Some (Selectors [])).

(** No instance has an id the factory has not handed out yet. *)
Definition fresh (W : world) : Prop :=
  forall id, factory_baseClassInstance W <= id -> instances W !! id = None.

(** The invariant of the worlds that can be reached: on top of the above,
    the [pendingFetchCount] of every instance is the number of its groups
    that are outstanding or were rejected. *)
Definition balanced (W : world) : Prop :=
  keyed W /\ fresh W
  /\ forall id,
       count_of id W
       = (Z.of_nat (outstanding id (groups W)) + Z.of_nat (rejected id (trace W)))%Z.

(** The calls of refresh closures made by the scheduler. *)
Definition scheduler_calls (t : list effect) : list effect :=
  List.filter (fun e => match e with RefreshCall _ => true | _ => false end) t.

(** What stays of a component whatever is done with it: its configuration
    and its data reference; that it is initialized and that it has been
    rendered in full, once it is; and that it is no longer observing its
    data, once it has been destroyed. *)
Definition living (me me' : instance) : Prop :=
  comp me' = comp me
  /\ _data me' = _data me
  /\ (initialized me = true -> initialized me' = true)
  /\ (initRendered me = true -> initRendered me' = true)
  /\ (observed me = false -> observed me' = false).

(** On top of that, the delay-refresh gate stays up once it is. *)
Definition gated (me me' : instance) : Prop :=
  living me me' /\ (delayRefresh me = true -> delayRefresh me' = true).

(** What a refresh may change of a component: on top of the above it leaves
    the registry of children, the delay-refresh gate and the observation of
    the data as they are. *)
Definition refreshing (me me' : instance) : Prop :=
  living me me'
  /\ observed me' = observed me
  /\ childComponents me' = childComponents me
  /\ delayRefresh me' = delayRefresh me.

(** What rendering may change: on top of the above it leaves the refresh
    list and the token of the sweep as they are. *)
Definition rendering (me me' : instance) : Prop :=
  refreshing me me'
  /\ _refreshList me' = _refreshList me
  /\ _cleanUpChildren me' = _cleanUpChildren me.

(** What initialization may change: on top of the above it leaves the
    rendered tree and the mark of the full render as they are. *)
Definition initializing (me me' : instance) : Prop :=
  rendering me me'
  /\ jqDom me' = jqDom me
  /\ initRendered me' = initRendered me.

(** A way in which instances may change that can be followed along a
    computation. *)
Class Tolerance (allowed : instance -> instance -> Prop) : Prop := {
  tolerance_refl : forall me, allowed me me;
  tolerance_trans : forall a b c, allowed a b -> allowed b c -> allowed a c
}.

(** Every instance of the first world is there in the second, changed in
    an allowed way. *)
Definition outlasts (allowed : instance -> instance -> Prop) (a b : world) : Prop :=
  forall id me,
    instances a !! id = Some me ->
    exists me', instances b !! id = Some me' /\ allowed me me'.

(** What a method is confined to: the instances change in an allowed way
    only, and the view [view] of the world does not change. *)
Definition confined {X} (allowed : instance -> instance -> Prop) (view : world -> X)
    (a b : world) : Prop :=
  steady a b /\ view b = view a /\ outlasts allowed a b.

(** The scheduler, the sweeps that are waiting and the calls the scheduler
    has made. *)
Definition schedule (w : world) : scheduler * list (nat * nat) * list effect :=
  (sched w, sweeps w, scheduler_calls (trace w)).

(** The same without the sweeps. *)
Definition refresh_schedule (w : world) : scheduler * list effect :=
  (sched w, scheduler_calls (trace w)).

(** Nothing of the world. *)
Definition nothing (w : world) : unit := tt.

(** A view of the world that does not look at the instances, at the jQuery
    objects, or at the calls other than those of the scheduler. *)
Class Outlook {X} (view : world -> X) : Prop := {
  outlook_put : forall me w, view (put me w) = view w;
  outlook_jqs : forall d w, view (set_jqs d w) = view w;
  outlook_log : forall e w,
    (forall o, e <> RefreshCall o) -> view (set_trace (trace w ++ [e]) w) = view w
}.

(** What destroying components may change: on top of what [gated] keeps, a
    registry of children stays as it is until it is emptied. *)
Definition retiring (me me' : instance) : Prop :=
  gated me me'
  /\ (childComponents me' = childComponents me
      \/ childComponents me' = [("default", [])]).

(** A component that has been destroyed: it no longer observes its data
    and its registry of children is empty. *)
Definition destroyed (me : instance) : Prop :=
  observed me = false /\ childComponents me = [("default", [])].

(** [jqDom] of the instance [id]. *)
Definition jq_at (id : nat) (W : world) : option Dom.jq :=
  match instances W !! id with
  | Some me => Some (jqDom me)
  | None => None
  end.

(** What destroying components leaves alone besides: the jQuery objects,
    and what each instance holds as its [jqDom]. *)
Definition unmoved (a b : world) : Prop :=
  steady a b /\ jqs b = jqs a /\ forall id, jq_at id b = jq_at id a.


(** The components an entry of the section [name] stands for, as
    [eachChildComponent] visits them. *)
Definition visited_in (name : string) (c : child) (id : nat) : Prop :=
  if String.eqb name "default" then c = ChildComponent id else In id (repetition c).


(** The component [id] is registered as a child of the component [parent]
    where [eachChildComponent] finds it. *)
Definition child_of (W : world) (parent id : nat) : Prop :=
  exists me name entries c,
    instances W !! parent = Some me
    /\ section name (childComponents me) = Some entries
    /\ In c entries
    /\ visited_in name c id.

(** The children of a component, their children, and so on. *)
Inductive below (W : world) : nat -> nat -> Prop :=
| below_child (parent id : nat) :
    child_of W parent id -> below W parent id
| below_deeper (parent mid id : nat) :
    child_of W parent mid -> below W mid id -> below W parent id.

(** Nothing is going on in a component: no refresh is listed, no group is
    counted and no initialization is under way. *)
Definition idle (me : instance) : Prop :=
  _refreshList me = Selectors []
  /\ pendingFetchCount me = 0%Z
  /\ pendingInit me = false.

(** * Properties *)

(** ** Elementary facts *)

Lemma set_jqDom_same (me : instance) : set_jqDom (jqDom me) me = me.
Proof. destruct me; reflexivity. Qed.

Lemma indexOf_from_functions (n : nat) (q : list Js.value) (pos : Z) :
  Forall (fun v => exists o, v = Js.VFun o) q -> Js.indexOf_from n q pos = (-1)%Z.
Proof.
  intros Hq. revert pos.
  induction Hq as [|v q [o ->] _ IH]; intros pos; simpl; [reflexivity | apply IH].
Qed.

(** As long as the queue holds refresh closures only, a request is appended
    whatever instance it comes from. *)
Lemma queueRefresh_appends (id : nat) (f : Js.value) (s : scheduler) :
  Forall (fun v => exists o, v = Js.VFun o) (refreshQueue s) ->
  refreshQueue (queueRefresh id f s) = refreshQueue s ++ [f].
Proof.
  intros Hq. unfold queueRefresh, Js.indexOf.
  rewrite (indexOf_from_functions id _ 0%Z Hq). reflexivity.
Qed.

(** ** The scheduler and bursts of requests *)

(** C1, at the failing input: an instance that is re-rendered on a change of
    [name] receives two such changes before any timer fires.  The claim asks
    for one queue entry and one reconciliation; the queue holds two entries
    for the instance, and when the last timer fires [_refresh] is called
    twice. *)
Theorem burst_refreshes_twice :
  let burst :=
    run (H := Sample.collaborators)
      [New Sample.plain (DataObject 0); CallRender 0;
       SetData 0 "name" (Data.JStr "Bob"); SetData 0 "name" (Data.JStr "Cy")]
      Sample.caller_world in
  let flushed := run (H := Sample.collaborators) [TimerFires; TimerFires] burst in
  refreshQueue (sched burst) = [Js.VFun 0; Js.VFun 0]
  /\ refresh_calls 0 (trace burst) = 0
  /\ refresh_calls 0 (trace flushed) = 2.
Proof. vm_compute. repeat split; reflexivity. Qed.

(** ** The change handler before initialization *)

(** C5: while [initialized] is false the change handler does nothing at all:
    the instance (refresh list, pending fetch count, delay-refresh gate) and
    the world (scheduler queue and timers, promise groups, calls made) come
    back as they were. *)
Theorem on_change_before_initialized `{Collaborators}
    (changes : list change) (me : instance) (w : world) :
  initialized me = false ->
  on_change changes me w = (Ok tt, me, w).
Proof.
  intros Hinit. unfold on_change, bind, this. rewrite Hinit. reflexivity.
Qed.

Lemma on_change_before_initialized_witness :
  initialized Sample.waiting = false
  /\ on_change (H := Sample.collaborators)
       [{| change_type := "update"; currentPath := "person_id"; newValue := Data.JNum 7 |}]
       Sample.waiting Sample.caller_world
     = (Ok tt, Sample.waiting, Sample.caller_world).
Proof.
  split; [reflexivity |].
  apply (on_change_before_initialized (H := Sample.collaborators)). reflexivity.
Defined.

(** ** Rendering a quiescent instance *)

(** C6: on an initialized instance with an empty refresh list that has been
    fully rendered, [render()] returns the cached [jqDom] itself and changes
    nothing: no template is evaluated, no render method is called, no tree
    is created. *)
Theorem render_quiescent `{Collaborators} (me : instance) (w : world) :
  initialized me = true ->
  _refreshList me = Selectors [] ->
  initRendered me = true ->
  render me w = (Ok (jqDom me), me, w).
Proof.
  intros Hinit Hlist Hrendered.
  unfold render. cbv beta iota delta [bind this when update ret].
  rewrite Hinit. cbn. rewrite Hinit, Hlist, Hrendered. cbn.
  rewrite set_jqDom_same. reflexivity.
Qed.

Lemma render_quiescent_witness :
  initialized Sample.quiescent = true
  /\ _refreshList Sample.quiescent = Selectors []
  /\ initRendered Sample.quiescent = true
  /\ render (H := Sample.collaborators) Sample.quiescent Sample.rendered_world
     = (Ok (Dom.JQuery 0), Sample.quiescent, Sample.rendered_world).
Proof.
  do 3 (split; [reflexivity |]).
  apply (render_quiescent (H := Sample.collaborators) Sample.quiescent Sample.rendered_world);
    reflexivity.
Defined.

(** ** Registering a child in a named section *)

(** C8: with a section name given, registering something that is not an
    array throws, and neither the registry nor anything else has changed. *)
Theorem registerChild_not_array (id : nat) (sectionName : string)
    (me : instance) (w : world) :
  registerChild (ChildComponent id) (Some sectionName) me w
  = (Throw ConfigurationError, me, w).
Proof. reflexivity. Qed.

(** ** Full renders and the loading display *)


Lemma set_jqDom_twice (a b : Dom.jq) (me : instance) :
  set_jqDom b (set_jqDom a me) = set_jqDom b me.
Proof. destruct me; reflexivity. Qed.

Lemma render_pending_eq `{Collaborators} (me : instance) (w : world) :
  initialized me = false ->
  pendingInit me = true ->
  render me w =
    let '(r, me1, w1) := loading_view me w in
    match r with
    | Ok j => (Ok j, set_jqDom j me1, w1)
    | Throw e => (Throw e, me1, w1)
    end.
Proof.
  intros Hi Hp. unfold render. cbv beta iota delta [bind this when update ret].
  rewrite Hi, Hp. cbn. rewrite Hi, Hp. cbn.
  destruct (loading_view me w) as [[[j|e] me1] w1]; reflexivity.
Qed.

Lemma loading_view_eq `{Collaborators} (me : instance) (w : world) :
  loading_view me w =
    match _renderLoading (comp me) with
    | Some hook =>
        let w0 := set_trace (trace w ++ [Invoke (baseClassInstance me) "_renderLoading"]) w in
        (Ok (fst (hook (data_of w0 (_data me)) (jqs w0))), me,
         set_jqs (snd (hook (data_of w0 (_data me)) (jqs w0))) w0)
    | None =>
        let w0 := set_trace (trace w ++ [MustacheRender (loadingTemplate (comp me)) false]) w in
        (Ok (Dom.JQuery (next_tree (jqs w))), me,
         set_jqs (snd (alloc_tree (mustache_parse (loadingTemplate (comp me)) None) (jqs w0))) w0)
    end.
Proof.
  unfold loading_view. cbv beta iota delta [bind this log update_world].
  destruct (_renderLoading (comp me)) as [hook|]; cbn.
  - unfold run_hook. destruct (hook _ _); reflexivity.
  - reflexivity.
Qed.


Lemma checked_render_eq `{Collaborators} (me : instance) (w : world) :
  checked_render me w =
    let '(r, me1, w1) := _render me w in
    match r with
    | Throw e => (Throw e, me1, w1)
    | Ok j =>
        match j with
        | Dom.JQuery root =>
            if accepted (jqs w1) j then (Ok (j, root), me1, w1)
            else (Throw RenderContractViolation, me1, w1)
        | _ => (Throw (refusal j), me1, w1)
        end
    end.
Proof.
  unfold checked_render. cbv beta iota delta [bind the_world].
  destruct (_render me w) as [[[j|e] me1] w1]; [|reflexivity].
  destruct j as [| | |root]; try reflexivity.
  unfold render_check, accepted.
  destruct (tree_of (jqs w1) root) as [|n t]; [reflexivity|].
  cbn. destruct (Dom.is_element n); reflexivity.
Qed.

Lemma _render_keeps_me `{Collaborators} (me : instance) (w : world) r me1 w1 :
  _render me w = (r, me1, w1) -> me1 = me.
Proof.
  unfold _render. cbv beta iota delta [bind this the_world log update_world throw].
  destruct (_render_override (comp me)) as [hook|].
  - unfold run_hook. cbn. destruct (hook _ _). intros [= _ <- _]. reflexivity.
  - destruct (templates (comp me)) as [|[k tpl] rest]; cbn; intros [= _ <- _]; reflexivity.
Qed.

Lemma insertChildren_none `{Collaborators} (root : nat) (me : instance) (w : world) :
  childComponents me = [("default", [])] ->
  _insertChildren root me w = (Ok [], me, w).
Proof.
  intros Hc. unfold _insertChildren, insert_children_with.
  cbv beta iota delta [bind this]. rewrite Hc. cbn. rewrite Hc. reflexivity.
Qed.

Lemma render_full_eq `{Collaborators} (me : instance) (w : world) :
  initialized me = true ->
  (_refreshList me <> Selectors [] \/ initRendered me = false) ->
  render me w =
    let '(r, me1, w1) := checked_render me w in
    match r with
    | Throw e => (Throw e, me1, w1)
    | Ok jr =>
       let '(r2, me2, w2) :=
         (insertedChildren <- _insertChildren (snd jr) ;;
          for_each (rev insertedChildren) anchor) me1 w1 in
       match r2 with
       | Throw e => (Throw e, me2, w2)
       | Ok _ => (Ok (fst jr), set_jqDom (fst jr) (set_initRendered true me2), w2)
       end
    end.
Proof.
  intros Hi Hfull. unfold render. cbv beta iota delta [bind this when update ret].
  rewrite Hi. cbn [negb andb]. cbv beta iota. rewrite Hi. cbn [negb andb]. cbv beta iota.
  assert (Hbranch :
    match _refreshList me, initRendered me with
    | Selectors [], true => true | _, _ => false end = false).
  { destruct Hfull as [Hl | Hr].
    - destruct (_refreshList me) as [|[|s l]]; try reflexivity. congruence.
    - rewrite Hr. destruct (_refreshList me) as [|[|s l]]; reflexivity. }
  clear Hfull.
  destruct (_refreshList me) as [|[|s l]]; [| destruct (initRendered me); [discriminate|] |].
  all: destruct (checked_render me w) as [[[jr|e] me1] w1]; [|reflexivity].
  all: destruct (_insertChildren (snd jr) me1 w1) as [[[ins|e] me2] w2]; [|reflexivity].
  all: destruct (for_each (rev ins) anchor me2 w2) as [[[u|e] me3] w3]; reflexivity.
Qed.


(** C3, as stated, fails: a [_render] that returns two sibling root
    elements passes the check; [render()] returns the two-rooted result,
    caches it and marks the instance as rendered. *)
Lemma render_accepts_two_roots :
  let '(r, me1, w1) := render (H := Sample.collaborators) Sample.siblings Sample.caller_world in
  initialized Sample.siblings = true
  /\ initRendered Sample.siblings = false
  /\ r = Ok (Dom.JQuery 0)
  /\ length (tree_of (jqs w1) 0) = 2
  /\ jqDom me1 = Dom.JQuery 0
  /\ initRendered me1 = true.
Proof. vm_compute. repeat split; reflexivity. Qed.

(** C3, amended: in a full render of an initialized instance the result of
    [_render] is checked for being a non-empty jQuery object whose first
    item is an element.  A result that is not ([null], [undefined], not a
    jQuery object, empty, or starting with something that is no element) makes
    [render()] throw at once, with the instance left as it was; a result that
    is passes the check however many roots it has, and without registered
    children [render()] then returns it, caches it and sets [initRendered]. *)
Theorem render_checks_first_root `{Collaborators} (me : instance) (w : world)
    (j : Dom.jq) (me1 : instance) (w1 : world) :
  initialized me = true ->
  (_refreshList me <> Selectors [] \/ initRendered me = false) ->
  _render me w = (Ok j, me1, w1) ->
  (accepted (jqs w1) j = false -> render me w = (Throw (refusal j), me, w1))
  /\ (accepted (jqs w1) j = true ->
      exists root, j = Dom.JQuery root
        /\ checked_render me w = (Ok (j, root), me, w1)
        /\ (childComponents me = [("default", [])] ->
            render me w = (Ok j, set_jqDom j (set_initRendered true me), w1))).
Proof.
  intros Hi Hfull Hr.
  pose proof (_render_keeps_me _ _ _ _ _ Hr) as ->.
  pose proof (checked_render_eq me w) as Hc. rewrite Hr in Hc. cbv beta iota in Hc.
  split; intros Hacc.
  - rewrite (render_full_eq me w Hi Hfull), Hc.
    destruct j as [| | |root]; try reflexivity.
    rewrite Hacc. reflexivity.
  - destruct j as [| | |root]; try discriminate.
    rewrite Hacc in Hc. exists root. split; [reflexivity|]. split; [exact Hc|].
    intros Hkids. rewrite (render_full_eq me w Hi Hfull), Hc.
    cbv beta iota delta [bind]. rewrite (insertChildren_none _ _ _ Hkids). reflexivity.
Qed.

Lemma render_checks_first_root_witness :
  initialized Sample.siblings = true
  /\ initRendered Sample.siblings = false
  /\ accepted (jqs (snd (_render (H := Sample.collaborators) Sample.siblings Sample.caller_world)))
       (Dom.JQuery 0) = true
  /\ exists root, Dom.JQuery 0 = Dom.JQuery root
       /\ checked_render (H := Sample.collaborators) Sample.siblings Sample.caller_world
          = (Ok (Dom.JQuery 0, root), Sample.siblings,
             snd (_render (H := Sample.collaborators) Sample.siblings Sample.caller_world)).
Proof.
  do 3 (split; [reflexivity |]).
  destruct (render_checks_first_root (H := Sample.collaborators)
              Sample.siblings Sample.caller_world (Dom.JQuery 0) Sample.siblings
              (snd (_render (H := Sample.collaborators) Sample.siblings Sample.caller_world)))
    as [_ Hacc]; [reflexivity | right; reflexivity | reflexivity |].
  destruct (Hacc eq_refl) as (root & Hj & Hc & _).
  exists root. split; assumption.
Defined.

(** C10, as stated, fails: with a [_renderLoading] that hands back a tree it
    kept, two consecutive calls of [render()] during a pending
    initialization return the same reference. *)
Lemma render_loading_same_reference :
  let '(r1, me1, w1) := render (H := Sample.collaborators) Sample.spinning Sample.caller_world in
  let '(r2, _, _) := render (H := Sample.collaborators) me1 w1 in
  initialized Sample.spinning = false /\ pendingInit Sample.spinning = true
  /\ initialized me1 = false /\ pendingInit me1 = true
  /\ r1 = Ok (Dom.JQuery 0)
  /\ r2 = r1.
Proof. vm_compute. repeat split; reflexivity. Qed.

(** C10, amended: while initialization is pending, [render()] returns the
    loading display, stores it in [jqDom] and leaves [initRendered] alone.
    The display is whatever [_renderLoading] returns when the component
    defines it; otherwise it is a tree newly built from the loading template,
    and then a second call returns a different reference, again stored in
    [jqDom] without touching [initRendered]. *)
Theorem render_while_pending `{Collaborators} (me : instance) (w : world) :
  initialized me = false ->
  pendingInit me = true ->
  exists j w1,
    render me w = (Ok j, set_jqDom j me, w1)
    /\ initRendered (set_jqDom j me) = initRendered me
    /\ match _renderLoading (comp me) with
       | Some hook => j = fst (hook (data_of w (_data me)) (jqs w))
       | None =>
           j = Dom.JQuery (next_tree (jqs w))
           /\ trees (jqs w1) !! next_tree (jqs w)
              = Some (mustache_parse (loadingTemplate (comp me)) None)
           /\ exists j2 w2,
                render (set_jqDom j me) w1 = (Ok j2, set_jqDom j2 me, w2)
                /\ initRendered (set_jqDom j2 me) = initRendered me
                /\ j2 <> j
       end.
Proof.
  intros Hi Hp.
  rewrite (render_pending_eq me w Hi Hp), loading_view_eq.
  destruct (_renderLoading (comp me)) as [hook|] eqn:Hhook.
  - eexists _, _. split; [reflexivity|]. split; [destruct me; reflexivity|]. reflexivity.
  - eexists _, _. split; [reflexivity|]. split; [destruct me; reflexivity|].
    split; [reflexivity|]. split; [cbn; apply lookup_insert_eq|].
    rewrite (render_pending_eq (set_jqDom _ me)); [| destruct me; exact Hi | destruct me; exact Hp].
    rewrite loading_view_eq.
    replace (_renderLoading (comp (set_jqDom (Dom.JQuery (next_tree (jqs w))) me)))
      with (@None render_hook) by (destruct me; cbn in *; congruence).
    eexists _, _. split; [cbv beta iota zeta; rewrite set_jqDom_twice; reflexivity|].
    split; [destruct me; reflexivity|].
    cbn. intros [= Heq]. lia.
Qed.

Lemma render_while_pending_witness :
  initialized Sample.waiting = false
  /\ pendingInit Sample.waiting = true
  /\ exists j w1,
       render (H := Sample.collaborators) Sample.waiting Sample.caller_world
       = (Ok j, set_jqDom j Sample.waiting, w1)
       /\ j = Dom.JQuery 0.
Proof.
  do 2 (split; [reflexivity |]).
  destruct (render_while_pending (H := Sample.collaborators) Sample.waiting Sample.caller_world)
    as (j & w1 & Hr & _ & Hj); [reflexivity | reflexivity |].
  exists j, w1. split; [exact Hr|]. exact (proj1 Hj).
Defined.


(** ** What the local methods do, in closed form *)

Lemma logged_nil (w : world) : logged [] w = w.
Proof. unfold logged. rewrite app_nil_r. destruct w; reflexivity. Qed.

Lemma logged_logged (a b : list effect) (w : world) :
  logged b (logged a w) = logged (a ++ b) w.
Proof. unfold logged. cbn. rewrite app_assoc. reflexivity. Qed.

Lemma start_tasks_eq (names : list string) (me : instance) (w : world) :
  start_tasks names me w
  = (Ok (forallb (callable (comp me)) names), me,
     logged (map (Invoke (baseClassInstance me)) (List.filter (callable (comp me)) names)) w).
Proof.
  unfold start_tasks. cbv beta iota delta [bind this ret].
  assert (Hloop : forall w,
    for_each names (fun name =>
      when (callable (comp me) name) (log (Invoke (baseClassInstance me) name))) me w
    = (Ok tt, me,
       logged (map (Invoke (baseClassInstance me)) (List.filter (callable (comp me)) names)) w)).
  { clear w. induction names as [|n names IH]; intros w; cbn.
    - rewrite logged_nil. reflexivity.
    - cbv beta iota delta [bind when log update_world ret].
      destruct (callable (comp me) n); cbn.
      + rewrite IH. fold (logged [Invoke (baseClassInstance me) n] w).
        rewrite logged_logged. reflexivity.
      + apply IH. }
  rewrite Hloop. reflexivity.
Qed.

Lemma _fetch_eq (delay : bool) (fetchList : list string) (me : instance) (w : world) :
  _fetch delay fetchList me w
  = let loadMask := delay && Nat.ltb 0 (length fetchList) in
    let me1 := if loadMask then set_delayRefresh delay me else me in
    let w1 := if loadMask then logged [Invoke (baseClassInstance me) "showLoadMask"] w else w in
    if Nat.ltb 0 (length fetchList) then
      (Ok tt,
       set_pendingFetchCount (pendingFetchCount me + 1)%Z me1,
       set_groups
         (groups w ++ [fetch_group delay fetchList me])
         (logged (map (Invoke (baseClassInstance me))
                    (List.filter (callable (comp me)) (rev fetchList))) w1))
    else (Ok tt, me1, w1).
Proof.
  unfold _fetch, fetch_group. cbv beta iota delta [bind this when update log update_world ret add_group].
  destruct (Nat.ltb 0 (length fetchList)) eqn:Hlen; rewrite ?andb_true_r, ?andb_false_r;
    [|reflexivity].
  destruct delay; cbn [andb]; cbv beta iota; rewrite start_tasks_eq; reflexivity.
Qed.

Lemma init_eq (me : instance) (w : world) :
  init me w
  = if negb (bindings_callable (comp me)) then (Throw ConfigurationError, me, w)
    else
      let items := selected_items (comp me) (data_of w (_data me)) in
      let active := List.filter preventRender items in
      let passive := List.filter (fun it => negb (preventRender it)) items in
      let group k l :=
        {| group_owner := baseClassInstance me;
           group_kind_of := k;
           group_viable := forallb (callable (comp me)) (map method l) |} in
      let w1 :=
        logged (map (Invoke (baseClassInstance me))
                  (List.filter (callable (comp me)) (map method items))) w in
      let me2 :=
        if Nat.ltb 0 (length active)
        then set_pendingInit true (set_pendingFetchCount (pendingFetchCount me + 1)%Z me)
        else set_initialized true me in
      let w2 :=
        if Nat.ltb 0 (length active)
        then set_groups (groups w1 ++ [group ActiveInit active]) w1
        else if callable (comp me) "_init"
             then logged [Invoke (baseClassInstance me) "_init"] w1
             else w1 in
      if Nat.ltb 0 (length passive)
      then (Ok tt,
            set_pendingFetchCount (pendingFetchCount me2 + 1)%Z me2,
            set_groups (groups w2 ++ [group PassiveInit passive]) w2)
      else (Ok tt, me2, w2).
Proof.
  unfold init.
  cbv beta iota delta [bind this the_world when update log update_world ret add_group throw].
  destruct (negb (bindings_callable (comp me))); [reflexivity|].
  cbv beta iota zeta. rewrite start_tasks_eq. cbv beta iota.
  destruct (Nat.ltb 0 (length (List.filter preventRender _)));
    destruct (Nat.ltb 0 (length (List.filter (fun it => negb (preventRender it)) _)));
    cbv beta iota; try reflexivity;
    destruct (callable (comp me) "_init"); reflexivity.
Qed.


(** ** The merge of the defaults into the caller's data *)

Lemma lookup_assign (n k : string) (v : Data.jsval) (t : Data.fields) :
  Data.lookup n (Data.assign k v t) = if String.eqb n k then Some v else Data.lookup n t.
Proof.
  induction t as [|[k' old] t IH]; cbn.
  - destruct (String.eqb n k); reflexivity.
  - destruct (String.eqb_spec k k') as [->|Hk]; cbn.
    + destruct (String.eqb n k'); reflexivity.
    + rewrite IH. destruct (String.eqb_spec n k') as [->|Hn]; [|reflexivity].
      destruct (String.eqb_spec k' k); [congruence | reflexivity].
Qed.

Lemma lookup_extend_absent (n : string) (fs t : Data.fields) :
  Data.lookup n fs = None -> Data.lookup n (Data.extend t fs) = Data.lookup n t.
Proof.
  revert t. induction fs as [|[k c] fs IH]; intros t Hn; cbn in *; [reflexivity|].
  destruct (String.eqb_spec n k) as [->|Hk]; [discriminate|].
  destruct (Data.merged_value (Data.lookup k t) c) as [m|]; rewrite IH by assumption;
    [|reflexivity].
  rewrite lookup_assign. destruct (String.eqb_spec n k); [congruence | reflexivity].
Qed.

Lemma lookup_none_absent (n : string) (fs : Data.fields) :
  existsb (String.eqb n) (map fst fs) = false -> Data.lookup n fs = None.
Proof.
  induction fs as [|[k c] fs IH]; cbn; [reflexivity|].
  destruct (String.eqb n k); cbn; [discriminate | exact IH].
Qed.

Lemma lookup_extend_present (n : string) (c : Data.jsval) (fs t : Data.fields) :
  Data.distinct (map fst fs) = true ->
  Data.lookup n fs = Some c ->
  Data.lookup n (Data.extend t fs)
  = match Data.merged_value (Data.lookup n t) c with
    | Some m => Some m
    | None => Data.lookup n t
    end.
Proof.
  revert t. induction fs as [|[k c'] fs IH]; intros t Hd Hn; cbn in *; [discriminate|].
  apply andb_prop in Hd as [Hk Hd]. apply negb_true_iff in Hk.
  destruct (String.eqb_spec n k) as [->|Hnk].
  - injection Hn as ->.
    pose proof (lookup_none_absent k fs Hk) as Habs.
    destruct (Data.merged_value (Data.lookup k t) c) as [m|];
      rewrite lookup_extend_absent by assumption; [|reflexivity].
    rewrite lookup_assign, String.eqb_refl. reflexivity.
  - destruct (Data.merged_value (Data.lookup k t) c') as [m|]; rewrite IH by assumption;
      [|reflexivity].
    rewrite lookup_assign. destruct (String.eqb_spec n k); [congruence | reflexivity].
Qed.

Lemma existsb_assign (n k : string) (v : Data.jsval) (t : Data.fields) :
  existsb (String.eqb n) (map fst (Data.assign k v t))
  = String.eqb n k || existsb (String.eqb n) (map fst t).
Proof.
  induction t as [|[k' old] t IH]; cbn.
  - reflexivity.
  - destruct (String.eqb_spec k k') as [->|Hk]; cbn.
    + destruct (String.eqb n k'); reflexivity.
    + rewrite IH. destruct (String.eqb n k'), (String.eqb n k); reflexivity.
Qed.

Lemma distinct_assign (k : string) (v : Data.jsval) (t : Data.fields) :
  Data.distinct (map fst t) = true -> Data.distinct (map fst (Data.assign k v t)) = true.
Proof.
  induction t as [|[k' old] t IH]; cbn; intros Hd; [reflexivity|].
  apply andb_prop in Hd as [Hk Hd].
  destruct (String.eqb_spec k k') as [->|Hne]; cbn.
  - rewrite Hk, Hd. reflexivity.
  - rewrite existsb_assign, (IH Hd).
    destruct (String.eqb_spec k' k); [congruence|]. cbn. rewrite Hk. reflexivity.
Qed.

Lemma distinct_extend (fs t : Data.fields) :
  Data.distinct (map fst t) = true -> Data.distinct (map fst (Data.extend t fs)) = true.
Proof.
  revert t. induction fs as [|[k c] fs IH]; intros t Hd; cbn; [exact Hd|].
  destruct (Data.merged_value (Data.lookup k t) c); apply IH;
    [apply distinct_assign|]; exact Hd.
Qed.

Lemma merged_value_fresh (c : Data.jsval) :
  Data.merged_value None c
  = match c with Data.JUndef => None | _ => Some (Data.clone c) end.
Proof. destruct c; reflexivity. Qed.

Lemma clone_not_undefined (v : Data.jsval) : v <> Data.JUndef -> Data.clone v <> Data.JUndef.
Proof. destruct v; cbn; congruence. Qed.

Lemma read_extend_fresh (n : string) (fs : Data.fields) :
  Data.distinct (map fst fs) = true ->
  Data.read n (Data.extend [] fs) = Data.clone (Data.read n fs).
Proof.
  intros Hd. unfold Data.read.
  destruct (Data.lookup n fs) as [c|] eqn:Hc.
  - rewrite (lookup_extend_present n c fs [] Hd Hc), merged_value_fresh.
    destruct c; reflexivity.
  - rewrite lookup_extend_absent by assumption. reflexivity.
Qed.

Lemma wf_fields (a : bool) (fs : Data.fields) :
  Data.wf (Data.JColl a fs) = true ->
  Data.distinct (map fst fs) = true
  /\ forall n, Data.wf (Data.read n fs) = true.
Proof.
  cbn. intros Hwf. apply andb_prop in Hwf as [Hd Hall]. split; [exact Hd|].
  intros n. unfold Data.read. clear Hd.
  induction fs as [|[k x] fs IH]; cbn; [reflexivity|].
  apply andb_prop in Hall as [Hx Hall].
  destruct (String.eqb n k); [exact Hx | exact (IH Hall)].
Qed.

(** Cloning any number of times keeps the property names distinct. *)
Lemma clones_fields (n : nat) (a : bool) (fs : Data.fields) :
  Data.distinct (map fst fs) = true ->
  exists fs', Data.clones n (Data.JColl a fs) = Data.JColl a fs'
              /\ Data.distinct (map fst fs') = true.
Proof.
  intros Hd. induction n as [|n (fs' & Heq & Hd')]; cbn.
  - exists fs. split; [reflexivity | exact Hd].
  - rewrite Heq. cbn. eexists. split; [reflexivity|]. apply distinct_extend. reflexivity.
Qed.

Lemma clones_atom (n : nat) (v : Data.jsval) :
  Data.fields_of v = [] -> Data.shallow v = v -> Data.clones n v = v.
Proof.
  intros Hf Hs. induction n as [|n IH]; cbn; [reflexivity|]. rewrite IH.
  destruct v; try reflexivity. cbn in Hf. subst. reflexivity.
Qed.

Lemma read_clones (k : nat) (n : string) (v : Data.jsval) :
  Data.wf v = true ->
  Data.read n (Data.fields_of (Data.clones k v))
  = Data.clones k (Data.read n (Data.fields_of v)).
Proof.
  intros Hwf. induction k as [|k IH]; [reflexivity|].
  destruct v as [| | | | | |a fs];
    try (rewrite clones_atom by reflexivity; cbn;
         rewrite clones_atom by reflexivity; reflexivity).
  destruct (wf_fields a fs Hwf) as [Hd _].
  destruct (clones_fields k a fs Hd) as (fs' & Heq & Hd').
  cbn [Data.clones]. rewrite Heq in *. cbn [Data.clone Data.fields_of] in *.
  rewrite (read_extend_fresh n fs' Hd'), IH. reflexivity.
Qed.

Lemma shallow_clones (k : nat) (v : Data.jsval) :
  Data.shallow (Data.clones k v) = Data.shallow v.
Proof.
  induction k as [|k IH]; cbn; [reflexivity|]. rewrite <- IH.
  destruct (Data.clones k v); reflexivity.
Qed.

(** A clone of a clone ... of a value reads like the value along every
    path. *)
Lemma read_path_clones (k : nat) (p : list string) (v : Data.jsval) :
  Data.wf v = true ->
  Data.shallow (Data.read_path p (Data.clones k v))
  = Data.shallow (Data.read_path p v).
Proof.
  revert v. induction p as [|n p IH]; intros v Hwf; cbn.
  - apply shallow_clones.
  - rewrite (read_clones k n v Hwf). apply IH.
    destruct v as [| | | | | |a fs]; try reflexivity.
    apply (wf_fields a fs Hwf).
Qed.

Lemma decimal_inj (n m : nat) : Js.decimal n = Js.decimal m -> n = m.
Proof.
  unfold Js.decimal. intros Heq. apply Unsigned.to_uint_inj.
  apply (f_equal NilEmpty.uint_of_string) in Heq. rewrite !NilEmpty.usu in Heq.
  congruence.
Qed.

Lemma chars_from_names (i : nat) (s : string) (k : string) :
  In k (map fst (Data.chars_from i s)) -> exists m, i <= m /\ k = Js.decimal m.
Proof.
  revert i. induction s as [|c s IH]; intros i; cbn [Data.chars_from map fst In]; [intros []|].
  intros [<-|Hin]; [exists i; split; [lia | reflexivity]|].
  destruct (IH _ Hin) as (m & Hm & ->). exists m. split; [lia | reflexivity].
Qed.

Lemma chars_from_distinct (i : nat) (s : string) :
  Data.distinct (map fst (Data.chars_from i s)) = true.
Proof.
  revert i. induction s as [|c s IH]; intros i; cbn [Data.chars_from map fst Data.distinct];
    [reflexivity|].
  rewrite IH, andb_true_r. apply negb_true_iff.
  destruct (existsb (String.eqb (Js.decimal i)) (map fst (Data.chars_from (S i) s))) eqn:Hex;
    [|reflexivity].
  apply existsb_exists in Hex as (k & Hk & Heq). apply String.eqb_eq in Heq. subst k.
  apply chars_from_names in Hk as (m & Hm & Heq). apply decimal_inj in Heq. lia.
Qed.

Lemma chars_from_atoms (i : nat) (s : string) (n : string) :
  Data.wf (Data.read n (Data.chars_from i s)) = true.
Proof.
  unfold Data.read. revert i.
  induction s as [|c s IH]; intros i; cbn [Data.chars_from Data.lookup]; [reflexivity|].
  destruct (String.eqb n (Js.decimal i)); [reflexivity | apply IH].
Qed.

(** What a well-formed value lists has distinct names and well-formed
    values. *)
Lemma wf_enumerable (v : Data.jsval) :
  Data.wf v = true ->
  Data.distinct (map fst (Data.enumerable v)) = true
  /\ forall n, Data.wf (Data.read n (Data.enumerable v)) = true.
Proof.
  intros Hwf. destruct v as [| | | |s| |a fs]; try (split; [reflexivity | intros n; reflexivity]).
  - split; [apply chars_from_distinct | apply chars_from_atoms].
  - exact (wf_fields a fs Hwf).
Qed.

Lemma merged_value_coll (src : option Data.jsval) (a : bool) (cfs : Data.fields) :
  Data.merged_value src (Data.JColl a cfs)
  = Some (Data.JColl a
            (Data.extend
               match src with
               | Some (Data.JColl a' sfs) => if Bool.eqb a a' then sfs else []
               | _ => []
               end cfs)).
Proof. reflexivity. Qed.

Lemma lookup_clone_table (k : string) (fs : Data.fields) :
  Data.distinct (map fst fs) = true ->
  Data.lookup k (Data.extend [] fs)
  = match Data.read k fs with
    | Data.JUndef => None
    | d => Some (Data.clone d)
    end.
Proof.
  intros Hd. unfold Data.read. destruct (Data.lookup k fs) as [d|] eqn:Hk.
  - rewrite (lookup_extend_present k d fs [] Hd Hk), merged_value_fresh.
    destruct d; reflexivity.
  - rewrite lookup_extend_absent by exact Hk. reflexivity.
Qed.

(** The default that is merged into a collection of the caller's: the
    default's collection when it is of the same kind, nothing otherwise. *)
Lemma read_merge_defaults (dd : Data.jsval) (c : Data.fields) (k : string) :
  Data.distinct (map fst c) = true ->
  Data.distinct (map fst (Data.enumerable dd)) = true ->
  Data.read k (merge_defaults dd c)
  = match Data.lookup k c with
    | Some (Data.JColl a cfs) =>
        Data.JColl a
          (merge_defaults
             match Data.read k (Data.enumerable dd) with
             | Data.JColl a' dfs => if Bool.eqb a a' then Data.JColl a' dfs else Data.JUndef
             | _ => Data.JUndef
             end cfs)
    | Some Data.JUndef | None => Data.clone (Data.clone (Data.read k (Data.enumerable dd)))
    | Some x => x
    end.
Proof.
  intros Hc Hd. unfold merge_defaults at 1.
  set (base := Data.extend [] (Data.enumerable dd)).
  assert (Hbase : Data.lookup k base
                  = match Data.read k (Data.enumerable dd) with
                    | Data.JUndef => None
                    | d => Some (Data.clone d)
                    end) by (apply lookup_clone_table; exact Hd).
  assert (Hs : Data.distinct (map fst (Data.extend base c)) = true)
    by (apply distinct_extend, distinct_extend; reflexivity).
  assert (Hsuper : Data.lookup k (Data.extend base c)
                   = match Data.lookup k c with
                     | Some x =>
                         match Data.merged_value (Data.lookup k base) x with
                         | Some m => Some m
                         | None => Data.lookup k base
                         end
                     | None => Data.lookup k base
                     end).
  { destruct (Data.lookup k c) as [x|] eqn:Hk.
    - exact (lookup_extend_present k x c base Hc Hk).
    - apply lookup_extend_absent. exact Hk. }
  unfold Data.read at 1.
  destruct (Data.lookup k (Data.extend base c)) as [y|] eqn:Hy.
  - rewrite (lookup_extend_present k y _ c Hs Hy).
    destruct (Data.lookup k c) as [x|] eqn:Hk.
    + destruct x as [| | | | | |a cfs].
      * (* the caller's property is undefined *)
        cbn [Data.merged_value] in Hsuper. rewrite Hbase in Hsuper.
        destruct (Data.read k (Data.enumerable dd)) as [| | | | | |a' dfs];
          try discriminate; injection Hsuper as ->; reflexivity.
      * cbn in Hsuper. injection Hsuper as ->. reflexivity.
      * cbn in Hsuper. injection Hsuper as ->. reflexivity.
      * cbn in Hsuper. injection Hsuper as ->. reflexivity.
      * cbn in Hsuper. injection Hsuper as ->. reflexivity.
      * cbn in Hsuper. injection Hsuper as ->. reflexivity.
      * (* the caller's property is a collection *)
        rewrite merged_value_coll in Hsuper. injection Hsuper as ->.
        rewrite merged_value_coll, Bool.eqb_reflx. rewrite Hbase.
        unfold merge_defaults.
        destruct (Data.read k (Data.enumerable dd)) as [| | | | | |a' dfs];
          try reflexivity.
        cbn [Data.clone]. destruct (Bool.eqb a a'); reflexivity.
    + rewrite Hbase in Hsuper.
      destruct (Data.read k (Data.enumerable dd)) as [| | | | | |a' dfs];
        try discriminate; injection Hsuper as ->; reflexivity.
  - rewrite lookup_extend_absent by exact Hy.
    destruct (Data.lookup k c) as [x|] eqn:Hk.
    + destruct (Data.merged_value (Data.lookup k base) x) as [m|] eqn:Hm; [discriminate|].
      destruct x; try discriminate. rewrite Hbase in Hsuper.
      destruct (Data.read k (Data.enumerable dd)); try discriminate. reflexivity.
    + rewrite Hbase in Hsuper.
      destruct (Data.read k (Data.enumerable dd)); try discriminate. reflexivity.
Qed.

Lemma read_path_undefined (p : list string) : Data.read_path p Data.JUndef = Data.JUndef.
Proof. induction p as [|k p IH]; [reflexivity | exact IH]. Qed.

Lemma read_path_atom (p : list string) (x : Data.jsval) :
  Data.fields_of x = [] ->
  Data.read_path p x <> Data.JUndef ->
  Data.read_path p x = x.
Proof.
  destruct p as [|k p]; [reflexivity|]. intros Hf Hne. cbn [Data.read_path] in *.
  rewrite Hf in *. cbn in Hne. rewrite read_path_undefined in Hne. congruence.
Qed.

Lemma wf_lookup (a : bool) (fs : Data.fields) (k : string) (x : Data.jsval) :
  Data.wf (Data.JColl a fs) = true -> Data.lookup k fs = Some x -> Data.wf x = true.
Proof.
  intros Hwf Hk. destruct (wf_fields a fs Hwf) as [_ Hall]. specialize (Hall k).
  unfold Data.read in Hall. rewrite Hk in Hall. exact Hall.
Qed.

(** What the caller's data held stays: along every path, a value of the
    caller's reads after the merge as it did before (a primitive as it is,
    an object or an array as one of the same kind). *)
Lemma merge_defaults_keeps (p : list string) :
  forall (a : bool) (dd : Data.jsval) (c : Data.fields),
    Data.wf dd = true ->
    Data.wf (Data.JColl a c) = true ->
    Data.read_path p (Data.JColl a c) <> Data.JUndef ->
    Data.shallow (Data.read_path p (Data.JColl a (merge_defaults dd c)))
    = Data.shallow (Data.read_path p (Data.JColl a c)).
Proof.
  induction p as [|k p IH]; intros a dd c Hdd Hc Hne; [reflexivity|].
  cbn [Data.read_path Data.fields_of] in *.
  destruct (wf_fields a c Hc) as [Hdc _].
  destruct (wf_enumerable dd Hdd) as [Hde Hall].
  rewrite (read_merge_defaults dd c k Hdc Hde).
  assert (Hread : Data.read k c = match Data.lookup k c with
                                  | Some x => x
                                  | None => Data.JUndef
                                  end) by reflexivity.
  rewrite Hread in *. clear Hread.
  destruct (Data.lookup k c) as [x|] eqn:Hk;
    [|rewrite read_path_undefined in Hne; congruence].
  pose proof (wf_lookup a c k x Hc Hk) as Hx.
  destruct x as [| | | | | |a' cfs]; try reflexivity.
  - rewrite read_path_undefined in Hne. congruence.
  - apply IH; [|exact Hx | exact Hne].
    specialize (Hall k).
    destruct (Data.read k (Data.enumerable dd)) as [| | | | | |a2 dfs]; try reflexivity.
    destruct (Bool.eqb a' a2); [exact Hall | reflexivity].
Qed.

(** What the caller's data lacked is filled in: where the caller's data
    lacks a value the defaults could supply, it reads after the merge like
    the defaults, along that path and below it. *)
Lemma merge_defaults_fills (q : list string) :
  forall (a : bool) (dd : Data.jsval) (c : Data.fields) (p : list string),
    Data.wf dd = true ->
    Data.wf (Data.JColl a c) = true ->
    Data.lacks q c (Data.enumerable dd) = true ->
    Data.shallow (Data.read_path (q ++ p) (Data.JColl a (merge_defaults dd c)))
    = Data.shallow (Data.read_path (q ++ p) (Data.JColl a (Data.enumerable dd))).
Proof.
  induction q as [|k q IH]; intros a dd c p Hdd Hc Hlacks; [discriminate|].
  cbn [app Data.read_path Data.fields_of Data.lacks] in *.
  destruct (wf_fields a c Hc) as [Hdc _].
  destruct (wf_enumerable dd Hdd) as [Hde Hall].
  rewrite (read_merge_defaults dd c k Hdc Hde).
  assert (Hclone : Data.shallow
                     (Data.read_path (q ++ p)
                        (Data.clone (Data.clone (Data.read k (Data.enumerable dd)))))
                   = Data.shallow
                       (Data.read_path (q ++ p) (Data.read k (Data.enumerable dd))))
    by exact (read_path_clones 2 (q ++ p) _ (Hall k)).
  destruct (Data.lookup k c) as [x|] eqn:Hk; [|exact Hclone].
  pose proof (wf_lookup a c k x Hc Hk) as Hx.
  destruct x as [| | | | | |a' cfs]; try discriminate; [exact Hclone|].
  specialize (Hall k).
  destruct (Data.read k (Data.enumerable dd)) as [| | | | | |a2 dfs]; try discriminate.
  apply andb_prop in Hlacks as [Hkind Hlacks]. rewrite Hkind.
  apply Bool.eqb_prop in Hkind. subst a2.
  exact (IH a' (Data.JColl a' dfs) cfs p Hall Hx Hlacks).
Qed.

(** A default the caller's data lacks arrives in it, as a clone of a
    clone. *)
Lemma merge_defaults_missing (dd : Data.jsval) (data : Data.fields)
    (k : string) (v : Data.jsval) :
  Data.wf dd = true ->
  Data.lookup k (Data.enumerable dd) = Some v ->
  v <> Data.JUndef ->
  Data.lookup k data = None ->
  Data.lookup k (merge_defaults dd data) = Some (Data.clone (Data.clone v)).
Proof.
  intros Hwf Hk Hv Habs. unfold merge_defaults.
  destruct (wf_enumerable dd Hwf) as [Hd _].
  assert (Hsuper : Data.lookup k
            (Data.extend (Data.extend [] (Data.enumerable dd)) data)
          = Some (Data.clone v)).
  { rewrite lookup_extend_absent by assumption.
    rewrite (lookup_extend_present k v _ [] Hd Hk), merged_value_fresh.
    destruct v; congruence. }
  rewrite (lookup_extend_present k (Data.clone v) _ data); [| | exact Hsuper].
  - rewrite Habs, merged_value_fresh.
    pose proof (clone_not_undefined v Hv). destruct (Data.clone v); congruence.
  - apply distinct_extend, distinct_extend. reflexivity.
Qed.

(** A default whose value is [undefined] is skipped by the merge; the
    caller's data keeps lacking it, and so reads [undefined] there too. *)
Lemma merge_defaults_undefined (dd : Data.jsval) (data : Data.fields) (k : string) :
  Data.wf dd = true ->
  Data.lookup k (Data.enumerable dd) = Some Data.JUndef ->
  Data.lookup k data = None ->
  Data.lookup k (merge_defaults dd data) = None.
Proof.
  intros Hwf Hk Habs. unfold merge_defaults.
  destruct (wf_enumerable dd Hwf) as [Hd _].
  assert (Hsuper : Data.lookup k
            (Data.extend (Data.extend [] (Data.enumerable dd)) data) = None).
  { rewrite lookup_extend_absent by assumption.
    rewrite (lookup_extend_present k Data.JUndef _ [] Hd Hk). reflexivity. }
  rewrite lookup_extend_absent by exact Hsuper. exact Habs.
Qed.

Lemma shallow_string (v : Data.jsval) (s : string) :
  Data.shallow v = Data.JStr s -> v = Data.JStr s.
Proof. destruct v; cbn; congruence. Qed.

Lemma jsval_undefined_dec (v : Data.jsval) : {v = Data.JUndef} + {v <> Data.JUndef}.
Proof. destruct v; (left; reflexivity) || (right; discriminate). Qed.

Lemma on_change_eq `{Collaborators} (changes : list change) (me : instance) (w : world) :
  on_change changes me w
  = if initialized me then
      let r := fst (resolve (comp me) changes (_refreshList me)) in
      let delay := fst (snd (resolve (comp me) changes (_refreshList me))) in
      let fetchList := snd (snd (resolve (comp me) changes (_refreshList me))) in
      let '(_, me1, w1) := _fetch delay fetchList (set_refreshList r me) w in
      if refresh_pending r
      then (Ok tt, set_pendingRefresh true me1,
            set_sched (queueRefresh (baseClassInstance me) (Js.VFun (baseClassInstance me))
                         (sched w1)) w1)
      else (Ok tt, me1, w1)
    else (Ok tt, me, w).
Proof.
  unfold on_change. cbv beta iota delta [bind this].
  destruct (initialized me); [|reflexivity].
  destruct (resolve (comp me) changes (_refreshList me)) as [r [delay fetchList]].
  cbv beta iota delta [bind this when update ret queue_own_refresh update_world fst snd].
  rewrite _fetch_eq. cbv zeta.
  destruct (Nat.ltb 0 (length fetchList)); destruct delay; cbn [andb]; cbv beta iota;
    destruct (refresh_pending r) eqn:Hp; cbn; rewrite ?Hp; reflexivity.
Qed.

Lemma _fetch_keeps_objects (delay : bool) (fetchList : list string) (me : instance) (w : world) :
  objects (snd (_fetch delay fetchList me w)) = objects w
  /\ _data (snd (fst (_fetch delay fetchList me w))) = _data me.
Proof.
  rewrite _fetch_eq. cbv zeta.
  destruct (Nat.ltb 0 (length fetchList)); destruct (delay && _); split; reflexivity.
Qed.

Lemma on_change_keeps_objects `{Collaborators} (changes : list change)
    (me : instance) (w : world) :
  objects (snd (on_change changes me w)) = objects w.
Proof.
  rewrite on_change_eq. destruct (initialized me); [|reflexivity]. cbv zeta.
  match goal with |- context [_fetch ?d ?l ?m w] =>
    pose proof (_fetch_keeps_objects d l m w) as [Ho _];
    destruct (_fetch d l m w) as [[r1 me1] w1] end.
  cbn in Ho. destruct (refresh_pending _); cbn; exact Ho.
Qed.

Lemma init_keeps (me : instance) (w : world) :
  objects (snd (init me w)) = objects w
  /\ _data (snd (fst (init me w))) = _data me
  /\ baseClassInstance (snd (fst (init me w))) = baseClassInstance me.
Proof.
  rewrite init_eq. cbv zeta.
  destruct (negb (bindings_callable (comp me))); [repeat split|].
  destruct (Nat.ltb 0 (length (List.filter preventRender _)));
    destruct (Nat.ltb 0 (length (List.filter (fun it => negb (preventRender it)) _)));
    try destruct (callable (comp me) "_init"); repeat split.
Qed.

(** Writing a property through the instance and reading it through the
    reference the instance keeps in [_data]. *)
Lemma set_data_read `{Collaborators} (name : string) (v : Data.jsval)
    (me : instance) (w : world) :
  get_property (snd (set_data name v me w)) (_data me) name = v.
Proof.
  unfold set_data. cbv beta iota delta [bind this the_world update_world when ret].
  unfold get_property.
  destruct (observed me).
  - unfold fields_at at 1. rewrite on_change_keeps_objects. cbn. rewrite lookup_insert_eq. cbn.
    unfold Data.read. rewrite lookup_assign, String.eqb_refl. reflexivity.
  - unfold fields_at at 1. cbn. rewrite lookup_insert_eq. cbn.
    unfold Data.read. rewrite lookup_assign, String.eqb_refl. reflexivity.
Qed.

(** C9: a successful construction with the data object [r] stores [r]
    itself in [_data]; the object behind [r] has been extended in place by
    the deep merge of the defaults.  Every default field the caller's
    object lacked now reads there, along every property path, like the
    default (and is a property of that object, unless the default's value is
    [undefined], which the merge skips).  The merge is deep: whatever the
    caller's object held, at any depth, reads as before (a nested object of
    the caller's is merged into, not replaced), and where a nested object of
    the caller's lacks a field that the defaults' object of the same kind
    has, at any depth, that field now reads like the default.  A write made
    through the instance is read back through the caller's reference. *)
Theorem constructor_shares_data `{Collaborators} (a : construction) (r : nat)
    (w : world) (id : nat) (w' : world) :
  constructor a (DataObject r) w = (Ok id, w') ->
  exists me,
    instances w' !! id = Some me
    /\ _data me = r
    /\ objects w' !! r
       = Some (merge_defaults (defaults_data a) (fields_at w r))
    /\ (Data.wf (defaults_data a) = true ->
        forall k v,
          Data.lookup k (Data.enumerable (defaults_data a)) = Some v ->
          Data.lookup k (fields_at w r) = None ->
          (v <> Data.JUndef -> Data.lookup k (fields_at w' r) <> None)
          /\ forall p, Data.shallow (Data.read_path p (get_property w' r k))
                       = Data.shallow (Data.read_path p v))
    /\ (Data.wf (defaults_data a) = true ->
        Data.wf (Data.JColl false (fields_at w r)) = true ->
        (forall p,
           Data.read_path p (Data.JColl false (fields_at w r)) <> Data.JUndef ->
           Data.shallow (Data.read_path p (Data.JColl false (fields_at w' r)))
           = Data.shallow (Data.read_path p (Data.JColl false (fields_at w r))))
        /\ (forall q p,
              Data.lacks q (fields_at w r) (Data.enumerable (defaults_data a)) = true ->
              Data.shallow (Data.read_path (q ++ p) (Data.JColl false (fields_at w' r)))
              = Data.shallow
                  (Data.read_path (q ++ p)
                     (Data.JColl false (Data.enumerable (defaults_data a))))))
    /\ (forall name v, get_property (snd (set_data name v me w')) r name = v).
Proof.
  unfold constructor.
  destruct (resolve_templates (new_templates a)) as [tpls|e]; [|discriminate].
  set (w1 := set_objects _ w).
  set (w2 := set_factory_baseClassInstance _ w1).
  set (me0 := {| comp := _; baseClassInstance := factory_baseClassInstance w1 |}).
  assert (Hfinish : forall me1 w3,
    _data me1 = r -> baseClassInstance me1 = factory_baseClassInstance w1 ->
    objects w3 = objects w2 ->
    (Ok (factory_baseClassInstance w1), put me1 w3) = (Ok id, w') ->
    exists me,
      instances w' !! id = Some me /\ _data me = r
      /\ objects w' !! r
         = Some (merge_defaults (defaults_data a) (fields_at w r))
      /\ (Data.wf (defaults_data a) = true ->
          forall k v,
            Data.lookup k (Data.enumerable (defaults_data a)) = Some v ->
            Data.lookup k (fields_at w r) = None ->
            (v <> Data.JUndef -> Data.lookup k (fields_at w' r) <> None)
            /\ forall p, Data.shallow (Data.read_path p (get_property w' r k))
                         = Data.shallow (Data.read_path p v))
      /\ (Data.wf (defaults_data a) = true ->
          Data.wf (Data.JColl false (fields_at w r)) = true ->
          (forall p,
             Data.read_path p (Data.JColl false (fields_at w r)) <> Data.JUndef ->
             Data.shallow (Data.read_path p (Data.JColl false (fields_at w' r)))
             = Data.shallow (Data.read_path p (Data.JColl false (fields_at w r))))
          /\ (forall q p,
                Data.lacks q (fields_at w r) (Data.enumerable (defaults_data a)) = true ->
                Data.shallow (Data.read_path (q ++ p) (Data.JColl false (fields_at w' r)))
                = Data.shallow
                    (Data.read_path (q ++ p)
                       (Data.JColl false (Data.enumerable (defaults_data a))))))
      /\ (forall name v, get_property (snd (set_data name v me w')) r name = v)).
  { intros me1 w3 Hdata Hid Hobj [= <- <-].
    assert (Hr : objects (put me1 w3) !! r
                 = Some (merge_defaults (defaults_data a) (fields_at w r))).
    { cbn. rewrite Hobj. cbn. apply lookup_insert_eq. }
    assert (Hf : fields_at (put me1 w3) r
                 = merge_defaults (defaults_data a) (fields_at w r)).
    { unfold fields_at at 1. cbn. rewrite Hobj. cbn. rewrite lookup_insert_eq. reflexivity. }
    exists me1. split; [cbn; rewrite Hid; apply lookup_insert_eq|].
    split; [exact Hdata|]. split; [exact Hr|]. split; [|split].
    - intros Hwf k v Hk Habs. unfold get_property. rewrite Hf.
      destruct (jsval_undefined_dec v) as [->|Hv].
      + split; [congruence|]. intros p. unfold Data.read.
        rewrite (merge_defaults_undefined _ _ k Hwf Hk Habs). reflexivity.
      + unfold Data.read. rewrite (merge_defaults_missing _ _ k v Hwf Hk Hv Habs).
        split; [discriminate|]. intros p.
        apply (read_path_clones 2 p v).
        destruct (wf_enumerable _ Hwf) as [_ Hall]. specialize (Hall k).
        unfold Data.read in Hall. rewrite Hk in Hall. exact Hall.
    - intros Hwf Hc. rewrite Hf. split.
      + intros p Hp. exact (merge_defaults_keeps p false _ _ Hwf Hc Hp).
      + intros q p Hq. exact (merge_defaults_fills q false _ _ p Hwf Hc Hq).
    - intros name v. rewrite <- Hdata. apply set_data_read. }
  destruct (new_delayInit a).
  - apply Hfinish; reflexivity.
  - pose proof (init_keeps me0 w2) as (Ho & Hd & Hi).
    destruct (init me0 w2) as [[[u|e] me1] w3]; [|discriminate].
    apply Hfinish; assumption.
Qed.

Lemma constructor_shares_data_witness :
  exists me,
    instances (snd (constructor (H := Sample.collaborators) Sample.profiled (DataObject 0)
                      Sample.profiled_world)) !! 0 = Some me
    /\ _data me = 0
    /\ Data.read_path ["address"; "city"]
         (Data.JColl false
            (fields_at (snd (constructor (H := Sample.collaborators) Sample.profiled
                               (DataObject 0) Sample.profiled_world)) 0))
       = Data.JStr "Lyon"
    /\ Data.read_path ["address"; "zip"]
         (Data.JColl false
            (fields_at (snd (constructor (H := Sample.collaborators) Sample.profiled
                               (DataObject 0) Sample.profiled_world)) 0))
       = Data.JStr "75000".
Proof.
  destruct (constructor_shares_data (H := Sample.collaborators) Sample.profiled 0
              Sample.profiled_world 0
              (snd (constructor (H := Sample.collaborators) Sample.profiled (DataObject 0)
                      Sample.profiled_world)) eq_refl)
    as (me & Hme & Hdata & _ & _ & Hdeep & _).
  destruct (Hdeep eq_refl eq_refl) as [Hkeeps Hfills].
  exists me. split; [exact Hme|]. split; [exact Hdata|]. split.
  - apply shallow_string. rewrite (Hkeeps ["address"; "city"]); [reflexivity|].
    vm_compute. discriminate.
  - apply shallow_string.
    exact (Hfills ["address"; "zip"] [] eq_refl).
Defined.


(** ** Pruning the selector list *)

Lemma is_prefix_refl (p : Dom.path) : Dom.is_prefix p p = true.
Proof. induction p as [|i p IH]; cbn; [reflexivity|]. rewrite Nat.eqb_refl. exact IH. Qed.

Lemma is_prefix_trans (p q r : Dom.path) :
  Dom.is_prefix p q = true -> Dom.is_prefix q r = true -> Dom.is_prefix p r = true.
Proof.
  revert q r. induction p as [|i p IH]; intros [|j q] [|k r]; cbn; try congruence.
  intros Hpq Hqr. apply andb_prop in Hpq as [Hij Hpq]. apply andb_prop in Hqr as [Hjk Hqr].
  apply Nat.eqb_eq in Hij, Hjk. subst. rewrite Nat.eqb_refl. exact (IH _ _ Hpq Hqr).
Qed.

Lemma is_prefix_antisym (p q : Dom.path) :
  Dom.is_prefix p q = true -> Dom.is_prefix q p = true -> p = q.
Proof.
  revert q. induction p as [|i p IH]; intros [|j q]; cbn; try congruence.
  intros Hpq Hqp. apply andb_prop in Hpq as [Hij Hpq]. apply andb_prop in Hqp as [_ Hqp].
  apply Nat.eqb_eq in Hij. subst. f_equal. exact (IH _ Hpq Hqp).
Qed.

Lemma In_nth_error_iff {A} (x : A) (l : list A) :
  In x l <-> exists i, nth_error l i = Some x.
Proof.
  split.
  - apply In_nth_error.
  - intros [i Hi]. exact (nth_error_In _ _ Hi).
Qed.

Lemma In_splice1 (a : nat) (x : string) (l : list string) :
  In x (splice1 a l) -> In x l.
Proof.
  unfold splice1. rewrite in_app_iff. intros [Hx|Hx].
  - rewrite <- (firstn_skipn a l). apply in_or_app. left. exact Hx.
  - rewrite <- (firstn_skipn (S a) l). apply in_or_app. right. exact Hx.
Qed.

Lemma nth_error_splice1 (a i : nat) (x : string) (l : list string) :
  nth_error l i = Some x -> i <> a -> In x (splice1 a l).
Proof.
  intros Hi Hne. unfold splice1. apply in_or_app.
  destruct (Nat.lt_ge_cases i a) as [Hlt|Hge].
  - left. apply (nth_error_In _ i). rewrite nth_error_firstn.
    destruct (Nat.ltb_spec i a); [exact Hi | lia].
  - right. apply (nth_error_In _ (i - S a)). rewrite nth_error_skipn.
    replace (S a + (i - S a)) with i by lia. exact Hi.
Qed.

Lemma skipn_splice1 (a : nat) (l : list string) :
  a < length l -> skipn a (splice1 a l) = skipn (S a) l.
Proof.
  intros Ha. unfold splice1. rewrite skipn_app.
  rewrite skipn_all2 by (rewrite length_firstn; lia).
  rewrite length_firstn. replace (a - Nat.min a (length l)) with 0 by lia. reflexivity.
Qed.

Lemma length_splice1 (a : nat) (l : list string) :
  a < length l -> length (splice1 a l) = length l - 1.
Proof.
  intros Ha. unfold splice1. rewrite length_app, length_firstn, length_skipn. lia.
Qed.

Lemma skipn_nth_error {A} (a : nat) (x : A) (l : list A) :
  nth_error l a = Some x -> skipn a l = x :: skipn (S a) l.
Proof.
  revert l. induction a as [|a IH]; intros [|y l]; cbn; try discriminate.
  - intros [= ->]. reflexivity.
  - apply IH.
Qed.

Section Prune.

Context `{Collaborators}.
Variable roots : list Dom.node.

Lemma covered_false (l : list string) (a : nat) (dc : option Dom.path) (b : nat) :
  covered roots l a dc b = Ok false ->
  forall i, i < b -> i <> a ->
    exists e, match_at roots l i = Some e /\ Dom.contains e dc = false.
Proof.
  induction b as [|b IH]; cbn; intros Hc i Hi Hne; [lia|].
  destruct (Nat.eqb_spec a b) as [->|Hab].
  - apply IH; [exact Hc | lia | exact Hne].
  - destruct (match_at roots l b) as [e|] eqn:He; [|discriminate].
    destruct (Dom.contains e dc) eqn:Hcont; [discriminate|].
    destruct (Nat.eq_dec i b) as [->|Hib].
    + exists e. split; assumption.
    + apply IH; [exact Hc | lia | exact Hne].
Qed.

Lemma covered_true (l : list string) (a : nat) (dc : option Dom.path) (b : nat) :
  covered roots l a dc b = Ok true ->
  exists i e, i < b /\ i <> a /\ match_at roots l i = Some e /\ Dom.contains e dc = true.
Proof.
  induction b as [|b IH]; cbn; intros Hc; [discriminate|].
  destruct (Nat.eqb_spec a b) as [->|Hab].
  - destruct (IH Hc) as (i & e & Hi & Hne & He & Hcont). exists i, e. repeat split; auto.
  - destruct (match_at roots l b) as [e|] eqn:He; [|discriminate].
    destruct (Dom.contains e dc) eqn:Hcont.
    + exists b, e. repeat split; auto.
    + destruct (IH Hc) as (i & e' & Hi & Hne & He' & Hcont'). exists i, e'. repeat split; auto.
Qed.

Lemma match_at_nth (l : list string) (i : nat) (s : string) :
  nth_error l i = Some s -> match_at roots l i = first_match roots s.
Proof. unfold match_at. intros ->. reflexivity. Qed.

Lemma prune_invariant (a : nat) :
  forall l l',
    a <= length l ->
    prune roots a l = (Ok tt, l') ->
    (forall s, In s l' -> In s l)
    /\ (forall e, shaded roots l e -> shaded roots l' e)
    /\ ((forall s, In s (skipn a l) -> topmost roots l s) -> forall s, In s l' -> topmost roots l' s).
Proof.
  induction a as [|a IH]; intros l l' Ha Hp; cbn in Hp.
  - injection Hp as <-. repeat split; auto.
  - destruct (nth_error l a) as [sa|] eqn:Hsa;
      [| apply nth_error_None in Hsa; lia].
    destruct (covered roots l a (match_at roots l a) (length l)) as [[|]|e] eqn:Hc;
      [| |discriminate].
    + (* the selector at [a] is dropped *)
      destruct (covered_true _ _ _ _ Hc) as (i & ei & Hi & Hia & Hei & Hcont).
      destruct (nth_error l i) as [si|] eqn:Hsi;
        [| apply nth_error_None in Hsi; lia].
      rewrite (match_at_nth _ _ _ Hsa) in Hcont. rewrite (match_at_nth _ _ _ Hsi) in Hei.
      destruct (first_match roots sa) as [ea|] eqn:Hea; [|discriminate].
      cbn in Hcont.
      assert (Hlen : a < length l) by lia.
      destruct (IH (splice1 a l) l') as (Hsub & Hshade & Htop);
        [rewrite length_splice1; lia | exact Hp |].
      split; [intros s Hs; exact (In_splice1 _ _ _ (Hsub s Hs))|]. split.
      * intros e (u & eu & Hu & Heu & Hpre). apply Hshade.
        apply In_nth_error_iff in Hu as [j Hj].
        destruct (Nat.eq_dec j a) as [->|Hja].
        -- rewrite Hsa in Hj. injection Hj as <-. rewrite Hea in Heu. injection Heu as <-.
           exists si, ei. split; [exact (nth_error_splice1 _ _ _ _ Hsi Hia)|].
           split; [exact Hei|]. exact (is_prefix_trans _ _ _ Hcont Hpre).
        -- exists u, eu. split; [exact (nth_error_splice1 _ _ _ _ Hj Hja)|].
           split; assumption.
      * intros Hall. apply Htop. intros s Hs. rewrite skipn_splice1 in Hs by exact Hlen.
        intros u eu Hu. apply (Hall s Hs). exact (In_splice1 _ _ _ Hu).
    + (* the selector at [a] stays *)
      destruct (IH l l') as (Hsub & Hshade & Htop); [lia | exact Hp |].
      split; [exact Hsub|]. split; [exact Hshade|].
      intros Hall. apply Htop. intros s Hs.
      rewrite (skipn_nth_error _ _ _ Hsa) in Hs. destruct Hs as [<-|Hs]; [|exact (Hall s Hs)].
      intros u eu Hu Hne Heu.
      apply In_nth_error_iff in Hu as [j Hj].
      assert (Hja : j <> a) by (intros ->; congruence).
      assert (Hjl : j < length l) by (apply nth_error_Some; congruence).
      destruct (covered_false _ _ _ _ Hc j Hjl Hja) as (e & He & Hcont).
      rewrite (match_at_nth _ _ _ Hj), Heu in He. injection He as <-.
      rewrite (match_at_nth _ _ _ Hsa) in Hcont. exact Hcont.
Qed.

(** After the loop no selector is left whose element lies strictly below
    the element of another selector of the list the loop started with. *)
Lemma prune_drops_descendants (l l' : list string) (s s' : string) (e e' : Dom.path) :
  prune roots (length l) l = (Ok tt, l') ->
  In s l -> In s' l ->
  first_match roots s = Some e ->
  first_match roots s' = Some e' ->
  Dom.is_prefix e' e = true ->
  e' <> e ->
  ~ In s l'.
Proof.
  intros Hp Hs Hs' He He' Hpre Hne Hin.
  destruct (prune_invariant (length l) l l' (Nat.le_refl _) Hp) as (_ & Hshade & Htop).
  destruct (Hshade e') as (u & eu & Hu & Heu & Hue); [exists s', e'; auto using is_prefix_refl|].
  assert (Htops : topmost roots l' s).
  { apply Htop; [|exact Hin]. intros x Hx. rewrite skipn_all in Hx. destruct Hx. }
  pose proof (is_prefix_trans _ _ _ Hue Hpre) as Hu_e.
  destruct (String.eqb_spec u s) as [->|Hus].
  - rewrite He in Heu. injection Heu as <-.
    apply Hne. symmetry. exact (is_prefix_antisym _ _ Hue Hpre).
  - specialize (Htops u eu Hu Hus Heu). rewrite He in Htops. cbn in Htops. congruence.
Qed.

End Prune.

(** De-duplication keeps every selector. *)
Lemma indexOf_str_from_nth (s : string) (arr : list string) (pos i : nat) :
  Js.indexOf_str_from s arr pos = Some i ->
  pos <= i /\ nth_error arr (i - pos) = Some s.
Proof.
  revert pos. induction arr as [|x arr IH]; intros pos; cbn; [discriminate|].
  destruct (String.eqb_spec s x) as [->|Hne].
  - intros [= ->]. split; [lia|]. rewrite Nat.sub_diag. reflexivity.
  - intros Hi. destruct (IH _ Hi) as [Hle Hn]. split; [lia|].
    replace (i - pos) with (S (i - S pos)) by lia. exact Hn.
Qed.

Lemma indexOf_str_from_In (s : string) (arr : list string) (pos : nat) :
  In s arr -> exists i, Js.indexOf_str_from s arr pos = Some i.
Proof.
  revert pos. induction arr as [|x arr IH]; intros pos; cbn; [intros []|].
  destruct (String.eqb_spec s x) as [->|Hne].
  - eauto.
  - intros [Hx|Hin]; [congruence|]. apply IH. exact Hin.
Qed.

Lemma In_dedup_from (whole : list string) (s : string) (l : list string) (pos i : nat) :
  nth_error l i = Some s ->
  Js.indexOf_str s whole = Some (pos + i) ->
  In s (dedup_from whole pos l).
Proof.
  revert pos i. induction l as [|x l IH]; intros pos [|i]; cbn; try discriminate.
  - intros [= ->] Hidx. unfold first_at. rewrite Hidx, Nat.add_0_r, Nat.eqb_refl.
    left. reflexivity.
  - intros Hi Hidx. apply in_or_app. right. apply (IH (S pos) i Hi).
    rewrite Hidx. f_equal. lia.
Qed.

Lemma In_dedup (s : string) (l : list string) : In s l -> In s (dedup l).
Proof.
  intros Hin. destruct (indexOf_str_from_In s l 0 Hin) as [i Hi].
  destruct (indexOf_str_from_nth _ _ _ _ Hi) as [_ Hn]. rewrite Nat.sub_0_r in Hn.
  exact (In_dedup_from l s l 0 i Hn Hi).
Qed.

Lemma dedup_from_In (whole : list string) (s : string) (l : list string) (pos : nat) :
  In s (dedup_from whole pos l) -> In s l.
Proof.
  revert pos. induction l as [|x l IH]; intros pos; cbn; [auto|].
  rewrite in_app_iff. intros [Hx|Hx].
  - destruct (first_at whole x pos); [destruct Hx as [<-|[]]; auto | destruct Hx].
  - right. exact (IH _ Hx).
Qed.


(** ** Following a relation along a computation *)

Lemma put_id (me : instance) (W : world) :
  instances W !! baseClassInstance me = Some me -> put me W = W.
Proof. intros Hme. unfold put. rewrite insert_id by exact Hme. destruct W; reflexivity. Qed.

Lemma put_put (me me' : instance) (w : world) :
  baseClassInstance me' = baseClassInstance me -> put me' (put me w) = put me' w.
Proof. intros Hid. unfold put. cbn. rewrite Hid, insert_insert_eq. reflexivity. Qed.

Lemma put_lookup (me : instance) (w : world) :
  instances (put me w) !! baseClassInstance me = Some me.
Proof. cbn. apply lookup_insert_eq. Qed.

Lemma steady_refl (a : world) : steady a a.
Proof. repeat split; auto. Qed.

Lemma steady_trans (a b c : world) : steady a b -> steady b c -> steady a c.
Proof.
  intros (Hk1 & Hd1 & Hf1 & Hb1) (Hk2 & Hd2 & Hf2 & Hb2). repeat split.
  - auto.
  - intros Hs. apply Hd2, Hd1, Hs.
  - intros Hs. apply Hd1, Hd2, Hs.
  - congruence.
  - intros id. rewrite Hb2. apply Hb1.
Qed.

#[export] Instance steady_orderly : Orderly steady.
Proof. split; [exact steady_refl | exact steady_trans | auto]. Qed.

#[export] Instance frame_orderly : Orderly frame.
Proof.
  split.
  - intros a. repeat split; auto.
  - intros a b c (Hs1 & Hr1 & Hp1) (Hs2 & Hr2 & Hp2). split; [exact (steady_trans _ _ _ Hs1 Hs2)|].
    split; [intros id; rewrite Hr2; apply Hr1 | congruence].
  - intros a b [Hs _]. exact Hs.
Qed.

Section Relates.

Context (R : world -> world -> Prop) `{!Orderly R}.

Lemma relates_ret {A} (a : A) : relates R (ret a).
Proof. intros me w r me' w' _ [= <- <- <-]. split; [reflexivity | apply orderly_refl]. Qed.

Lemma relates_throw {A} (e : error) : relates R (throw (A := A) e).
Proof. intros me w r me' w' _ [= <- <- <-]. split; [reflexivity | apply orderly_refl]. Qed.

Lemma relates_this : relates R this.
Proof. intros me w r me' w' _ [= <- <- <-]. split; [reflexivity | apply orderly_refl]. Qed.

Lemma relates_the_world : relates R the_world.
Proof. intros me w r me' w' _ [= <- <- <-]. split; [reflexivity | apply orderly_refl]. Qed.

Lemma relates_bind {A B} (m : M A) (k : A -> M B) :
  relates R m -> (forall a, relates R (k a)) -> relates R (bind m k).
Proof.
  intros Hm Hk me w r me' w' Hkeyed Hrun. unfold bind in Hrun.
  destruct (m me w) as [[[a|e] me1] w1] eqn:Hm1.
  - destruct (Hm _ _ _ _ _ Hkeyed Hm1) as [Hid1 HR1].
    assert (Hkeyed1 : keyed (put me1 w1)).
    { apply (orderly_steady _ _ HR1). exact Hkeyed. }
    destruct (Hk a _ _ _ _ _ Hkeyed1 Hrun) as [Hid2 HR2].
    split; [congruence | exact (orderly_trans _ _ _ HR1 HR2)].
  - injection Hrun as <- <- <-. exact (Hm _ _ _ _ _ Hkeyed Hm1).
Qed.

Lemma relates_when (b : bool) (m : M unit) : relates R m -> relates R (when b m).
Proof. intros Hm. destruct b; [exact Hm | apply relates_ret]. Qed.

Lemma relates_for_each {A} (l : list A) (body : A -> M unit) :
  (forall x, relates R (body x)) -> relates R (for_each l body).
Proof.
  intros Hb. induction l as [|x l IH]; cbn; [apply relates_ret|].
  apply relates_bind; [apply Hb | intros _; exact IH].
Qed.

Lemma relates_fold_m {A B} (f : B -> A -> M B) (l : list A) (b : B) :
  (forall b x, relates R (f b x)) -> relates R (fold_m f l b).
Proof.
  intros Hf. revert b. induction l as [|x l IH]; intros b; cbn; [apply relates_ret|].
  apply relates_bind; [apply Hf | intros b'; apply IH].
Qed.

(** At the level of worlds. *)
Lemma relates_call {A} (id : nat) (m : M A) (W : world) :
  relates R m -> keyed W -> R W (snd (call id m W)).
Proof.
  intros Hm Hkeyed. unfold call.
  destruct (instances W !! id) as [me|] eqn:Hme; [|apply orderly_refl].
  pose proof (Hkeyed _ _ Hme) as Hid. subst id.
  pose proof (put_id me W Hme) as Hput.
  destruct (m me W) as [[r me'] w'] eqn:Hrun. cbn.
  rewrite <- Hput in Hkeyed.
  destruct (Hm _ _ _ _ _ Hkeyed Hrun) as [_ HR]. rewrite Hput in HR. exact HR.
Qed.

Lemma relates_call_other {A} (id : nat) (m : M A) :
  relates R m -> relates R (call_other id m).
Proof.
  intros Hm me w r me' w' Hkeyed Hrun. unfold call_other in Hrun.
  pose proof (relates_call id m (put me w) Hm Hkeyed) as HR.
  destruct (call id m (put me w)) as [r1 W1]. cbn in HR.
  injection Hrun as <- <- <-.
  pose proof (orderly_steady _ _ HR) as (Hk & Hd & _).
  destruct (proj1 (Hd (baseClassInstance me))) as [me1 Hme1];
    [rewrite put_lookup; eauto|].
  rewrite Hme1. cbn.
  pose proof (Hk Hkeyed _ _ Hme1) as Hid1.
  split; [exact Hid1|].
  rewrite <- Hid1 in Hme1. rewrite (put_id _ _ Hme1). exact HR.
Qed.

Lemma relates_weaken {A} (S : world -> world -> Prop) (m : M A) :
  (forall a b, S a b -> R a b) -> relates S m -> relates R m.
Proof.
  intros Hsub Hm me w r me' w' Hkeyed Hrun.
  destruct (Hm _ _ _ _ _ Hkeyed Hrun) as [Hid HS]. split; [exact Hid | exact (Hsub _ _ HS)].
Qed.

End Relates.


(** ** What rendering leaves alone *)

Lemma outstanding_app (id : nat) (a b : list task_group) :
  outstanding id (a ++ b) = outstanding id a + outstanding id b.
Proof. unfold outstanding. rewrite List.filter_app, length_app. reflexivity. Qed.

Lemma rejected_app (id : nat) (a b : list effect) :
  rejected id (a ++ b) = rejected id a + rejected id b.
Proof. unfold rejected. rewrite List.filter_app, length_app. reflexivity. Qed.

Lemma replacements_app (a b : list effect) :
  replacements (a ++ b) = replacements a ++ replacements b.
Proof. apply List.filter_app. Qed.

Lemma rejected_invokes (id i : nat) (names : list string) :
  rejected id (map (Invoke i) names) = 0.
Proof. induction names; [reflexivity | exact IHnames]. Qed.

Lemma replacements_invokes (i : nat) (names : list string) :
  replacements (map (Invoke i) names) = [].
Proof. induction names; [reflexivity | exact IHnames]. Qed.

Lemma keyed_put (me me' : instance) (w w' : world) :
  baseClassInstance me' = baseClassInstance me ->
  instances w' = instances w ->
  keyed (put me w) -> keyed (put me' w').
Proof.
  intros Hid Hi Hk id x. cbn. rewrite Hi, Hid.
  destruct (decide (baseClassInstance me = id)) as [<-|Hne].
  - rewrite lookup_insert_eq. intros [= <-]. exact Hid.
  - rewrite lookup_insert_ne by exact Hne. intros Hx. apply (Hk id x).
    cbn. rewrite lookup_insert_ne by exact Hne. exact Hx.
Qed.

Lemma count_of_put (id : nat) (me : instance) (w : world) :
  count_of id (put me w)
  = if Nat.eqb id (baseClassInstance me) then pendingFetchCount me else count_of id w.
Proof.
  unfold count_of. cbn.
  destruct (Nat.eqb_spec id (baseClassInstance me)) as [->|Hne].
  - rewrite lookup_insert_eq. reflexivity.
  - rewrite lookup_insert_ne by congruence. reflexivity.
Qed.

Lemma rl_of_put (id : nat) (me : instance) (w : world) :
  rl_of id (put me w)
  = if Nat.eqb id (baseClassInstance me) then Some (_refreshList me) else rl_of id w.
Proof.
  unfold rl_of. cbn.
  destruct (Nat.eqb_spec id (baseClassInstance me)) as [->|Hne].
  - rewrite lookup_insert_eq. reflexivity.
  - rewrite lookup_insert_ne by congruence. reflexivity.
Qed.

(** A step that touches nothing but [this] and the parts of the world
    outside [instances]. *)
Lemma steady_local (me me' : instance) (w w' : world) :
  baseClassInstance me' = baseClassInstance me ->
  instances w' = instances w ->
  factory_baseClassInstance w' = factory_baseClassInstance w ->
  (forall id,
     ((if Nat.eqb id (baseClassInstance me) then pendingFetchCount me' else 0)
      - Z.of_nat (outstanding id (groups w')) - Z.of_nat (rejected id (trace w'))
      = (if Nat.eqb id (baseClassInstance me) then pendingFetchCount me else 0)
        - Z.of_nat (outstanding id (groups w)) - Z.of_nat (rejected id (trace w)))%Z) ->
  steady (put me w) (put me' w').
Proof.
  intros Hid Hi Hf Hb. split; [exact (keyed_put _ _ _ _ Hid Hi)|]. split; [|split].
  - intros id. cbn. rewrite Hi, Hid.
    destruct (decide (baseClassInstance me = id)) as [<-|Hne].
    + rewrite !lookup_insert_eq. split; eauto.
    + rewrite !lookup_insert_ne by exact Hne. reflexivity.
  - exact Hf.
  - intros id. rewrite !count_of_put, Hid. cbn [groups trace put set_instances].
    specialize (Hb id). unfold count_of. rewrite Hi.
    destruct (Nat.eqb id (baseClassInstance me)); lia.
Qed.

Lemma frame_local (me me' : instance) (w w' : world) :
  baseClassInstance me' = baseClassInstance me ->
  _refreshList me' = _refreshList me ->
  instances w' = instances w ->
  factory_baseClassInstance w' = factory_baseClassInstance w ->
  replacements (trace w') = replacements (trace w) ->
  (forall id,
     ((if Nat.eqb id (baseClassInstance me) then pendingFetchCount me' else 0)
      - Z.of_nat (outstanding id (groups w')) - Z.of_nat (rejected id (trace w'))
      = (if Nat.eqb id (baseClassInstance me) then pendingFetchCount me else 0)
        - Z.of_nat (outstanding id (groups w)) - Z.of_nat (rejected id (trace w)))%Z) ->
  frame (put me w) (put me' w').
Proof.
  intros Hid Hrl Hi Hf Hr Hb. split; [exact (steady_local _ _ _ _ Hid Hi Hf Hb)|]. split.
  - intros id. rewrite !rl_of_put, Hid, Hrl. unfold rl_of. rewrite Hi. reflexivity.
  - exact Hr.
Qed.

(** The same with nothing counted changed. *)
Lemma frame_quiet (me me' : instance) (w w' : world) :
  baseClassInstance me' = baseClassInstance me ->
  _refreshList me' = _refreshList me ->
  pendingFetchCount me' = pendingFetchCount me ->
  instances w' = instances w ->
  factory_baseClassInstance w' = factory_baseClassInstance w ->
  groups w' = groups w ->
  (forall id, rejected id (trace w') = rejected id (trace w)) ->
  replacements (trace w') = replacements (trace w) ->
  frame (put me w) (put me' w').
Proof.
  intros Hid Hrl Hc Hi Hf Hg Hrej Hr. apply frame_local; auto.
  intros id. rewrite Hc, Hg, Hrej. reflexivity.
Qed.

Lemma relates_update (f : instance -> instance) :
  (forall i, baseClassInstance (f i) = baseClassInstance i
             /\ _refreshList (f i) = _refreshList i
             /\ pendingFetchCount (f i) = pendingFetchCount i) ->
  relates frame (update f).
Proof.
  intros Hf me w r me' w' _ [= <- <- <-]. destruct (Hf me) as (Hid & Hrl & Hc).
  split; [exact Hid|]. apply frame_quiet; auto.
Qed.

Lemma relates_update_world (g : world -> world) :
  (forall w, instances (g w) = instances w
             /\ factory_baseClassInstance (g w) = factory_baseClassInstance w
             /\ groups (g w) = groups w
             /\ trace (g w) = trace w) ->
  relates frame (update_world g).
Proof.
  intros Hg me w r me' w' _ [= <- <- <-]. destruct (Hg w) as (Hi & Hf & Hgr & Ht).
  split; [reflexivity|]. apply frame_quiet; auto; rewrite Ht; reflexivity.
Qed.

Lemma relates_log (e : effect) : plain_effect e = true -> relates frame (log e).
Proof.
  intros He me w r me' w' _ [= <- <- <-]. split; [reflexivity|].
  apply frame_quiet; auto; cbn [trace set_trace].
  - intros id. rewrite rejected_app. destruct e as [| | ? [] | | | |]; try discriminate; cbn; lia.
  - rewrite replacements_app. destruct e; try discriminate; cbn; apply app_nil_r.
Qed.

Lemma relates_set_tree (r : nat) (t : list Dom.node) : relates frame (set_tree r t).
Proof. apply relates_update_world. intros w. repeat split. Qed.

Lemma relates_tree (r : nat) : relates frame (tree r).
Proof.
  unfold tree. apply relates_bind; [exact _ | apply relates_the_world; exact _|].
  intros a. apply relates_ret. exact _.
Qed.

Lemma relates_new_tree (roots : list Dom.node) : relates frame (new_tree roots).
Proof.
  intros me w r me' w' _. unfold new_tree. cbn. intros [= <- <- <-].
  split; [reflexivity|]. apply frame_quiet; auto.
Qed.

Lemma relates_run_hook (h : render_hook) : relates frame (run_hook h).
Proof.
  intros me w r me' w' _. unfold run_hook. destruct (h _ _). intros [= <- <- <-].
  split; [reflexivity|]. apply frame_quiet; auto.
Qed.

Lemma relates_init : relates frame init.
Proof.
  intros me w r me' w' _. rewrite init_eq. cbv zeta.
  destruct (negb (bindings_callable (comp me))).
  { intros [= <- <- <-]. split; [reflexivity | apply orderly_refl]. }
  destruct (Nat.ltb 0 (length (List.filter preventRender _)));
    destruct (Nat.ltb 0 (length (List.filter (fun it => negb (preventRender it)) _)));
    try destruct (callable (comp me) "_init");
    intros [= <- <- <-]; (split; [reflexivity|]);
    apply frame_local; try reflexivity;
    cbn [trace groups logged set_trace set_groups set_pendingFetchCount set_pendingInit
         set_initialized pendingFetchCount group_owner];
    rewrite ?replacements_app, ?replacements_invokes, ?app_nil_r; try reflexivity;
    intros id; rewrite ?outstanding_app, ?rejected_app, ?rejected_invokes;
    unfold outstanding, rejected; cbn [List.filter group_owner length];
    rewrite ?(Nat.eqb_sym (baseClassInstance me) id);
    destruct (Nat.eqb id (baseClassInstance me)); cbn [length]; lia.
Qed.

Create HintDb relates.

#[export] Hint Resolve relates_init relates_tree relates_set_tree relates_new_tree
  relates_run_hook : relates.

(** One step of following a relation through the text of a method. *)
Ltac relates_step :=
  cbv beta;
  lazymatch goal with
  | |- Orderly _ => typeclasses eauto
  | |- relates _ (bind _ _) => apply relates_bind; [typeclasses eauto | | intros ?]
  | |- relates _ (ret _) => apply relates_ret; typeclasses eauto
  | |- relates _ (throw _) => apply relates_throw; typeclasses eauto
  | |- relates _ this => apply relates_this; typeclasses eauto
  | |- relates _ the_world => apply relates_the_world; typeclasses eauto
  | |- relates _ (when _ _) => apply relates_when; [typeclasses eauto |]
  | |- relates _ (for_each _ _) => apply relates_for_each; [typeclasses eauto | intros ?]
  | |- relates _ (fold_m _ _ _) => apply relates_fold_m; [typeclasses eauto | intros ? ?]
  | |- relates _ (call_other _ _) => apply relates_call_other; [typeclasses eauto |]
  | |- relates _ (match ?x with _ => _ end) => destruct x
  | |- relates frame (update _) =>
      apply relates_update; intros ?; repeat split; reflexivity
  | |- relates frame (log _) => apply relates_log; reflexivity
  | |- relates _ _ => solve [eauto with relates]
  end.

Ltac relates_auto := repeat relates_step.

Section Rendering.

Context `{Collaborators}.

Lemma relates_loading_view : relates frame loading_view.
Proof. unfold loading_view. relates_auto. Qed.

Lemma relates__render : relates frame _render.
Proof. unfold _render. relates_auto. Qed.

Hint Resolve relates_loading_view relates__render : relates.

Lemma relates_checked_render : relates frame checked_render.
Proof. unfold checked_render. relates_auto. Qed.

Lemma relates_tagName_of (id : nat) : relates frame (tagName_of id).
Proof. unfold tagName_of. relates_auto. Qed.

Hint Resolve relates_checked_render relates_tagName_of : relates.

Section Children.

Variable child_render : nat -> M render_result.
Hypothesis child_render_frame : forall id, relates frame (child_render id).

Lemma relates_insert_repeated (st : list Dom.node * inserted_list) (id : nat) :
  relates frame (insert_repeated child_render st id).
Proof. unfold insert_repeated. relates_auto. Qed.

Hint Resolve relates_insert_repeated : relates.

Lemma relates_insert_section (root : nat) (inserted : inserted_list)
    (entry : string * list child) :
  relates frame (insert_section child_render root inserted entry).
Proof. unfold insert_section. relates_auto. Qed.

Lemma relates_insert_default (root : nat) (inserted : inserted_list) (c : child) :
  relates frame (insert_default child_render root inserted c).
Proof. unfold insert_default. relates_auto. Qed.

Hint Resolve relates_insert_section relates_insert_default : relates.

Lemma relates_insert_children_with (root : nat) :
  relates frame (insert_children_with child_render root).
Proof. unfold insert_children_with. relates_auto. Qed.

End Children.

Lemma relates_renderWithChildren_at (depth : nat) :
  relates frame (renderWithChildren_at depth).
Proof.
  induction depth as [|d IH]; cbn [renderWithChildren_at]; [relates_auto|].
  pose proof (relates_insert_children_with
                (fun id => call_other id (renderWithChildren_at d))
                (fun id => relates_call_other frame id _ IH)) as Hins.
  relates_auto.
Qed.

Lemma relates__insertChildren (root : nat) : relates frame (_insertChildren root).
Proof.
  apply relates_insert_children_with. intros id.
  apply relates_call_other; [typeclasses eauto | apply relates_renderWithChildren_at].
Qed.

Lemma relates__renderWithChildren : relates frame _renderWithChildren.
Proof. apply relates_renderWithChildren_at. Qed.

Lemma relates_anchor (ce : nat * Dom.jq) : relates frame (anchor ce).
Proof. unfold anchor. relates_auto. Qed.

Hint Resolve relates__insertChildren relates_anchor : relates.

Lemma relates_render : relates frame render.
Proof. unfold render. relates_auto. Qed.

End Rendering.

#[export] Hint Resolve relates_loading_view relates__render relates_checked_render
  relates_tagName_of relates__insertChildren relates__renderWithChildren relates_anchor
  relates_render : relates.


(** ** Visiting, removing and destroying children leave the frame alone *)

Lemma relates_entries_of (sectionName : string) : relates frame (entries_of sectionName).
Proof. unfold entries_of. relates_auto. Qed.

#[export] Hint Resolve relates_entries_of : relates.

Lemma relates_entry_at (sectionName : string) (a : nat) :
  relates frame (entry_at sectionName a).
Proof. unfold entry_at. relates_auto. Qed.

#[export] Hint Resolve relates_entry_at : relates.

Section Visiting.

Variable handler : nat -> string -> M unit -> M unit.
Variable destroy_child : nat -> M unit.

Hypothesis handler_frame :
  forall id sectionName removeChild,
    relates frame removeChild -> relates frame (handler id sectionName removeChild).
Hypothesis destroy_child_frame : forall id, relates frame (destroy_child id).

Lemma relates_remove_default (a : nat) : relates frame (remove_default destroy_child a).
Proof. unfold remove_default. relates_auto. Qed.

Lemma relates_remove_repeated (sectionName : string) (a b : nat) :
  relates frame (remove_repeated destroy_child sectionName a b).
Proof. unfold remove_repeated. repeat (cbv zeta; relates_step). Qed.

Hint Resolve relates_remove_default relates_remove_repeated : relates.

Lemma relates_each_in_repetition (sectionName : string) (a b : nat) :
  relates frame (each_in_repetition handler destroy_child sectionName a b).
Proof.
  induction b as [|b IH]; cbn [each_in_repetition]; relates_auto.
Qed.

Hint Resolve relates_each_in_repetition : relates.

Lemma relates_each_in_section (sectionName : string) (a : nat) :
  relates frame (each_in_section handler destroy_child sectionName a).
Proof.
  induction a as [|a IH]; cbn [each_in_section]; relates_auto.
Qed.

Hint Resolve relates_each_in_section : relates.

Lemma relates_eachChildComponent :
  relates frame (eachChildComponent handler destroy_child).
Proof. unfold eachChildComponent. relates_auto. Qed.

End Visiting.

Lemma relates_destroy_at (depth : nat) : relates frame (destroy_at depth).
Proof.
  induction depth as [|d IH]; cbn [destroy_at]; [relates_auto|].
  assert (Hchild : forall id, relates frame (call_other id (destroy_at d)))
    by (intros id; apply relates_call_other; [typeclasses eauto | exact IH]).
  cbv zeta. relates_step.
  { apply relates_eachChildComponent; [intros id _ _ _; apply Hchild | exact Hchild]. }
  relates_auto.
Qed.

Lemma relates_destroy `{Collaborators} : relates frame destroy.
Proof. apply relates_destroy_at. Qed.

#[export] Hint Resolve relates_destroy : relates.

Lemma relates_sweep `{Collaborators} (cleanUpTime : nat) : relates frame (sweep cleanUpTime).
Proof.
  unfold sweep. relates_step. relates_step. relates_step.
  apply relates_eachChildComponent.
  - intros id sectionName removeChild Hremove. relates_auto.
  - intros id. relates_auto.
Qed.

#[export] Hint Resolve relates_sweep : relates.


(** ** The partial refresh *)

Lemma bind_ok {A B} (m : M A) (k : A -> M B) (me : instance) (w : world)
    (b : B) (me' : instance) (w' : world) :
  bind m k me w = (Ok b, me', w') ->
  exists a me1 w1, m me w = (Ok a, me1, w1) /\ k a me1 w1 = (Ok b, me', w').
Proof.
  unfold bind. destruct (m me w) as [[[a|e] me1] w1]; [|discriminate].
  intros Hk. exists a, me1, w1. split; [reflexivity | exact Hk].
Qed.

Lemma relates_ok {A} (R : world -> world -> Prop) (m : M A) (me : instance) (w : world)
    (r : res A) (me' : instance) (w' : world) :
  relates R m -> keyed (put me w) -> m me w = (r, me', w') ->
  baseClassInstance me' = baseClassInstance me /\ R (put me w) (put me' w').
Proof. intros Hm Hk Hrun. exact (Hm _ _ _ _ _ Hk Hrun). Qed.

Section Partial.

Context `{Collaborators}.

Lemma patch_ok (old new : nat) (sel : string) (me : instance) (w : world)
    (me' : instance) (w' : world) :
  patch old new sel me w = (Ok tt, me', w') ->
  me' = me
  /\ instances w' = instances w
  /\ trace w' = trace w ++ [ReplaceWith (baseClassInstance me) sel].
Proof.
  unfold patch.
  cbv beta iota delta [bind this the_world log update_world throw ret set_tree tree].
  destruct (_ || _); [discriminate|].
  destruct (Dom.find (sel_matches sel) (tree_of (jqs w) old)) as [|p [|p' ps]];
    destruct (Dom.find (sel_matches sel) (tree_of (jqs w) new)) as [|q [|q' qs]];
    cbn; intros [= <- <-]; repeat split.
Qed.

Lemma patch_all_ok (old new : nat) (l : list string) (me : instance) (w : world)
    (me' : instance) (w' : world) :
  for_each l (patch old new) me w = (Ok tt, me', w') ->
  me' = me
  /\ instances w' = instances w
  /\ trace w' = trace w ++ map (ReplaceWith (baseClassInstance me)) l.
Proof.
  revert w. induction l as [|s l IH]; intros w; cbn [for_each].
  - intros [= <- <-]. rewrite app_nil_r. repeat split.
  - intros Hrun. apply bind_ok in Hrun as ([] & me1 & w1 & Hp & Hrest).
    apply patch_ok in Hp as (-> & Hi & Ht).
    destruct (IH _ Hrest) as (-> & Hi' & Ht').
    split; [reflexivity|]. split; [congruence|].
    rewrite Ht', Ht, <- app_assoc. reflexivity.
Qed.

Lemma set_refreshList_twice (a b : refresh_list) (me : instance) :
  set_refreshList b (set_refreshList a me) = set_refreshList b me.
Proof. destruct me; reflexivity. Qed.

Lemma prune_selectors_ok (sels : list string) (old : nat) (me : instance) (w : world)
    (me1 : instance) (w1 : world) :
  jqDom me = Dom.JQuery old ->
  prune_selectors sels me w = (Ok tt, me1, w1) ->
  w1 = w
  /\ exists l,
       me1 = set_refreshList (Selectors l) me
       /\ (forall x, In x l -> In x sels)
       /\ forall s s' e e',
            In s sels -> In s' sels ->
            first_match (tree_of (jqs w) old) s = Some e ->
            first_match (tree_of (jqs w) old) s' = Some e' ->
            Dom.is_prefix e' e = true -> e' <> e ->
            ~ In s l.
Proof.
  intros Hjq. unfold prune_selectors.
  cbv beta iota delta [bind this the_world update when ret throw own_root].
  destruct (Nat.ltb 1 (length (dedup sels))) eqn:Hlen.
  - cbn [jqDom set_refreshList]. rewrite Hjq. cbv beta iota.
    destruct (prune (tree_of (jqs w) old) (length (dedup sels)) (dedup sels))
      as [[[]|e] l] eqn:Hp; [|discriminate].
    intros [= <- <-]. split; [reflexivity|]. exists l.
    split; [apply set_refreshList_twice|].
    destruct (prune_invariant (tree_of (jqs w) old) _ _ _ (Nat.le_refl _) Hp) as (Hsub & _).
    split.
    + intros x Hx. apply (dedup_from_In sels x sels 0). exact (Hsub x Hx).
    + intros s s' e e' Hs Hs' He He' Hpre Hne.
      exact (prune_drops_descendants _ _ _ s s' e e' Hp
               (In_dedup _ _ Hs) (In_dedup _ _ Hs') He He' Hpre Hne).
  - intros [= <- <-]. split; [reflexivity|]. exists (dedup sels).
    split; [reflexivity|]. split.
    + intros x Hx. exact (dedup_from_In sels x sels 0 Hx).
    + intros s s' e e' Hs Hs' He He' Hpre Hne _.
      apply In_dedup in Hs, Hs'. apply Nat.ltb_ge in Hlen.
      destruct (dedup sels) as [|x [|y l]]; cbn in Hlen; [destruct Hs | | lia].
      destruct Hs as [<-|[]]. destruct Hs' as [<-|[]]. congruence.
Qed.

Lemma schedule_sweep_eq (me : instance) (w : world) :
  schedule_sweep me w
  = (Ok tt,
     set_cleanUpChildren (Some (random_token (random_calls w))) me,
     set_random_calls (S (random_calls w))
       (set_sweeps (sweeps w ++ [(baseClassInstance me, random_token (random_calls w))]) w)).
Proof. reflexivity. Qed.

End Partial.

Lemma keyed_single (me : instance) (w : world) :
  instances w = ∅ -> keyed (put me w).
Proof.
  intros Hw id x. cbn. rewrite Hw.
  destruct (decide (baseClassInstance me = id)) as [<-|Hne].
  - rewrite lookup_insert_eq. intros [= <-]. reflexivity.
  - rewrite lookup_insert_ne by exact Hne. rewrite lookup_empty. discriminate.
Qed.


(** ** What a refresh leaves alone *)

#[export] Instance apart_orderly (i : nat) : Orderly (apart i).
Proof.
  split.
  - intros a. split; [apply steady_refl | auto].
  - intros a b c [Hs1 Hr1] [Hs2 Hr2]. split; [exact (steady_trans _ _ _ Hs1 Hs2)|].
    intros id Hid. rewrite (Hr2 id Hid). exact (Hr1 id Hid).
  - intros a b [Hs _]. exact Hs.
Qed.

#[export] Instance sticky_orderly : Orderly sticky.
Proof.
  split.
  - intros a. split; [apply steady_refl | auto].
  - intros a b c [Hs1 Hr1] [Hs2 Hr2]. split; [exact (steady_trans _ _ _ Hs1 Hs2) | auto].
  - intros a b [Hs _]. exact Hs.
Qed.

#[export] Instance settling_orderly : Orderly settling.
Proof.
  split.
  - intros a. split; [apply steady_refl | auto].
  - intros a b c [Hs1 Hr1] [Hs2 Hr2]. split; [exact (steady_trans _ _ _ Hs1 Hs2)|].
    intros id. destruct (Hr1 id) as [Hf1 He1]. destruct (Hr2 id) as [Hf2 He2].
    split; [|auto]. intros Hfull. destruct (Hf1 Hfull) as [Hb|Hb]; auto.
  - intros a b [Hs _]. exact Hs.
Qed.

Lemma frame_apart (i : nat) (a b : world) : frame a b -> apart i a b.
Proof. intros (Hs & Hr & _). split; [exact Hs | auto]. Qed.

Lemma frame_sticky (a b : world) : frame a b -> sticky a b.
Proof. intros (Hs & Hr & _). split; [exact Hs|]. intros id. rewrite Hr. auto. Qed.

Lemma frame_settling (a b : world) : frame a b -> settling a b.
Proof. intros (Hs & Hr & _). split; [exact Hs|]. intros id. rewrite Hr. auto. Qed.

Section RelatesAt.

Context (i : nat) (R : world -> world -> Prop) `{!Orderly R}.

Lemma relates_at_of {A} (S : world -> world -> Prop) (m : M A) :
  (forall a b, S a b -> R a b) -> relates S m -> relates_at i R m.
Proof.
  intros Hsub Hm me w r me' w' Hi Hkeyed Hrun.
  destruct (Hm _ _ _ _ _ Hkeyed Hrun) as [Hid HS]. split; [congruence | exact (Hsub _ _ HS)].
Qed.

Lemma relates_at_ret {A} (a : A) : relates_at i R (ret a).
Proof. intros me w r me' w' Hi _ [= <- <- <-]. split; [exact Hi | apply orderly_refl]. Qed.

Lemma relates_at_throw {A} (e : error) : relates_at i R (throw (A := A) e).
Proof. intros me w r me' w' Hi _ [= <- <- <-]. split; [exact Hi | apply orderly_refl]. Qed.

Lemma relates_at_this : relates_at i R this.
Proof. intros me w r me' w' Hi _ [= <- <- <-]. split; [exact Hi | apply orderly_refl]. Qed.

Lemma relates_at_the_world : relates_at i R the_world.
Proof. intros me w r me' w' Hi _ [= <- <- <-]. split; [exact Hi | apply orderly_refl]. Qed.

Lemma relates_at_bind {A B} (m : M A) (k : A -> M B) :
  relates_at i R m -> (forall a, relates_at i R (k a)) -> relates_at i R (bind m k).
Proof.
  intros Hm Hk me w r me' w' Hi Hkeyed Hrun. unfold bind in Hrun.
  destruct (m me w) as [[[a|e] me1] w1] eqn:Hm1.
  - destruct (Hm _ _ _ _ _ Hi Hkeyed Hm1) as [Hid1 HR1].
    assert (Hkeyed1 : keyed (put me1 w1)).
    { apply (orderly_steady _ _ HR1). exact Hkeyed. }
    destruct (Hk a _ _ _ _ _ Hid1 Hkeyed1 Hrun) as [Hid2 HR2].
    split; [exact Hid2 | exact (orderly_trans _ _ _ HR1 HR2)].
  - injection Hrun as <- <- <-. exact (Hm _ _ _ _ _ Hi Hkeyed Hm1).
Qed.

Lemma relates_at_when (b : bool) (m : M unit) : relates_at i R m -> relates_at i R (when b m).
Proof. intros Hm. destruct b; [exact Hm | apply relates_at_ret]. Qed.

Lemma relates_at_for_each {A} (l : list A) (body : A -> M unit) :
  (forall x, relates_at i R (body x)) -> relates_at i R (for_each l body).
Proof.
  intros Hb. induction l as [|x l IH]; cbn; [apply relates_at_ret|].
  apply relates_at_bind; [apply Hb | intros _; exact IH].
Qed.

End RelatesAt.

(** A step of the instance itself that keeps its id and the balance of its
    [pendingFetchCount]. *)
Lemma apart_local (me me' : instance) (w w' : world) :
  baseClassInstance me' = baseClassInstance me ->
  instances w' = instances w ->
  factory_baseClassInstance w' = factory_baseClassInstance w ->
  (forall id,
     ((if Nat.eqb id (baseClassInstance me) then pendingFetchCount me' else 0)
      - Z.of_nat (outstanding id (groups w')) - Z.of_nat (rejected id (trace w'))
      = (if Nat.eqb id (baseClassInstance me) then pendingFetchCount me else 0)
        - Z.of_nat (outstanding id (groups w)) - Z.of_nat (rejected id (trace w)))%Z) ->
  apart (baseClassInstance me) (put me w) (put me' w').
Proof.
  intros Hid Hi Hf Hb. split; [exact (steady_local _ _ _ _ Hid Hi Hf Hb)|].
  intros id Hne. rewrite !rl_of_put, Hid.
  destruct (Nat.eqb_spec id (baseClassInstance me)); [congruence|].
  unfold rl_of. rewrite Hi. reflexivity.
Qed.

Lemma relates_at_update (i : nat) (f : instance -> instance) :
  (forall x, baseClassInstance (f x) = baseClassInstance x
             /\ pendingFetchCount (f x) = pendingFetchCount x) ->
  relates_at i (apart i) (update f).
Proof.
  intros Hf me w r me' w' Hi _ [= <- <- <-]. destruct (Hf me) as [Hid Hc].
  split; [congruence|]. subst i. apply apart_local; auto.
  intros id. rewrite Hc. reflexivity.
Qed.

(** Calls that are not a group's final [catch]. *)
Lemma relates_at_log (i : nat) (e : effect) :
  (forall o, e <> ConsoleError o true) -> relates_at i (apart i) (log e).
Proof.
  intros He me w r me' w' Hi _ [= <- <- <-]. split; [exact Hi|]. subst i.
  apply apart_local; auto. intros id. cbn [trace set_trace groups].
  rewrite rejected_app.
  assert (Hz : rejected id [e] = 0).
  { destruct e as [| | o [] | | | |]; try reflexivity. destruct (He o eq_refl). }
  rewrite Hz. lia.
Qed.

Ltac relates_at_step :=
  cbv beta;
  lazymatch goal with
  | |- Orderly _ => typeclasses eauto
  | |- relates_at _ _ (bind _ _) => apply relates_at_bind; [typeclasses eauto | | intros ?]
  | |- relates_at _ _ (ret _) => apply relates_at_ret; typeclasses eauto
  | |- relates_at _ _ (throw _) => apply relates_at_throw; typeclasses eauto
  | |- relates_at _ _ this => apply relates_at_this; typeclasses eauto
  | |- relates_at _ _ the_world => apply relates_at_the_world; typeclasses eauto
  | |- relates_at _ _ (when _ _) => apply relates_at_when; [typeclasses eauto |]
  | |- relates_at _ _ (for_each _ _) =>
      apply relates_at_for_each; [typeclasses eauto | intros ?]
  | |- relates_at _ _ (match ?x with _ => _ end) => destruct x
  | |- relates_at ?i (apart ?i) (update _) =>
      apply relates_at_update; intros ?; split; reflexivity
  | |- relates_at ?i (apart ?i) (log _) => apply relates_at_log; intros ?; discriminate
  | |- relates_at ?i (apart ?i) _ =>
      first [ solve [eauto with relates]
            | apply (relates_at_of i (apart i) frame);
              [exact (frame_apart i) | solve [eauto with relates | relates_auto]] ]
  end.

Ltac relates_at_auto := repeat relates_at_step.

Section Refreshing.

Context `{Collaborators}.

Lemma relates_at_own_root (i : nat) : relates_at i (apart i) own_root.
Proof. unfold own_root. relates_at_auto. Qed.

Hint Resolve relates_at_own_root : relates.

Lemma relates_at_patch (i old new : nat) (sel : string) :
  relates_at i (apart i) (patch old new sel).
Proof. unfold patch. relates_at_auto. Qed.

Hint Resolve relates_at_patch : relates.

Lemma relates_at_prune_selectors (i : nat) (sels : list string) :
  relates_at i (apart i) (prune_selectors sels).
Proof. unfold prune_selectors. relates_at_auto. Qed.

Hint Resolve relates_at_prune_selectors : relates.

Lemma relates_at_refresh_selectors (i : nat) (sels : list string) :
  relates_at i (apart i) (refresh_selectors sels).
Proof. unfold refresh_selectors. relates_at_auto. Qed.

Lemma relates_at_refresh_full (i : nat) : relates_at i (apart i) refresh_full.
Proof. unfold refresh_full. relates_at_auto. Qed.

Lemma relates_at_schedule_sweep (i : nat) : relates_at i (apart i) schedule_sweep.
Proof.
  intros me w r me' w' Hi _. rewrite schedule_sweep_eq. intros [= <- <- <-].
  split; [exact Hi|]. subst i. apply apart_local; auto.
Qed.

Hint Resolve relates_at_refresh_selectors relates_at_refresh_full
  relates_at_schedule_sweep : relates.

Lemma relates_at__refresh (i : nat) : relates_at i (apart i) _refresh.
Proof. unfold _refresh. relates_at_auto. Qed.

End Refreshing.

#[export] Hint Resolve relates_at_own_root relates_at_patch relates_at_prune_selectors
  relates_at_refresh_selectors relates_at_refresh_full relates_at_schedule_sweep
  relates_at__refresh : relates.


(** ** A pending full refresh *)

Lemma sticky_local (me me' : instance) (w w' : world) :
  baseClassInstance me' = baseClassInstance me ->
  (_refreshList me = Full -> _refreshList me' = Full) ->
  instances w' = instances w ->
  factory_baseClassInstance w' = factory_baseClassInstance w ->
  (forall id,
     ((if Nat.eqb id (baseClassInstance me) then pendingFetchCount me' else 0)
      - Z.of_nat (outstanding id (groups w')) - Z.of_nat (rejected id (trace w'))
      = (if Nat.eqb id (baseClassInstance me) then pendingFetchCount me else 0)
        - Z.of_nat (outstanding id (groups w)) - Z.of_nat (rejected id (trace w)))%Z) ->
  sticky (put me w) (put me' w').
Proof.
  intros Hid Hrl Hi Hf Hb. split; [exact (steady_local _ _ _ _ Hid Hi Hf Hb)|].
  intros id. rewrite !rl_of_put, Hid.
  destruct (Nat.eqb id (baseClassInstance me)).
  - intros [= Hfull]. rewrite (Hrl Hfull). reflexivity.
  - unfold rl_of. rewrite Hi. auto.
Qed.

Lemma relates_sticky_update (f : instance -> instance) :
  (forall x, baseClassInstance (f x) = baseClassInstance x
             /\ pendingFetchCount (f x) = pendingFetchCount x
             /\ (_refreshList x = Full -> _refreshList (f x) = Full)) ->
  relates sticky (update f).
Proof.
  intros Hf me w r me' w' _ [= <- <- <-]. destruct (Hf me) as (Hid & Hc & Hrl).
  split; [exact Hid|]. apply sticky_local; auto. intros id. rewrite Hc. reflexivity.
Qed.

Lemma relates_settling_update (f : instance -> instance) :
  (forall x, baseClassInstance (f x) = baseClassInstance x
             /\ pendingFetchCount (f x) = pendingFetchCount x
             /\ (_refreshList (f x) = _refreshList x \/ _refreshList (f x) = Selectors [])) ->
  relates settling (update f).
Proof.
  intros Hf me w r me' w' _ [= <- <- <-]. destruct (Hf me) as (Hid & Hc & Hrl).
  split; [exact Hid|]. split.
  - apply steady_local; auto. intros id. rewrite Hc. reflexivity.
  - intros id. rewrite !rl_of_put, Hid.
    destruct (Nat.eqb id (baseClassInstance me)); [|auto].
    destruct Hrl as [-> | ->]; auto.
Qed.

(** Following [sticky] or [settling] through a method: what rendering does
    is covered by [frame]. *)
Ltac relates_more :=
  cbv beta;
  lazymatch goal with
  | |- relates sticky (update _) =>
      apply relates_sticky_update; intros ?; repeat split; solve [reflexivity | auto]
  | |- relates settling (update _) =>
      apply relates_settling_update; intros ?;
      repeat split; solve [reflexivity | left; reflexivity | right; reflexivity]
  | |- relates sticky ?m =>
      first [ solve [eauto with relates]
            | solve [apply (relates_weaken sticky frame);
                     [exact frame_sticky | solve [eauto with relates | relates_auto]]]
            | relates_step ]
  | |- relates settling ?m =>
      first [ solve [eauto with relates]
            | solve [apply (relates_weaken settling frame);
                     [exact frame_settling | solve [eauto with relates | relates_auto]]]
            | relates_step ]
  | |- _ => relates_step
  end.

Lemma relates_queue_own_refresh : relates frame queue_own_refresh.
Proof.
  unfold queue_own_refresh. relates_auto.
  apply relates_update_world. intros w. repeat split.
Qed.

#[export] Hint Resolve relates_queue_own_refresh : relates.

Lemma relates_refresh : relates sticky refresh.
Proof. unfold refresh. repeat relates_more. Qed.

Lemma relates_registerChild (c : child) (sectionName : option string) :
  relates frame (registerChild c sectionName).
Proof.
  unfold registerChild. relates_auto.
  - apply relates_update. intros x.
    destruct (section a (childComponents x)); [|destruct (Js.inherited a)]; repeat split.
  - apply relates_update. intros x.
    destruct (existsb _ _); repeat split.
Qed.

Lemma relates__fetch (delay : bool) (fetchList : list string) :
  relates frame (_fetch delay fetchList).
Proof.
  intros me w r me' w' _. rewrite _fetch_eq. cbv zeta.
  destruct (Nat.ltb 0 (length fetchList)); destruct delay; cbn [andb];
    intros [= <- <- <-]; (split; [reflexivity|]);
    apply frame_local; try reflexivity;
    cbn [trace groups logged set_trace set_groups set_pendingFetchCount set_delayRefresh
         pendingFetchCount group_owner];
    rewrite ?replacements_app, ?replacements_invokes, ?app_nil_r; try reflexivity;
    intros id; rewrite ?outstanding_app, ?rejected_app, ?rejected_invokes;
    unfold outstanding, rejected, fetch_group;
    cbn [List.filter group_owner length effect_rect];
    rewrite ?(Nat.eqb_sym (baseClassInstance me) id);
    destruct (Nat.eqb id (baseClassInstance me)); cbn [length]; lia.
Qed.

#[export] Hint Resolve relates__fetch relates_registerChild relates_refresh : relates.

Section Changes.

Context `{Collaborators}.

Lemma ui_step_full (path : string) (kv : string * ui_binding) : ui_step path Full kv = Full.
Proof. reflexivity. Qed.

Lemma resolve_full (c : component) (changes : list change) :
  fst (resolve c changes Full) = Full.
Proof.
  unfold resolve.
  assert (Hgen : forall l acc, fst acc = Full -> fst (fold_left (change_step c) l acc) = Full).
  { induction l as [|ch l IH]; intros acc Hacc; cbn [fold_left]; [exact Hacc|].
    apply IH. unfold change_step. cbn [fst]. rewrite Hacc.
    induction (uiBindings c) as [|kv bs IHb]; [reflexivity | exact IHb]. }
  apply Hgen. reflexivity.
Qed.

(** The change handler never narrows a pending full refresh. *)
Lemma on_change_keeps_full (changes : list change) (me : instance) (w : world) :
  _refreshList me = Full ->
  _refreshList (snd (fst (on_change changes me w))) = Full.
Proof.
  intros Hfull. rewrite on_change_eq. destruct (initialized me); [|exact Hfull].
  cbv zeta. rewrite Hfull, resolve_full, _fetch_eq. cbv zeta.
  destruct (Nat.ltb 0 (length _)); destruct (fst (snd _)); reflexivity.
Qed.

Lemma relates_on_change (changes : list change) : relates sticky (on_change changes).
Proof.
  intros me w r me' w' _. rewrite on_change_eq.
  destruct (initialized me).
  2:{ intros [= <- <- <-]. split; [reflexivity | apply orderly_refl]. }
  cbv zeta. rewrite _fetch_eq. cbv zeta.
  destruct (Nat.ltb 0 (length _)); destruct (fst (snd _)); cbn [andb];
    destruct (refresh_pending _);
    intros [= <- <- <-]; (split; [reflexivity|]);
    (apply sticky_local;
     [ reflexivity
     | intros Hfull; cbn; rewrite Hfull; apply resolve_full
     | reflexivity | reflexivity | ]);
    cbn [trace groups sched logged set_trace set_groups set_sched set_pendingFetchCount
         set_delayRefresh set_pendingRefresh set_refreshList pendingFetchCount
         baseClassInstance group_owner];
    intros id; rewrite ?outstanding_app, ?rejected_app, ?rejected_invokes;
    unfold outstanding, rejected, fetch_group;
    cbn [List.filter group_owner length baseClassInstance set_refreshList];
    rewrite ?(Nat.eqb_sym (baseClassInstance me) id);
    destruct (Nat.eqb id (baseClassInstance me)); cbn [length]; lia.
Qed.

End Changes.

#[export] Hint Resolve relates_on_change : relates.


(** ** Events and the worlds they lead to *)

Lemma steady_balanced (a b : world) : balanced a -> steady a b -> balanced b.
Proof.
  intros (Hk & Hf & Hb) (Hk' & Hd & Hc & Hbal). split; [auto|]. split.
  - intros id Hid. rewrite Hc in Hid. specialize (Hf id Hid).
    destruct (instances b !! id) eqn:Hi; [|reflexivity].
    destruct (proj2 (Hd id)) as [x Hx]; [eauto | congruence].
  - intros id. specialize (Hbal id). specialize (Hb id). lia.
Qed.

Lemma frame_world (a b : world) :
  instances b = instances a ->
  factory_baseClassInstance b = factory_baseClassInstance a ->
  groups b = groups a ->
  (forall id, rejected id (trace b) = rejected id (trace a)) ->
  replacements (trace b) = replacements (trace a) ->
  frame a b.
Proof.
  intros Hi Hf Hg Hr Hp. split; [split; [|split; [|split]]|split].
  - intros Hk id me. rewrite Hi. apply Hk.
  - intros id. rewrite Hi. reflexivity.
  - exact Hf.
  - intros id. unfold count_of. rewrite Hi, Hg, Hr. reflexivity.
  - intros id. unfold rl_of. rewrite Hi. reflexivity.
  - exact Hp.
Qed.

Lemma apart_settling (i : nat) (s : string) (l : list string) (a b : world) :
  apart i a b -> rl_of i a = Some (Selectors (s :: l)) -> settling a b.
Proof.
  intros [Hs Hr] Hi. split; [exact Hs|]. intros id.
  destruct (Nat.eq_dec id i) as [->|Hne].
  - rewrite Hi. split; discriminate.
  - rewrite (Hr id Hne). auto.
Qed.

Section Events.

Context `{Collaborators}.

Lemma relates_set_data (name : string) (v : Data.jsval) : relates sticky (set_data name v).
Proof.
  unfold set_data. repeat relates_more.
  apply (relates_weaken sticky frame); [exact frame_sticky |].
  apply relates_update_world. intros w. repeat split.
Qed.

Lemma _refresh_unfold (me : instance) (w : world) :
  _refresh me w
  = (if initialized me && negb (delayRefresh me) then
       match jqDom me with
       | Dom.JNull => _ <- render ;; ret tt
       | _ =>
           match _refreshList me with
           | Selectors (s :: l) => refresh_selectors (s :: l)
           | Full => refresh_full
           | Selectors [] => ret tt
           end ;;;
           schedule_sweep
       end
     else ret tt) me w.
Proof. reflexivity. Qed.

Lemma relates_settling_refresh_full : relates settling refresh_full.
Proof. unfold refresh_full. repeat relates_more. Qed.

Lemma relates_settling_schedule_sweep : relates settling schedule_sweep.
Proof.
  intros me w r me' w' _. rewrite schedule_sweep_eq. intros [= <- <- <-].
  split; [reflexivity|]. apply frame_settling. apply frame_quiet; auto.
Qed.

Hint Resolve relates_settling_refresh_full relates_settling_schedule_sweep : relates.

Lemma relates_settling__refresh : relates settling _refresh.
Proof.
  intros me w r me' w' Hkeyed Hrun.
  destruct (_refreshList me) as [|[|s l]] eqn:Hrl.
  - rewrite _refresh_unfold, Hrl in Hrun.
    refine ((_ : relates settling _) _ _ _ _ _ Hkeyed Hrun).
    repeat relates_more.
  - rewrite _refresh_unfold, Hrl in Hrun.
    refine ((_ : relates settling _) _ _ _ _ _ Hkeyed Hrun).
    repeat relates_more.
  - destruct (relates_at__refresh (baseClassInstance me) me w r me' w' eq_refl Hkeyed Hrun)
      as [Hid Hap].
    split; [exact Hid|]. apply (apart_settling _ s l _ _ Hap).
    rewrite rl_of_put, Nat.eqb_refl, Hrl. reflexivity.
Qed.

(** *** A group settles *)

Lemma outstanding_remove (id k : nat) (g : task_group) (gs : list task_group) :
  nth_error gs k = Some g ->
  outstanding id gs
  = outstanding id (firstn k gs ++ skipn (S k) gs)
    + (if Nat.eqb (group_owner g) id then 1 else 0).
Proof.
  intros Hk. rewrite <- (firstn_skipn k gs) at 1.
  rewrite !outstanding_app. rewrite (skipn_nth_error _ _ _ Hk).
  unfold outstanding at 2. cbn [List.filter].
  destruct (Nat.eqb (group_owner g) id); cbn [length]; unfold outstanding; lia.
Qed.

Lemma rejected_plain (id : nat) (e : effect) :
  plain_effect e = true -> rejected id [e] = 0.
Proof. destruct e as [| | o [] | | | |]; try discriminate; reflexivity. Qed.

Lemma rejected_catch (id o : nat) :
  rejected id [ConsoleError o false; ConsoleError o true] = if Nat.eqb o id then 1 else 0.
Proof. unfold rejected. cbn. destruct (Nat.eqb o id); reflexivity. Qed.

Lemma settle_sticky (k : nat) (fulfilled : bool) (W : world) :
  balanced W -> sticky W (settle k fulfilled W).
Proof.
  intros (Hkeyed & Hfresh & Hbal). unfold settle.
  destruct (nth_error (groups W) k) as [g|] eqn:Hk; [|apply orderly_refl].
  pose proof (fun id => outstanding_remove id k g (groups W) Hk) as Hout.
  unfold call. cbn [instances set_groups].
  destruct (instances W !! group_owner g) as [me|] eqn:Hme.
  2:{ exfalso. specialize (Hbal (group_owner g)). specialize (Hout (group_owner g)).
      unfold count_of in Hbal. rewrite Hme in Hbal. rewrite Nat.eqb_refl in Hout. lia. }
  pose proof (Hkeyed _ _ Hme) as Hid.
  rewrite <- (put_id me W) at 1 by (rewrite Hid; exact Hme).
  assert (Hgoal : forall r me' w',
    (if fulfilled && group_viable g then group_fulfilled (group_kind_of g)
     else group_rejected) me
      (set_groups (firstn k (groups W) ++ skipn (S k) (groups W)) W) = (r, me', w') ->
    sticky (put me W) (put me' w')).
  { intros r me' w'.
    destruct (fulfilled && group_viable g).
    - destruct (group_kind_of g) as [| |loadMask];
        cbv beta iota delta [group_fulfilled bind this update when log update_world ret
                             queue_own_refresh decrement_pending];
        [ destruct (callable (comp me) "_init")
        |
        | destruct loadMask; destruct (refresh_pending (_refreshList me)) ];
        intros [= <- <- <-];
        (apply sticky_local; [reflexivity | intros Hf; try exact Hf; reflexivity
                             | reflexivity | reflexivity |]);
        intros id; specialize (Hout id);
        cbn [trace groups set_trace set_groups set_sched pendingFetchCount
             set_pendingFetchCount set_pendingRefresh set_refreshList set_pendingInit
             set_initialized set_delayRefresh];
        rewrite ?rejected_app, ?rejected_plain by reflexivity;
        rewrite Hid, (Nat.eqb_sym id (group_owner g));
        destruct (Nat.eqb (group_owner g) id); lia.
    - cbv beta iota delta [group_rejected bind this log update_world].
      intros [= <- <- <-].
      apply sticky_local; [reflexivity | auto | reflexivity | reflexivity |].
      intros id. specialize (Hout id).
      cbn [trace groups set_trace set_groups]. rewrite <- app_assoc.
      cbn [app]. rewrite rejected_app, rejected_catch, Hid, (Nat.eqb_sym id (group_owner g)).
      destruct (Nat.eqb (group_owner g) id); lia. }
  specialize (Hgoal
    (fst (fst ((if fulfilled && group_viable g then group_fulfilled (group_kind_of g)
                else group_rejected) me
                 (set_groups (firstn k (groups W) ++ skipn (S k) (groups W)) W))))
    (snd (fst ((if fulfilled && group_viable g then group_fulfilled (group_kind_of g)
                else group_rejected) me
                 (set_groups (firstn k (groups W) ++ skipn (S k) (groups W)) W))))
    (snd ((if fulfilled && group_viable g then group_fulfilled (group_kind_of g)
           else group_rejected) me
            (set_groups (firstn k (groups W) ++ skipn (S k) (groups W)) W)))).
  destruct ((if fulfilled && group_viable g then group_fulfilled (group_kind_of g)
             else group_rejected) me
              (set_groups (firstn k (groups W) ++ skipn (S k) (groups W)) W))
    as [[r me'] w'].
  cbn [snd fst] in *. exact (Hgoal eq_refl).
Qed.

(** *** The scheduler's timer fires *)

Lemma flush_settling (i : nat) (W : world) :
  balanced W -> settling W (snd (flush i W)).
Proof.
  revert W. induction i as [|i IH]; intros W HW; cbn [flush]; [apply orderly_refl|].
  set (w1 := set_sched _ W).
  assert (H1 : frame W w1) by (apply frame_world; reflexivity).
  destruct (last (refreshQueue (sched W))) as [[n|owner]|];
    [exact (frame_settling _ _ H1) | | exact (frame_settling _ _ H1)].
  set (w2 := set_trace _ w1).
  assert (H2 : frame W w2).
  { apply frame_world; try reflexivity.
    - intros id. subst w2 w1. cbn [trace set_trace set_sched].
      rewrite rejected_app. cbn. lia.
    - subst w2 w1. cbn [trace set_trace set_sched]. rewrite replacements_app. cbn.
      apply app_nil_r. }
  assert (Hk2 : keyed w2) by (apply H2, HW).
  pose proof (relates_call settling owner _refresh w2 relates_settling__refresh Hk2) as H3.
  destruct (call owner _refresh w2) as [[[]|e] w3]; cbn [snd] in H3.
  - assert (H03 : settling W w3) by exact (orderly_trans _ _ _ (frame_settling _ _ H2) H3).
    refine (orderly_trans _ _ _ H03 (IH w3 _)).
    exact (steady_balanced _ _ HW (orderly_steady _ _ H03)).
  - exact (orderly_trans _ _ _ (frame_settling _ _ H2) H3).
Qed.

Lemma fire_timer_settling (W : world) : balanced W -> settling W (fire_timer W).
Proof.
  intros HW. unfold fire_timer.
  destruct (timers (sched W)) as [|c rest]; [apply orderly_refl|].
  set (w1 := set_sched _ W).
  assert (H1 : frame W w1) by (apply frame_world; reflexivity).
  assert (Hb1 : balanced w1) by exact (steady_balanced _ _ HW (proj1 H1)).
  unfold timer_callback.
  destruct (Nat.eqb c _); [|exact (frame_settling _ _ H1)].
  pose proof (flush_settling (length (refreshQueue (sched w1))) w1 Hb1) as H2.
  destruct (flush _ w1) as [[[]|e] w2]; cbn [snd] in H2.
  - refine (orderly_trans _ _ _ (frame_settling _ _ H1) (orderly_trans _ _ _ H2 _)).
    apply frame_settling, frame_world; reflexivity.
  - exact (orderly_trans _ _ _ (frame_settling _ _ H1) H2).
Qed.

(** *** The timer of a sweep fires *)

Lemma fire_sweep_frame (W : world) : keyed W -> frame W (fire_sweep W).
Proof.
  intros HW. unfold fire_sweep.
  destruct (sweeps W) as [|[id cleanUpTime] rest]; [apply orderly_refl|].
  set (w1 := set_sweeps rest W).
  assert (H1 : frame W w1) by (apply frame_world; reflexivity).
  refine (orderly_trans _ _ _ H1 _).
  apply relates_call; [typeclasses eauto | apply relates_sweep | apply H1, HW].
Qed.

(** *** A new instance *)

Lemma counter_bumped (W w2 : world) :
  balanced W ->
  instances w2 = instances W ->
  groups w2 = groups W ->
  trace w2 = trace W ->
  factory_baseClassInstance w2 = S (factory_baseClassInstance W) ->
  balanced w2 /\ (forall id, rl_of id W = Some Full -> rl_of id w2 = Some Full).
Proof.
  intros (Hkeyed & Hfresh & Hbal) Hi Hg Ht Hf. split; [split; [|split]|].
  - intros id me. rewrite Hi. apply Hkeyed.
  - intros id Hge. rewrite Hi. apply Hfresh. lia.
  - intros id. unfold count_of. rewrite Hi, Hg, Ht. apply Hbal.
  - intros id. unfold rl_of. rewrite Hi. auto.
Qed.

Lemma newcomer_balanced (me0 : instance) (W w2 : world) :
  balanced W ->
  instances w2 = instances W ->
  groups w2 = groups W ->
  trace w2 = trace W ->
  factory_baseClassInstance w2 = S (factory_baseClassInstance W) ->
  baseClassInstance me0 = factory_baseClassInstance W ->
  pendingFetchCount me0 = 0%Z ->
  balanced (put me0 w2)
  /\ (forall id, rl_of id W = Some Full -> rl_of id (put me0 w2) = Some Full).
Proof.
  intros (Hkeyed & Hfresh & Hbal) Hi Hg Ht Hf Hid Hc.
  assert (Hnone : instances W !! factory_baseClassInstance W = None)
    by (apply Hfresh; lia).
  split; [split; [|split]|].
  - intros id me. cbn. rewrite Hi, Hid.
    destruct (decide (factory_baseClassInstance W = id)) as [<-|Hne].
    + rewrite lookup_insert_eq. intros [= <-]. exact Hid.
    + rewrite lookup_insert_ne by exact Hne. apply Hkeyed.
  - intros id Hge. cbn in *. rewrite Hi, Hid.
    rewrite lookup_insert_ne by lia. apply Hfresh. lia.
  - intros id. rewrite count_of_put. cbn [groups trace put set_instances].
    rewrite Hg, Ht, Hid, Hc. specialize (Hbal id).
    destruct (Nat.eqb_spec id (factory_baseClassInstance W)) as [->|Hne].
    + unfold count_of in Hbal. rewrite Hnone in Hbal. exact Hbal.
    + unfold count_of in *. rewrite Hi. exact Hbal.
  - intros id. rewrite rl_of_put, Hid.
    destruct (Nat.eqb_spec id (factory_baseClassInstance W)) as [->|Hne].
    + unfold rl_of. rewrite Hnone. discriminate.
    + unfold rl_of. rewrite Hi. auto.
Qed.

Lemma constructor_balanced (a : construction) (data : data_argument) (W : world) :
  balanced W ->
  balanced (snd (constructor a data W))
  /\ (forall id, rl_of id W = Some Full ->
                 rl_of id (snd (constructor a data W)) = Some Full).
Proof.
  intros HW. unfold constructor.
  set (w1 := match data with DataObject r => _ | _ => W end).
  set (w2 := set_factory_baseClassInstance _ w1).
  assert (Hw1 : instances w1 = instances W /\ groups w1 = groups W /\ trace w1 = trace W
                /\ factory_baseClassInstance w1 = factory_baseClassInstance W).
  { subst w1. destruct data; repeat split. }
  destruct Hw1 as (Hi1 & Hg1 & Ht1 & Hf1).
  assert (Hf2 : factory_baseClassInstance w2 = S (factory_baseClassInstance W)).
  { subst w2. cbn. rewrite Hf1. reflexivity. }
  destruct (counter_bumped W w2 HW Hi1 Hg1 Ht1 Hf2) as [Hb2 Hr2].
  destruct (resolve_templates (new_templates a)) as [tpls|e]; [|split; assumption].
  destruct data as [r| |]; [|split; assumption|split; assumption].
  set (me0 := {| comp := _; baseClassInstance := factory_baseClassInstance w1 |}).
  destruct (newcomer_balanced me0 W w2 HW Hi1 Hg1 Ht1 Hf2 Hf1 eq_refl) as [Hb0 Hr0].
  destruct (new_delayInit a); [split; assumption|].
  pose proof (relates_init me0 w2) as Hinit.
  rewrite init_eq in *. cbv zeta in *.
  destruct (negb (bindings_callable (comp me0))); [split; assumption|].
  match goal with |- context [if ?c then (Ok tt, ?m1, ?x1) else (Ok tt, ?m2, ?x2)] =>
    destruct (Hinit (Ok tt) (if c then m1 else m2) (if c then x1 else x2)) as [_ Hframe];
      [apply Hb0 | destruct c; reflexivity |];
    destruct c; cbn [snd fst] in * end;
    (split; [exact (steady_balanced _ _ Hb0 (proj1 Hframe))|];
     intros id Hfull; destruct Hframe as (_ & Hrl & _); rewrite Hrl; exact (Hr0 id Hfull)).
Qed.

(** *** Any event *)

Lemma run_event_spec (e : event) (W : world) :
  balanced W ->
  balanced (run_event e W)
  /\ forall id,
       rl_of id W = Some Full ->
       rl_of id (run_event e W) = Some Full
       \/ (e = TimerFires /\ rl_of id (run_event e W) = Some (Selectors [])).
Proof.
  intros HW.
  assert (Hsticky : forall W', sticky W W' ->
    balanced W' /\ forall id, rl_of id W = Some Full ->
      rl_of id W' = Some Full
      \/ (e = TimerFires /\ rl_of id W' = Some (Selectors []))).
  { intros W' [Hs Hr]. split; [exact (steady_balanced _ _ HW Hs)|]. auto. }
  assert (Hcall : forall A id (m : M A), relates sticky m ->
    balanced (snd (call id m W))
    /\ forall i, rl_of i W = Some Full ->
      rl_of i (snd (call id m W)) = Some Full
      \/ (e = TimerFires /\ rl_of i (snd (call id m W)) = Some (Selectors []))).
  { intros A id m Hm. apply Hsticky. apply relates_call; [typeclasses eauto | exact Hm |].
    apply HW. }
  destruct e as [a data|id|id|id|id c s|id name v|r name v|id changes|id|k fulfilled| |];
    cbn [run_event].
  - destruct (constructor_balanced a data W HW) as [Hb Hr]. split; [exact Hb | auto].
  - apply Hcall. repeat relates_more.
  - apply Hcall. repeat relates_more.
  - apply Hcall. repeat relates_more.
  - apply Hcall. repeat relates_more.
  - apply Hcall. exact (relates_set_data name v).
  - apply Hsticky, frame_sticky, frame_world; reflexivity.
  - apply Hcall. repeat relates_more.
  - apply Hcall. apply (relates_weaken sticky frame); [exact frame_sticky |].
    exact relates_destroy.
  - apply Hsticky. apply settle_sticky. exact HW.
  - destruct (fire_timer_settling W HW) as [Hs Hr].
    split; [exact (steady_balanced _ _ HW Hs)|].
    intros id Hfull. destruct (proj1 (Hr id) Hfull) as [Hf|He]; auto.
  - apply Hsticky, frame_sticky, fire_sweep_frame, HW.
Qed.

Lemma outset_balanced (objs : gmap nat Data.fields) (d : dom_store) :
  balanced (outset objs d).
Proof.
  split; [|split].
  - intros id me. cbn. rewrite lookup_empty. discriminate.
  - intros id _. cbn. apply lookup_empty.
  - intros id. unfold count_of. cbn. rewrite lookup_empty. reflexivity.
Qed.

Lemma run_balanced (es : list event) (W : world) : balanced W -> balanced (run es W).
Proof.
  revert W. induction es as [|e es IH]; intros W HW; cbn; [exact HW|].
  apply IH. apply run_event_spec. exact HW.
Qed.

(** *** The claims about the reachable worlds *)

(** C2, at the failing input: the instance built from [Sample.fetching]
    starts its active initialization group with [pendingFetchCount = 1].
    When that group is fulfilled the count goes back to [0]; when it is
    rejected the [catch] handler only logs, and the count is still [1] with
    no group left outstanding. *)
Lemma rejected_group_not_decremented :
  let started :=
    run (H := Sample.collaborators) [New Sample.fetching (DataObject 0)] Sample.caller_world in
  let fulfilled := run (H := Sample.collaborators) [Settle 0 true] started in
  let settled := run (H := Sample.collaborators) [Settle 0 false] started in
  count_of 0 started = 1%Z
  /\ length (groups started) = 1
  /\ groups fulfilled = []
  /\ count_of 0 fulfilled = 0%Z
  /\ groups settled = []
  /\ count_of 0 settled = 1%Z
  /\ count_of 0 settled <> (count_of 0 started - 1)%Z.
Proof. vm_compute. repeat split; discriminate. Qed.

(** What the count holds as the code keeps it: in every world reachable
    from the outset, the [pendingFetchCount] of an instance is the number of
    its task groups that are still outstanding plus the number of its
    groups that were rejected. *)
Lemma pendingFetchCount_accounts (objs : gmap nat Data.fields) (d : dom_store)
    (es : list event) (id : nat) (me : instance) :
  instances (run es (outset objs d)) !! id = Some me ->
  pendingFetchCount me
  = (Z.of_nat (outstanding id (groups (run es (outset objs d))))
     + Z.of_nat (rejected id (trace (run es (outset objs d)))))%Z
  /\ (0 <= pendingFetchCount me)%Z.
Proof.
  intros Hme.
  destruct (run_balanced es _ (outset_balanced objs d)) as (_ & _ & Hbal).
  specialize (Hbal id). unfold count_of in Hbal. rewrite Hme in Hbal.
  split; [exact Hbal | lia].
Qed.

(** C4: in every reachable world, once the refresh list of an instance is
    [true] it is still [true] after any event other than a flush of the
    scheduler (processing change records, in particular, never narrows it to
    selectors), and after a flush it is [true] or has been reset to the
    empty list by the refresh pass. *)
Theorem full_refresh_sticky (objs : gmap nat Data.fields) (d : dom_store)
    (es : list event) (e : event) (id : nat) :
  rl_of id (run es (outset objs d)) = Some Full ->
  rl_of id (run_event e (run es (outset objs d))) = Some Full
  \/ (e = TimerFires
      /\ rl_of id (run_event e (run es (outset objs d))) = Some (Selectors [])).
Proof.
  intros Hfull.
  apply (run_event_spec e (run es (outset objs d))); [|exact Hfull].
  apply run_balanced, outset_balanced.
Qed.

End Events.

Lemma pendingFetchCount_accounts_witness :
  let W := run (H := Sample.collaborators)
             [SetProperty 0 "name" (Data.JStr "Bob"); New Sample.fetching (DataObject 0)]
             Sample.caller_world in
  exists me, instances W !! 0 = Some me /\ pendingFetchCount me = 1%Z.
Proof.
  cbv zeta.
  destruct (instances
              (run (H := Sample.collaborators)
                 [SetProperty 0 "name" (Data.JStr "Bob"); New Sample.fetching (DataObject 0)]
                 Sample.caller_world)
              !! 0) as [me|] eqn:Hme; [|vm_compute in Hme; discriminate].
  exists me. split; [reflexivity|].
  destruct (pendingFetchCount_accounts (H := Sample.collaborators) _ _ _ 0 me Hme)
    as [Hcount _].
  rewrite Hcount. vm_compute. reflexivity.
Defined.

Lemma full_refresh_sticky_witness :
  let es := [New Sample.plain (DataObject 0); CallRender 0; CallRefresh 0] in
  let e := SetData 0 "name" (Data.JStr "Bob") in
  rl_of 0 (run (H := Sample.collaborators) es Sample.caller_world) = Some Full
  /\ rl_of 0 (run_event (H := Sample.collaborators) e
                (run (H := Sample.collaborators) es Sample.caller_world)) = Some Full.
Proof.
  cbv zeta. split; [vm_compute; reflexivity|].
  destruct (full_refresh_sticky (H := Sample.collaborators)
              {[0 := [("name", Data.JStr "Ann")]]} {| trees := ∅; next_tree := 0 |}
              [New Sample.plain (DataObject 0); CallRender 0; CallRefresh 0]
              (SetData 0 "name" (Data.JStr "Bob")) 0) as [Hfull | [Hflush _]];
    [vm_compute; reflexivity | exact Hfull | discriminate].
Defined.


(** ** Initialization, fetching and the change handler *)

Lemma filter_nonempty {A} (f : A -> bool) (l : list A) :
  Nat.ltb 0 (length (List.filter f l)) = existsb f l.
Proof.
  induction l as [|x l IH]; cbn; [reflexivity|].
  destruct (f x); cbn; [reflexivity | exact IH].
Qed.

Lemma set_refreshList_same (me : instance) : set_refreshList (_refreshList me) me = me.
Proof. destruct me; reflexivity. Qed.

(** X1: [init()] checks the data bindings before it starts anything: when a
    data binding names a method the component does not have, it throws and
    the component and the world are as they were (no task started, no group
    registered, nothing counted). *)
Theorem init_missing_method (me : instance) (w : world)
    (key : string) (b : data_binding) (name : string) :
  In (key, b) (dataBindings (comp me)) ->
  In name (methods b) ->
  callable (comp me) name = false ->
  init me w = (Throw ConfigurationError, me, w).
Proof.
  intros Hb Hn Hc. rewrite init_eq.
  assert (Hbc : bindings_callable (comp me) = false).
  { unfold bindings_callable. apply not_true_is_false. intros Hall.
    rewrite forallb_forall in Hall. specialize (Hall _ Hb). cbn in Hall.
    rewrite forallb_forall in Hall. rewrite (Hall _ Hn) in Hc. discriminate. }
  rewrite Hbc. reflexivity.
Qed.

Lemma init_missing_method_witness :
  init (Sample.blank Sample.misbound 0) Sample.caller_world
  = (Throw ConfigurationError, Sample.blank Sample.misbound 0, Sample.caller_world).
Proof.
  apply (init_missing_method _ _ "person_id"
           {| methods := ["_fetchPerson"]; binding_delayRefresh := false |} "_fetchPerson");
    [left; reflexivity | left; reflexivity | reflexivity].
Defined.

(** X2: What [init()] does when the bindings are in order.  The methods of the
    selected items that exist are called, in the order of the init list.
    With an item that prevents rendering the component is left pending, with
    one more group counted; without one it is initialized on the spot and
    [_init] is called.  The items that do not prevent rendering make one
    more group.  The refresh list and the scheduler are not touched. *)
Theorem init_outcome (me : instance) (w : world) :
  bindings_callable (comp me) = true ->
  let items := selected_items (comp me) (data_of w (_data me)) in
  let active := existsb preventRender items in
  let passive := existsb (fun it => negb (preventRender it)) items in
  exists me' w',
    init me w = (Ok tt, me', w')
    /\ initialized me' = initialized me || negb active
    /\ pendingInit me' = pendingInit me || active
    /\ pendingFetchCount me' = (pendingFetchCount me + Z.b2z active + Z.b2z passive)%Z
    /\ length (groups w') = length (groups w) + Nat.b2n active + Nat.b2n passive
    /\ trace w'
       = trace w
         ++ map (Invoke (baseClassInstance me))
              (List.filter (callable (comp me)) (map method items))
         ++ (if negb active && callable (comp me) "_init"
             then [Invoke (baseClassInstance me) "_init"] else [])
    /\ _refreshList me' = _refreshList me
    /\ sched w' = sched w.
Proof.
  intros Hbc. cbv zeta. rewrite init_eq, Hbc. cbv zeta. cbn [negb].
  rewrite !filter_nonempty.
  destruct (existsb preventRender _);
    destruct (existsb (fun it => negb (preventRender it)) _);
    try destruct (callable (comp me) "_init");
    eexists; eexists; (split; [reflexivity|]);
    cbn [initialized pendingInit pendingFetchCount set_pendingFetchCount set_pendingInit
         set_initialized groups set_groups logged trace set_trace sched _refreshList
         negb andb orb Z.b2z Nat.b2n];
    rewrite ?orb_true_r, ?orb_false_r, ?length_app, ?app_nil_r, <- ?app_assoc;
    cbn [length]; repeat split; lia.
Qed.

Lemma init_outcome_witness :
  exists me' w',
    init (Sample.blank Sample.fetching 0) Sample.caller_world = (Ok tt, me', w')
    /\ initialized me' = false /\ pendingInit me' = true.
Proof.
  destruct (init_outcome (Sample.blank Sample.fetching 0) Sample.caller_world eq_refl)
    as (me' & w' & Hrun & Hi & Hp & _).
  exists me', w'. split; [exact Hrun|]. split; [exact Hi | exact Hp].
Defined.

(** X3: [_fetch(delayRefresh, fetchList)] with an empty list does nothing, even
    when asked to delay refreshes.  With methods to call it counts one group
    for all of them, calls those that exist from the last to the first, and
    raises the delay-refresh gate (and the load mask) exactly when asked to;
    it never lowers the gate, and it leaves the refresh list and the
    scheduler alone. *)
Theorem _fetch_outcome (delay : bool) (fetchList : list string) (me : instance) (w : world) :
  let some := Nat.ltb 0 (length fetchList) in
  exists me' w',
    _fetch delay fetchList me w = (Ok tt, me', w')
    /\ (fetchList = [] -> me' = me /\ w' = w)
    /\ pendingFetchCount me' = (pendingFetchCount me + Z.b2z some)%Z
    /\ delayRefresh me' = delayRefresh me || (delay && some)
    /\ groups w'
       = groups w ++ (if some then [fetch_group delay fetchList me] else [])
    /\ trace w'
       = trace w
         ++ (if delay && some then [Invoke (baseClassInstance me) "showLoadMask"] else [])
         ++ map (Invoke (baseClassInstance me))
              (List.filter (callable (comp me)) (rev fetchList))
    /\ _refreshList me' = _refreshList me
    /\ sched w' = sched w.
Proof.
  cbv zeta. rewrite _fetch_eq. cbv zeta.
  destruct fetchList as [|m l].
  - cbn [length Nat.ltb Nat.leb]. rewrite andb_false_r.
    exists me, w. cbn. rewrite !app_nil_r, orb_false_r, Z.add_0_r. repeat split.
  - assert (Hlen : Nat.ltb 0 (length (m :: l)) = true) by reflexivity.
    rewrite Hlen, andb_true_r.
    destruct delay; eexists; eexists; (split; [reflexivity|]);
      (split; [discriminate|]);
      cbn [pendingFetchCount set_pendingFetchCount set_delayRefresh delayRefresh groups
           set_groups logged trace set_trace sched _refreshList Z.b2z];
      rewrite ?orb_true_r, ?orb_false_r, <- ?app_assoc; repeat split.
Qed.

Section Handler.

Context `{Collaborators}.

(** No binding of [bs] answers to the path. *)
Lemma ui_fold_unmatched (path : string) (bs : list (string * ui_binding)) (r : refresh_list) :
  (forall kv, In kv bs -> binding_matches (fst kv) path = false) ->
  fold_left (ui_step path) bs r = r.
Proof.
  revert r. induction bs as [|kv bs IH]; intros r Hno; cbn [fold_left]; [reflexivity|].
  unfold ui_step at 2. rewrite (Hno kv (or_introl eq_refl)), andb_false_r.
  apply IH. intros kv' Hin. apply Hno. right. exact Hin.
Qed.

Lemma data_fold_unmatched (path : string) (bs : list (string * data_binding))
    (acc : bool * list string) :
  (forall kv, In kv bs -> binding_matches (fst kv) path = false) ->
  fold_left (data_step path) bs acc = acc.
Proof.
  revert acc. induction bs as [|kv bs IH]; intros acc Hno; cbn [fold_left]; [reflexivity|].
  unfold data_step at 2. rewrite (Hno kv (or_introl eq_refl)).
  apply IH. intros kv' Hin. apply Hno. right. exact Hin.
Qed.

(** X4: On an initialized component with nothing to refresh, changes on paths
    that no UI binding and no data binding answers to leave everything as
    it is: no selector, no fetch, no queued refresh. *)
Theorem on_change_unmatched (changes : list change) (me : instance) (w : world) :
  initialized me = true ->
  _refreshList me = Selectors [] ->
  (forall ch kv, In ch changes -> In kv (uiBindings (comp me)) ->
     binding_matches (fst kv) (currentPath ch) = false) ->
  (forall ch kv, In ch changes -> In kv (dataBindings (comp me)) ->
     binding_matches (fst kv) (currentPath ch) = false) ->
  on_change changes me w = (Ok tt, me, w).
Proof.
  intros Hinit Hrl Hui Hdata. rewrite on_change_eq, Hinit. cbv zeta.
  assert (Hres : resolve (comp me) changes (_refreshList me)
                 = (_refreshList me, (false, []))).
  { unfold resolve.
    assert (Hgen : forall l st, (forall ch, In ch l -> In ch changes) ->
              fold_left (change_step (comp me)) l st = st).
    { induction l as [|ch l IH]; intros st Hsub; cbn [fold_left]; [reflexivity|].
      unfold change_step at 2.
      rewrite ui_fold_unmatched
        by (intros kv Hkv; apply (Hui ch kv); [apply Hsub; left; reflexivity | exact Hkv]).
      rewrite data_fold_unmatched
        by (intros kv Hkv; apply (Hdata ch kv); [apply Hsub; left; reflexivity | exact Hkv]).
      rewrite <- surjective_pairing.
      apply IH. intros ch' Hin. apply Hsub. right. exact Hin. }
    apply Hgen. intros ch Hin. apply in_rev. exact Hin. }
  rewrite Hres. cbn [fst snd]. rewrite _fetch_eq. cbv zeta. cbn [length Nat.ltb Nat.leb andb].
  rewrite set_refreshList_same, Hrl. reflexivity.
Qed.

(** Once a binding set to [true] has answered, the folds keep [true]. *)
Lemma ui_fold_full (path : string) (bs : list (string * ui_binding)) :
  fold_left (ui_step path) bs Full = Full.
Proof. induction bs as [|kv bs IH]; [reflexivity | exact IH]. Qed.

Lemma ui_fold_reaches_full (path key : string) (bs : list (string * ui_binding))
    (r : refresh_list) :
  In (key, UiFull) bs -> binding_matches key path = true ->
  fold_left (ui_step path) bs r = Full.
Proof.
  revert r. induction bs as [|kv bs IH]; intros r Hin Hm; [destruct Hin|].
  cbn [fold_left]. destruct Hin as [->|Hin].
  - unfold ui_step at 2. cbn [fst snd]. rewrite Hm.
    destruct r as [|l]; cbn [is_full negb andb]; apply ui_fold_full.
  - apply IH; assumption.
Qed.

Lemma change_fold_full (c : component) (l : list change) (st : refresh_list * (bool * list string)) :
  fst st = Full -> fst (fold_left (change_step c) l st) = Full.
Proof.
  revert st. induction l as [|ch l IH]; intros st Hst; cbn [fold_left]; [exact Hst|].
  apply IH. unfold change_step. cbn [fst]. rewrite Hst. apply ui_fold_full.
Qed.

Lemma resolve_reaches_full (c : component) (changes : list change) (r : refresh_list)
    (ch : change) (key : string) :
  In ch changes -> In (key, UiFull) (uiBindings c) ->
  binding_matches key (currentPath ch) = true ->
  fst (resolve c changes r) = Full.
Proof.
  intros Hch Hkey Hm. unfold resolve. apply in_rev in Hch.
  generalize (r, (false, @nil string)) as st.
  induction (rev changes) as [|ch' l IH]; intros st; [destruct Hch|].
  cbn [fold_left]. destruct Hch as [->|Hch].
  - apply change_fold_full. unfold change_step. cbn [fst].
    exact (ui_fold_reaches_full _ key _ _ Hkey Hm).
  - apply IH. exact Hch.
Qed.

Lemma _fetch_scheduler (delay : bool) (fetchList : list string) (me : instance) (w : world) :
  sched (snd (_fetch delay fetchList me w)) = sched w
  /\ _refreshList (snd (fst (_fetch delay fetchList me w))) = _refreshList me
  /\ baseClassInstance (snd (fst (_fetch delay fetchList me w))) = baseClassInstance me
  /\ initialized (snd (fst (_fetch delay fetchList me w))) = initialized me.
Proof.
  rewrite _fetch_eq. cbv zeta.
  destruct (Nat.ltb 0 (length fetchList)); destruct (delay && _); repeat split.
Qed.

(** X5: A change on a path that a UI binding set to [true] answers to (by name
    or as a regular expression) leaves the component with a full refresh
    pending, whatever else changed with it, and puts the component's refresh
    closure at the end of the scheduler's queue. *)
Theorem on_change_full_binding (changes : list change) (me : instance) (w : world)
    (ch : change) (key : string) :
  initialized me = true ->
  Forall (fun v => exists o, v = Js.VFun o) (refreshQueue (sched w)) ->
  In ch changes ->
  In (key, UiFull) (uiBindings (comp me)) ->
  binding_matches key (currentPath ch) = true ->
  exists me' w',
    on_change changes me w = (Ok tt, me', w')
    /\ _refreshList me' = Full
    /\ pendingRefresh me' = true
    /\ refreshQueue (sched w')
       = refreshQueue (sched w) ++ [Js.VFun (baseClassInstance me)]
    /\ timers (sched w') = timers (sched w) ++ [S (length (refreshQueue (sched w)))].
Proof.
  intros Hinit Hq Hch Hkey Hm. rewrite on_change_eq, Hinit. cbv zeta.
  rewrite (resolve_reaches_full _ _ _ ch key Hch Hkey Hm).
  match goal with |- context [_fetch ?d ?l ?m w] =>
    pose proof (_fetch_scheduler d l m w) as (Hs & Hrl & _);
    destruct (_fetch d l m w) as [[r1 me1] w1] end.
  cbn [fst snd refresh_pending] in *.
  exists (set_pendingRefresh true me1), (set_sched (queueRefresh (baseClassInstance me)
            (Js.VFun (baseClassInstance me)) (sched w1)) w1).
  split; [reflexivity|]. split; [exact Hrl|]. split; [reflexivity|].
  cbn [sched set_sched]. rewrite Hs.
  split; [apply queueRefresh_appends; exact Hq|].
  unfold queueRefresh, Js.indexOf. rewrite (indexOf_from_functions _ _ 0%Z Hq).
  cbn. rewrite length_app. cbn. f_equal. f_equal. lia.
Qed.

End Handler.

Lemma on_change_unmatched_witness :
  on_change (H := Sample.collaborators)
    [{| change_type := "update"; currentPath := "age"; newValue := Data.JNum 7 |}]
    Sample.ready Sample.caller_world
  = (Ok tt, Sample.ready, Sample.caller_world).
Proof.
  apply (on_change_unmatched (H := Sample.collaborators)); [reflexivity | reflexivity | |].
  - intros ch kv [<-|[]] Hkv. cbn in Hkv.
    destruct Hkv as [<-|[<-|[]]]; vm_compute; reflexivity.
  - intros ch kv _ [].
Defined.

Lemma on_change_full_binding_witness :
  exists me' w',
    on_change (H := Sample.collaborators)
      [{| change_type := "update"; currentPath := "person_id"; newValue := Data.JNum 7 |}]
      Sample.ready Sample.caller_world = (Ok tt, me', w')
    /\ _refreshList me' = Full.
Proof.
  destruct (on_change_full_binding (H := Sample.collaborators)
              [{| change_type := "update"; currentPath := "person_id";
                  newValue := Data.JNum 7 |}]
              Sample.ready Sample.caller_world
              {| change_type := "update"; currentPath := "person_id";
                 newValue := Data.JNum 7 |} "person_id")
    as (me' & w' & Hrun & Hfull & _);
    [reflexivity | constructor | left; reflexivity | right; left; reflexivity
     | reflexivity |].
  exists me', w'. split; [exact Hrun | exact Hfull].
Defined.


Section Selectors.

Context `{Collaborators}.

Variable c : component.

(** The selector [s] is listed by a UI binding that answers to the path of
    one of the changes. *)
Let listed (changes : list change) (s : string) : Prop :=
  exists ch key sels,
    In ch changes /\ In (key, UiSelectors sels) (uiBindings c)
    /\ binding_matches key (currentPath ch) = true /\ In s sels.

Lemma ui_fold_appends (ch : change) (bs : list (string * ui_binding)) (l : list string) :
  (forall kv, In kv bs -> In kv (uiBindings c)) ->
  fold_left (ui_step (currentPath ch)) bs (Selectors l) = Full
  \/ exists more,
       fold_left (ui_step (currentPath ch)) bs (Selectors l) = Selectors (l ++ more)
       /\ forall s, In s more -> listed [ch] s.
Proof.
  revert l. induction bs as [|[key b] bs IH]; intros l Hsub; cbn [fold_left].
  - right. exists []. rewrite app_nil_r. split; [reflexivity | intros s []].
  - assert (Hsub' : forall kv, In kv bs -> In kv (uiBindings c))
      by (intros kv Hin; apply Hsub; right; exact Hin).
    assert (Hstep : ui_step (currentPath ch) (Selectors l) (key, b)
                    = if binding_matches key (currentPath ch)
                      then match b with
                           | UiFull => Full
                           | UiSelectors sels => Selectors (l ++ sels)
                           end
                      else Selectors l) by reflexivity.
    rewrite Hstep. clear Hstep.
    destruct (binding_matches key (currentPath ch)) eqn:Hm; [|apply IH; exact Hsub'].
    destruct b as [|sels]; [left; apply ui_fold_full|].
    destruct (IH (l ++ sels) Hsub') as [Hfull | (more & Heq & Hmore)]; [left; exact Hfull|].
    right. exists (sels ++ more). rewrite app_assoc. split; [exact Heq|].
    intros s Hs. apply in_app_or in Hs as [Hs|Hs]; [|exact (Hmore s Hs)].
    exists ch, key, sels. split; [left; reflexivity|].
    split; [apply Hsub; left; reflexivity|]. split; assumption.
Qed.

Lemma resolve_appends (changes : list change) (l : list string) :
  fst (resolve c changes (Selectors l)) = Full
  \/ exists more,
       fst (resolve c changes (Selectors l)) = Selectors (l ++ more)
       /\ forall s, In s more -> listed changes s.
Proof.
  unfold resolve.
  assert (Hgen : forall chs st l0,
            (forall ch, In ch chs -> In ch changes) ->
            fst st = Selectors l0 ->
            fst (fold_left (change_step c) chs st) = Full
            \/ exists more,
                 fst (fold_left (change_step c) chs st) = Selectors (l0 ++ more)
                 /\ forall s, In s more -> listed changes s).
  { induction chs as [|ch chs IH]; intros st l0 Hsub Hst; cbn [fold_left].
    - right. exists []. rewrite app_nil_r. split; [exact Hst | intros s []].
    - assert (Hsub' : forall x, In x chs -> In x changes)
        by (intros x Hin; apply Hsub; right; exact Hin).
      destruct (ui_fold_appends ch (uiBindings c) l0 (fun kv Hkv => Hkv))
        as [Hfull | (more1 & Heq1 & Hmore1)].
      + left. apply change_fold_full. unfold change_step. cbn [fst].
        rewrite Hst. exact Hfull.
      + destruct (IH (change_step c st ch) (l0 ++ more1) Hsub')
          as [Hfull | (more2 & Heq2 & Hmore2)].
        * unfold change_step. cbn [fst]. rewrite Hst. exact Heq1.
        * left. exact Hfull.
        * right. exists (more1 ++ more2). rewrite app_assoc. split; [exact Heq2|].
          intros s Hs. apply in_app_or in Hs as [Hs|Hs]; [|exact (Hmore2 s Hs)].
          destruct (Hmore1 s Hs) as (ch' & key & sels & [<-|[]] & Hkey & Hm & Hin).
          exists ch, key, sels. split; [apply Hsub; left; reflexivity|].
          split; [exact Hkey|]. split; assumption. }
  apply (Hgen (rev changes) _ l); [|reflexivity].
  intros ch Hin. apply in_rev. exact Hin.
Qed.

End Selectors.

Section Pending.

Context `{Collaborators}.

(** X6: The change handler never drops a selector that is waiting to be
    refreshed: it ends with a full refresh pending, or with the selectors it
    found followed by more, each of them listed by a UI binding that answers
    to the path of one of the changes. *)
Theorem on_change_appends_selectors (changes : list change) (me : instance) (w : world)
    (l : list string) :
  initialized me = true ->
  _refreshList me = Selectors l ->
  exists me' w',
    on_change changes me w = (Ok tt, me', w')
    /\ (_refreshList me' = Full
        \/ exists more,
             _refreshList me' = Selectors (l ++ more)
             /\ forall s, In s more ->
                  exists ch key sels,
                    In ch changes /\ In (key, UiSelectors sels) (uiBindings (comp me))
                    /\ binding_matches key (currentPath ch) = true /\ In s sels).
Proof.
  intros Hinit Hrl. rewrite on_change_eq, Hinit. cbv zeta. rewrite Hrl.
  pose proof (resolve_appends (comp me) changes l) as Hres.
  match goal with |- context [_fetch ?d ?fl ?m w] =>
    pose proof (_fetch_scheduler d fl m w) as (_ & Hkeep & _);
    destruct (_fetch d fl m w) as [[r1 me1] w1] end.
  cbn [fst snd _refreshList set_refreshList] in Hkeep.
  destruct (refresh_pending _); eexists; eexists; (split; [reflexivity|]);
    cbn [_refreshList set_pendingRefresh]; rewrite Hkeep; exact Hres.
Qed.

Lemma data_fold_kept (path : string) (bs : list (string * data_binding))
    (acc : bool * list string) :
  fst acc = true -> snd acc <> [] ->
  fst (fold_left (data_step path) bs acc) = true
  /\ snd (fold_left (data_step path) bs acc) <> [].
Proof.
  revert acc. induction bs as [|kv bs IH]; intros acc Hd Hl; cbn [fold_left];
    [split; assumption|].
  apply IH; unfold data_step; destruct (binding_matches (fst kv) path); cbn [fst snd];
    try assumption.
  - rewrite Hd. reflexivity.
  - intros Happ. apply app_eq_nil in Happ as [Hnil _]. exact (Hl Hnil).
Qed.

Lemma data_fold_delays (path key : string) (b : data_binding)
    (bs : list (string * data_binding)) (acc : bool * list string) :
  In (key, b) bs -> binding_matches key path = true ->
  binding_delayRefresh b = true -> methods b <> [] ->
  fst (fold_left (data_step path) bs acc) = true
  /\ snd (fold_left (data_step path) bs acc) <> [].
Proof.
  revert acc. induction bs as [|kv bs IH]; intros acc Hin Hm Hd Hl; [destruct Hin|].
  cbn [fold_left]. destruct Hin as [->|Hin]; [|apply IH; assumption].
  apply data_fold_kept; unfold data_step; cbn [fst snd]; rewrite Hm; cbn [fst snd].
  - rewrite Hd. apply orb_true_r.
  - intros Happ. apply app_eq_nil in Happ as [_ Hnil]. exact (Hl Hnil).
Qed.

Lemma change_fold_kept (c : component) (l : list change)
    (st : refresh_list * (bool * list string)) :
  fst (snd st) = true -> snd (snd st) <> [] ->
  fst (snd (fold_left (change_step c) l st)) = true
  /\ snd (snd (fold_left (change_step c) l st)) <> [].
Proof.
  revert st. induction l as [|ch l IH]; intros st Hd Hl; cbn [fold_left];
    [split; assumption|].
  apply IH; unfold change_step; cbn [fst snd]; apply data_fold_kept; assumption.
Qed.

Lemma resolve_delays (c : component) (changes : list change) (r : refresh_list)
    (ch : change) (key : string) (b : data_binding) :
  In ch changes -> In (key, b) (dataBindings c) ->
  binding_matches key (currentPath ch) = true ->
  binding_delayRefresh b = true -> methods b <> [] ->
  fst (snd (resolve c changes r)) = true /\ snd (snd (resolve c changes r)) <> [].
Proof.
  intros Hch Hkey Hm Hd Hl. unfold resolve. apply in_rev in Hch.
  generalize (r, (false, @nil string)) as st.
  induction (rev changes) as [|ch' l IH]; intros st; [destruct Hch|].
  cbn [fold_left]. destruct Hch as [->|Hch]; [|apply IH; exact Hch].
  apply change_fold_kept; unfold change_step; cbn [fst snd];
    apply (data_fold_delays _ key b); assumption.
Qed.

(** X7: A change on a path that a data binding with [delayRefresh] answers to
    starts the fetch group of the bound methods and raises the
    delay-refresh gate: one more group is counted, and as the handler leaves
    the component a call of [_refresh] does nothing at all, whatever is
    waiting in the refresh list. *)
Theorem on_change_delaying_fetch (changes : list change) (me : instance) (w : world)
    (ch : change) (key : string) (b : data_binding) :
  initialized me = true ->
  In ch changes ->
  In (key, b) (dataBindings (comp me)) ->
  binding_matches key (currentPath ch) = true ->
  binding_delayRefresh b = true ->
  methods b <> [] ->
  exists me' w',
    on_change changes me w = (Ok tt, me', w')
    /\ delayRefresh me' = true
    /\ pendingFetchCount me' = (pendingFetchCount me + 1)%Z
    /\ (exists g, groups w' = groups w ++ [g]
                  /\ group_owner g = baseClassInstance me
                  /\ group_kind_of g = Fetch true)
    /\ forall w2, _refresh me' w2 = (Ok tt, me', w2).
Proof.
  intros Hinit Hch Hkey Hm Hd Hl. rewrite on_change_eq, Hinit. cbv zeta.
  destruct (resolve_delays (comp me) changes (_refreshList me) ch key b
              Hch Hkey Hm Hd Hl) as [Hdelay Hlist].
  rewrite _fetch_eq. cbv zeta. rewrite Hdelay.
  destruct (snd (snd (resolve (comp me) changes (_refreshList me)))) as [|m fl] eqn:Hfl;
    [congruence|].
  cbn [length Nat.ltb Nat.leb andb].
  destruct (refresh_pending _); eexists; eexists; (split; [reflexivity|]);
    (split; [reflexivity|]); (split; [reflexivity|]);
    (split; [eexists; split; [reflexivity|]; split; reflexivity|]);
    intros w2; rewrite _refresh_unfold;
    cbn [initialized delayRefresh set_pendingRefresh set_pendingFetchCount
         set_delayRefresh set_refreshList];
    rewrite andb_false_r; reflexivity.
Qed.

End Pending.

Lemma on_change_appends_selectors_witness :
  exists me' w',
    on_change (H := Sample.collaborators)
      [{| change_type := "update"; currentPath := "name"; newValue := Data.JStr "Bob" |}]
      Sample.ready Sample.caller_world = (Ok tt, me', w')
    /\ _refreshList me' = Selectors [".title"].
Proof.
  destruct (on_change_appends_selectors (H := Sample.collaborators)
              [{| change_type := "update"; currentPath := "name";
                  newValue := Data.JStr "Bob" |}]
              Sample.ready Sample.caller_world [] eq_refl eq_refl)
    as (me' & w' & Hrun & _).
  exists me', w'. split; [exact Hrun|].
  injection Hrun as <- _. reflexivity.
Defined.

Lemma on_change_delaying_fetch_witness :
  exists me' w',
    on_change (H := Sample.collaborators)
      [{| change_type := "update"; currentPath := "person_id"; newValue := Data.JNum 7 |}]
      Sample.fetched Sample.caller_world = (Ok tt, me', w')
    /\ delayRefresh me' = true.
Proof.
  destruct (on_change_delaying_fetch (H := Sample.collaborators)
              [{| change_type := "update"; currentPath := "person_id";
                  newValue := Data.JNum 7 |}]
              Sample.fetched Sample.caller_world
              {| change_type := "update"; currentPath := "person_id";
                 newValue := Data.JNum 7 |}
              "person_id" {| methods := ["_fetchList"]; binding_delayRefresh := true |})
    as (me' & w' & Hrun & Hdelay & _);
    [reflexivity | left; reflexivity | left; reflexivity | reflexivity | reflexivity
     | discriminate |].
  exists me', w'. split; [exact Hrun | exact Hdelay].
Defined.


(** ** The child registry *)






Lemma set_childComponents_same (me : instance) :
  set_childComponents (childComponents me) me = me.
Proof. destruct me; reflexivity. Qed.





(** ** The selectors of a partial refresh *)

Lemma dedup_from_index (whole : list string) (s : string) (l : list string) (pos : nat) :
  In s (dedup_from whole pos l) ->
  exists i, nth_error l i = Some s /\ Js.indexOf_str s whole = Some (pos + i).
Proof.
  revert pos. induction l as [|x l IH]; intros pos; cbn [dedup_from]; [intros []|].
  rewrite in_app_iff. intros [Hx|Hx].
  - unfold first_at in Hx. destruct (Js.indexOf_str x whole) as [i|] eqn:Hi; [|destruct Hx].
    destruct (Nat.eqb_spec i pos) as [->|]; [|destruct Hx].
    destruct Hx as [<-|[]]. exists 0. rewrite Nat.add_0_r. split; [reflexivity | exact Hi].
  - destruct (IH _ Hx) as (i & Hn & Hi). exists (S i). split; [exact Hn|].
    rewrite Hi. f_equal. lia.
Qed.

Lemma NoDup_dedup_from (whole : list string) (l : list string) (pos : nat) :
  List.NoDup (dedup_from whole pos l).
Proof.
  revert pos. induction l as [|x l IH]; intros pos; cbn [dedup_from]; [constructor|].
  unfold first_at. destruct (Js.indexOf_str x whole) as [i|] eqn:Hi; [|apply IH].
  destruct (Nat.eqb_spec i pos) as [->|]; [|apply IH].
  cbn [app]. constructor; [|apply IH].
  intros Hin. apply dedup_from_index in Hin as (j & _ & Hj). rewrite Hi in Hj.
  injection Hj as Hj. lia.
Qed.

Lemma indexOf_str_from_fresh (s : string) (pre rest : list string) (pos : nat) :
  ~ In s pre ->
  Js.indexOf_str_from s (pre ++ s :: rest) pos = Some (pos + length pre).
Proof.
  revert pos. induction pre as [|x pre IH]; intros pos Hno; cbn.
  - rewrite String.eqb_refl, Nat.add_0_r. reflexivity.
  - destruct (String.eqb_spec s x) as [->|Hne]; [destruct Hno; left; reflexivity|].
    rewrite IH by (intros Hin; apply Hno; right; exact Hin). f_equal. lia.
Qed.

Lemma dedup_from_NoDup (pre l : list string) :
  List.NoDup (pre ++ l) -> dedup_from (pre ++ l) (length pre) l = l.
Proof.
  revert pre. induction l as [|x l IH]; intros pre Hnd; cbn [dedup_from]; [reflexivity|].
  assert (Hx : ~ In x pre).
  { intros Hin. apply List.NoDup_remove_2 in Hnd. apply Hnd. apply in_or_app. left. exact Hin. }
  unfold first_at, Js.indexOf_str. rewrite (indexOf_str_from_fresh x pre l 0 Hx).
  cbn [Nat.add]. rewrite Nat.eqb_refl. cbn [app]. f_equal.
  specialize (IH (pre ++ [x])). rewrite <- app_assoc, length_app in IH. cbn in IH.
  replace (length pre + 1) with (S (length pre)) in IH by lia.
  apply IH. exact Hnd.
Qed.

(** X9: The removal of duplicate selectors at the start of a partial refresh:
    every selector of the list is kept exactly once, and a list without
    duplicates is left as it is. *)
Theorem dedup_once (l : list string) :
  List.NoDup (dedup l)
  /\ (forall s, In s (dedup l) <-> In s l)
  /\ (List.NoDup l -> dedup l = l).
Proof.
  split; [apply NoDup_dedup_from|]. split.
  - intros s. split; [apply dedup_from_In | apply In_dedup].
  - intros Hnd. exact (dedup_from_NoDup [] l Hnd).
Qed.

Lemma NoDup_splice1 (a : nat) (l : list string) : List.NoDup l -> List.NoDup (splice1 a l).
Proof.
  intros Hnd. unfold splice1.
  rewrite <- (firstn_skipn a l) in Hnd.
  destruct (skipn a l) as [|x rest] eqn:Hs.
  - rewrite app_nil_r in Hnd.
    assert (Hs' : skipn (S a) l = []).
    { apply skipn_all2. assert (Hl : length (skipn a l) = 0) by (rewrite Hs; reflexivity).
      rewrite length_skipn in Hl. lia. }
    rewrite Hs', app_nil_r. exact Hnd.
  - assert (Hs' : skipn (S a) l = rest).
    { replace (S a) with (1 + a) by lia. rewrite <- skipn_skipn, Hs. reflexivity. }
    rewrite Hs'. exact (List.NoDup_remove_1 _ _ _ Hnd).
Qed.

Section Pruning.

Context `{Collaborators}.

Lemma prune_NoDup (roots : list Dom.node) (a : nat) (l : list string)
    (r : res unit) (l' : list string) :
  List.NoDup l -> prune roots a l = (r, l') -> List.NoDup l'.
Proof.
  revert l. induction a as [|a IH]; intros l Hnd; cbn [prune].
  - intros [= _ <-]. exact Hnd.
  - destruct (covered roots l a (match_at roots l a) (length l)) as [[|]|e].
    + apply IH. apply NoDup_splice1. exact Hnd.
    + apply IH. exact Hnd.
    + intros [= _ <-]. exact Hnd.
Qed.

Lemma prune_selectors_shape (sels : list string) (old : nat) (me : instance) (w : world)
    (me1 : instance) (w1 : world) :
  jqDom me = Dom.JQuery old ->
  prune_selectors sels me w = (Ok tt, me1, w1) ->
  exists l,
    me1 = set_refreshList (Selectors l) me
    /\ w1 = w
    /\ List.NoDup l
    /\ (forall s, In s l -> In s sels)
    /\ (forall s e,
          In s sels -> first_match (tree_of (jqs w) old) s = Some e ->
          exists u eu,
            In u l /\ first_match (tree_of (jqs w) old) u = Some eu
            /\ Dom.is_prefix eu e = true)
    /\ (forall u v eu ev,
          In u l -> In v l -> u <> v ->
          first_match (tree_of (jqs w) old) u = Some eu ->
          first_match (tree_of (jqs w) old) v = Some ev ->
          Dom.is_prefix eu ev = false).
Proof.
  intros Hjq. unfold prune_selectors.
  cbv beta iota delta [bind this the_world update when ret throw own_root].
  destruct (Nat.ltb 1 (length (dedup sels))) eqn:Hlen.
  - cbn [jqDom set_refreshList]. rewrite Hjq. cbv beta iota.
    destruct (prune (tree_of (jqs w) old) (length (dedup sels)) (dedup sels))
      as [[[]|e] l] eqn:Hp; [|discriminate].
    intros [= <- <-]. exists l.
    split; [apply set_refreshList_twice|]. split; [reflexivity|].
    split; [exact (prune_NoDup _ _ _ _ _ (NoDup_dedup_from sels sels 0) Hp)|].
    destruct (prune_invariant (tree_of (jqs w) old) _ _ _ (Nat.le_refl _) Hp)
      as (Hsub & Hshade & Htop).
    split; [intros s Hs; apply (dedup_from_In sels s sels 0); exact (Hsub s Hs)|]. split.
    + intros s e Hs He. apply Hshade. exists s, e.
      split; [apply In_dedup; exact Hs|]. split; [exact He | apply is_prefix_refl].
    + intros u v eu ev Hu Hv Hne Heu Hev.
      assert (Htopv : topmost (tree_of (jqs w) old) l v).
      { apply Htop; [|exact Hv]. intros x Hx. rewrite skipn_all in Hx. destruct Hx. }
      specialize (Htopv u eu Hu Hne Heu). rewrite Hev in Htopv. exact Htopv.
  - intros [= <- <-]. exists (dedup sels).
    split; [reflexivity|]. split; [reflexivity|].
    split; [apply NoDup_dedup_from|].
    split; [intros s Hs; exact (dedup_from_In sels s sels 0 Hs)|]. split.
    + intros s e Hs He. exists s, e.
      split; [apply In_dedup; exact Hs|]. split; [exact He | apply is_prefix_refl].
    + intros u v eu ev Hu Hv Hne _ _. apply Nat.ltb_ge in Hlen.
      destruct (dedup sels) as [|x [|y l]]; cbn in Hlen; [destruct Hu | | lia].
      destruct Hu as [<-|[]]. destruct Hv as [<-|[]]. congruence.
Qed.

(** X10: The pruning that precedes the patching of a partial refresh, when it
    goes through, loses no pending change and keeps no selector twice or
    inside another: the list it leaves has no duplicates and holds pending
    selectors only; the element of every pending selector lies in (or is)
    the element of a selector that is left; and of two selectors that are
    left neither has its element in the element of the other.  Nothing but
    the refresh list changes. *)
Theorem prune_selectors_covers (sels : list string) (old : nat) (me : instance) (w : world)
    (me1 : instance) (w1 : world) :
  jqDom me = Dom.JQuery old ->
  prune_selectors sels me w = (Ok tt, me1, w1) ->
  exists l,
    me1 = set_refreshList (Selectors l) me
    /\ w1 = w
    /\ List.NoDup l
    /\ (forall s, In s l -> In s sels)
    /\ (forall s e,
          In s sels -> first_match (tree_of (jqs w) old) s = Some e ->
          exists u eu,
            In u l /\ first_match (tree_of (jqs w) old) u = Some eu
            /\ Dom.is_prefix eu e = true)
    /\ (forall u v eu ev,
          In u l -> In v l -> u <> v ->
          first_match (tree_of (jqs w) old) u = Some eu ->
          first_match (tree_of (jqs w) old) v = Some ev ->
          Dom.is_prefix eu ev = false).
Proof. exact (prune_selectors_shape sels old me w me1 w1). Qed.

(** X11: With two different selectors pending of which one has no element in
    the rendered tree, a refresh cannot be carried out: the pruning calls
    [contains] on the missing element, [_refresh] throws, and the component
    and the world are as before, the two selectors still pending. *)
Theorem refresh_unmatched_selector (me : instance) (w : world) (old : nat)
    (s1 s2 : string) :
  initialized me = true ->
  delayRefresh me = false ->
  jqDom me = Dom.JQuery old ->
  _refreshList me = Selectors [s1; s2] ->
  s1 <> s2 ->
  first_match (tree_of (jqs w) old) s1 = None
  \/ first_match (tree_of (jqs w) old) s2 = None ->
  _refresh me w = (Throw TypeError, me, w).
Proof.
  intros Hinit Hdelay Hjq Hrl Hne Hnone.
  rewrite _refresh_unfold, Hinit, Hdelay, Hjq, Hrl. cbn [andb negb].
  assert (Hdd : dedup [s1; s2] = [s1; s2]).
  { apply (dedup_from_NoDup [] [s1; s2]). constructor; [|constructor; [intros []|constructor]].
    intros [Hx|[]]. congruence. }
  assert (Hprune : fst (prune (tree_of (jqs w) old) 2 [s1; s2]) = Throw TypeError
                   /\ snd (prune (tree_of (jqs w) old) 2 [s1; s2]) = [s1; s2]).
  { cbn [prune covered length Nat.eqb match_at nth_error].
    destruct (first_match (tree_of (jqs w) old) s1) as [e1|] eqn:H1.
    - destruct Hnone as [Hn|Hn]; [discriminate|]. rewrite Hn.
      cbn [Dom.contains]. split; reflexivity.
    - split; reflexivity. }
  unfold refresh_selectors, prune_selectors.
  cbv beta iota delta [bind this the_world update when ret throw own_root].
  rewrite Hdd. cbn [length Nat.ltb Nat.leb jqDom set_refreshList]. rewrite Hjq.
  cbv beta iota.
  destruct (prune (tree_of (jqs w) old) 2 [s1; s2]) as [r l].
  cbn [fst snd] in Hprune. destruct Hprune as [-> ->].
  rewrite set_refreshList_twice, <- Hrl, set_refreshList_same. reflexivity.
Qed.

End Pruning.

Lemma prune_selectors_covers_witness :
  exists me1,
    prune_selectors (H := Sample.collaborators) [".a"; ".b"; ".a"]
      Sample.nested Sample.nested_world = (Ok tt, me1, Sample.nested_world)
    /\ _refreshList me1 = Selectors [".a"].
Proof.
  destruct (prune_selectors_covers (H := Sample.collaborators) [".a"; ".b"; ".a"] 0
              Sample.nested Sample.nested_world
              (snd (fst (prune_selectors (H := Sample.collaborators) [".a"; ".b"; ".a"]
                           Sample.nested Sample.nested_world)))
              Sample.nested_world eq_refl eq_refl) as (l & Hme & _).
  eexists. split; [reflexivity|]. vm_compute. reflexivity.
Defined.

Lemma refresh_unmatched_selector_witness :
  _refresh (H := Sample.collaborators)
    (set_refreshList (Selectors [".a"; ".missing"]) Sample.nested) Sample.nested_world
  = (Throw TypeError,
     set_refreshList (Selectors [".a"; ".missing"]) Sample.nested, Sample.nested_world).
Proof.
  apply (refresh_unmatched_selector (H := Sample.collaborators) _ _ 0 ".a" ".missing");
    [reflexivity | reflexivity | reflexivity | reflexivity | discriminate
     | right; vm_compute; reflexivity].
Defined.


(** ** Construction *)

(** A value that the merge copies as it is: anything but an object, an
    array or [undefined]. *)
Lemma merged_value_atom (src : option Data.jsval) (v : Data.jsval) :
  (forall arr fs, v <> Data.JColl arr fs) -> v <> Data.JUndef ->
  Data.merged_value src v = Some v.
Proof.
  destruct v as [| | | | | |arr fs]; cbn; intros Hs Hv; try reflexivity; [congruence|].
  destruct (Hs arr fs eq_refl).
Qed.

Lemma merge_defaults_atom (dd : Data.jsval) (data : Data.fields)
    (k : string) (v : Data.jsval) :
  Data.distinct (map fst data) = true ->
  Data.lookup k data = Some v ->
  (forall arr fs, v <> Data.JColl arr fs) -> v <> Data.JUndef ->
  Data.lookup k (merge_defaults dd data) = Some v.
Proof.
  intros Hd Hk Hs Hv. unfold merge_defaults.
  assert (Hsuper : Data.lookup k (Data.extend (Data.extend [] (Data.enumerable dd)) data)
                   = Some v).
  { rewrite (lookup_extend_present k v data _ Hd Hk), merged_value_atom by assumption.
    reflexivity. }
  rewrite (lookup_extend_present k v _ data); [| | exact Hsuper].
  - rewrite merged_value_atom by assumption. reflexivity.
  - apply distinct_extend, distinct_extend. reflexivity.
Qed.

Lemma constructor_fields `{Collaborators} (a : construction) (r : nat) (w : world)
    (id : nat) (w' : world) :
  constructor a (DataObject r) w = (Ok id, w') ->
  fields_at w' r = merge_defaults (defaults_data a) (fields_at w r).
Proof.
  unfold constructor.
  destruct (resolve_templates (new_templates a)) as [tpls|e]; [|discriminate].
  set (w1 := set_objects _ w).
  set (w2 := set_factory_baseClassInstance _ w1).
  set (me0 := {| comp := _; baseClassInstance := factory_baseClassInstance w1 |}).
  assert (Hw2 : fields_at w2 r = merge_defaults (defaults_data a) (fields_at w r)).
  { unfold fields_at at 1. cbn. rewrite lookup_insert_eq. reflexivity. }
  destruct (new_delayInit a).
  - intros [= _ <-]. exact Hw2.
  - pose proof (init_keeps me0 w2) as (Ho & _).
    destruct (init me0 w2) as [[[u|e] me1] w3]; [|discriminate].
    intros [= _ <-]. cbn in Ho. unfold fields_at at 1. cbn. rewrite Ho. exact Hw2.
Qed.

(** X12: The merge of the defaults overwrites nothing the caller supplied: a
    property of the caller's data object whose value is neither an object,
    an array nor [undefined] reads the same after the construction, whatever
    the defaults say about it. *)
Theorem constructor_keeps_caller_values `{Collaborators} (a : construction) (r : nat)
    (w : world) (id : nat) (w' : world) (k : string) (v : Data.jsval) :
  constructor a (DataObject r) w = (Ok id, w') ->
  Data.distinct (map fst (fields_at w r)) = true ->
  Data.lookup k (fields_at w r) = Some v ->
  (forall arr fs, v <> Data.JColl arr fs) ->
  v <> Data.JUndef ->
  get_property w' r k = v.
Proof.
  intros Hrun Hd Hk Hs Hv. unfold get_property.
  rewrite (constructor_fields a r w id w' Hrun). unfold Data.read.
  rewrite (merge_defaults_atom _ _ k v Hd Hk Hs Hv). reflexivity.
Qed.

Lemma constructor_keeps_caller_values_witness :
  get_property (snd (constructor (H := Sample.collaborators) Sample.plain (DataObject 0)
                       Sample.caller_world)) 0 "name" = Data.JStr "Ann".
Proof.
  apply (constructor_keeps_caller_values (H := Sample.collaborators) Sample.plain 0
           Sample.caller_world 0);
    [reflexivity | reflexivity | reflexivity | discriminate | discriminate].
Defined.








Section Templates.

Context `{Collaborators}.






(** With the ids ['main', '7'] the table lists the entry of '7' first. *)
Lemma listed_first_index : Js.listed_first ["main"; "7"] = Some "7".
Proof. reflexivity. Qed.



(** X15: A construction that goes through hands out the next instance id and
    enters the new component under it, not rendered, with nothing to refresh
    and an empty registry, observing its data; every component that was there
    before is as it was. *)
Theorem constructor_success (a : construction) (data : data_argument) (w : world)
    (id : nat) (w' : world) :
  constructor a data w = (Ok id, w') ->
  id = factory_baseClassInstance w
  /\ factory_baseClassInstance w' = S id
  /\ (forall other, other <> id -> instances w' !! other = instances w !! other)
  /\ exists me r,
       instances w' !! id = Some me
       /\ data = DataObject r
       /\ baseClassInstance me = id
       /\ _data me = r
       /\ observed me = true
       /\ jqDom me = Dom.JNull
       /\ initRendered me = false
       /\ _refreshList me = Selectors []
       /\ childComponents me = [("default", [])]
       /\ delayRefresh me = false.
Proof.
  unfold constructor.
  set (w1 := match data with DataObject r => _ | _ => w end).
  set (w2 := set_factory_baseClassInstance _ w1).
  assert (Hw1 : factory_baseClassInstance w1 = factory_baseClassInstance w
                /\ instances w1 = instances w).
  { subst w1. destruct data; split; reflexivity. }
  destruct Hw1 as [Hf1 Hi1].
  destruct (resolve_templates (new_templates a)) as [tpls|e0]; [|discriminate].
  destruct data as [r| |]; [|discriminate|discriminate].
  set (me0 := {| comp := _; baseClassInstance := factory_baseClassInstance w1 |}).
  assert (Hfinish : forall me1 w3,
    baseClassInstance me1 = factory_baseClassInstance w1 ->
    instances w3 = instances w2 ->
    factory_baseClassInstance w3 = factory_baseClassInstance w2 ->
    _data me1 = r -> observed me1 = true -> jqDom me1 = Dom.JNull ->
    initRendered me1 = false -> _refreshList me1 = Selectors [] ->
    childComponents me1 = [("default", [])] -> delayRefresh me1 = false ->
    (Ok (factory_baseClassInstance w1), put me1 w3) = (Ok id, w') ->
    id = factory_baseClassInstance w
    /\ factory_baseClassInstance w' = S id
    /\ (forall other, other <> id -> instances w' !! other = instances w !! other)
    /\ exists me r0,
         instances w' !! id = Some me /\ DataObject r = DataObject r0
         /\ baseClassInstance me = id /\ _data me = r0 /\ observed me = true
         /\ jqDom me = Dom.JNull /\ initRendered me = false
         /\ _refreshList me = Selectors [] /\ childComponents me = [("default", [])]
         /\ delayRefresh me = false).
  { intros me1 w3 Hid Hi3 Hf3 Hd Ho Hj Hr Hl Hc Hdel [= <- <-].
    split; [exact Hf1|]. split; [cbn; rewrite Hf3; reflexivity|]. split.
    - intros other Hne. cbn [instances put set_instances].
      rewrite Hid, lookup_insert_ne by congruence.
      rewrite Hi3. exact (f_equal (fun m => m !! other) Hi1).
    - exists me1, r. split; [cbn; rewrite Hid; apply lookup_insert_eq|].
      repeat split; assumption. }
  destruct (new_delayInit a); [apply Hfinish; reflexivity|].
  rewrite init_eq. cbv zeta.
  destruct (negb (bindings_callable (comp me0))); [discriminate|].
  destruct (Nat.ltb 0 (length (List.filter preventRender _)));
    destruct (Nat.ltb 0 (length (List.filter (fun it => negb (preventRender it)) _)));
    try destruct (callable (comp me0) "_init");
    apply Hfinish; reflexivity.
Qed.

End Templates.


Lemma constructor_success_witness :
  exists me,
    instances (snd (constructor (H := Sample.collaborators) Sample.plain (DataObject 0)
                      Sample.caller_world)) !! 0 = Some me
    /\ jqDom me = Dom.JNull.
Proof.
  destruct (constructor_success (H := Sample.collaborators) Sample.plain (DataObject 0)
              Sample.caller_world 0
              (snd (constructor (H := Sample.collaborators) Sample.plain (DataObject 0)
                      Sample.caller_world)) eq_refl)
    as (_ & _ & _ & me & r & Hme & _ & _ & _ & _ & Hj & _).
  exists me. split; [exact Hme | exact Hj].
Defined.


(** ** What the methods are confined to *)

Lemma scheduler_calls_app (a b : list effect) :
  scheduler_calls (a ++ b) = scheduler_calls a ++ scheduler_calls b.
Proof. apply List.filter_app. Qed.

Lemma scheduler_calls_other (e : effect) :
  (forall o, e <> RefreshCall o) -> scheduler_calls [e] = [].
Proof. destruct e; intros He; try reflexivity. destruct (He instanceId eq_refl). Qed.

Lemma scheduler_calls_invokes (i : nat) (names : list string) :
  scheduler_calls (map (Invoke i) names) = [].
Proof. induction names; [reflexivity | exact IHnames]. Qed.

#[export] Instance schedule_outlook : Outlook schedule.
Proof.
  split; [reflexivity | reflexivity |].
  intros e w He. unfold schedule. cbn.
  rewrite scheduler_calls_app, (scheduler_calls_other e He), app_nil_r. reflexivity.
Qed.

#[export] Instance refresh_schedule_outlook : Outlook refresh_schedule.
Proof.
  split; [reflexivity | reflexivity |].
  intros e w He. unfold refresh_schedule. cbn.
  rewrite scheduler_calls_app, (scheduler_calls_other e He), app_nil_r. reflexivity.
Qed.

#[export] Instance nothing_outlook : Outlook nothing.
Proof. split; reflexivity. Qed.

#[export] Instance living_tolerance : Tolerance living.
Proof.
  split.
  - intros me. repeat split; auto.
  - intros a b c (Hc1 & Hd1 & Hi1 & Hr1 & Ho1) (Hc2 & Hd2 & Hi2 & Hr2 & Ho2).
    repeat split; [congruence | congruence | auto | auto | auto].
Qed.

#[export] Instance gated_tolerance : Tolerance gated.
Proof.
  split.
  - intros me. split; [apply tolerance_refl | auto].
  - intros a b c [Hl1 Hg1] [Hl2 Hg2]. split; [exact (tolerance_trans _ _ _ Hl1 Hl2) | auto].
Qed.

#[export] Instance refreshing_tolerance : Tolerance refreshing.
Proof.
  split.
  - intros me. split; [apply tolerance_refl | repeat split].
  - intros a b c (Hl1 & Ho1 & Hc1 & Hd1) (Hl2 & Ho2 & Hc2 & Hd2).
    split; [exact (tolerance_trans _ _ _ Hl1 Hl2) | repeat split; congruence].
Qed.

#[export] Instance rendering_tolerance : Tolerance rendering.
Proof.
  split.
  - intros me. split; [apply tolerance_refl | repeat split].
  - intros a b c (Hl1 & Hr1 & Ht1) (Hl2 & Hr2 & Ht2).
    split; [exact (tolerance_trans _ _ _ Hl1 Hl2) | split; congruence].
Qed.

#[export] Instance initializing_tolerance : Tolerance initializing.
Proof.
  split.
  - intros me. split; [apply tolerance_refl | repeat split].
  - intros a b c (Hl1 & Hr1 & Ht1) (Hl2 & Hr2 & Ht2).
    split; [exact (tolerance_trans _ _ _ Hl1 Hl2) | split; congruence].
Qed.

Lemma initializing_rendering (me me' : instance) : initializing me me' -> rendering me me'.
Proof. intros [Hr _]. exact Hr. Qed.

Lemma rendering_refreshing (me me' : instance) : rendering me me' -> refreshing me me'.
Proof. intros [Hr _]. exact Hr. Qed.

Lemma refreshing_gated (me me' : instance) : refreshing me me' -> gated me me'.
Proof. intros (Hl & _ & _ & Hd). split; [exact Hl | congruence]. Qed.

Lemma gated_living (me me' : instance) : gated me me' -> living me me'.
Proof. intros [Hl _]. exact Hl. Qed.

Lemma outlasts_refl (allowed : instance -> instance -> Prop) `{!Tolerance allowed}
    (a : world) : outlasts allowed a a.
Proof. intros id me Hme. exists me. split; [exact Hme | apply tolerance_refl]. Qed.

Lemma outlasts_trans (allowed : instance -> instance -> Prop) `{!Tolerance allowed}
    (a b c : world) :
  outlasts allowed a b -> outlasts allowed b c -> outlasts allowed a c.
Proof.
  intros Hab Hbc id me Hme. destruct (Hab id me Hme) as (me1 & Hme1 & H1).
  destruct (Hbc id me1 Hme1) as (me2 & Hme2 & H2).
  exists me2. split; [exact Hme2 | exact (tolerance_trans _ _ _ H1 H2)].
Qed.

Lemma outlasts_weaken (allowed allowed' : instance -> instance -> Prop) (a b : world) :
  (forall me me', allowed me me' -> allowed' me me') ->
  outlasts allowed a b -> outlasts allowed' a b.
Proof.
  intros Hsub Hab id me Hme. destruct (Hab id me Hme) as (me' & Hme' & H').
  exists me'. split; [exact Hme' | exact (Hsub _ _ H')].
Qed.

#[export] Instance confined_orderly {X} (allowed : instance -> instance -> Prop)
    (view : world -> X) `{!Tolerance allowed} : Orderly (confined allowed view).
Proof.
  split.
  - intros a. split; [apply steady_refl|]. split; [reflexivity | apply outlasts_refl; exact _].
  - intros a b c (Hs1 & Hv1 & Ho1) (Hs2 & Hv2 & Ho2).
    split; [exact (steady_trans _ _ _ Hs1 Hs2)|].
    split; [congruence | exact (outlasts_trans _ _ _ _ Ho1 Ho2)].
  - intros a b [Hs _]. exact Hs.
Qed.

Lemma confined_weaken {X Y} (allowed allowed' : instance -> instance -> Prop)
    (view : world -> X) (view' : world -> Y) (a b : world) :
  (forall me me', allowed me me' -> allowed' me me') ->
  (view b = view a -> view' b = view' a) ->
  confined allowed view a b -> confined allowed' view' a b.
Proof.
  intros Hsub Hview (Hs & Hv & Ho).
  split; [exact Hs|]. split; [exact (Hview Hv) | exact (outlasts_weaken _ _ _ _ Hsub Ho)].
Qed.

Lemma schedule_refresh_schedule (a b : world) :
  schedule b = schedule a -> refresh_schedule b = refresh_schedule a.
Proof. unfold schedule, refresh_schedule. intros [= -> _ ->]. reflexivity. Qed.

Section Confined.

Context {X : Type} (allowed : instance -> instance -> Prop) (view : world -> X).
Context `{!Tolerance allowed} `{!Outlook view}.

(** A step of the instance itself. *)
Lemma confined_local (me me' : instance) (w w' : world) :
  baseClassInstance me' = baseClassInstance me ->
  instances w' = instances w ->
  steady (put me w) (put me' w') ->
  view w' = view w ->
  allowed me me' ->
  confined allowed view (put me w) (put me' w').
Proof.
  intros Hid Hi Hs Hv Ha. split; [exact Hs|]. split.
  - rewrite !outlook_put. exact Hv.
  - intros id x. cbn [instances put set_instances]. rewrite Hi, Hid.
    destruct (decide (baseClassInstance me = id)) as [<-|Hne].
    + rewrite !lookup_insert_eq. intros [= <-]. exists me'. split; [reflexivity | exact Ha].
    + rewrite !lookup_insert_ne by exact Hne. intros Hx. exists x.
      split; [exact Hx | apply tolerance_refl].
Qed.

Lemma relates_confined_update (f : instance -> instance) :
  (forall i, baseClassInstance (f i) = baseClassInstance i
             /\ pendingFetchCount (f i) = pendingFetchCount i
             /\ allowed i (f i)) ->
  relates (confined allowed view) (update f).
Proof.
  intros Hf me w r me' w' _ [= <- <- <-]. destruct (Hf me) as (Hid & Hc & Ha).
  split; [exact Hid|]. apply confined_local; auto.
  apply steady_local; auto. intros id. rewrite Hc. reflexivity.
Qed.

Lemma relates_confined_update_world (g : world -> world) :
  (forall w, instances (g w) = instances w
             /\ factory_baseClassInstance (g w) = factory_baseClassInstance w
             /\ groups (g w) = groups w
             /\ trace (g w) = trace w
             /\ view (g w) = view w) ->
  relates (confined allowed view) (update_world g).
Proof.
  intros Hg me w r me' w' _ [= <- <- <-].
  destruct (Hg w) as (Hi & Hf & Hgr & Ht & Hv).
  split; [reflexivity|]. apply confined_local; auto; [|apply tolerance_refl].
  apply steady_local; auto. intros id. rewrite Hgr, Ht. reflexivity.
Qed.

Lemma relates_confined_log (e : effect) :
  (forall o, e <> ConsoleError o true) -> (forall o, e <> RefreshCall o) ->
  relates (confined allowed view) (log e).
Proof.
  intros Hp He me w r me' w' Hk [= <- <- <-].
  split; [reflexivity|]. apply confined_local; auto;
    [| apply outlook_log; exact He | apply tolerance_refl].
  apply steady_local; auto. intros id. cbn [trace set_trace groups].
  rewrite rejected_app.
  assert (Hz : rejected id [e] = 0).
  { destruct e as [| | o [] | | | |]; try reflexivity. destruct (Hp o eq_refl). }
  rewrite Hz. lia.
Qed.

Lemma relates_confined_set_tree (r : nat) (t : list Dom.node) :
  relates (confined allowed view) (set_tree r t).
Proof.
  apply relates_confined_update_world. intros w. repeat split. apply outlook_jqs.
Qed.

Lemma relates_confined_tree (r : nat) : relates (confined allowed view) (tree r).
Proof.
  unfold tree. apply relates_bind; [exact _ | apply relates_the_world; exact _|].
  intros a. apply relates_ret. exact _.
Qed.

Lemma relates_confined_new_tree (roots : list Dom.node) :
  relates (confined allowed view) (new_tree roots).
Proof.
  intros me w r me' w' Hk Hrun.
  destruct (relates_new_tree roots me w r me' w' Hk Hrun) as [Hid [Hs _]].
  unfold new_tree in Hrun. cbn in Hrun. injection Hrun as <- <- <-.
  split; [reflexivity|]. apply confined_local; auto; [apply outlook_jqs | apply tolerance_refl].
Qed.

Lemma relates_confined_run_hook (h : render_hook) :
  relates (confined allowed view) (run_hook h).
Proof.
  intros me w r me' w' Hk Hrun.
  destruct (relates_run_hook h me w r me' w' Hk Hrun) as [Hid [Hs _]].
  unfold run_hook in Hrun. destruct (h _ _) as [j d]. injection Hrun as <- <- <-.
  split; [reflexivity|]. apply confined_local; auto; [apply outlook_jqs | apply tolerance_refl].
Qed.

End Confined.

Lemma confined_initializing_rendering (a b : world) :
  confined initializing schedule a b -> confined rendering schedule a b.
Proof. apply confined_weaken; [exact initializing_rendering | auto]. Qed.

Lemma confined_rendering_refreshing (a b : world) :
  confined rendering schedule a b -> confined refreshing refresh_schedule a b.
Proof.
  apply confined_weaken; [exact rendering_refreshing | apply schedule_refresh_schedule].
Qed.

Lemma confined_refreshing_gated (a b : world) :
  confined refreshing refresh_schedule a b -> confined gated nothing a b.
Proof. apply confined_weaken; [exact refreshing_gated | reflexivity]. Qed.

Lemma confined_initializing_refreshing (a b : world) :
  confined initializing schedule a b -> confined refreshing refresh_schedule a b.
Proof. intros Hc. apply confined_rendering_refreshing, confined_initializing_rendering, Hc. Qed.

Lemma confined_initializing_gated (a b : world) :
  confined initializing schedule a b -> confined gated nothing a b.
Proof. intros Hc. apply confined_refreshing_gated, confined_initializing_refreshing, Hc. Qed.

Lemma confined_rendering_gated (a b : world) :
  confined rendering schedule a b -> confined gated nothing a b.
Proof. intros Hc. apply confined_refreshing_gated, confined_rendering_refreshing, Hc. Qed.

Lemma relates_initializing_init : relates (confined initializing schedule) init.
Proof.
  intros me w r me' w' Hk Hrun.
  destruct (relates_init me w r me' w' Hk Hrun) as [Hid [Hs _]].
  split; [exact Hid|]. revert Hs. rewrite init_eq in Hrun. cbv zeta in Hrun. revert Hrun.
  destruct (negb (bindings_callable (comp me))).
  { intros [= <- <- <-] _. apply orderly_refl. }
  destruct (Nat.ltb 0 (length (List.filter preventRender _)));
    destruct (Nat.ltb 0 (length (List.filter (fun it => negb (preventRender it)) _)));
    try destruct (callable (comp me) "_init");
    intros [= <- <- <-] Hs;
    (apply confined_local;
     [ exact _ | exact _ | reflexivity | reflexivity | exact Hs
     | unfold schedule; cbn [sched sweeps trace logged set_trace set_groups];
       rewrite ?scheduler_calls_app, ?scheduler_calls_invokes, ?app_nil_r; reflexivity
     | unfold initializing, rendering, refreshing, living; cbn; repeat split; auto ]).
Qed.

Create HintDb confined.

#[export] Hint Resolve living_tolerance gated_tolerance refreshing_tolerance
  rendering_tolerance initializing_tolerance schedule_outlook refresh_schedule_outlook
  nothing_outlook relates_initializing_init relates_confined_set_tree
  relates_confined_tree relates_confined_new_tree relates_confined_run_hook : confined.

(** An allowed change of one field. *)
Ltac allowed_solve :=
  unfold initializing, rendering, refreshing, gated, living;
  cbn; repeat split; solve [reflexivity | auto].

(** One step of following a confinement through the text of a method; what
    is known for a narrower confinement is used where it is wide enough. *)
Ltac confined_step :=
  cbv beta;
  lazymatch goal with
  | |- Orderly _ => typeclasses eauto
  | |- relates _ (bind _ _) => apply relates_bind; [typeclasses eauto | | intros ?]
  | |- relates _ (ret _) => apply relates_ret; typeclasses eauto
  | |- relates _ (throw _) => apply relates_throw; typeclasses eauto
  | |- relates _ this => apply relates_this; typeclasses eauto
  | |- relates _ the_world => apply relates_the_world; typeclasses eauto
  | |- relates _ (when _ _) => apply relates_when; [typeclasses eauto |]
  | |- relates _ (for_each _ _) => apply relates_for_each; [typeclasses eauto | intros ?]
  | |- relates _ (fold_m _ _ _) => apply relates_fold_m; [typeclasses eauto | intros ? ?]
  | |- relates _ (call_other _ _) => apply relates_call_other; [typeclasses eauto |]
  | |- relates _ (match ?x with _ => _ end) => destruct x
  | |- relates (confined _ _) (update _) =>
      apply relates_confined_update; [typeclasses eauto | typeclasses eauto |];
      intros ?; split; [reflexivity | split; [reflexivity | allowed_solve]]
  | |- relates (confined _ _) (log _) =>
      apply relates_confined_log;
      [typeclasses eauto | typeclasses eauto | intros ?; discriminate
      | intros ?; discriminate]
  | |- relates (confined rendering schedule) _ =>
      first [ solve [eauto with confined]
            | solve [apply (relates_weaken _ (confined initializing schedule));
                     [exact confined_initializing_rendering
                     | solve [eauto with confined]]] ]
  | |- relates (confined refreshing refresh_schedule) _ =>
      first [ solve [eauto with confined]
            | solve [apply (relates_weaken _ (confined rendering schedule));
                     [exact confined_rendering_refreshing
                     | solve [eauto with confined]]]
            | solve [apply (relates_weaken _ (confined initializing schedule));
                     [exact confined_initializing_refreshing
                     | solve [eauto with confined]]] ]
  | |- relates (confined gated nothing) _ =>
      first [ solve [eauto with confined]
            | solve [apply (relates_weaken _ (confined refreshing refresh_schedule));
                     [exact confined_refreshing_gated
                     | solve [eauto with confined]]]
            | solve [apply (relates_weaken _ (confined rendering schedule));
                     [exact confined_rendering_gated
                     | solve [eauto with confined]]]
            | solve [apply (relates_weaken _ (confined initializing schedule));
                     [exact confined_initializing_gated
                     | solve [eauto with confined]]] ]
  | |- relates _ _ => solve [eauto with confined]
  end.

Ltac confined_auto := repeat confined_step.

Section Rendered.

Context `{Collaborators}.

Lemma initializing_loading_view : relates (confined initializing schedule) loading_view.
Proof. unfold loading_view. confined_auto. Qed.

Lemma initializing__render : relates (confined initializing schedule) _render.
Proof. unfold _render. confined_auto. Qed.

Hint Resolve initializing_loading_view initializing__render : confined.

Lemma initializing_checked_render : relates (confined initializing schedule) checked_render.
Proof. unfold checked_render. confined_auto. Qed.

Lemma initializing_tagName_of (id : nat) :
  relates (confined initializing schedule) (tagName_of id).
Proof. unfold tagName_of. confined_auto. Qed.

Hint Resolve initializing_checked_render initializing_tagName_of : confined.

Section Children.

Variable child_render : nat -> M render_result.
Hypothesis child_render_confined :
  forall id, relates (confined initializing schedule) (child_render id).

Lemma initializing_insert_repeated (st : list Dom.node * inserted_list) (id : nat) :
  relates (confined initializing schedule) (insert_repeated child_render st id).
Proof. unfold insert_repeated. confined_auto. Qed.

Hint Resolve initializing_insert_repeated : confined.

Lemma initializing_insert_section (root : nat) (inserted : inserted_list)
    (entry : string * list child) :
  relates (confined initializing schedule) (insert_section child_render root inserted entry).
Proof. unfold insert_section. confined_auto. Qed.

Lemma initializing_insert_default (root : nat) (inserted : inserted_list) (c : child) :
  relates (confined initializing schedule) (insert_default child_render root inserted c).
Proof. unfold insert_default. confined_auto. Qed.

Hint Resolve initializing_insert_section initializing_insert_default : confined.

Lemma initializing_insert_children_with (root : nat) :
  relates (confined initializing schedule) (insert_children_with child_render root).
Proof. unfold insert_children_with. confined_auto. Qed.

End Children.

Lemma initializing_renderWithChildren_at (depth : nat) :
  relates (confined initializing schedule) (renderWithChildren_at depth).
Proof.
  induction depth as [|d IH]; cbn [renderWithChildren_at]; [confined_auto|].
  pose proof (initializing_insert_children_with
                (fun id => call_other id (renderWithChildren_at d))
                (fun id => relates_call_other _ id _ IH)) as Hins.
  confined_auto.
Qed.

Lemma initializing__insertChildren (root : nat) :
  relates (confined initializing schedule) (_insertChildren root).
Proof.
  apply initializing_insert_children_with. intros id.
  apply relates_call_other; [typeclasses eauto | apply initializing_renderWithChildren_at].
Qed.

Lemma initializing__renderWithChildren :
  relates (confined initializing schedule) _renderWithChildren.
Proof. apply initializing_renderWithChildren_at. Qed.

Hint Resolve initializing__insertChildren initializing__renderWithChildren : confined.

Lemma rendering_anchor (ce : nat * Dom.jq) :
  relates (confined rendering schedule) (anchor ce).
Proof. unfold anchor. confined_auto. Qed.

Hint Resolve rendering_anchor : confined.

Lemma rendering_render : relates (confined rendering schedule) render.
Proof. unfold render. confined_auto. Qed.

End Rendered.

#[export] Hint Resolve initializing_loading_view initializing__render
  initializing_checked_render initializing_tagName_of initializing__insertChildren
  initializing__renderWithChildren rendering_anchor rendering_render : confined.

Section Refreshed.

Context `{Collaborators}.

Lemma refreshing_own_root : relates (confined refreshing refresh_schedule) own_root.
Proof. unfold own_root. confined_auto. Qed.

Hint Resolve refreshing_own_root : confined.

Lemma refreshing_patch (old new : nat) (sel : string) :
  relates (confined refreshing refresh_schedule) (patch old new sel).
Proof. unfold patch. confined_auto. Qed.

Hint Resolve refreshing_patch : confined.

Lemma refreshing_prune_selectors (sels : list string) :
  relates (confined refreshing refresh_schedule) (prune_selectors sels).
Proof. unfold prune_selectors. confined_auto. Qed.

Hint Resolve refreshing_prune_selectors : confined.

Lemma refreshing_refresh_selectors (sels : list string) :
  relates (confined refreshing refresh_schedule) (refresh_selectors sels).
Proof. unfold refresh_selectors. confined_auto. Qed.

Lemma refreshing_refresh_full : relates (confined refreshing refresh_schedule) refresh_full.
Proof. unfold refresh_full. confined_auto. Qed.

Lemma refreshing_schedule_sweep :
  relates (confined refreshing refresh_schedule) schedule_sweep.
Proof.
  unfold schedule_sweep. confined_auto.
  apply relates_confined_update_world; [typeclasses eauto | typeclasses eauto |].
  intros w. repeat split.
Qed.

Hint Resolve refreshing_refresh_selectors refreshing_refresh_full
  refreshing_schedule_sweep : confined.

Lemma refreshing__refresh : relates (confined refreshing refresh_schedule) _refresh.
Proof. unfold _refresh. confined_auto. Qed.

End Refreshed.

#[export] Hint Resolve refreshing_own_root refreshing_patch refreshing_prune_selectors
  refreshing_refresh_selectors refreshing_refresh_full refreshing_schedule_sweep
  refreshing__refresh : confined.

(** *** The other methods *)

Lemma gated_queue_own_refresh : relates (confined gated nothing) queue_own_refresh.
Proof.
  unfold queue_own_refresh. confined_auto.
  apply relates_confined_update_world; [typeclasses eauto | typeclasses eauto |].
  intros w. repeat split.
Qed.

#[export] Hint Resolve gated_queue_own_refresh : confined.

Lemma gated_refresh : relates (confined gated nothing) refresh.
Proof. unfold refresh. confined_auto. Qed.

Lemma gated_registerChild (c : child) (sectionName : option string) :
  relates (confined gated nothing) (registerChild c sectionName).
Proof.
  unfold registerChild. confined_auto.
  - apply relates_confined_update; [typeclasses eauto | typeclasses eauto |]. intros x.
    destruct (section a (childComponents x)); [|destruct (Js.inherited a)];
      repeat split; auto.
  - apply relates_confined_update; [typeclasses eauto | typeclasses eauto |]. intros x.
    destruct (existsb _ _); repeat split; auto.
Qed.

Lemma gated__fetch (delay : bool) (fetchList : list string) :
  relates (confined gated nothing) (_fetch delay fetchList).
Proof.
  intros me w r me' w' Hk Hrun.
  destruct (relates__fetch delay fetchList me w r me' w' Hk Hrun) as [Hid [Hs _]].
  split; [exact Hid|]. revert Hs. rewrite _fetch_eq in Hrun. cbv zeta in Hrun. revert Hrun.
  destruct (Nat.ltb 0 (length fetchList)); destruct delay; cbn [andb];
    intros [= <- <- <-] Hs;
    (apply confined_local;
     [ exact _ | exact _ | reflexivity | reflexivity | exact Hs | reflexivity
     | unfold gated, living; cbn; repeat split; auto ]).
Qed.

#[export] Hint Resolve gated_refresh gated_registerChild gated__fetch : confined.

Lemma gated_on_change `{Collaborators} (changes : list change) :
  relates (confined gated nothing) (on_change changes).
Proof. unfold on_change. confined_auto. Qed.

#[export] Hint Resolve gated_on_change : confined.

Lemma gated_set_data `{Collaborators} (name : string) (v : Data.jsval) :
  relates (confined gated nothing) (set_data name v).
Proof.
  unfold set_data. confined_auto.
  apply relates_confined_update_world; [typeclasses eauto | typeclasses eauto |].
  intros w. repeat split.
Qed.

Lemma gated_entries_of (sectionName : string) :
  relates (confined gated nothing) (entries_of sectionName).
Proof. unfold entries_of. confined_auto. Qed.

#[export] Hint Resolve gated_set_data gated_entries_of : confined.

Lemma gated_entry_at (sectionName : string) (a : nat) :
  relates (confined gated nothing) (entry_at sectionName a).
Proof. unfold entry_at. confined_auto. Qed.

#[export] Hint Resolve gated_entry_at : confined.

Section Visited.

Variable handler : nat -> string -> M unit -> M unit.
Variable destroy_child : nat -> M unit.

Hypothesis handler_gated :
  forall id sectionName removeChild,
    relates (confined gated nothing) removeChild ->
    relates (confined gated nothing) (handler id sectionName removeChild).
Hypothesis destroy_child_gated : forall id, relates (confined gated nothing) (destroy_child id).

Lemma gated_remove_default (a : nat) :
  relates (confined gated nothing) (remove_default destroy_child a).
Proof. unfold remove_default. confined_auto. Qed.

Lemma gated_remove_repeated (sectionName : string) (a b : nat) :
  relates (confined gated nothing) (remove_repeated destroy_child sectionName a b).
Proof. unfold remove_repeated. repeat (cbv zeta; confined_step). Qed.

Hint Resolve gated_remove_default gated_remove_repeated : confined.

Lemma gated_each_in_repetition (sectionName : string) (a b : nat) :
  relates (confined gated nothing)
    (each_in_repetition handler destroy_child sectionName a b).
Proof. induction b as [|b IH]; cbn [each_in_repetition]; confined_auto. Qed.

Hint Resolve gated_each_in_repetition : confined.

Lemma gated_each_in_section (sectionName : string) (a : nat) :
  relates (confined gated nothing) (each_in_section handler destroy_child sectionName a).
Proof. induction a as [|a IH]; cbn [each_in_section]; confined_auto. Qed.

Hint Resolve gated_each_in_section : confined.

Lemma gated_eachChildComponent :
  relates (confined gated nothing) (eachChildComponent handler destroy_child).
Proof. unfold eachChildComponent. confined_auto. Qed.

End Visited.

Lemma gated_destroy_at (depth : nat) : relates (confined gated nothing) (destroy_at depth).
Proof.
  induction depth as [|d IH]; cbn [destroy_at]; [confined_auto|].
  assert (Hchild : forall id, relates (confined gated nothing) (call_other id (destroy_at d)))
    by (intros id; apply relates_call_other; [typeclasses eauto | exact IH]).
  cbv zeta. confined_step.
  { apply gated_eachChildComponent; [intros id _ _ _; apply Hchild | exact Hchild]. }
  confined_auto.
Qed.

Lemma gated_destroy `{Collaborators} : relates (confined gated nothing) destroy.
Proof. apply gated_destroy_at. Qed.

#[export] Hint Resolve gated_destroy : confined.

Lemma gated_sweep `{Collaborators} (cleanUpTime : nat) :
  relates (confined gated nothing) (sweep cleanUpTime).
Proof.
  unfold sweep. confined_step. confined_step. confined_step.
  apply gated_eachChildComponent.
  - intros id sectionName removeChild Hremove. confined_auto.
  - intros id. confined_auto.
Qed.

#[export] Hint Resolve gated_sweep : confined.

(** ** The partial refresh, and the trees it patches *)

Section Patching.

Context `{Collaborators}.

Lemma patch_store (old new : nat) (sel : string) (me : instance) (w : world)
    (me' : instance) (w' : world) :
  patch old new sel me w = (Ok tt, me', w') ->
  jqs w' = patched_store old new sel (jqs w).
Proof.
  unfold patch, patched_store.
  cbv beta iota delta [bind this the_world log update_world throw ret set_tree tree].
  destruct (_ || _); [discriminate|].
  destruct (Dom.find (sel_matches sel) (tree_of (jqs w) old)) as [|p [|p' ps]];
    destruct (Dom.find (sel_matches sel) (tree_of (jqs w) new)) as [|q [|q' qs]];
    cbn; intros [= <- <-]; reflexivity.
Qed.

Lemma patch_all_store (old new : nat) (l : list string) (me : instance) (w : world)
    (me' : instance) (w' : world) :
  for_each l (patch old new) me w = (Ok tt, me', w') ->
  jqs w' = fold_left (fun d u => patched_store old new u d) l (jqs w).
Proof.
  revert me w. induction l as [|s l IH]; intros me w; cbn [for_each fold_left].
  - intros [= <- <-]. reflexivity.
  - intros Hrun. apply bind_ok in Hrun as ([] & me1 & w1 & Hp & Hrest).
    rewrite (IH _ _ Hrest), (patch_store _ _ _ _ _ _ _ Hp). reflexivity.
Qed.

(** Handing the inserted children their elements leaves the trees alone. *)
Lemma anchors_jqs (ins : list (nat * Dom.jq)) (me : instance) (w : world)
    (r : res unit) (me' : instance) (w' : world) :
  for_each ins (fun ce =>
    me <- this ;;
    w <- the_world ;;
    when (root_contains (jqs w) (jqDom me) (snd ce)) (anchor ce)) me w = (r, me', w') ->
  jqs w' = jqs w.
Proof.
  revert me w. induction ins as [|ce ins IH]; intros me w; cbn [for_each].
  - intros [= _ _ <-]. reflexivity.
  - unfold bind at 1. cbv beta iota delta [bind this the_world when ret anchor call_other call update].
    destruct (root_contains (jqs w) (jqDom me) (snd ce)).
    + destruct (instances (put me w) !! fst ce) as [x|]; cbv beta iota.
      * intros Hrest. rewrite (IH _ _ Hrest). reflexivity.
      * intros [= _ _ <-]. reflexivity.
    + intros Hrest. exact (IH _ _ Hrest).
Qed.

(** The branch of [_refresh] for a non-empty selector list, when it goes
    through: the selectors the pruning leaves, the render made for them,
    and the patching of the trees that follows. *)
Lemma refresh_selectors_patches (sels : list string) (old : nat) (me : instance) (w : world)
    (me' : instance) (w' : world) :
  keyed (put me w) ->
  jqDom me = Dom.JQuery old ->
  refresh_selectors sels me w = (Ok tt, me', w') ->
  exists patched new ins me_r w_r,
    replacements (trace w')
    = replacements (trace w) ++ map (ReplaceWith (baseClassInstance me)) patched
    /\ List.NoDup patched
    /\ (forall x, In x patched -> In x sels)
    /\ (forall s s' e e',
          In s sels -> In s' sels ->
          first_match (tree_of (jqs w) old) s = Some e ->
          first_match (tree_of (jqs w) old) s' = Some e' ->
          Dom.is_prefix e' e = true -> e' <> e ->
          ~ In s patched)
    /\ (forall x ex,
          In x sels -> first_match (tree_of (jqs w) old) x = Some ex ->
          exists u eu,
            In u patched /\ first_match (tree_of (jqs w) old) u = Some eu
            /\ Dom.is_prefix eu ex = true)
    /\ _renderWithChildren (set_refreshList (Selectors (rev patched)) me) w
       = (Ok (Dom.JQuery new, Some ins), me_r, w_r)
    /\ jqs w' = fold_left (fun d u => patched_store old new u d) patched (jqs w_r)
    /\ _refreshList me' = Selectors []
    /\ baseClassInstance me' = baseClassInstance me.
Proof.
  intros Hkeyed Hjq Hrun. unfold refresh_selectors in Hrun.
  apply bind_ok in Hrun as ([] & me1 & w1 & Hprune & Hrun).
  destruct (prune_selectors_ok _ _ _ _ _ _ Hjq Hprune) as (-> & l & -> & Hsub & Hdrop).
  destruct (prune_selectors_shape _ _ _ _ _ _ Hjq Hprune)
    as (l0 & Hl0 & _ & Hnd & _ & Hcover & _).
  assert (Hll : l0 = l).
  { apply (f_equal _refreshList) in Hl0. cbn [_refreshList set_refreshList] in Hl0.
    congruence. }
  subst l0. clear Hl0.
  apply bind_ok in Hrun as (rr & me2 & w2 & Hrender & Hrun).
  assert (Hkeyed1 : keyed (put (set_refreshList (Selectors l) me) w)).
  { exact (keyed_put me (set_refreshList (Selectors l) me) w w eq_refl eq_refl Hkeyed). }
  destruct (relates_ok frame _ _ _ _ _ _ relates__renderWithChildren Hkeyed1 Hrender)
    as (Hid2 & (Hk2 & _) & Hrl2 & Hrep2).
  assert (Hjq2 : jqDom me2 = Dom.JQuery old).
  { destruct (initializing__renderWithChildren _ _ _ _ _ Hkeyed1 Hrender) as (_ & _ & _ & Ho).
    destruct (Ho (baseClassInstance me) (set_refreshList (Selectors l) me)) as (x & Hx & Hini).
    - cbn. apply lookup_insert_eq.
    - cbn [baseClassInstance set_refreshList] in Hid2. cbn in Hx.
      rewrite <- Hid2, lookup_insert_eq in Hx. injection Hx as <-.
      destruct Hini as (_ & Hj & _). rewrite Hj. exact Hjq. }
  cbn [baseClassInstance set_refreshList] in Hid2.
  specialize (Hrl2 (baseClassInstance me)). rewrite !rl_of_put, Hid2 in Hrl2.
  cbn [baseClassInstance set_refreshList _refreshList] in Hrl2.
  rewrite Nat.eqb_refl in Hrl2. injection Hrl2 as Hrl2.
  cbn [trace put set_instances] in Hrep2.
  apply bind_ok in Hrun as (me2' & me2'' & w2' & [= <- <- <-] & Hrun).
  rewrite Hrl2 in Hrun.
  destruct rr as [j ins0]. cbn [fst snd] in Hrun.
  destruct j as [| | |new]; try discriminate.
  apply bind_ok in Hrun as (old' & me3 & w3 & Hold & Hrun).
  assert (Hsame : me3 = me2 /\ w3 = w2 /\ (l <> [] -> old' = old)).
  { destruct l as [|x l1]; cbn [length Nat.ltb Nat.leb] in Hold.
    - injection Hold as _ <- <-. repeat split. intros Hne. destruct Hne. reflexivity.
    - unfold own_root, bind, this in Hold. rewrite Hjq2 in Hold.
      injection Hold as <- <- <-. repeat split. }
  destruct Hsame as (-> & -> & Hold'). clear Hold.
  apply bind_ok in Hrun as ([] & me4 & w4 & Hpatch & Hrun).
  pose proof (patch_all_store _ _ _ _ _ _ _ Hpatch) as Hstore.
  apply patch_all_ok in Hpatch as (-> & Hi4 & Ht4).
  apply bind_ok in Hrun as ([] & me5 & w5 & Hanchor & Hrun).
  injection Hrun as <- <-.
  destruct ins0 as [ins|]; [|discriminate].
  assert (Hkeyed4 : keyed (put me2 w4)).
  { apply (keyed_put me2 me2 w2 w4 eq_refl Hi4). apply Hk2. exact Hkeyed1. }
  assert (Hanchors : baseClassInstance me5 = baseClassInstance me2
                     /\ frame (put me2 w4) (put me5 w5)).
  { refine (relates_ok frame _ _ _ _ _ _ _ Hkeyed4 Hanchor). relates_auto. }
  destruct Hanchors as (Hid5 & _ & _ & Hrep5). cbn [trace put set_instances] in Hrep5.
  pose proof (anchors_jqs _ _ _ _ _ _ Hanchor) as Hjqs5.
  exists (rev l), new, ins, me2, w2.
  split.
  { cbn [trace set_refreshList]. rewrite Hrep5, Ht4, replacements_app, Hrep2, Hid2.
    f_equal. clear. induction (rev l) as [|x xs IH]; [reflexivity|]. cbn. f_equal. exact IH. }
  split; [apply List.NoDup_rev; exact Hnd|].
  split; [intros x Hx; apply Hsub, in_rev, Hx|].
  split.
  { intros s s' e e' Hs Hs' He He' Hpre Hne Hin.
    exact (Hdrop s s' e e' Hs Hs' He He' Hpre Hne (proj2 (in_rev _ _) Hin)). }
  split.
  { intros x ex Hx Hex. destruct (Hcover x ex Hx Hex) as (u & eu & Hu & Heu & Hp).
    exists u, eu. split; [apply in_rev in Hu; exact Hu|]. split; assumption. }
  split; [rewrite rev_involutive; exact Hrender|].
  split.
  { rewrite Hjqs5, Hstore. destruct l as [|x l1]; [reflexivity|].
    rewrite Hold' by discriminate. reflexivity. }
  split; [reflexivity | cbn; congruence].
Qed.

(** C7: in a partial refresh, a pending selector whose element in the
    current tree lies strictly inside the element of another pending selector
    is dropped before the patching, and the element of a selector that is
    kept lies over it.  The selectors that are kept are pending ones, each
    kept once; the component is rendered once more with them as its refresh
    list, and for each of them in turn [replaceWith] puts the element the
    new tree has for it in the place of the one in the current tree, so that
    the dropped selector is refreshed with the element that contains it.
    Afterwards the refresh list is empty.  (With the list ['.a', '.b'] and
    the element of '.b' inside that of '.a', only '.a' is patched.) *)
Theorem refresh_skips_descendants (me : instance) (w : world) (me' : instance) (w' : world)
    (old : nat) (sels : list string) (s s' : string) (e e' : Dom.path) :
  keyed (put me w) ->
  initialized me = true ->
  delayRefresh me = false ->
  jqDom me = Dom.JQuery old ->
  _refreshList me = Selectors sels ->
  In s sels ->
  In s' sels ->
  first_match (tree_of (jqs w) old) s = Some e ->
  first_match (tree_of (jqs w) old) s' = Some e' ->
  Dom.is_prefix e' e = true ->
  e' <> e ->
  _refresh me w = (Ok tt, me', w') ->
  exists patched new ins me_r w_r,
    replacements (trace w')
    = replacements (trace w) ++ map (ReplaceWith (baseClassInstance me)) patched
    /\ ~ In s patched
    /\ (forall x, In x patched -> In x sels)
    /\ _refreshList me' = Selectors []
    /\ List.NoDup patched
    /\ (exists u eu,
          In u patched /\ first_match (tree_of (jqs w) old) u = Some eu
          /\ Dom.is_prefix eu e = true)
    /\ _renderWithChildren (set_refreshList (Selectors (rev patched)) me) w
       = (Ok (Dom.JQuery new, Some ins), me_r, w_r)
    /\ jqs w' = fold_left (fun d u => patched_store old new u d) patched (jqs w_r).
Proof.
  intros Hkeyed Hinit Hdelay Hjq Hlist Hs Hs' He He' Hpre Hne Hrun.
  unfold _refresh in Hrun. cbv beta iota delta [bind this] in Hrun.
  rewrite Hinit, Hdelay, Hjq, Hlist in Hrun. cbn [andb negb] in Hrun.
  destruct sels as [|s0 sels0]; [destruct Hs|].
  destruct (refresh_selectors (s0 :: sels0) me w) as [[[[]|err] me1] w1] eqn:Hsel;
    [|discriminate].
  rewrite schedule_sweep_eq in Hrun. injection Hrun as <- <-.
  destruct (refresh_selectors_patches _ _ _ _ _ _ Hkeyed Hjq Hsel)
    as (patched & new & ins & me_r & w_r
        & Htrace & Hnd & Hsub & Hdrop & Hcover & Hrender & Hstore & Hempty & _).
  exists patched, new, ins, me_r, w_r.
  split; [exact Htrace|].
  split; [exact (Hdrop s s' e e' Hs Hs' He He' Hpre Hne)|].
  split; [exact Hsub|]. split; [exact Hempty|]. split; [exact Hnd|].
  split; [exact (Hcover s e Hs He)|]. split; [exact Hrender | exact Hstore].
Qed.

End Patching.

Lemma refresh_skips_descendants_witness :
  first_match (H := Sample.collaborators) (tree_of (jqs Sample.nested_world) 0) ".b"
  = Some [0; 0; 0]
  /\ first_match (H := Sample.collaborators) (tree_of (jqs Sample.nested_world) 0) ".a"
     = Some [0; 0]
  /\ tree_of (jqs Sample.nested_world) 0
     = [Dom.Elem "div" []
          [Dom.Elem "p" [("class", "a")] [Dom.Elem "span" [("class", "b")] [Dom.Text "old"]]]]
  /\ exists patched,
       replacements
         (trace (snd (_refresh (H := Sample.collaborators) Sample.nested Sample.nested_world)))
       = map (ReplaceWith 0) patched
       /\ ~ In ".b" patched
       /\ In ".a" patched
       /\ tree_of
            (jqs (snd (_refresh (H := Sample.collaborators) Sample.nested Sample.nested_world)))
            0
          = [Dom.Elem "div" []
               [Dom.Elem "p" [("class", "a")]
                  [Dom.Elem "span" [("class", "b")] [Dom.Text "new"]]]].
Proof.
  do 3 (split; [reflexivity |]).
  destruct (refresh_skips_descendants (H := Sample.collaborators)
              Sample.nested Sample.nested_world
              (snd (fst (_refresh (H := Sample.collaborators) Sample.nested Sample.nested_world)))
              (snd (_refresh (H := Sample.collaborators) Sample.nested Sample.nested_world))
              0 [".a"; ".b"] ".b" ".a" [0; 0; 0] [0; 0])
    as (patched & new & ins & me_r & w_r
        & Htrace & Hnot & Hsub & _ & _ & (u & eu & Hu & _ & _) & _ & _);
    [ apply keyed_single; reflexivity
    | reflexivity | reflexivity | reflexivity | reflexivity
    | right; left; reflexivity | left; reflexivity
    | reflexivity | reflexivity | reflexivity | discriminate
    | vm_compute; reflexivity | ].
  exists patched. split; [exact Htrace|]. split; [exact Hnot|]. split.
  - destruct (Hsub u Hu) as [<-|[<-|[]]]; [exact Hu | destruct (Hnot Hu)].
  - vm_compute. reflexivity.
Defined.


(** ** What lasts along the events *)

Lemma constructor_instances `{Collaborators} (a : construction) (data : data_argument)
    (w : world) (other : nat) :
  other <> factory_baseClassInstance w ->
  instances (snd (constructor a data w)) !! other = instances w !! other.
Proof.
  intros Hne. unfold constructor.
  set (w1 := match data with DataObject r => _ | _ => w end).
  set (w2 := set_factory_baseClassInstance _ w1).
  assert (Hw1 : factory_baseClassInstance w1 = factory_baseClassInstance w
                /\ instances w1 = instances w).
  { subst w1. destruct data; split; reflexivity. }
  destruct Hw1 as [Hf1 Hi1].
  assert (Hw2 : instances w2 !! other = instances w !! other)
    by exact (f_equal (fun m => m !! other) Hi1).
  destruct (resolve_templates (new_templates a)) as [tpls|e0]; [|exact Hw2].
  destruct data as [r| |]; [|exact Hw2|exact Hw2].
  set (me0 := {| comp := _; baseClassInstance := factory_baseClassInstance w1 |}).
  assert (Hput : forall me1 w3,
            baseClassInstance me1 = factory_baseClassInstance w1 ->
            instances w3 = instances w2 ->
            instances (put me1 w3) !! other = instances w !! other).
  { intros me1 w3 Hid Hi3. cbn [instances put set_instances].
    rewrite Hid, lookup_insert_ne by congruence. rewrite Hi3. exact Hw2. }
  destruct (new_delayInit a); [apply Hput; reflexivity|].
  rewrite init_eq. cbv zeta.
  destruct (negb (bindings_callable (comp me0))); [exact Hw2|].
  destruct (Nat.ltb 0 (length (List.filter preventRender _)));
    destruct (Nat.ltb 0 (length (List.filter (fun it => negb (preventRender it)) _)));
    try destruct (callable (comp me0) "_init");
    apply Hput; reflexivity.
Qed.

(** The fulfilment of a fetch group of the instance [id]. *)
Lemma settle_outlasts (k : nat) (fulfilled : bool) (W : world) (id : nat) (me : instance) :
  keyed W ->
  instances W !! id = Some me ->
  exists me',
    instances (settle k fulfilled W) !! id = Some me'
    /\ living me me'
    /\ (delayRefresh me = true ->
        delayRefresh me' = true
        \/ (fulfilled = true
            /\ exists g loadMask,
                 nth_error (groups W) k = Some g /\ group_owner g = id
                 /\ group_kind_of g = Fetch loadMask)).
Proof.
  intros Hkeyed Hme. unfold settle.
  destruct (nth_error (groups W) k) as [g|] eqn:Hk.
  2:{ exists me. split; [exact Hme|]. split; [apply tolerance_refl | auto]. }
  unfold call. cbn [instances set_groups].
  destruct (instances W !! group_owner g) as [owner|] eqn:Howner.
  2:{ exists me. split; [exact Hme|]. split; [apply tolerance_refl | auto]. }
  pose proof (Hkeyed _ _ Howner) as Hid.
  assert (Hgoal : forall r owner' w',
    (if fulfilled && group_viable g then group_fulfilled (group_kind_of g)
     else group_rejected) owner
      (set_groups (firstn k (groups W) ++ skipn (S k) (groups W)) W) = (r, owner', w') ->
    exists me',
      instances (put owner' w') !! id = Some me'
      /\ living me me'
      /\ (delayRefresh me = true ->
          delayRefresh me' = true
          \/ (fulfilled = true
              /\ exists g0 loadMask,
                   Some g = Some g0 /\ group_owner g0 = id
                   /\ group_kind_of g0 = Fetch loadMask))).
  { intros r owner' w' Hrun.
    assert (Hother : baseClassInstance owner' = group_owner g
                     /\ instances w' = instances W
                     /\ living owner owner'
                     /\ (delayRefresh owner = true ->
                         delayRefresh owner' = true
                         \/ (fulfilled = true
                             /\ exists loadMask, group_kind_of g = Fetch loadMask))).
    { revert Hrun. destruct fulfilled; cbn [andb]; [destruct (group_viable g)|].
      - destruct (group_kind_of g) as [| |loadMask];
          cbv beta iota delta [group_fulfilled bind this update when log update_world ret
                               queue_own_refresh decrement_pending];
          [ destruct (callable (comp owner) "_init")
          |
          | destruct loadMask; destruct (refresh_pending (_refreshList owner)) ];
          intros [= <- <- <-];
          (split; [exact Hid|]); (split; [reflexivity|]);
          (split; [unfold living; cbn; repeat split; auto|]);
          intros Hd; try (left; exact Hd); right; (split; [reflexivity|]); eauto.
      - cbv beta iota delta [group_rejected bind this log update_world].
        intros [= <- <- <-]. split; [exact Hid|]. split; [reflexivity|].
        split; [apply tolerance_refl | auto].
      - cbv beta iota delta [group_rejected bind this log update_world].
        intros [= <- <- <-]. split; [exact Hid|]. split; [reflexivity|].
        split; [apply tolerance_refl | auto]. }
    destruct Hother as (Hid' & Hi' & Hliving & Hgate).
    cbn [instances put set_instances]. rewrite Hid', Hi'.
    destruct (decide (group_owner g = id)) as [Heq|Hne].
    - rewrite Heq, lookup_insert_eq. exists owner'.
      assert (Hsame : owner = me) by (rewrite Heq in Howner; congruence). subst owner.
      split; [reflexivity|]. split; [exact Hliving|].
      intros Hd. destruct (Hgate Hd) as [Hup|[Hf [lm Hlm]]]; [left; exact Hup|].
      right. split; [exact Hf|]. exists g, lm. repeat split; assumption.
    - rewrite lookup_insert_ne by exact Hne. exists me.
      split; [exact Hme|]. split; [apply tolerance_refl | auto]. }
  specialize (Hgoal
    (fst (fst ((if fulfilled && group_viable g then group_fulfilled (group_kind_of g)
                else group_rejected) owner
                 (set_groups (firstn k (groups W) ++ skipn (S k) (groups W)) W))))
    (snd (fst ((if fulfilled && group_viable g then group_fulfilled (group_kind_of g)
                else group_rejected) owner
                 (set_groups (firstn k (groups W) ++ skipn (S k) (groups W)) W))))
    (snd ((if fulfilled && group_viable g then group_fulfilled (group_kind_of g)
           else group_rejected) owner
            (set_groups (firstn k (groups W) ++ skipn (S k) (groups W)) W)))).
  destruct ((if fulfilled && group_viable g then group_fulfilled (group_kind_of g)
             else group_rejected) owner
              (set_groups (firstn k (groups W) ++ skipn (S k) (groups W)) W))
    as [[r owner'] w'].
  cbn [snd fst] in *. exact (Hgoal eq_refl).
Qed.

Lemma confined_world {X} (allowed : instance -> instance -> Prop) (view : world -> X)
    `{!Tolerance allowed} (a b : world) :
  instances b = instances a ->
  factory_baseClassInstance b = factory_baseClassInstance a ->
  groups b = groups a ->
  (forall id, rejected id (trace b) = rejected id (trace a)) ->
  view b = view a ->
  confined allowed view a b.
Proof.
  intros Hi Hf Hg Hr Hv. split; [|split; [exact Hv|]].
  - split; [|split; [|split]].
    + intros Hk id me. rewrite Hi. apply Hk.
    + intros id. rewrite Hi. reflexivity.
    + exact Hf.
    + intros id. unfold count_of. rewrite Hi, Hg, Hr. reflexivity.
  - intros id me Hme. exists me. rewrite Hi. split; [exact Hme | apply tolerance_refl].
Qed.

Section Lasting.

Context `{Collaborators}.

Lemma flush_gated (i : nat) (W : world) :
  keyed W -> confined gated nothing W (snd (flush i W)).
Proof.
  revert W. induction i as [|i IH]; intros W HW; cbn [flush]; [apply orderly_refl|].
  set (w1 := set_sched _ W).
  assert (H1 : confined gated nothing W w1) by (apply confined_world; try exact _; reflexivity).
  destruct (last (refreshQueue (sched W))) as [[n|owner]|]; [exact H1 | | exact H1].
  set (w2 := set_trace _ w1).
  assert (H2 : confined gated nothing W w2).
  { apply confined_world; try exact _; try reflexivity.
    intros id. subst w2 w1. cbn [trace set_trace set_sched].
    rewrite rejected_app. cbn. lia. }
  assert (Hk2 : keyed w2) by (apply (orderly_steady _ _ H2), HW).
  assert (Hrefresh : relates (confined gated nothing) _refresh).
  { apply (relates_weaken _ (confined refreshing refresh_schedule));
      [exact confined_refreshing_gated | exact refreshing__refresh]. }
  pose proof (relates_call _ owner _refresh w2 Hrefresh Hk2) as H3.
  destruct (call owner _refresh w2) as [[[]|e] w3]; cbn [snd] in H3.
  - assert (H03 : confined gated nothing W w3) by exact (orderly_trans _ _ _ H2 H3).
    refine (orderly_trans _ _ _ H03 (IH w3 _)).
    apply (orderly_steady _ _ H03), HW.
  - exact (orderly_trans _ _ _ H2 H3).
Qed.

Lemma fire_timer_gated (W : world) : keyed W -> confined gated nothing W (fire_timer W).
Proof.
  intros HW. unfold fire_timer.
  destruct (timers (sched W)) as [|c rest]; [apply orderly_refl|].
  set (w1 := set_sched _ W).
  assert (H1 : confined gated nothing W w1) by (apply confined_world; try exact _; reflexivity).
  assert (Hk1 : keyed w1) by (apply (orderly_steady _ _ H1), HW).
  unfold timer_callback.
  destruct (Nat.eqb c _); [|exact H1].
  pose proof (flush_gated (length (refreshQueue (sched w1))) w1 Hk1) as H2.
  destruct (flush _ w1) as [[[]|e] w2]; cbn [snd] in H2.
  - refine (orderly_trans _ _ _ H1 (orderly_trans _ _ _ H2 _)).
    apply confined_world; try exact _; reflexivity.
  - exact (orderly_trans _ _ _ H1 H2).
Qed.

Lemma fire_sweep_gated (W : world) : keyed W -> confined gated nothing W (fire_sweep W).
Proof.
  intros HW. unfold fire_sweep.
  destruct (sweeps W) as [|[id cleanUpTime] rest]; [apply orderly_refl|].
  set (w1 := set_sweeps rest W).
  assert (H1 : confined gated nothing W w1) by (apply confined_world; try exact _; reflexivity).
  refine (orderly_trans _ _ _ H1 _).
  apply relates_call; [typeclasses eauto | apply gated_sweep |].
  apply (orderly_steady _ _ H1), HW.
Qed.

(** What an event leaves of the instances. *)
Lemma run_event_outlasts (e : event) (W : world) (id : nat) (me : instance) :
  balanced W ->
  instances W !! id = Some me ->
  exists me',
    instances (run_event e W) !! id = Some me'
    /\ living me me'
    /\ (delayRefresh me = true ->
        delayRefresh me' = true
        \/ exists k g loadMask,
             e = Settle k true /\ nth_error (groups W) k = Some g
             /\ group_owner g = id /\ group_kind_of g = Fetch loadMask).
Proof.
  intros HW Hme. pose proof (proj1 HW) as Hkeyed.
  assert (Hgated : forall W', confined gated nothing W W' ->
    exists me',
      instances W' !! id = Some me' /\ living me me'
      /\ (delayRefresh me = true ->
          delayRefresh me' = true
          \/ exists k g loadMask,
               e = Settle k true /\ nth_error (groups W) k = Some g
               /\ group_owner g = id /\ group_kind_of g = Fetch loadMask)).
  { intros W' (_ & _ & Ho). destruct (Ho id me Hme) as (me' & Hme' & [Hl Hg]).
    exists me'. split; [exact Hme'|]. split; [exact Hl|]. intros Hd. left. exact (Hg Hd). }
  assert (Hcall : forall A i (m : M A), relates (confined gated nothing) m ->
    exists me',
      instances (snd (call i m W)) !! id = Some me' /\ living me me'
      /\ (delayRefresh me = true ->
          delayRefresh me' = true
          \/ exists k g loadMask,
               e = Settle k true /\ nth_error (groups W) k = Some g
               /\ group_owner g = id /\ group_kind_of g = Fetch loadMask)).
  { intros A i m Hm. apply Hgated. apply relates_call; [typeclasses eauto | exact Hm |].
    exact Hkeyed. }
  destruct e as [a data|i|i|i|i c s|i name v|r name v|i changes|i|k fulfilled| |];
    cbn [run_event].
  - assert (Hne : id <> factory_baseClassInstance W).
    { intros ->. destruct HW as (_ & Hfresh & _).
      rewrite (Hfresh _ (Nat.le_refl _)) in Hme. discriminate. }
    exists me. rewrite (constructor_instances a data W id Hne).
    split; [exact Hme|]. split; [apply tolerance_refl | auto].
  - apply Hcall.
    apply (relates_weaken _ (confined initializing schedule));
      [exact confined_initializing_gated | exact relates_initializing_init].
  - apply Hcall.
    apply (relates_weaken _ (confined rendering schedule));
      [exact confined_rendering_gated | exact rendering_render].
  - apply Hcall. exact gated_refresh.
  - apply Hcall. apply gated_registerChild.
  - apply Hcall. apply gated_set_data.
  - apply Hgated. apply confined_world; try exact _; reflexivity.
  - apply Hcall. confined_auto.
  - apply Hcall. exact gated_destroy.
  - destruct (settle_outlasts k fulfilled W id me Hkeyed Hme) as (me' & Hme' & Hl & Hg).
    exists me'. split; [exact Hme'|]. split; [exact Hl|].
    intros Hd. destruct (Hg Hd) as [Hup|(-> & g & lm & Hk & Ho & Hkind)];
      [left; exact Hup|].
    right. exists k, g, lm. repeat split; assumption.
  - apply Hgated. apply fire_timer_gated. exact Hkeyed.
  - apply Hgated. apply fire_sweep_gated. exact Hkeyed.
Qed.

Lemma run_app (es more : list event) (W : world) : run (es ++ more) W = run more (run es W).
Proof. unfold run. apply fold_left_app. Qed.

Lemma run_outlasts (more : list event) (W : world) :
  balanced W -> outlasts living W (run more W).
Proof.
  revert W. induction more as [|e more IH]; intros W HW id me Hme; cbn.
  - exists me. split; [exact Hme | apply tolerance_refl].
  - destruct (run_event_outlasts e W id me HW Hme) as (me1 & Hme1 & Hl1 & _).
    assert (HW1 : balanced (run_event e W)) by (apply run_event_spec; exact HW).
    destruct (IH _ HW1 id me1 Hme1) as (me2 & Hme2 & Hl2).
    exists me2. split; [exact Hme2 | exact (tolerance_trans _ _ _ Hl1 Hl2)].
Qed.

(** X16: A component is there for good, and so are its configuration and the
    data object it was given: whatever happens after a component has been
    constructed (calls of its methods and of those of other components,
    writes to the data, groups settling, timers firing, its destruction),
    it stays registered under its id with the same configuration and the
    same data reference; once initialized it stays initialized; once
    rendered in full it stays so; and once it has stopped observing its
    data it never observes it again. *)
Theorem component_for_good (objs : gmap nat Data.fields) (d : dom_store)
    (es more : list event) (id : nat) (me : instance) :
  instances (run es (outset objs d)) !! id = Some me ->
  exists me',
    instances (run (es ++ more) (outset objs d)) !! id = Some me'
    /\ comp me' = comp me
    /\ _data me' = _data me
    /\ (initialized me = true -> initialized me' = true)
    /\ (initRendered me = true -> initRendered me' = true)
    /\ (observed me = false -> observed me' = false).
Proof.
  intros Hme. rewrite run_app.
  exact (run_outlasts more _ (run_balanced es _ (outset_balanced objs d)) id me Hme).
Qed.

(** X17: Once the delay-refresh gate of a component is up, it stays up through
    every event but the fulfilment of one of the component's own fetch
    groups: in particular the rejection of the group that raised it leaves
    the refreshes of the component blocked. *)
Theorem delayRefresh_until_fulfilled (objs : gmap nat Data.fields) (d : dom_store)
    (es : list event) (e : event) (id : nat) (me : instance) :
  instances (run es (outset objs d)) !! id = Some me ->
  delayRefresh me = true ->
  exists me',
    instances (run_event e (run es (outset objs d))) !! id = Some me'
    /\ (delayRefresh me' = true
        \/ exists k g loadMask,
             e = Settle k true
             /\ nth_error (groups (run es (outset objs d))) k = Some g
             /\ group_owner g = id /\ group_kind_of g = Fetch loadMask).
Proof.
  intros Hme Hd.
  destruct (run_event_outlasts e _ id me (run_balanced es _ (outset_balanced objs d)) Hme)
    as (me' & Hme' & _ & Hgate).
  exists me'. split; [exact Hme' | exact (Hgate Hd)].
Qed.

End Lasting.

Lemma component_for_good_witness :
  let es := [New Sample.plain (DataObject 0); CallRender 0] in
  let more := [CallDestroy 0; SetData 0 "name" (Data.JStr "Bob"); TimerFires] in
  exists me',
    instances (run (H := Sample.collaborators) (es ++ more) Sample.caller_world) !! 0
    = Some me'
    /\ initRendered me' = true.
Proof.
  cbv zeta.
  destruct (instances
              (run (H := Sample.collaborators)
                 [New Sample.plain (DataObject 0); CallRender 0] Sample.caller_world) !! 0)
    as [me|] eqn:Hme; [|vm_compute in Hme; discriminate].
  destruct (component_for_good (H := Sample.collaborators) _ _ _
              [CallDestroy 0; SetData 0 "name" (Data.JStr "Bob"); TimerFires] 0 me Hme)
    as (me' & Hme' & _ & _ & _ & Hrendered & _).
  exists me'. split; [exact Hme'|]. apply Hrendered.
  vm_compute in Hme. injection Hme as <-. reflexivity.
Defined.

Lemma delayRefresh_until_fulfilled_witness :
  let es := [New Sample.fetching (DataObject 0); Settle 0 true;
             SetData 0 "person_id" (Data.JNum 7)] in
  exists me',
    instances (run_event (H := Sample.collaborators) (Settle 0 false)
                 (run (H := Sample.collaborators) es Sample.caller_world)) !! 0 = Some me'
    /\ delayRefresh me' = true.
Proof.
  cbv zeta.
  destruct (instances
              (run (H := Sample.collaborators)
                 [New Sample.fetching (DataObject 0); Settle 0 true;
                  SetData 0 "person_id" (Data.JNum 7)] Sample.caller_world) !! 0)
    as [me|] eqn:Hme; [|vm_compute in Hme; discriminate].
  destruct (delayRefresh_until_fulfilled (H := Sample.collaborators) _ _ _
              (Settle 0 false) 0 me Hme) as (me' & Hme' & [Hup|Hdown]).
  - vm_compute in Hme. injection Hme as <-. reflexivity.
  - exists me'. split; [exact Hme' | exact Hup].
  - destruct Hdown as (k & g & lm & Hcontra & _). discriminate Hcontra.
Defined.


(** ** What rendering and refreshing leave alone *)

Section Leaves.

Context `{Collaborators}.

(** X18: [_renderWithChildren()] builds trees and may initialize components on
    the way, but what the base class does in it leaves every component's
    rendered tree, mark of the full render, refresh list, sweep token,
    observation and delay-refresh gate as they are, and touches neither the
    scheduler nor the sweeps that are waiting.  (The render hooks are taken
    to build their trees only; nothing is said of the registries of children,
    to which a hook that makes child components adds.) *)
Theorem renderWithChildren_leaves (me : instance) (w : world)
    (r : res render_result) (me' : instance) (w' : world) :
  keyed (put me w) ->
  _renderWithChildren me w = (r, me', w') ->
  sched w' = sched w
  /\ sweeps w' = sweeps w
  /\ forall id x,
       instances (put me w) !! id = Some x ->
       exists x',
         instances (put me' w') !! id = Some x'
         /\ jqDom x' = jqDom x
         /\ initRendered x' = initRendered x
         /\ _refreshList x' = _refreshList x
         /\ _cleanUpChildren x' = _cleanUpChildren x
         /\ observed x' = observed x
         /\ delayRefresh x' = delayRefresh x
         /\ (initialized x = true -> initialized x' = true).
Proof.
  intros Hk Hrun.
  destruct (initializing__renderWithChildren me w r me' w' Hk Hrun) as (_ & _ & Hv & Ho).
  unfold schedule in Hv. cbn [sched sweeps put set_instances] in Hv.
  injection Hv as Hs Hsw _. split; [exact Hs|]. split; [exact Hsw|].
  intros id x Hx. destruct (Ho id x Hx) as (x' & Hx' & Hinit).
  destruct Hinit as ((((Hc & Hd & Hi & Hr & _) & Hob & Hreg & Hdel) & Hrl & Htok) & Hjq & Hir).
  exists x'. repeat split; assumption.
Qed.

(** X19: [render()] never consumes a pending refresh and never asks for one:
    what the base class does in it leaves every component's refresh list,
    observation, delay-refresh gate and sweep token as they are, a component
    that was rendered in full stays so, and the scheduler and the sweeps
    that are waiting are not touched.  (The render hooks are taken to build
    their trees only; nothing is said of the registries of children.) *)
Theorem render_leaves (me : instance) (w : world)
    (r : res Dom.jq) (me' : instance) (w' : world) :
  keyed (put me w) ->
  render me w = (r, me', w') ->
  sched w' = sched w
  /\ sweeps w' = sweeps w
  /\ forall id x,
       instances (put me w) !! id = Some x ->
       exists x',
         instances (put me' w') !! id = Some x'
         /\ _refreshList x' = _refreshList x
         /\ _cleanUpChildren x' = _cleanUpChildren x
         /\ observed x' = observed x
         /\ delayRefresh x' = delayRefresh x
         /\ (initialized x = true -> initialized x' = true)
         /\ (initRendered x = true -> initRendered x' = true).
Proof.
  intros Hk Hrun.
  destruct (rendering_render me w r me' w' Hk Hrun) as (_ & _ & Hv & Ho).
  unfold schedule in Hv. cbn [sched sweeps put set_instances] in Hv.
  injection Hv as Hs Hsw _. split; [exact Hs|]. split; [exact Hsw|].
  intros id x Hx. destruct (Ho id x Hx) as (x' & Hx' & Hrend).
  destruct Hrend as (((Hc & Hd & Hi & Hr & _) & Hob & Hreg & Hdel) & Hrl & Htok).
  exists x'. repeat split; assumption.
Qed.

(** X20: [_refresh()] never asks for another refresh: with what the base
    class does in it the scheduler's queue, index and timers are as before,
    and so are every component's observation and delay-refresh gate;
    components stay initialized and rendered.  (The render hooks are taken
    to build their trees only; nothing is said of the registries of
    children.) *)
Theorem refresh_leaves (me : instance) (w : world)
    (r : res unit) (me' : instance) (w' : world) :
  keyed (put me w) ->
  _refresh me w = (r, me', w') ->
  sched w' = sched w
  /\ forall id x,
       instances (put me w) !! id = Some x ->
       exists x',
         instances (put me' w') !! id = Some x'
         /\ observed x' = observed x
         /\ delayRefresh x' = delayRefresh x
         /\ (initialized x = true -> initialized x' = true)
         /\ (initRendered x = true -> initRendered x' = true).
Proof.
  intros Hk Hrun.
  destruct (refreshing__refresh me w r me' w' Hk Hrun) as (_ & _ & Hv & Ho).
  unfold refresh_schedule in Hv. cbn [sched put set_instances] in Hv.
  injection Hv as Hs _. split; [exact Hs|].
  intros id x Hx. destruct (Ho id x Hx) as (x' & Hx' & Href).
  destruct Href as ((Hc & Hd & Hi & Hr & _) & Hob & Hreg & Hdel).
  exists x'. repeat split; assumption.
Qed.

(** X21: A refresh of a component that has never been rendered only renders it:
    the refresh list is left as it was, pending, and no sweep is scheduled. *)
Theorem refresh_never_rendered (me : instance) (w : world)
    (r : res unit) (me' : instance) (w' : world) :
  keyed (put me w) ->
  initialized me = true ->
  delayRefresh me = false ->
  jqDom me = Dom.JNull ->
  _refresh me w = (r, me', w') ->
  _refreshList me' = _refreshList me
  /\ _cleanUpChildren me' = _cleanUpChildren me
  /\ sweeps w' = sweeps w
  /\ sched w' = sched w.
Proof.
  intros Hk Hinit Hdel Hjq. rewrite _refresh_unfold, Hinit, Hdel, Hjq. cbn [andb negb].
  unfold bind. destruct (render me w) as [[[j|e] me1] w1] eqn:Hrender;
    intros [= _ <- <-];
    destruct (rendering_render me w _ me1 w1 Hk Hrender) as (Hid & _ & Hv & Ho);
    unfold schedule in Hv; cbn [sched sweeps put set_instances] in Hv;
    injection Hv as Hs Hsw _;
    (destruct (Ho (baseClassInstance me) me) as (x' & Hx' & Hrend); [apply put_lookup|]);
    rewrite <- Hid, put_lookup in Hx'; injection Hx' as <-;
    destruct Hrend as (_ & Hrl & Htok); repeat split; assumption.
Qed.

Lemma flush_stack (i : nat) :
  forall (W : world) (stack : list nat) (r : res unit) (W' : world),
    keyed W ->
    refreshQueue (sched W) = map Js.VFun (rev stack) ->
    i <= length stack ->
    flush i W = (r, W') ->
    exists called rest,
      stack = called ++ rest
      /\ refreshQueue (sched W') = map Js.VFun (rev rest)
      /\ uniqueIndex (sched W') = uniqueIndex (sched W)
      /\ timers (sched W') = timers (sched W)
      /\ scheduler_calls (trace W')
         = scheduler_calls (trace W) ++ map RefreshCall called
      /\ match r with
         | Ok _ => length called = i
         | Throw _ => 1 <= length called
         end.
Proof.
  induction i as [|i IH]; intros W stack r W' Hkeyed Hq Hlen; cbn [flush].
  - intros [= <- <-]. exists [], stack. rewrite app_nil_r. repeat split; assumption.
  - destruct stack as [|o stack]; [cbn in Hlen; lia|].
    cbn [rev] in Hq. rewrite map_app in Hq. cbn [map] in Hq.
    rewrite Hq, last_snoc, removelast_last.
    set (w1 := set_sched _ W). set (w2 := set_trace _ w1).
    assert (Hk2 : keyed w2) by (intros id x Hx; exact (Hkeyed id x Hx)).
    pose proof (relates_call _ o _refresh w2 refreshing__refresh Hk2) as (_ & Hv & _).
    destruct (call o _refresh w2) as [[[]|e] w3] eqn:Hcall; cbn [snd] in Hv.
    + unfold refresh_schedule in Hv. injection Hv as Hs3 Hc3.
      intros Hrest.
      assert (Hk3 : keyed w3).
      { pose proof (relates_call _ o _refresh w2 refreshing__refresh Hk2) as (Hst & _).
        rewrite Hcall in Hst. apply Hst. exact Hk2. }
      destruct (IH w3 stack r W' Hk3) as (called & rest & -> & Hq' & Hu' & Ht' & Hc' & Hr');
        [rewrite Hs3; reflexivity | cbn in Hlen; lia | exact Hrest |].
      exists (o :: called), rest. split; [reflexivity|]. split; [exact Hq'|].
      split; [rewrite Hu', Hs3; reflexivity|]. split; [rewrite Ht', Hs3; reflexivity|].
      split.
      * rewrite Hc', Hc3. subst w2 w1. cbn [trace set_trace set_sched].
        rewrite scheduler_calls_app. cbn. rewrite <- app_assoc. reflexivity.
      * destruct r; cbn [length]; lia.
    + unfold refresh_schedule in Hv. injection Hv as Hs3 Hc3.
      intros [= <- <-]. exists [o], stack. split; [reflexivity|].
      split; [rewrite Hs3; reflexivity|]. split; [rewrite Hs3; reflexivity|].
      split; [rewrite Hs3; reflexivity|]. split; [|cbn; lia].
      rewrite Hc3. subst w2 w1. cbn [trace set_trace set_sched].
      rewrite scheduler_calls_app. reflexivity.
Qed.

(** X22: The flush of the scheduler's queue pops the refresh closures from the
    end of the queue and calls each of them once, the last queued first; no
    refresh puts anything on the queue, so a flush that goes through leaves
    the queue empty.  When a refresh throws, the flush stops there: the
    closures queued before the failing one stay on the queue, uncalled. *)
Theorem flush_calls_each_once (owners : list nat) (W : world) (r : res unit) (W' : world) :
  keyed W ->
  refreshQueue (sched W) = map Js.VFun owners ->
  flush (length owners) W = (r, W') ->
  exists called uncalled,
    owners = uncalled ++ rev called
    /\ refreshQueue (sched W') = map Js.VFun uncalled
    /\ scheduler_calls (trace W')
       = scheduler_calls (trace W) ++ map RefreshCall called
    /\ (r = Ok tt -> uncalled = [])
    /\ (forall e, r = Throw e -> called <> [])
    /\ uniqueIndex (sched W') = uniqueIndex (sched W)
    /\ timers (sched W') = timers (sched W).
Proof.
  intros Hkeyed Hq Hrun.
  destruct (flush_stack (length owners) W (rev owners) r W' Hkeyed)
    as (called & rest & Hsplit & Hq' & Hu & Ht & Hc & Hr);
    [rewrite rev_involutive; exact Hq | rewrite length_rev; lia | exact Hrun |].
  exists called, (rev rest). split.
  - rewrite <- (rev_involutive owners), Hsplit, rev_app_distr. reflexivity.
  - split; [exact Hq'|]. split; [exact Hc|]. split; [|split; [|split; assumption]].
    + intros ->. assert (Hl : length (rev owners) = length called + length rest)
        by (rewrite Hsplit, length_app; reflexivity).
      rewrite length_rev in Hl. destruct rest; [reflexivity | cbn in Hl; lia].
    + intros e ->. destruct called; [cbn in Hr; lia | discriminate].
Qed.

End Leaves.

Lemma renderWithChildren_leaves_witness :
  sched (snd (_renderWithChildren (H := Sample.collaborators)
                Sample.ready Sample.caller_world))
  = sched Sample.caller_world.
Proof.
  destruct (_renderWithChildren (H := Sample.collaborators) Sample.ready Sample.caller_world)
    as [[r me'] w'] eqn:Hrun.
  destruct (renderWithChildren_leaves (H := Sample.collaborators)
              Sample.ready Sample.caller_world r me' w'
              (keyed_single Sample.ready Sample.caller_world eq_refl) Hrun) as (Hs & _).
  exact Hs.
Defined.

Lemma render_leaves_witness :
  sweeps (snd (render (H := Sample.collaborators) Sample.ready Sample.caller_world))
  = sweeps Sample.caller_world.
Proof.
  destruct (render (H := Sample.collaborators) Sample.ready Sample.caller_world)
    as [[r me'] w'] eqn:Hrun.
  destruct (render_leaves (H := Sample.collaborators)
              Sample.ready Sample.caller_world r me' w'
              (keyed_single Sample.ready Sample.caller_world eq_refl) Hrun) as (_ & Hsw & _).
  exact Hsw.
Defined.

Lemma refresh_leaves_witness :
  sched (snd (_refresh (H := Sample.collaborators) Sample.nested Sample.nested_world))
  = sched Sample.nested_world.
Proof.
  destruct (_refresh (H := Sample.collaborators) Sample.nested Sample.nested_world)
    as [[r me'] w'] eqn:Hrun.
  destruct (refresh_leaves (H := Sample.collaborators)
              Sample.nested Sample.nested_world r me' w'
              (keyed_single Sample.nested Sample.nested_world eq_refl) Hrun) as (Hs & _).
  exact Hs.
Defined.

Lemma refresh_never_rendered_witness :
  _refreshList (snd (fst (_refresh (H := Sample.collaborators)
                            (set_refreshList Full Sample.ready) Sample.caller_world)))
  = Full.
Proof.
  destruct (_refresh (H := Sample.collaborators)
              (set_refreshList Full Sample.ready) Sample.caller_world)
    as [[r me'] w'] eqn:Hrun.
  destruct (refresh_never_rendered (H := Sample.collaborators)
              (set_refreshList Full Sample.ready) Sample.caller_world r me' w'
              (keyed_single (set_refreshList Full Sample.ready) Sample.caller_world eq_refl)
              eq_refl eq_refl eq_refl Hrun) as (Hrl & _).
  exact Hrl.
Defined.

Lemma flush_calls_each_once_witness :
  let W := run (H := Sample.collaborators)
             [New Sample.plain (DataObject 0); CallRender 0;
              SetData 0 "name" (Data.JStr "Bob"); SetData 0 "name" (Data.JStr "Cy")]
             Sample.caller_world in
  exists called uncalled,
    [0; 0] = uncalled ++ rev called
    /\ refreshQueue (sched (snd (flush (H := Sample.collaborators) 2 W)))
       = map Js.VFun uncalled.
Proof.
  cbv zeta.
  destruct (flush (H := Sample.collaborators) 2
              (run (H := Sample.collaborators)
                 [New Sample.plain (DataObject 0); CallRender 0;
                  SetData 0 "name" (Data.JStr "Bob"); SetData 0 "name" (Data.JStr "Cy")]
                 Sample.caller_world)) as [r W'] eqn:Hrun.
  destruct (flush_calls_each_once (H := Sample.collaborators) [0; 0]
              (run (H := Sample.collaborators)
                 [New Sample.plain (DataObject 0); CallRender 0;
                  SetData 0 "name" (Data.JStr "Bob"); SetData 0 "name" (Data.JStr "Cy")]
                 Sample.caller_world) r W')
    as (called & uncalled & Hsplit & Hq & _);
    [ exact (proj1 (run_balanced (H := Sample.collaborators) _ _ (outset_balanced _ _)))
    | vm_compute; reflexivity
    | exact Hrun | ].
  exists called, uncalled. split; [exact Hsplit | exact Hq].
Defined.


(** ** Readiness *)

#[export] Instance unchanged_orderly : Orderly (@eq world).
Proof.
  split; [reflexivity | intros a b c -> ->; reflexivity | intros a b ->; apply steady_refl].
Qed.

Section Folding.

Context {St : Type} (R : world -> world -> Prop) `{!Orderly R}.

Variable handler : St -> nat -> string -> M unit -> M St.
Variable destroy_child : nat -> M unit.

Hypothesis handler_relates :
  forall s id sectionName removeChild, relates R (handler s id sectionName removeChild).

Lemma relates_entries_of_any (sectionName : string) : relates R (entries_of sectionName).
Proof.
  unfold entries_of. apply relates_bind; [exact _ | apply relates_this; exact _|].
  intros me. destruct (section sectionName (childComponents me));
    [apply relates_ret | apply relates_throw]; exact _.
Qed.

Lemma relates_entry_at_any (sectionName : string) (a : nat) :
  relates R (entry_at sectionName a).
Proof.
  unfold entry_at. apply relates_bind; [exact _ | apply relates_entries_of_any|].
  intros entries. destruct (nth_error entries a);
    [apply relates_ret | apply relates_throw]; exact _.
Qed.

Lemma relates_each_in_repetition_folding (sectionName : string) (a b : nat) (s : St) :
  relates R (each_in_repetition_folding handler destroy_child sectionName a b s).
Proof.
  revert s. induction b as [|b IH]; intros s; cbn [each_in_repetition_folding].
  - apply relates_ret. exact _.
  - apply relates_bind; [exact _ | apply relates_entry_at_any|]. intros c.
    apply relates_bind; [exact _ | | intros s'; apply IH].
    destruct (nth_error (repetition c) b); [apply handler_relates | apply relates_throw].
    exact _.
Qed.

Lemma relates_each_in_section_folding (sectionName : string) (a : nat) (s : St) :
  relates R (each_in_section_folding handler destroy_child sectionName a s).
Proof.
  revert s. induction a as [|a IH]; intros s; cbn [each_in_section_folding].
  - apply relates_ret. exact _.
  - apply relates_bind; [exact _ | apply relates_entry_at_any|]. intros c.
    apply relates_bind; [exact _ | | intros s'; apply IH].
    destruct (String.eqb sectionName "default").
    + destruct c; [apply handler_relates | apply relates_throw; exact _].
    + apply relates_each_in_repetition_folding.
Qed.

Lemma relates_eachChildComponent_folding (s : St) :
  relates R (eachChildComponent_folding handler destroy_child s).
Proof.
  unfold eachChildComponent_folding.
  apply relates_bind; [exact _ | apply relates_this; exact _|]. intros me.
  apply relates_fold_m; [exact _|]. intros s' sectionName.
  apply relates_bind; [exact _ | apply relates_this; exact _|]. intros me'.
  destruct (section sectionName (childComponents me'));
    [apply relates_each_in_section_folding | apply relates_ret; exact _].
Qed.

End Folding.

Section Ready.

Context `{Collaborators}.

Lemma relates_isReady_at (depth : nat) : relates eq (isReady_at depth).
Proof.
  induction depth as [|d IH]; cbn [isReady_at]; [apply relates_throw; exact _|].
  apply relates_bind; [exact _ | | intros acc].
  - apply relates_eachChildComponent_folding; [exact _|].
    intros s id sectionName removeChild.
    apply relates_bind; [exact _ | | intros ready; apply relates_ret; exact _].
    apply relates_call_other; [exact _ | exact IH].
  - apply relates_bind; [exact _ | apply relates_this; exact _|].
    intros me. apply relates_ret. exact _.
Qed.

Lemma unchanged_instance (me me' : instance) (w w' : world) :
  baseClassInstance me' = baseClassInstance me ->
  put me w = put me' w' -> me' = me.
Proof.
  intros Hid Hput.
  pose proof (put_lookup me w) as Hme. rewrite Hput, <- Hid, put_lookup in Hme.
  congruence.
Qed.

(** What the component itself has to show to be ready. *)
Lemma isReady_at_own (depth : nat) (me : instance) (w : world)
    (b : bool) (me' : instance) (w' : world) :
  keyed (put me w) ->
  isReady_at depth me w = (Ok b, me', w') ->
  me' = me
  /\ put me' w' = put me w
  /\ (b = true ->
      _refreshList me = Selectors [] /\ pendingFetchCount me = 0%Z
      /\ pendingInit me = false).
Proof.
  intros Hk Hrun.
  destruct (relates_isReady_at depth me w _ me' w' Hk Hrun) as [Hid Hput].
  pose proof (unchanged_instance me me' w w' Hid Hput) as Hsame.
  split; [exact Hsame|]. split; [symmetry; exact Hput|].
  destruct depth as [|d]; [discriminate|]. cbn [isReady_at] in Hrun.
  apply bind_ok in Hrun as (acc & me1 & w1 & Hfold & Hrun).
  cbv beta iota delta [bind this ret] in Hrun. injection Hrun as <- <- <-.
  intros Hb. apply andb_prop in Hb as [Hb Hp]. apply andb_prop in Hb as [Hb Hc].
  apply andb_prop in Hb as [_ Hl]. subst me1.
  split; [|split].
  - destruct (_refreshList me) as [|[|s l]]; try discriminate. reflexivity.
  - apply Z.eqb_eq. exact Hc.
  - apply negb_true_iff. exact Hp.
Qed.

(** X23: [isReady()] only looks: whatever it answers, and also when it throws,
    the component and the world are as they were. *)
Theorem isReady_reads_only (me : instance) (w : world)
    (r : res bool) (me' : instance) (w' : world) :
  keyed (put me w) ->
  isReady me w = (r, me', w') ->
  me' = me /\ put me' w' = put me w.
Proof.
  intros Hk Hrun.
  destruct (relates_isReady_at call_stack me w r me' w' Hk Hrun) as [Hid Hput].
  split; [exact (unchanged_instance me me' w w' Hid Hput) | symmetry; exact Hput].
Qed.

(** A component without registered children is ready exactly when it has
    no refresh pending (an empty refresh list, which [true] is not), no
    group counted and no initialization in progress. *)
Theorem isReady_without_children (me : instance) (w : world) :
  childComponents me = [("default", [])] ->
  0 < call_stack ->
  isReady me w
  = (Ok (match _refreshList me with Selectors [] => true | _ => false end
         && Z.eqb (pendingFetchCount me) 0
         && negb (pendingInit me)), me, w).
Proof.
  intros Hreg Hstack. unfold isReady. destruct call_stack as [|d]; [lia|].
  cbn [isReady_at]. unfold eachChildComponent_folding.
  cbv beta iota delta [bind this ret]. rewrite Hreg.
  cbn [map fst fold_m section String.eqb Ascii.eqb Bool.eqb length each_in_section_folding].
  cbv beta iota delta [bind this ret]. rewrite Hreg.
  cbn [section String.eqb Ascii.eqb Bool.eqb length each_in_section_folding].
  cbv beta iota delta [ret]. reflexivity.
Qed.

(** X24: A component one of whose task groups was rejected never answers that it
    is ready again: in every world that can be reached, [isReady()] of a
    component with a rejected group answers [false] or throws. *)
Theorem isReady_never_after_rejection (objs : gmap nat Data.fields) (d : dom_store)
    (es : list event) (id : nat) :
  0 < rejected id (trace (run es (outset objs d))) ->
  fst (call id isReady (run es (outset objs d))) <> Ok true.
Proof.
  intros Hrej.
  destruct (run_balanced es _ (outset_balanced objs d)) as (Hkeyed & _ & Hbal).
  specialize (Hbal id). unfold count_of in Hbal. unfold call.
  destruct (instances (run es (outset objs d)) !! id) as [me|] eqn:Hme; [|discriminate].
  pose proof (Hkeyed _ _ Hme) as Hid.
  assert (Hk : keyed (put me (run es (outset objs d)))).
  { rewrite put_id by (rewrite Hid; exact Hme). exact Hkeyed. }
  destruct (isReady me (run es (outset objs d))) as [[r me'] w'] eqn:Hrun. cbn [fst].
  intros ->.
  destruct (isReady_at_own _ _ _ _ _ _ Hk Hrun) as (_ & _ & Hown).
  destruct (Hown eq_refl) as (_ & Hcount & _). lia.
Qed.

End Ready.

Lemma isReady_reads_only_witness :
  snd (fst (isReady (H := Sample.collaborators) Sample.waiting Sample.caller_world))
  = Sample.waiting.
Proof.
  destruct (isReady (H := Sample.collaborators) Sample.waiting Sample.caller_world)
    as [[r me'] w'] eqn:Hrun.
  destruct (isReady_reads_only (H := Sample.collaborators)
              Sample.waiting Sample.caller_world r me' w'
              (keyed_single Sample.waiting Sample.caller_world eq_refl) Hrun) as [Hme _].
  exact Hme.
Defined.

Lemma isReady_without_children_witness :
  isReady (H := Sample.collaborators) Sample.quiescent Sample.rendered_world
  = (Ok true, Sample.quiescent, Sample.rendered_world).
Proof.
  apply (isReady_without_children (H := Sample.collaborators));
    [reflexivity | cbn; lia].
Defined.

Lemma isReady_never_after_rejection_witness :
  fst (call 0 (isReady (H := Sample.collaborators))
         (run (H := Sample.collaborators)
            [New Sample.fetching (DataObject 0); Settle 0 false] Sample.caller_world))
  <> Ok true.
Proof.
  apply (isReady_never_after_rejection (H := Sample.collaborators)
           {[0 := [("name", Data.JStr "Ann")]]} {| trees := ∅; next_tree := 0 |}
           [New Sample.fetching (DataObject 0); Settle 0 false] 0).
  vm_compute. lia.
Defined.

Section Looking.

(** A handler that only looks, run on the component [me0] in the world
    [W], and that hands on [true] only if it was handed [true] and found
    [found] of the child. *)
Variable handler : bool -> nat -> string -> M unit -> M bool.
Variable destroy_child : nat -> M unit.
Variable me0 : instance.
Variable W : world.
Variable found : nat -> Prop.

Hypothesis handler_looks :
  forall acc id sectionName removeChild w acc' me' w',
    put me0 w = W ->
    handler acc id sectionName removeChild me0 w = (Ok acc', me', w') ->
    me' = me0 /\ put me0 w' = W /\ (acc' = true -> acc = true /\ found id).

Lemma entry_at_looks (sectionName : string) (a : nat) (w : world)
    (c : child) (me' : instance) (w' : world) :
  entry_at sectionName a me0 w = (Ok c, me', w') ->
  me' = me0 /\ w' = w
  /\ exists entries,
       section sectionName (childComponents me0) = Some entries
       /\ nth_error entries a = Some c.
Proof.
  unfold entry_at, entries_of. cbv beta iota delta [bind this].
  destruct (section sectionName (childComponents me0)) as [entries|];
    cbv beta iota delta [ret throw]; [|discriminate].
  destruct (nth_error entries a) as [c'|] eqn:Hnth; [|discriminate].
  intros [= <- <- <-]. eauto.
Qed.

Lemma repetition_folding_looks (sectionName : string) (a b : nat) (acc : bool) (w : world)
    (acc' : bool) (me' : instance) (w' : world) :
  put me0 w = W ->
  each_in_repetition_folding handler destroy_child sectionName a b acc me0 w
  = (Ok acc', me', w') ->
  me' = me0 /\ put me0 w' = W
  /\ (acc' = true ->
      acc = true
      /\ forall entries c j id,
           section sectionName (childComponents me0) = Some entries ->
           nth_error entries a = Some c ->
           j < b -> nth_error (repetition c) j = Some id -> found id).
Proof.
  revert acc w. induction b as [|b IH]; intros acc w HW Hrun.
  - cbn in Hrun. injection Hrun as <- <- <-. split; [reflexivity|]. split; [exact HW|].
    intros Hacc. split; [exact Hacc|]. intros; lia.
  - cbn [each_in_repetition_folding] in Hrun.
    unfold bind at 1 in Hrun.
    destruct (entry_at sectionName a me0 w) as [[[c|e] me1] w1] eqn:Hentry; [|discriminate].
    apply entry_at_looks in Hentry as (-> & -> & entries & Hsec & Hc).
    unfold bind at 1 in Hrun.
    destruct (nth_error (repetition c) b) as [id0|] eqn:Hid0; [|discriminate].
    destruct (handler acc id0 sectionName _ me0 w) as [[[acc1|e] me1] w1] eqn:Hvisit;
      [|discriminate].
    destruct (handler_looks _ _ _ _ _ _ _ _ HW Hvisit) as (-> & HW1 & Hfound).
    destruct (IH acc1 w1 HW1 Hrun) as (Hme & HW' & Hrest).
    split; [exact Hme|]. split; [exact HW'|]. intros Hacc.
    destruct (Hrest Hacc) as [Hacc1 Hbelow]. destruct (Hfound Hacc1) as [Hacc0 Hid].
    split; [exact Hacc0|]. intros entries' c' j id Hsec' Hc' Hj Hn.
    rewrite Hsec in Hsec'. injection Hsec' as <-. rewrite Hc in Hc'. injection Hc' as <-.
    destruct (decide (j = b)) as [->|Hne].
    + rewrite Hid0 in Hn. injection Hn as <-. exact Hid.
    + apply (Hbelow entries c j id Hsec Hc); [lia | exact Hn].
Qed.

Lemma section_folding_looks (sectionName : string) (a : nat) (acc : bool) (w : world)
    (acc' : bool) (me' : instance) (w' : world) :
  put me0 w = W ->
  each_in_section_folding handler destroy_child sectionName a acc me0 w
  = (Ok acc', me', w') ->
  me' = me0 /\ put me0 w' = W
  /\ (acc' = true ->
      acc = true
      /\ forall entries i c id,
           section sectionName (childComponents me0) = Some entries ->
           i < a -> nth_error entries i = Some c ->
           visited_in sectionName c id -> found id).
Proof.
  revert acc w. induction a as [|a IH]; intros acc w HW Hrun.
  - cbn in Hrun. injection Hrun as <- <- <-. split; [reflexivity|]. split; [exact HW|].
    intros Hacc. split; [exact Hacc|]. intros; lia.
  - cbn [each_in_section_folding] in Hrun.
    unfold bind at 1 in Hrun.
    destruct (entry_at sectionName a me0 w) as [[[c|e] me1] w1] eqn:Hentry; [|discriminate].
    apply entry_at_looks in Hentry as (-> & -> & entries & Hsec & Hc).
    unfold bind at 1 in Hrun.
    assert (Hstep : exists acc1 w1,
               put me0 w1 = W
               /\ each_in_section_folding handler destroy_child sectionName a acc1 me0 w1
                  = (Ok acc', me', w')
               /\ (acc1 = true ->
                   acc = true /\ forall id, visited_in sectionName c id -> found id)).
    { unfold visited_in. destruct (String.eqb sectionName "default").
      - destruct c as [id0|]; [|discriminate].
        destruct (handler acc id0 sectionName _ me0 w) as [[[acc1|e] me1] w1] eqn:Hvisit;
          [|discriminate].
        destruct (handler_looks _ _ _ _ _ _ _ _ HW Hvisit) as (-> & HW1 & Hfound).
        exists acc1, w1. split; [exact HW1|]. split; [exact Hrun|]. intros Hacc1.
        destruct (Hfound Hacc1) as [Hacc0 Hid]. split; [exact Hacc0|].
        intros id [= <-]. exact Hid.
      - destruct (each_in_repetition_folding handler destroy_child sectionName a
                    (length (repetition c)) acc me0 w) as [[[acc1|e] me1] w1] eqn:Hvisit;
          [|discriminate].
        destruct (repetition_folding_looks _ _ _ _ _ _ _ _ HW Hvisit) as (-> & HW1 & Hfound).
        exists acc1, w1. split; [exact HW1|]. split; [exact Hrun|]. intros Hacc1.
        destruct (Hfound Hacc1) as [Hacc0 Hall]. split; [exact Hacc0|].
        intros id Hin. apply In_nth_error in Hin as [j Hj].
        apply (Hall entries c j id Hsec Hc); [|exact Hj].
        apply nth_error_Some. congruence. }
    destruct Hstep as (acc1 & w1 & HW1 & Hrest & Hhere).
    destruct (IH acc1 w1 HW1 Hrest) as (Hme & HW' & Hbelow).
    split; [exact Hme|]. split; [exact HW'|]. intros Hacc.
    destruct (Hbelow Hacc) as [Hacc1 Hlower]. destruct (Hhere Hacc1) as [Hacc0 Hc0].
    split; [exact Hacc0|]. intros entries' i c' id Hsec' Hi Hc' Hv.
    rewrite Hsec in Hsec'. injection Hsec' as <-.
    destruct (decide (i = a)) as [->|Hne].
    + rewrite Hc in Hc'. injection Hc' as <-. exact (Hc0 id Hv).
    + apply (Hlower entries i c' id Hsec); [lia | exact Hc' | exact Hv].
Qed.

Lemma sections_folding_looks (names : list string) (acc : bool) (w : world)
    (acc' : bool) (me' : instance) (w' : world) :
  put me0 w = W ->
  fold_m (fun s sectionName =>
            me <- this ;;
            match section sectionName (childComponents me) with
            | Some entries =>
                each_in_section_folding handler destroy_child sectionName (length entries) s
            | None => ret s
            end) names acc me0 w = (Ok acc', me', w') ->
  me' = me0 /\ put me0 w' = W
  /\ (acc' = true ->
      acc = true
      /\ forall name entries c id,
           In name names ->
           section name (childComponents me0) = Some entries ->
           In c entries -> visited_in name c id -> found id).
Proof.
  revert acc w. induction names as [|name names IH]; intros acc w HW Hrun.
  - cbn in Hrun. injection Hrun as <- <- <-. split; [reflexivity|]. split; [exact HW|].
    intros Hacc. split; [exact Hacc|]. intros name entries c id [].
  - cbn [fold_m] in Hrun. unfold bind at 1 in Hrun. unfold bind at 1 in Hrun.
    cbv beta iota delta [this] in Hrun.
    assert (Hstep : exists acc1 w1,
               put me0 w1 = W
               /\ fold_m (fun s sectionName =>
                            me <- this ;;
                            match section sectionName (childComponents me) with
                            | Some entries =>
                                each_in_section_folding handler destroy_child sectionName
                                  (length entries) s
                            | None => ret s
                            end) names acc1 me0 w1 = (Ok acc', me', w')
               /\ (acc1 = true ->
                   acc = true
                   /\ forall entries c id,
                        section name (childComponents me0) = Some entries ->
                        In c entries -> visited_in name c id -> found id)).
    { destruct (section name (childComponents me0)) as [entries|] eqn:Hsec.
      - destruct (each_in_section_folding handler destroy_child name (length entries)
                    acc me0 w) as [[[acc1|e] me1] w1] eqn:Hvisit; [|discriminate].
        destruct (section_folding_looks _ _ _ _ _ _ _ HW Hvisit) as (-> & HW1 & Hfound).
        exists acc1, w1. split; [exact HW1|]. split; [exact Hrun|]. intros Hacc1.
        destruct (Hfound Hacc1) as [Hacc0 Hall]. split; [exact Hacc0|].
        intros entries' c id [= <-] Hin Hv. apply In_nth_error in Hin as [i Hi].
        apply (Hall entries i c id Hsec); [|exact Hi | exact Hv].
        apply nth_error_Some. congruence.
      - exists acc, w. split; [exact HW|]. split; [exact Hrun|]. intros Hacc.
        split; [exact Hacc|]. intros entries c id [=]. }
    destruct Hstep as (acc1 & w1 & HW1 & Hrest & Hhere).
    destruct (IH acc1 w1 HW1 Hrest) as (Hme & HW' & Hlater).
    split; [exact Hme|]. split; [exact HW'|]. intros Hacc.
    destruct (Hlater Hacc) as [Hacc1 Hothers]. destruct (Hhere Hacc1) as [Hacc0 Hthis].
    split; [exact Hacc0|]. intros name' entries c id [<-|Hin] Hsec Hc Hv.
    + exact (Hthis entries c id Hsec Hc Hv).
    + exact (Hothers name' entries c id Hin Hsec Hc Hv).
Qed.

End Looking.


(** ** Destruction *)

#[export] Instance retiring_tolerance : Tolerance retiring.
Proof.
  split.
  - intros me. split; [apply tolerance_refl | left; reflexivity].
  - intros a b c [Hg1 Hc1] [Hg2 Hc2]. split; [exact (tolerance_trans _ _ _ Hg1 Hg2)|].
    destruct Hc2 as [Hc2|Hc2]; [rewrite Hc2; exact Hc1 | right; exact Hc2].
Qed.

Lemma destroyed_retiring (c c' : instance) : destroyed c -> retiring c c' -> destroyed c'.
Proof.
  intros [Ho Hc] [[(_ & _ & _ & _ & Hobs) _] Hreg]. split; [exact (Hobs Ho)|].
  destruct Hreg as [Hreg|Hreg]; [rewrite Hreg; exact Hc | exact Hreg].
Qed.

Lemma keyed_put_any (me : instance) (W : world) : keyed W -> keyed (put me W).
Proof.
  intros Hk id x. cbn [instances put set_instances].
  destruct (decide (baseClassInstance me = id)) as [<-|Hne].
  - rewrite lookup_insert_eq. intros [= <-]. reflexivity.
  - rewrite lookup_insert_ne by exact Hne. apply Hk.
Qed.

Section Heedless.

Context (R : world -> world -> Prop) `{!Orderly R}.

Variable handler : nat -> string -> M unit -> M unit.
Variable destroy_child : nat -> M unit.

Hypothesis handler_relates :
  forall id sectionName removeChild, relates R (handler id sectionName removeChild).

Lemma relates_each_in_repetition_heedless (sectionName : string) (a b : nat) :
  relates R (each_in_repetition handler destroy_child sectionName a b).
Proof.
  induction b as [|b IH]; cbn [each_in_repetition].
  - apply relates_ret. exact _.
  - apply relates_bind; [exact _ | apply relates_entry_at_any; exact _|]. intros c.
    apply relates_bind; [exact _ | | intros _; apply IH].
    destruct (nth_error (repetition c) b); [apply handler_relates | apply relates_throw].
    exact _.
Qed.

Lemma relates_each_in_section_heedless (sectionName : string) (a : nat) :
  relates R (each_in_section handler destroy_child sectionName a).
Proof.
  induction a as [|a IH]; cbn [each_in_section].
  - apply relates_ret. exact _.
  - apply relates_bind; [exact _ | apply relates_entry_at_any; exact _|]. intros c.
    apply relates_bind; [exact _ | | intros _; apply IH].
    destruct (String.eqb sectionName "default").
    + destruct c; [apply handler_relates | apply relates_throw; exact _].
    + apply relates_each_in_repetition_heedless.
Qed.

Lemma relates_section_body_heedless (sectionName : string) :
  relates R (me <- this ;;
             match section sectionName (childComponents me) with
             | Some entries =>
                 each_in_section handler destroy_child sectionName (length entries)
             | None => ret tt
             end).
Proof.
  apply relates_bind; [exact _ | apply relates_this; exact _|]. intros me.
  destruct (section sectionName (childComponents me));
    [apply relates_each_in_section_heedless | apply relates_ret; exact _].
Qed.

Lemma relates_eachChildComponent_heedless :
  relates R (eachChildComponent handler destroy_child).
Proof.
  unfold eachChildComponent.
  apply relates_bind; [exact _ | apply relates_this; exact _|]. intros me.
  apply relates_for_each; [exact _|]. intros sectionName.
  apply relates_section_body_heedless.
Qed.

End Heedless.

(** What follows the visit of the children in [destroy()]. *)
Lemma retiring_destroy_self :
  relates (confined retiring schedule)
    (update (set_childComponents [("default", [])]) ;;;
     update (set_observed false) ;;;
     me <- this ;;
     match jqDom me with
     | Dom.JNull => ret tt
     | Dom.JQuery _ => log (RemoveRoot (baseClassInstance me))
     | _ => throw TypeError
     end).
Proof.
  apply relates_bind; [exact _ | | intros _].
  { apply relates_confined_update; [exact _ | exact _|].
    intros i. split; [reflexivity|]. split; [reflexivity|].
    split; [| right; reflexivity].
    unfold gated, living. cbn. repeat split; auto. }
  apply relates_bind; [exact _ | | intros _].
  { apply relates_confined_update; [exact _ | exact _|].
    intros i. split; [reflexivity|]. split; [reflexivity|].
    split; [| left; reflexivity].
    unfold gated, living. cbn. repeat split; auto. }
  apply relates_bind; [exact _ | apply relates_this; exact _|]. intros me.
  destruct (jqDom me);
    first [ apply relates_ret; exact _
          | apply relates_throw; exact _
          | apply relates_confined_log;
            [exact _ | exact _ | intros ?; discriminate | intros ?; discriminate] ].
Qed.

Lemma retiring_destroy_at (depth : nat) :
  relates (confined retiring schedule) (destroy_at depth).
Proof.
  induction depth as [|d IH]; cbn [destroy_at]; [apply relates_throw; exact _|].
  cbv zeta. apply relates_bind; [exact _ | | intros _; apply retiring_destroy_self].
  apply relates_eachChildComponent_heedless; [exact _|].
  intros id _ _. apply relates_call_other; [exact _ | exact IH].
Qed.

Lemma destroy_self_ok (me : instance) (w : world) (me' : instance) (w' : world) :
  (update (set_childComponents [("default", [])]) ;;;
       update (set_observed false) ;;;
       me <- this ;;
       match jqDom me with
       | Dom.JNull => ret tt
       | Dom.JQuery _ => log (RemoveRoot (baseClassInstance me))
       | _ => throw TypeError
       end) me w = (Ok tt, me', w') ->
  me' = set_observed false (set_childComponents [("default", [])] me).
Proof.
  cbv beta iota delta [bind update this].
  cbn [jqDom set_observed set_childComponents].
  destruct (jqDom me); cbv beta iota delta [ret throw log update_world];
    intros [= <- <-] || discriminate; reflexivity.
Qed.

(** A method that is confined to [retiring] leaves the destroyed components
    destroyed, and the world keyed. *)
Lemma destroyed_kept {A} (m : M A) (me : instance) (w : world)
    (r : res A) (me' : instance) (w' : world) (id : nat) :
  relates (confined retiring schedule) m ->
  keyed (put me w) ->
  m me w = (r, me', w') ->
  keyed (put me' w')
  /\ ((exists c, instances (put me w) !! id = Some c /\ destroyed c) ->
      exists c', instances (put me' w') !! id = Some c' /\ destroyed c').
Proof.
  intros Hm Hk Hrun. destruct (Hm _ _ _ _ _ Hk Hrun) as [_ (Hs & _ & Hout)].
  split; [exact (proj1 Hs Hk)|].
  intros (c & Hc & Hd). destruct (Hout _ _ Hc) as (c' & Hc' & Hret).
  exists c'. split; [exact Hc' | exact (destroyed_retiring _ _ Hd Hret)].
Qed.

Lemma entry_at_ok (sectionName : string) (a : nat) (me : instance) (w : world)
    (c : child) (me' : instance) (w' : world) :
  entry_at sectionName a me w = (Ok c, me', w') ->
  me' = me /\ w' = w
  /\ exists entries,
       section sectionName (childComponents me) = Some entries
       /\ nth_error entries a = Some c.
Proof.
  unfold entry_at, entries_of. cbv beta iota delta [bind this].
  destruct (section sectionName (childComponents me)) as [entries|];
    cbv beta iota delta [ret throw]; [|discriminate].
  destruct (nth_error entries a) as [c'|] eqn:Hnth; [|discriminate].
  intros [= <- <- <-]. eauto.
Qed.

(** The call of [destroy()] on a child, seen from the parent. *)
Lemma destroy_child_ok (d : nat) (id : nat) (me : instance) (w : world)
    (me' : instance) (w' : world) :
  keyed (put me w) ->
  call_other id (destroy_at d) me w = (Ok tt, me', w') ->
  keyed (put me' w')
  /\ retiring me me'
  /\ exists c, instances (put me' w') !! id = Some c /\ destroyed c.
Proof.
  intros Hk Hrun. unfold call_other, call in Hrun.
  destruct (instances (put me w) !! id) as [ci|] eqn:Hci; [|discriminate].
  destruct (destroy_at d ci (put me w)) as [[r ci'] wi'] eqn:Hd.
  injection Hrun as -> <- <-.
  pose proof (Hk _ _ Hci) as Hid.
  assert (Hput : put ci (put me w) = put me w) by (apply put_id; rewrite Hid; exact Hci).
  assert (Hk' : keyed (put ci (put me w))) by (rewrite Hput; exact Hk).
  destruct (retiring_destroy_at d _ _ _ _ _ Hk' Hd) as [Hid' (Hs & _ & Hout)].
  rewrite Hput in Hs, Hout.
  pose proof (proj1 Hs Hk) as Hk1.
  destruct (Hout _ _ (put_lookup me w)) as (me1 & Hme1 & Hret).
  pose proof Hme1 as Hme1c. cbn [instances put set_instances] in Hme1c.
  rewrite Hme1c. cbn [default from_option Datatypes.id].
  assert (Hsame : put me1 (put ci' wi') = put ci' wi').
  { apply put_id. rewrite (Hk1 _ _ Hme1). exact Hme1. }
  rewrite Hsame. split; [exact Hk1|]. split; [exact Hret|].
  exists ci'. split; [rewrite <- Hid, <- Hid'; apply put_lookup|].
  destruct d as [|d]; [discriminate|]. cbn [destroy_at] in Hd. cbv zeta in Hd.
  apply bind_ok in Hd as (_ & me2 & w2 & _ & Hself).
  rewrite (destroy_self_ok _ _ _ _ Hself). split; reflexivity.
Qed.

Section Destroyed.

Variable d : nat.

Let destroy_child := fun id => call_other id (destroy_at d).
Let handler := fun (id : nat) (_ : string) (_ : M unit) => destroy_child id.

Lemma handler_retiring (id : nat) (sectionName : string) (removeChild : M unit) :
  relates (confined retiring schedule) (handler id sectionName removeChild).
Proof. apply relates_call_other; [exact _ | apply retiring_destroy_at]. Qed.

(** The loop over the default section destroys the children it is to
    visit, or throws. *)
Lemma default_section_destroyed (entries : list child) (others : list (string * list child))
    (a : nat) (me : instance) (w : world) (me' : instance) (w' : world) :
  keyed (put me w) ->
  childComponents me = ("default", entries) :: others ->
  each_in_section handler destroy_child "default" a me w = (Ok tt, me', w') ->
  forall i id,
    i < a -> nth_error entries i = Some (ChildComponent id) ->
    exists c, instances (put me' w') !! id = Some c /\ destroyed c.
Proof.
  revert me w. induction a as [|a IH]; intros me w Hk Hreg Hrun i id Hi Hnth; [lia|].
  cbn [each_in_section] in Hrun.
  apply bind_ok in Hrun as (c & me0 & w0 & Hentry & Hrun).
  apply entry_at_ok in Hentry as (-> & -> & entries' & Hsec & Hc).
  rewrite Hreg in Hsec. cbn in Hsec. injection Hsec as <-.
  apply bind_ok in Hrun as ([] & me1 & w1 & Hvisit & Hrest).
  cbn [String.eqb Ascii.eqb Bool.eqb] in Hvisit.
  destruct c as [id0|]; [|discriminate].
  destruct (destroy_child_ok d id0 me w me1 w1 Hk Hvisit) as (Hk1 & Hret & Hchild).
  destruct (destroyed_kept _ me1 w1 _ me' w' id0
              (relates_each_in_section_heedless _ handler destroy_child
                 handler_retiring "default" a) Hk1 Hrest) as [_ Hkept].
  destruct (decide (i = a)) as [->|Hne].
  - rewrite Hc in Hnth. injection Hnth as <-. exact (Hkept Hchild).
  - destruct Hret as [_ [Hsame|Hreset]].
    + apply (IH me1 w1 Hk1 (eq_trans Hsame Hreg) Hrest i id); [lia | exact Hnth].
    + destruct a as [|a']; [lia|]. cbn [each_in_section] in Hrest.
      apply bind_ok in Hrest as (c' & me2 & w2 & Hentry & _).
      apply entry_at_ok in Hentry as (_ & _ & entries' & Hsec & Hc').
      rewrite Hreset in Hsec. cbn in Hsec. injection Hsec as <-.
      destruct a'; discriminate.
Qed.

End Destroyed.

Section Destroy.

Context `{Collaborators}.

(** X26: A [destroy()] that returns leaves the component without observation of
    its data and with an empty registry, and has asked the scheduler for
    nothing; a write to the data of the component afterwards lands in the
    data object and nothing else happens. *)
Theorem destroy_stops_observing (me : instance) (w : world) (me' : instance) (w' : world) :
  keyed (put me w) ->
  destroy me w = (Ok tt, me', w') ->
  observed me' = false
  /\ childComponents me' = [("default", [])]
  /\ schedule w' = schedule w
  /\ forall name v w2,
       set_data name v me' w2 = (Ok tt, me', set_property (_data me) name v w2).
Proof.
  intros Hk Hrun. unfold destroy in Hrun.
  destruct (retiring_destroy_at _ _ _ _ _ _ Hk Hrun)
    as [Hid (_ & Hview & Hout)].
  rewrite !outlook_put in Hview.
  destruct (Hout _ _ (put_lookup me w)) as (x & Hx & [[(_ & Hdata & _) _] _]).
  rewrite <- Hid, put_lookup in Hx. injection Hx as <-.
  destruct call_stack as [|d]; [discriminate|]. cbn [destroy_at] in Hrun. cbv zeta in Hrun.
  apply bind_ok in Hrun as (_ & me1 & w1 & _ & Hself).
  pose proof (destroy_self_ok _ _ _ _ Hself) as Hme'.
  assert (Hobs : observed me' = false) by (rewrite Hme'; reflexivity).
  split; [exact Hobs|]. split; [rewrite Hme'; reflexivity|]. split; [exact Hview|].
  intros name v w2. unfold set_data, set_property.
  cbv beta iota delta [bind this the_world update_world when]. rewrite Hobs, Hdata.
  reflexivity.
Qed.

(** X27: A [destroy()] that returns has destroyed the children registered
    outside the repeatable sections: each of them no longer observes its
    data and has an empty registry. *)
Theorem destroy_destroys_children (me : instance) (w : world)
    (entries : list child) (others : list (string * list child))
    (me' : instance) (w' : world) :
  keyed (put me w) ->
  childComponents me = ("default", entries) :: others ->
  destroy me w = (Ok tt, me', w') ->
  forall id,
    In (ChildComponent id) entries ->
    exists c, instances (put me' w') !! id = Some c
              /\ observed c = false /\ childComponents c = [("default", [])].
Proof.
  intros Hk Hreg Hrun id Hin. unfold destroy in Hrun.
  destruct call_stack as [|d]; [discriminate|]. cbn [destroy_at] in Hrun. cbv zeta in Hrun.
  apply bind_ok in Hrun as ([] & me1 & w1 & Hvisit & Hself).
  unfold eachChildComponent in Hvisit. cbv beta iota delta [bind this] in Hvisit.
  rewrite Hreg in Hvisit. cbn [map fst for_each] in Hvisit.
  apply bind_ok in Hvisit as ([] & me2 & w2 & Hdefault & Hothers).
  cbv beta iota delta [bind this] in Hdefault. rewrite Hreg in Hdefault.
  cbn [section String.eqb Ascii.eqb Bool.eqb] in Hdefault.
  apply In_nth_error in Hin as [i Hnth].
  assert (Hi : i < length entries) by (apply nth_error_Some; congruence).
  pose proof (default_section_destroyed d entries others (length entries)
                me w me2 w2 Hk Hreg Hdefault i id Hi Hnth) as Hchild.
  destruct (Hk _ _ (put_lookup me w)) as [].
  destruct (destroyed_kept _ me w _ me2 w2 id
              (relates_each_in_section_heedless _ _ _ (handler_retiring d)
                 "default" (length entries)) Hk Hdefault) as [Hk2 _].
  destruct (destroyed_kept _ me2 w2 _ me1 w1 id
              (relates_for_each _ (map fst others) _
                 (relates_section_body_heedless _ _ _ (handler_retiring d)))
              Hk2 Hothers) as [Hk1 Hkept1].
  destruct (destroyed_kept _ me1 w1 _ me' w' id retiring_destroy_self Hk1 Hself)
    as [_ Hkept].
  exact (Hkept (Hkept1 Hchild)).
Qed.

End Destroy.

Lemma destroy_stops_observing_witness :
  observed (snd (fst (destroy (H := Sample.collaborators)
                        Sample.quiescent Sample.rendered_world))) = false.
Proof.
  destruct (destroy (H := Sample.collaborators) Sample.quiescent Sample.rendered_world)
    as [[r me'] w'] eqn:Hrun.
  assert (Hr : r = Ok tt) by (apply (f_equal (fun x => fst (fst x))) in Hrun; exact (eq_sym Hrun)).
  subst r.
  destruct (destroy_stops_observing (H := Sample.collaborators)
              Sample.quiescent Sample.rendered_world me' w'
              (keyed_single Sample.quiescent Sample.rendered_world eq_refl) Hrun)
    as [Hobs _].
  exact Hobs.
Defined.

Lemma destroy_destroys_children_witness :
  exists c,
    instances
      (put (snd (fst (destroy (H := Sample.collaborators)
                        (set_childComponents [("default", [ChildComponent 1])]
                           Sample.quiescent)
                        (put (Sample.blank Sample.plain 1) Sample.rendered_world))))
           (snd (destroy (H := Sample.collaborators)
                   (set_childComponents [("default", [ChildComponent 1])]
                      Sample.quiescent)
                   (put (Sample.blank Sample.plain 1) Sample.rendered_world))))
    !! 1 = Some c
    /\ observed c = false /\ childComponents c = [("default", [])].
Proof.
  destruct (destroy (H := Sample.collaborators)
              (set_childComponents [("default", [ChildComponent 1])] Sample.quiescent)
              (put (Sample.blank Sample.plain 1) Sample.rendered_world))
    as [[r me'] w'] eqn:Hrun.
  assert (Hr : r = Ok tt) by (apply (f_equal (fun x => fst (fst x))) in Hrun; exact (eq_sym Hrun)).
  subst r.
  apply (destroy_destroys_children (H := Sample.collaborators)
           (set_childComponents [("default", [ChildComponent 1])] Sample.quiescent)
           (put (Sample.blank Sample.plain 1) Sample.rendered_world)
           [ChildComponent 1] [] me' w'
           (keyed_put_any _ _
              (keyed_single (Sample.blank Sample.plain 1) Sample.rendered_world eq_refl))
           eq_refl Hrun 1).
  left. reflexivity.
Defined.


(** ** Children without a place in the markup *)

Lemma fold_m_skips {A B} (f : B -> A -> M B) (l : list A) (b : B)
    (me : instance) (w : world) :
  (forall x, In x l -> f b x me w = (Ok b, me, w)) ->
  fold_m f l b me w = (Ok b, me, w).
Proof.
  induction l as [|x l IH]; intros Hskip; cbn [fold_m]; [reflexivity|].
  unfold bind. rewrite (Hskip x (or_introl eq_refl)).
  apply IH. intros y Hy. apply Hskip. right. exact Hy.
Qed.

Lemma fold_m_skips_app {A B} (f : B -> A -> M B) (l1 l2 : list A) (b : B)
    (me : instance) (w : world) :
  (forall x, In x l1 -> f b x me w = (Ok b, me, w)) ->
  fold_m f (l1 ++ l2) b me w = fold_m f l2 b me w.
Proof.
  induction l1 as [|x l1 IH]; intros Hskip; cbn [fold_m app]; [reflexivity|].
  unfold bind at 1. rewrite (Hskip x (or_introl eq_refl)).
  apply IH. intros y Hy. apply Hskip. right. exact Hy.
Qed.

Section Targets.

Context `{Collaborators}.

Variable child_render : nat -> M render_result.

(** The elements of the markup a child with the tag [tag] could go to. *)
Let targets (t : list Dom.node) (tag : option string) : list Dom.path :=
  match tag with
  | Some tg => Dom.find (sel_matches tg) t
  | None => []
  end.

Lemma tagName_of_ok (id : nat) (me : instance) (w : world) (c : instance) :
  instances (put me w) !! id = Some c ->
  tagName_of id me w = (Ok (tagName (comp c)), me, w).
Proof.
  intros Hc. unfold tagName_of. cbv beta iota delta [bind this the_world].
  rewrite Hc. reflexivity.
Qed.

Lemma insert_section_skips (root : nat) (inserted : inserted_list)
    (entry : string * list child) (me : instance) (w : world) :
  (fst entry <> "default" ->
   Dom.find (sel_matches (fst entry)) (tree_of (jqs w) root) = []
   /\ Dom.find (sel_matches (section_fallback (fst entry))) (tree_of (jqs w) root) = []) ->
  insert_section child_render root inserted entry me w = (Ok inserted, me, w).
Proof.
  intros Hnone. unfold insert_section. cbv zeta.
  destruct (String.eqb_spec (fst entry) "default") as [Hd|Hd]; [reflexivity|].
  destruct (Hnone Hd) as [Hdirect Hfallback].
  unfold tree. cbv beta iota delta [bind the_world ret].
  rewrite Hdirect. cbn [length Nat.eqb]. rewrite Hfallback. reflexivity.
Qed.

Lemma insert_default_skips (root : nat) (inserted : inserted_list) (id : nat)
    (me : instance) (w : world) (c : instance) :
  instances (put me w) !! id = Some c ->
  targets (tree_of (jqs w) root) (tagName (comp c)) = [] ->
  insert_default child_render root inserted (ChildComponent id) me w = (Ok inserted, me, w).
Proof.
  intros Hc Hnone. unfold insert_default. unfold bind at 1.
  rewrite (tagName_of_ok id me w c Hc). unfold tree.
  cbv beta iota delta [bind the_world ret]. fold (targets (tree_of (jqs w) root) (tagName (comp c))).
  rewrite Hnone. reflexivity.
Qed.

Lemma insert_default_ambiguous (root : nat) (inserted : inserted_list) (id : nat)
    (me : instance) (w : world) (c : instance) :
  instances (put me w) !! id = Some c ->
  1 < length (targets (tree_of (jqs w) root) (tagName (comp c))) ->
  insert_default child_render root inserted (ChildComponent id) me w
  = (Throw AmbiguousTargetError, me, w).
Proof.
  intros Hc Hmany. unfold insert_default. unfold bind at 1.
  rewrite (tagName_of_ok id me w c Hc). unfold tree.
  cbv beta iota delta [bind the_world ret]. fold (targets (tree_of (jqs w) root) (tagName (comp c))).
  destruct (targets (tree_of (jqs w) root) (tagName (comp c))) as [|p [|q l]];
    cbn [length] in Hmany; try lia. reflexivity.
Qed.

Lemma insert_children_with_skips (root : nat) (entries : list child)
    (me : instance) (w : world) :
  (forall name l,
     In (name, l) (childComponents me) -> name <> "default" ->
     Dom.find (sel_matches name) (tree_of (jqs w) root) = []
     /\ Dom.find (sel_matches (section_fallback name)) (tree_of (jqs w) root) = []) ->
  section "default" (childComponents me) = Some entries ->
  insert_children_with child_render root me w
  = fold_m (insert_default child_render root) (rev entries) [] me w.
Proof.
  intros Hsections Hdefault. unfold insert_children_with.
  cbv beta iota delta [bind this].
  rewrite (fold_m_skips (insert_section child_render root) (childComponents me) [] me w).
  - rewrite Hdefault. reflexivity.
  - intros [name l] Hin. apply insert_section_skips. cbn [fst]. intros Hd.
    exact (Hsections name l Hin Hd).
Qed.

End Targets.

Section Unplaced.

Context `{Collaborators}.

(** X28: Children that have no place in the markup are not rendered.  When no
    element matches the name of a repeatable section that is registered (nor
    its fallback selector) and no element matches the tag of a child of the
    default section, [_insertChildren] inserts nothing, renders no child and
    leaves the markup as it is. *)
Theorem insertChildren_without_targets (root : nat) (entries : list child)
    (me : instance) (w : world) :
  (forall name l,
     In (name, l) (childComponents me) -> name <> "default" ->
     Dom.find (sel_matches name) (tree_of (jqs w) root) = []
     /\ Dom.find (sel_matches (section_fallback name)) (tree_of (jqs w) root) = []) ->
  section "default" (childComponents me) = Some entries ->
  (forall c, In c entries ->
     exists id ci,
       c = ChildComponent id /\ instances (put me w) !! id = Some ci
       /\ match tagName (comp ci) with
          | Some tg => Dom.find (sel_matches tg) (tree_of (jqs w) root) = []
          | None => True
          end) ->
  _insertChildren root me w = (Ok [], me, w).
Proof.
  intros Hsections Hdefault Hchildren. unfold _insertChildren.
  rewrite (insert_children_with_skips _ root entries me w Hsections Hdefault).
  apply fold_m_skips. intros c Hc. apply In_rev in Hc.
  destruct (Hchildren c Hc) as (id & ci & -> & Hci & Htag).
  apply (insert_default_skips _ root [] id me w ci Hci).
  destruct (tagName (comp ci)); [exact Htag | reflexivity].
Qed.

(** X29: A child of the default section whose tag matches more than one element
    of the markup stops [_insertChildren] with an error before the child is
    rendered, when the children registered after it (which are visited
    before it) have no place in the markup. *)
Theorem insertChildren_ambiguous_target (root : nat)
    (before after : list child) (id : nat) (ci : instance) (tg : string)
    (me : instance) (w : world) :
  (forall name l,
     In (name, l) (childComponents me) -> name <> "default" ->
     Dom.find (sel_matches name) (tree_of (jqs w) root) = []
     /\ Dom.find (sel_matches (section_fallback name)) (tree_of (jqs w) root) = []) ->
  section "default" (childComponents me) = Some (before ++ ChildComponent id :: after) ->
  (forall c, In c after ->
     exists id' ci',
       c = ChildComponent id' /\ instances (put me w) !! id' = Some ci'
       /\ match tagName (comp ci') with
          | Some tg' => Dom.find (sel_matches tg') (tree_of (jqs w) root) = []
          | None => True
          end) ->
  instances (put me w) !! id = Some ci ->
  tagName (comp ci) = Some tg ->
  1 < length (Dom.find (sel_matches tg) (tree_of (jqs w) root)) ->
  _insertChildren root me w = (Throw AmbiguousTargetError, me, w).
Proof.
  intros Hsections Hdefault Hafter Hci Htag Hmany. unfold _insertChildren.
  rewrite (insert_children_with_skips _ root _ me w Hsections Hdefault).
  rewrite rev_app_distr. cbn [rev]. rewrite <- !app_assoc. cbn [app].
  rewrite fold_m_skips_app.
  - cbn [fold_m]. unfold bind at 1.
    rewrite (insert_default_ambiguous _ root [] id me w ci Hci); [reflexivity|].
    rewrite Htag. exact Hmany.
  - intros c Hc. apply In_rev in Hc.
    destruct (Hafter c Hc) as (id' & ci' & -> & Hci' & Htag').
    apply (insert_default_skips _ root [] id' me w ci' Hci').
    destruct (tagName (comp ci')); [exact Htag' | reflexivity].
Qed.

End Unplaced.

Lemma insertChildren_without_targets_witness :
  _insertChildren (H := Sample.collaborators) 0
    (set_childComponents [("default", [ChildComponent 1])] Sample.quiescent)
    (put (Sample.blank Sample.plain 1) Sample.rendered_world)
  = (Ok [],
     set_childComponents [("default", [ChildComponent 1])] Sample.quiescent,
     put (Sample.blank Sample.plain 1) Sample.rendered_world).
Proof.
  apply (insertChildren_without_targets (H := Sample.collaborators) 0 [ChildComponent 1]).
  - intros name l [Hin|[]] Hname. injection Hin as <- _. destruct (Hname eq_refl).
  - reflexivity.
  - intros c [<-|[]]. exists 1, (Sample.blank Sample.plain 1).
    split; [reflexivity|]. split; reflexivity.
Defined.

Lemma insertChildren_ambiguous_target_witness :
  _insertChildren (H := Sample.collaborators) 0
    (set_childComponents [("default", [ChildComponent 1])] Sample.quiescent)
    (set_jqs {| trees := {[0 := [Dom.Elem "div" []
                                   [Dom.Elem "plain" [] []; Dom.Elem "plain" [] []]]]};
                next_tree := 1 |}
       (put (Sample.blank Sample.plain 1) Sample.caller_world))
  = (Throw AmbiguousTargetError,
     set_childComponents [("default", [ChildComponent 1])] Sample.quiescent,
     set_jqs {| trees := {[0 := [Dom.Elem "div" []
                                   [Dom.Elem "plain" [] []; Dom.Elem "plain" [] []]]]};
                next_tree := 1 |}
       (put (Sample.blank Sample.plain 1) Sample.caller_world)).
Proof.
  apply (insertChildren_ambiguous_target (H := Sample.collaborators) 0
           [] [] 1 (Sample.blank Sample.plain 1) "plain").
  - intros name l [Hin|[]] Hname. injection Hin as <- _. destruct (Hname eq_refl).
  - reflexivity.
  - intros c [].
  - reflexivity.
  - reflexivity.
  - vm_compute. lia.
Defined.


(** ** The sweep of orphaned children *)



Lemma section_In (name : string) (registry : list (string * list child))
    (entries : list child) :
  section name registry = Some entries -> In name (map fst registry).
Proof.
  induction registry as [|[k l] registry IH]; [discriminate|]. cbn [section map fst].
  destruct (String.eqb_spec name k) as [->|Hk]; [left; reflexivity|].
  intros Hs. right. exact (IH Hs).
Qed.






#[export] Instance unmoved_orderly : Orderly unmoved.
Proof.
  split.
  - intros a. split; [apply steady_refl | split; reflexivity].
  - intros a b c (Hs1 & Hj1 & Hq1) (Hs2 & Hj2 & Hq2).
    split; [exact (steady_trans _ _ _ Hs1 Hs2)|].
    split; [congruence | intros id; rewrite Hq2; apply Hq1].
  - intros a b [Hs _]. exact Hs.
Qed.





Section Swept.

Context `{Collaborators}.

(** The world the sweep starts in, and the component that is swept. *)
Variable W0 : world.
Variable p : nat.

Let destroy_child := fun id => call_other id destroy.

Let handler : nat -> string -> M unit -> M unit :=
  fun id _ removeChild =>
    me <- this ;;
    w <- the_world ;;
    match instances (put me w) !! id with
    | None => throw TypeError
    | Some childComponent =>
        match jqDom childComponent with
        | Dom.JNull => removeChild
        | Dom.JUndefined => throw TypeError
        | elmt =>
            match jqDom me with
            | Dom.JQuery _ =>
                if root_contains (jqs w) (jqDom me) elmt then ret tt
                else removeChild
            | _ => throw TypeError
            end
        end
    end.







Section Repeated.

Variable name : string.
Hypothesis repeatable : String.eqb name "default" = false.




End Repeated.





End Swept.

Section Sweep.

Context `{Collaborators}.


End Sweep.



(** ** Readiness of the components below *)

Section Subtree.

Context `{Collaborators}.

Lemma ready_handler_looks (d : nat) (me0 : instance) (W : world) :
  keyed W ->
  forall acc id (sectionName : string) (removeChild : M unit) w acc' me' w',
    put me0 w = W ->
    (ready <- call_other id (isReady_at d) ;;
     ret (if ready then acc else false)) me0 w = (Ok acc', me', w') ->
    me' = me0 /\ put me0 w' = W
    /\ (acc' = true ->
        acc = true
        /\ exists ci ci' wi',
             instances W !! id = Some ci
             /\ isReady_at d ci W = (Ok true, ci', wi')).
Proof.
  intros Hk acc id _ _ w acc' me' w' HW Hrun.
  apply bind_ok in Hrun as (ready & me1 & w1 & Hcall & Hret).
  cbv beta iota delta [ret] in Hret. injection Hret as <- <- <-.
  assert (Hk' : keyed (put me0 w)) by (rewrite HW; exact Hk).
  destruct (relates_call_other eq id (isReady_at d) (relates_isReady_at d)
              _ _ _ _ _ Hk' Hcall) as [Hid Hput].
  pose proof (unchanged_instance me0 me1 w w1 Hid Hput) as ->.
  split; [reflexivity|]. split; [rewrite <- Hput; exact HW|].
  intros Hacc. unfold call_other, call in Hcall. rewrite HW in Hcall.
  destruct (instances W !! id) as [ci|] eqn:Hci; [|discriminate].
  destruct (isReady_at d ci W) as [[r ci'] wi'] eqn:Hr.
  injection Hcall as -> _ _.
  destruct ready; [|discriminate]. split; [exact Hacc|].
  exists ci, ci', wi'. split; [reflexivity | exact Hr].
Qed.

Lemma isReady_at_subtree (d : nat) (me : instance) (w : world)
    (me' : instance) (w' : world) :
  keyed (put me w) ->
  isReady_at d me w = (Ok true, me', w') ->
  forall id,
    below (put me w) (baseClassInstance me) id ->
    exists ci, instances (put me w) !! id = Some ci /\ idle ci.
Proof.
  revert me w me' w'. induction d as [|d IH]; intros me w me' w' Hk Hrun; [discriminate|].
  cbn [isReady_at] in Hrun.
  apply bind_ok in Hrun as (acc & me1 & w1 & Hfold & Hret).
  cbv beta iota delta [bind this ret] in Hret. injection Hret as Hb _ _.
  apply andb_prop in Hb as [Hb _]. apply andb_prop in Hb as [Hb _].
  apply andb_prop in Hb as [Hacc _].
  unfold eachChildComponent_folding in Hfold. unfold bind at 1 in Hfold.
  cbv beta iota delta [this] in Hfold.
  destruct (sections_folding_looks _ _ me (put me w)
              (fun id => exists ci ci' wi',
                 instances (put me w) !! id = Some ci
                 /\ isReady_at d ci (put me w) = (Ok true, ci', wi'))
              (ready_handler_looks d me (put me w) Hk)
              _ _ _ _ _ _ eq_refl Hfold) as (_ & _ & Hall).
  destruct (Hall Hacc) as [_ Hfound].
  assert (Hchild : forall id,
             child_of (put me w) (baseClassInstance me) id ->
             exists ci ci' wi',
               instances (put me w) !! id = Some ci
               /\ isReady_at d ci (put me w) = (Ok true, ci', wi')).
  { intros id (x & name & entries & c & Hx & Hsec & Hin & Hv).
    rewrite put_lookup in Hx. injection Hx as <-.
    exact (Hfound name entries c id (section_In _ _ _ Hsec) Hsec Hin Hv). }
  assert (Hsame : forall id ci,
             instances (put me w) !! id = Some ci ->
             baseClassInstance ci = id /\ put ci (put me w) = put me w).
  { intros id ci Hci. pose proof (Hk _ _ Hci) as Hid. split; [exact Hid|].
    apply put_id. rewrite Hid. exact Hci. }
  intros id Hbelow. inversion Hbelow as [p i Hc | p mid i Hc Hdeeper]; subst.
  - destruct (Hchild id Hc) as (ci & ci' & wi' & Hci & Hr).
    destruct (Hsame id ci Hci) as [_ Hput].
    assert (Hki : keyed (put ci (put me w))) by (rewrite Hput; exact Hk).
    destruct (isReady_at_own d ci (put me w) true ci' wi' Hki Hr) as (_ & _ & Hown).
    exists ci. split; [exact Hci | exact (Hown eq_refl)].
  - destruct (Hchild mid Hc) as (cm & cm' & wm' & Hcm & Hr).
    destruct (Hsame mid cm Hcm) as [Hid Hput].
    assert (Hkm : keyed (put cm (put me w))) by (rewrite Hput; exact Hk).
    specialize (IH cm (put me w) cm' wm' Hkm Hr id).
    rewrite Hput, Hid in IH. exact (IH Hdeeper).
Qed.

(** X25: When [isReady()] answers [true], nothing is going on in the component
    and nothing is going on in any component registered below it, however
    deep: none has a refresh listed, a group counted or an initialization
    under way. *)
Theorem isReady_subtree_idle (me : instance) (w : world) (me' : instance) (w' : world) :
  keyed (put me w) ->
  isReady me w = (Ok true, me', w') ->
  idle me
  /\ forall id,
       below (put me w) (baseClassInstance me) id ->
       exists ci, instances (put me w) !! id = Some ci /\ idle ci.
Proof.
  intros Hk Hrun. split.
  - destruct (isReady_at_own _ _ _ _ _ _ Hk Hrun) as (_ & _ & Hown). exact (Hown eq_refl).
  - exact (isReady_at_subtree _ _ _ _ _ Hk Hrun).
Qed.

End Subtree.

Lemma isReady_subtree_idle_witness :
  exists ci,
    instances
      (put (set_childComponents [("default", [ChildComponent 1])] Sample.ready)
         (put (Sample.blank Sample.plain 1) Sample.caller_world)) !! 1 = Some ci
    /\ idle ci.
Proof.
  destruct (isReady (H := Sample.collaborators)
              (set_childComponents [("default", [ChildComponent 1])] Sample.ready)
              (put (Sample.blank Sample.plain 1) Sample.caller_world))
    as [[r me'] w'] eqn:Hrun.
  assert (Hr : r = Ok true)
    by (apply (f_equal (fun x => fst (fst x))) in Hrun; exact (eq_sym Hrun)).
  subst r.
  destruct (isReady_subtree_idle (H := Sample.collaborators)
              (set_childComponents [("default", [ChildComponent 1])] Sample.ready)
              (put (Sample.blank Sample.plain 1) Sample.caller_world) me' w'
              (keyed_put_any _ _
                 (keyed_single (Sample.blank Sample.plain 1) Sample.caller_world eq_refl))
              Hrun) as [_ Hbelow].
  apply (Hbelow 1). apply below_child.
  exists (set_childComponents [("default", [ChildComponent 1])] Sample.ready),
         "default", [ChildComponent 1], (ChildComponent 1).
  split; [reflexivity|]. split; [reflexivity|]. split; [left; reflexivity | reflexivity].
Defined.
